(** * Width-parameterised integer runtime of the simulator
    (include/verilated_funcs.h)

    A shallow embedding of the arithmetic, shift, select, insert, replicate
    and stream primitives, followed by the properties the specification
    states about them.

    Conventions.
    - [IData] and [EData] values are integers in [0, 2^32), [QData] values
      integers in [0, 2^64).  Every C expression is written with the
      unbounded operators of [Z] and the conversion back to the machine type
      is explicit ([IData e], [QData e], [int32_t e], ...), so wrap-around is
      visible in the definitions.
    - [int] arguments (bit widths, bit positions, word counts) are plain
      integers; they stay far below 2^31 in every use.
    - A wide value ([WDataInP], [WDataOutP]) is a finite map from word index
      to 32-bit word.  The keys are the words that belong to the caller's
      buffer; a store through an index that is not a key adds the key, which
      is how a write past the end of the buffer shows up. *)

From Stdlib Require Import ZArith Lia Bool List.
From stdpp Require Import base gmap.
From coqutil Require Import Z.bitblast.

Local Open Scope Z_scope.

(** ** Machine types *)

Definition wrap (w x : Z) : Z := x mod 2 ^ w.

(** [static_cast<IData>(x)], [static_cast<QData>(x)] *)
Definition IData (x : Z) : Z := wrap 32 x.
Definition QData (x : Z) : Z := wrap 64 x.
Definition EData (x : Z) : Z := wrap 32 x.

(** [~x] on a [w]-bit unsigned operand. *)
Definition bnot (w x : Z) : Z := wrap w (Z.lnot x).

(** Conversion of a machine word to the signed type of the same size. *)
Definition int32_t (x : Z) : Z :=
  let u := wrap 32 x in if u <? 2 ^ 31 then u else u - 2 ^ 32.
Definition int64_t (x : Z) : Z :=
  let u := wrap 64 x in if u <? 2 ^ 63 then u else u - 2 ^ 64.

(** Signed machine division and remainder.  The hardware traps (SIGFPE) on a
    zero divisor and on the one quotient that does not fit, [min / -1]; the
    trap is [None]. *)
Definition sdiv (w : Z) (a b : Z) : option Z :=
  if (b =? 0) || ((a =? - 2 ^ (w - 1)) && (b =? -1)) then None
  else Some (Z.quot a b).
Definition smod (w : Z) (a b : Z) : option Z :=
  if (b =? 0) || ((a =? - 2 ^ (w - 1)) && (b =? -1)) then None
  else Some (Z.rem a b).

(** [for (i = lo; i < hi; ++i) s = body i s] *)
Fixpoint for_up {S : Type} (n : nat) (i : Z) (body : Z -> S -> S) (s : S) : S :=
  match n with
  | O => s
  | Datatypes.S n' => for_up n' (i + 1) body (body i s)
  end.

Definition for_loop {S : Type} (lo hi : Z) (body : Z -> S -> S) (s : S) : S :=
  for_up (Z.to_nat (hi - lo)) lo body s.

(** ** Base macros of verilatedos.h *)

(** Modelled from the spec: the word-size constants of verilatedos.h, which
    is not among the sources; a word is a 32-bit unit, a quad 64 bits. *)
Definition VL_IDATASIZE : Z := 32.
(** Modelled from the spec: size of [QData] in bits (verilatedos.h). *)
Definition VL_QUADSIZE : Z := 64.
(** Modelled from the spec: size of [EData] in bits (verilatedos.h). *)
Definition VL_EDATASIZE : Z := 32.
(** Modelled from the spec: log2 of [VL_EDATASIZE] (verilatedos.h). *)
Definition VL_EDATASIZE_LOG2 : Z := 5.
(** Modelled from the spec: bit mask for the bit number inside a word
    (verilatedos.h). *)
Definition VL_SIZEBITS_I : Z := VL_IDATASIZE - 1.
(** Modelled from the spec: bit mask for the bit number inside a quad
    (verilatedos.h). *)
Definition VL_SIZEBITS_Q : Z := VL_QUADSIZE - 1.
(** Modelled from the spec: bit mask for the bit number inside an [EData]
    (verilatedos.h). *)
Definition VL_SIZEBITS_E : Z := VL_EDATASIZE - 1.

(** Modelled from the spec: [VL_MASK_I(nbits)] of verilatedos.h, the mask
    that keeps the low [nbits] bits of the last word; a width that fills the
    word (and width 0, which the insert helpers use as the mask that changes
    nothing) gives all ones. *)
Definition VL_MASK_I (nbits : Z) : Z :=
  if Z.land nbits VL_SIZEBITS_I =? 0 then IData (Z.lnot 0)
  else IData (Z.shiftl 1 (Z.land nbits VL_SIZEBITS_I) - 1).
(** Modelled from the spec: [VL_MASK_Q(nbits)] of verilatedos.h, the 64-bit
    counterpart of [VL_MASK_I]. *)
Definition VL_MASK_Q (nbits : Z) : Z :=
  if Z.land nbits VL_SIZEBITS_Q =? 0 then QData (Z.lnot 0)
  else QData (Z.shiftl 1 (Z.land nbits VL_SIZEBITS_Q) - 1).
(** Modelled from the spec: [VL_MASK_E(nbits)] of verilatedos.h. *)
Definition VL_MASK_E (nbits : Z) : Z := VL_MASK_I nbits.

(** Modelled from the spec: [VL_BITWORD_E(bit)] of verilatedos.h, the index
    of the word that holds a bit. *)
Definition VL_BITWORD_E (bit : Z) : Z := Z.shiftr bit VL_EDATASIZE_LOG2.
(** Modelled from the spec: [VL_BITBIT_I(bit)] of verilatedos.h, the
    position of a bit inside its word. *)
Definition VL_BITBIT_I (bit : Z) : Z := Z.land bit VL_SIZEBITS_I.
(** Modelled from the spec: [VL_BITBIT_Q(bit)] of verilatedos.h. *)
Definition VL_BITBIT_Q (bit : Z) : Z := Z.land bit VL_SIZEBITS_Q.
(** Modelled from the spec: [VL_BITBIT_E(bit)] of verilatedos.h. *)
Definition VL_BITBIT_E (bit : Z) : Z := Z.land bit VL_SIZEBITS_E.
(** Modelled from the spec: [VL_WORDS_I(nbits)] of verilatedos.h,
    words(W) = ceil(W / 32). *)
Definition VL_WORDS_I (nbits : Z) : Z := Z.quot (nbits + (VL_EDATASIZE - 1)) VL_EDATASIZE.

(** ** Wide buffers *)

Abbreviation WData := (gmap Z Z).

(** [wp[i]] as an rvalue.  Reading a word that is not in the buffer is
    undefined in C; the model reads 0. *)
Definition word (wp : WData) (i : Z) : Z := default 0 (wp !! i).

(** The buffer that holds the words [ws], least significant first. *)
Fixpoint wide_from (i : Z) (ws : list Z) : WData :=
  match ws with
  | [] => ∅
  | w :: ws' => <[i := w]> (wide_from (i + 1) ws')
  end.
Definition wide (ws : list Z) : WData := wide_from 0 ws.

(** The first [n] words of the buffer are present and are machine words. *)
Definition wide_words (n : Z) (wp : WData) : bool :=
  forallb (fun i => match wp !! i with
                    | Some w => (0 <=? w) && (w <? 2 ^ 32)
                    | None => false
                    end) (seqZ 0 n).

(** The unsigned integer held by the first [n] words, least significant
    word first. *)
Fixpoint wide_val (n : nat) (i : Z) (wp : WData) : Z :=
  match n with
  | O => 0
  | Datatypes.S n' => word wp i + 2 ^ 32 * wide_val n' (i + 1) wp
  end.

(** ** Sign handling (verilated_funcs.h, "Base macros") *)

Definition VL_SIGN_I (nbits lhs : Z) : Z := Z.shiftr lhs (VL_BITBIT_I (nbits - 1)).
Definition VL_SIGN_Q (nbits lhs : Z) : Z := Z.shiftr lhs (VL_BITBIT_Q (nbits - 1)).
Definition VL_SIGN_E (nbits lhs : Z) : Z := Z.shiftr lhs (VL_BITBIT_E (nbits - 1)).
Definition VL_SIGNONES_E (nbits lhs : Z) : Z := EData (- VL_SIGN_E nbits lhs).

Definition VL_EXTENDSIGN_I (lbits lhs : Z) : Z :=
  IData (- Z.land lhs (IData (Z.shiftl 1 (lbits - 1)))).
Definition VL_EXTENDSIGN_Q (lbits lhs : Z) : Z :=
  QData (- Z.land lhs (QData (Z.shiftl 1 (lbits - 1)))).

Definition VL_CLEAN_II (obits lbits lhs : Z) : Z := Z.land lhs (VL_MASK_I obits).
Definition VL_CLEAN_QQ (obits lbits lhs : Z) : Z := Z.land lhs (VL_MASK_Q obits).

Definition VL_EXTENDS_II (obits lbits lhs : Z) : Z :=
  Z.lor (VL_EXTENDSIGN_I lbits lhs) lhs.
Definition VL_EXTENDS_QQ (obits lbits lhs : Z) : Z :=
  Z.lor (VL_EXTENDSIGN_Q lbits lhs) lhs.

(** ** Division and modulus, narrow and medium *)

Definition VL_DIV_III (lbits lhs rhs : Z) : Z :=
  if rhs =? 0 then 0 else Z.quot lhs rhs.
Definition VL_DIV_QQQ (lbits lhs rhs : Z) : Z :=
  if rhs =? 0 then 0 else Z.quot lhs rhs.
Definition VL_MODDIV_III (lbits lhs rhs : Z) : Z :=
  if rhs =? 0 then 0 else Z.rem lhs rhs.
Definition VL_MODDIV_QQQ (lbits lhs rhs : Z) : Z :=
  if rhs =? 0 then 0 else Z.rem lhs rhs.

(** The signed variants return [None] where the machine division traps. *)
Definition VL_DIVS_III (lbits lhs rhs : Z) : option Z :=
  if rhs =? 0 then Some 0
  else if (lhs =? 0x80000000) && (rhs =? 0xffffffff) then Some 0
  else
    let lhs_signed := int32_t (VL_EXTENDS_II VL_IDATASIZE lbits lhs) in
    let rhs_signed := int32_t (VL_EXTENDS_II VL_IDATASIZE lbits rhs) in
    IData <$> sdiv 32 lhs_signed rhs_signed.
Definition VL_DIVS_QQQ (lbits lhs rhs : Z) : option Z :=
  if rhs =? 0 then Some 0
  else if (lhs =? 0x8000000000000000) && (rhs =? 0xffffffffffffffff) then Some 0
  else
    let lhs_signed := int64_t (VL_EXTENDS_QQ VL_QUADSIZE lbits lhs) in
    let rhs_signed := int64_t (VL_EXTENDS_QQ VL_QUADSIZE lbits rhs) in
    QData <$> sdiv 64 lhs_signed rhs_signed.
Definition VL_MODDIVS_III (lbits lhs rhs : Z) : option Z :=
  if rhs =? 0 then Some 0
  else if (lhs =? 0x80000000) && (rhs =? 0xffffffff) then Some 0
  else
    let lhs_signed := int32_t (VL_EXTENDS_II VL_IDATASIZE lbits lhs) in
    let rhs_signed := int32_t (VL_EXTENDS_II VL_IDATASIZE lbits rhs) in
    IData <$> smod 32 lhs_signed rhs_signed.
Definition VL_MODDIVS_QQQ (lbits lhs rhs : Z) : option Z :=
  if rhs =? 0 then Some 0
  else if (lhs =? 0x8000000000000000) && (rhs =? 0xffffffffffffffff) then Some 0
  else
    let lhs_signed := int64_t (VL_EXTENDS_QQ VL_QUADSIZE lbits lhs) in
    let rhs_signed := int64_t (VL_EXTENDS_QQ VL_QUADSIZE lbits rhs) in
    QData <$> smod 64 lhs_signed rhs_signed.

(** ** Power *)

Definition VL_POW_III (obits lbits rbits lhs rhs : Z) : Z :=
  if rhs =? 0 then 1
  else if lhs =? 0 then 0
  else
    snd (for_loop 0 rbits
           (fun i '(power, out) =>
              let power := if 0 <? i then IData (power * power) else power in
              let out := if Z.land rhs (QData (Z.shiftl 1 i)) =? 0 then out
                         else IData (out * power) in
              (power, out))
           (lhs, 1)).
Definition VL_POW_QQQ (obits lbits rbits lhs rhs : Z) : Z :=
  if rhs =? 0 then 1
  else if lhs =? 0 then 0
  else
    snd (for_loop 0 rbits
           (fun i '(power, out) =>
              let power := if 0 <? i then QData (power * power) else power in
              let out := if Z.land rhs (QData (Z.shiftl 1 i)) =? 0 then out
                         else QData (out * power) in
              (power, out))
           (lhs, 1)).

Definition VL_POWSS_III (obits lbits rbits lhs rhs : Z) (lsign rsign : bool) : Z :=
  if rhs =? 0 then 1
  else if rsign && negb (VL_SIGN_I rbits rhs =? 0) then
    if lhs =? 0 then 0
    else if lhs =? 1 then 1
    else if lsign && (lhs =? VL_MASK_I obits) then
      if negb (Z.land rhs 1 =? 0) then VL_MASK_I obits else 1
    else 0
  else VL_POW_III obits rbits rbits lhs rhs.
Definition VL_POWSS_QQQ (obits lbits rbits lhs rhs : Z) (lsign rsign : bool) : Z :=
  if rhs =? 0 then 1
  else if rsign && negb (VL_SIGN_Q rbits rhs =? 0) then
    if lhs =? 0 then 0
    else if lhs =? 1 then 1
    else if lsign && (lhs =? VL_MASK_Q obits) then
      if negb (Z.land rhs 1 =? 0) then VL_MASK_Q obits else 1
    else 0
  else VL_POW_QQQ obits rbits rbits lhs rhs.

(** ** Setting operators *)

Definition VL_MEMSET_ZERO_W (owp : WData) (words : Z) : WData :=
  for_loop 0 words (fun i owp => <[i := 0]> owp) owp.
Definition VL_MEMSET_ONES_W (owp : WData) (words : Z) : WData :=
  for_loop 0 words (fun i owp => <[i := 0xffffffff]> owp) owp.

Definition VL_ZERO_W (obits : Z) (owp : WData) : WData :=
  VL_MEMSET_ZERO_W owp (VL_WORDS_I obits).
Definition VL_ALLONES_W (obits : Z) (owp : WData) : WData :=
  let words := VL_WORDS_I obits in
  let owp := VL_MEMSET_ONES_W owp (words - 1) in
  <[words - 1 := VL_MASK_E obits]> owp.

(** [VL_SIGN_W(nbits, rwp)] *)
Definition VL_SIGN_W (nbits : Z) (rwp : WData) : Z :=
  Z.shiftr (word rwp (VL_BITWORD_E (nbits - 1))) (VL_BITBIT_E (nbits - 1)).

(** A wide value of width [nbits] is clean: the bits of its last word above
    the width are zero. *)
Definition wide_clean (nbits : Z) (wp : WData) : bool :=
  let words := VL_WORDS_I nbits in
  Z.land (word wp (words - 1)) (VL_MASK_E nbits) =? word wp (words - 1).

(** ** Wide negate, clean, add *)

(** [owp] and [lwp] are distinct buffers here (the in-place variant of the
    source is a separate function). *)
Definition VL_NEGATE_W (words : Z) (owp lwp : WData) : WData :=
  snd (for_loop 0 words
         (fun i '(carry, owp) =>
            let owp := <[i := EData (bnot 32 (word lwp i) + carry)]> owp in
            let carry := if word owp i <? bnot 32 (word lwp i) then 1 else 0 in
            (carry, owp))
         (1, owp)).

Definition _vl_clean_inplace_w (obits : Z) (owp : WData) : WData :=
  let words := VL_WORDS_I obits in
  <[words - 1 := Z.land (word owp (words - 1)) (VL_MASK_E obits)]> owp.

Definition VL_ADD_W (words : Z) (owp lwp rwp : WData) : WData :=
  snd (for_loop 0 words
         (fun i '(carry, owp) =>
            let carry := QData (carry + QData (word lwp i) + QData (word rwp i)) in
            let owp := <[i := Z.land carry 0xffffffff]> owp in
            let carry := Z.land (Z.shiftr carry 32) 0xffffffff in
            (carry, owp))
         (0, owp)).

(** ** Wide division and modulus *)

(** Store the low [n] words of the integer [v] at [owp[i]], [owp[i+1]], ... *)
Fixpoint store_val (n : nat) (i : Z) (v : Z) (owp : WData) : WData :=
  match n with
  | O => owp
  | Datatypes.S n' => store_val n' (i + 1) (Z.shiftr v 32) (<[i := Z.land v 0xffffffff]> owp)
  end.

(** Modelled from the spec: [_vl_moddiv_w] is defined in verilated.cpp, which
    is not among the sources (only its declaration is).  The spec describes
    it as unsigned multi-word long division of clean operands in which
    division or modulus by zero returns 0; the model writes the quotient or
    the remainder of the operands' integer values into the [words(lbits)]
    words of [owp]. *)
Definition _vl_moddiv_w (lbits : Z) (owp lwp rwp : WData) (is_modulus : bool) : WData :=
  let words := Z.to_nat (VL_WORDS_I lbits) in
  let u := wide_val words 0 lwp in
  let v := wide_val words 0 rwp in
  store_val words 0
    (if v =? 0 then 0 else if is_modulus then Z.rem u v else Z.quot u v) owp.

Definition VL_DIV_WWW (lbits : Z) (owp lwp rwp : WData) : WData :=
  _vl_moddiv_w lbits owp lwp rwp false.
Definition VL_MODDIV_WWW (lbits : Z) (owp lwp rwp : WData) : WData :=
  _vl_moddiv_w lbits owp lwp rwp true.

(** Modelled from the spec: [VL_MULS_MAX_WORDS], the capacity in words of
    the fixed-size scratch arrays of the signed wide multiply and divide, is
    set in verilatedos.h, which is not among the sources, and the spec gives
    no size for them.  It is kept a variable, so that what is proved of
    these routines holds for every capacity. *)
Section ScratchDivide.
Variable VL_MULS_MAX_WORDS : Z.

(** The scratch arrays [lwstore], [rwstore] and [qNoSign] hold
    [VL_MULS_MAX_WORDS] words and are uninitialised locals: they start as
    the empty buffer.  The assertion [lwords <= VL_MULS_MAX_WORDS] is the
    only guard of their capacity: where it fails the call has no result
    ([None]); where it holds, the words written to them are the words
    [0 .. lwords - 1], all inside the arrays. *)
Definition VL_DIVS_WWW (lbits : Z) (owp lwp rwp : WData) : option WData :=
  let lwords := VL_WORDS_I lbits in
  let lsign := negb (VL_SIGN_E lbits (word lwp (lwords - 1)) =? 0) in
  let rsign := negb (VL_SIGN_E lbits (word rwp (lwords - 1)) =? 0) in
  if negb (lwords <=? VL_MULS_MAX_WORDS) then None else
  let lwstore : WData := ∅ in
  let rwstore : WData := ∅ in
  let ltup := if lsign then _vl_clean_inplace_w lbits (VL_NEGATE_W lwords lwstore lwp)
              else lwp in
  let rtup := if rsign then _vl_clean_inplace_w lbits (VL_NEGATE_W lwords rwstore rwp)
              else rwp in
  if (lsign && negb rsign) || (negb lsign && rsign) then
    let qNoSign := VL_DIV_WWW lbits ∅ ltup rtup in
    Some (_vl_clean_inplace_w lbits (VL_NEGATE_W lwords owp qNoSign))
  else Some (VL_DIV_WWW lbits owp ltup rtup).

Definition VL_MODDIVS_WWW (lbits : Z) (owp lwp rwp : WData) : option WData :=
  let lwords := VL_WORDS_I lbits in
  let lsign := negb (VL_SIGN_E lbits (word lwp (lwords - 1)) =? 0) in
  let rsign := negb (VL_SIGN_E lbits (word rwp (lwords - 1)) =? 0) in
  if negb (lwords <=? VL_MULS_MAX_WORDS) then None else
  let lwstore : WData := ∅ in
  let rwstore : WData := ∅ in
  let ltup := if lsign then _vl_clean_inplace_w lbits (VL_NEGATE_W lwords lwstore lwp)
              else lwp in
  let rtup := if rsign then _vl_clean_inplace_w lbits (VL_NEGATE_W lwords rwstore rwp)
              else rwp in
  if lsign then
    let qNoSign := VL_MODDIV_WWW lbits ∅ ltup rtup in
    Some (_vl_clean_inplace_w lbits (VL_NEGATE_W lwords owp qNoSign))
  else Some (VL_MODDIV_WWW lbits owp ltup rtup).

End ScratchDivide.

(** ** Concat/replication: range insert *)

(** Insert value [ld] into [iowp] at bit slice [hbit:lbit]; [iowp] is
    [rbits] wide ([rbits] defaults to 0 in the source). *)
Definition _vl_insert_WI (iowp : WData) (ld hbit lbit rbits : Z) : WData :=
  let hoffset := VL_BITBIT_E hbit in
  let loffset := VL_BITBIT_E lbit in
  let roffset := VL_BITBIT_E rbits in
  let hword := VL_BITWORD_E hbit in
  let lword := VL_BITWORD_E lbit in
  let rword := VL_BITWORD_E rbits in
  let cleanmask := if hword =? rword then VL_MASK_E roffset else VL_MASK_E 0 in
  if (hoffset =? VL_SIZEBITS_E) && (loffset =? 0) then
    <[lword := Z.land ld cleanmask]> iowp
  else
    let lde := EData ld in
    if hword =? lword then
      let insmask := EData (Z.shiftl (VL_MASK_E (hoffset - loffset + 1)) loffset) in
      <[lword := Z.lor (Z.land (word iowp lword) (bnot 32 insmask))
                       (Z.land (EData (Z.shiftl lde loffset)) (Z.land insmask cleanmask))]>
        iowp
    else
      let hinsmask := EData (Z.shiftl (VL_MASK_E (hoffset - 0 + 1)) 0) in
      let linsmask :=
        EData (Z.shiftl (VL_MASK_E ((VL_EDATASIZE - 1) - loffset + 1)) loffset) in
      let nbitsonright := VL_EDATASIZE - loffset in
      let iowp :=
        <[lword := Z.lor (Z.land (word iowp lword) (bnot 32 linsmask))
                         (Z.land (EData (Z.shiftl lde loffset)) linsmask)]> iowp in
      if negb ((hword =? rword) && (roffset =? 0)) then
        <[hword := Z.lor (Z.land (word iowp hword) (bnot 32 hinsmask))
                         (Z.land (Z.shiftr lde nbitsonright) (Z.land hinsmask cleanmask))]>
          iowp
      else iowp.

Definition _vl_insert_WW (iowp lwp : WData) (hbit lbit rbits : Z) : WData :=
  let hoffset := VL_BITBIT_E hbit in
  let loffset := VL_BITBIT_E lbit in
  let roffset := VL_BITBIT_E rbits in
  let lword := VL_BITWORD_E lbit in
  let hword := VL_BITWORD_E hbit in
  let rword := VL_BITWORD_E rbits in
  let words := VL_WORDS_I (hbit - lbit + 1) in
  let cleanmask := if hword =? rword then VL_MASK_E roffset else VL_MASK_E 0 in
  if (hoffset =? VL_SIZEBITS_E) && (loffset =? 0) then
    let iowp := for_loop 0 (words - 1) (fun i iowp => <[lword + i := word lwp i]> iowp) iowp in
    <[hword := Z.land (word lwp (words - 1)) cleanmask]> iowp
  else if loffset =? 0 then
    let iowp := for_loop 0 (words - 1) (fun i iowp => <[lword + i := word lwp i]> iowp) iowp in
    let hinsmask := VL_MASK_E (hoffset - 0 + 1) in
    <[hword := Z.lor (Z.land (word iowp hword) (bnot 32 hinsmask))
                     (Z.land (word lwp (words - 1)) (Z.land hinsmask cleanmask))]> iowp
  else
    let hinsmask := EData (Z.shiftl (VL_MASK_E (hoffset - 0 + 1)) 0) in
    let linsmask :=
      EData (Z.shiftl (VL_MASK_E ((VL_EDATASIZE - 1) - loffset + 1)) loffset) in
    let nbitsonright := VL_EDATASIZE - loffset in
    for_loop 0 words
      (fun i iowp =>
         let iowp :=
           let oword := lword + i in
           let d := EData (Z.shiftl (word lwp i) loffset) in
           let od := Z.lor (Z.land (word iowp oword) (bnot 32 linsmask)) (Z.land d linsmask) in
           if oword =? hword then
             <[oword := Z.lor (Z.land (word iowp oword) (bnot 32 hinsmask))
                              (Z.land od (Z.land hinsmask cleanmask))]> iowp
           else <[oword := od]> iowp in
         let oword := lword + i + 1 in
         if oword <=? hword then
           let d := Z.shiftr (word lwp i) nbitsonright in
           let od := Z.lor (Z.land d (bnot 32 linsmask)) (Z.land (word iowp oword) linsmask) in
           if oword =? hword then
             <[oword := Z.lor (Z.land (word iowp oword) (bnot 32 hinsmask))
                              (Z.land od (Z.land hinsmask cleanmask))]> iowp
           else <[oword := od]> iowp
         else iowp)
      iowp.

(** [VL_SET_WQ(owp, data)] *)
Definition VL_SET_WQ (owp : WData) (data : Z) : WData :=
  <[1 := IData (Z.shiftr data VL_EDATASIZE)]> (<[0 := IData data]> owp).

Definition _vl_insert_WQ (iowp : WData) (ld hbit lbit rbits : Z) : WData :=
  let lwp := VL_SET_WQ ∅ ld in
  _vl_insert_WW iowp lwp hbit lbit rbits.

(** ** Replication *)

Definition VL_REPLICATE_III (lbits ld rep : Z) : Z :=
  for_loop 1 rep
    (fun _ returndata => Z.lor (IData (Z.shiftl returndata lbits)) ld) ld.

Definition VL_REPLICATE_QII (lbits ld rep : Z) : Z :=
  for_loop 1 rep
    (fun _ returndata => Z.lor (QData (Z.shiftl returndata lbits)) (QData ld)) (QData ld).

Definition VL_REPLICATE_WII (lbits : Z) (owp : WData) (ld rep : Z) : WData :=
  let owp := <[0 := ld]> owp in
  let owp := for_loop 1 (VL_WORDS_I (IData (IData lbits * rep)))
               (fun i owp => <[i := 0]> owp) owp in
  for_loop 1 rep
    (fun i owp => _vl_insert_WI owp ld (i * lbits + lbits - 1) (i * lbits) 0) owp.

Definition VL_REPLICATE_WQI (lbits : Z) (owp : WData) (ld rep : Z) : WData :=
  let owp := VL_SET_WQ owp ld in
  let owp := for_loop 2 (VL_WORDS_I (IData (IData lbits * rep)))
               (fun i owp => <[i := 0]> owp) owp in
  for_loop 1 rep
    (fun i owp => _vl_insert_WQ owp ld (i * lbits + lbits - 1) (i * lbits) 0) owp.

Definition VL_REPLICATE_WWI (lbits : Z) (owp lwp : WData) (rep : Z) : WData :=
  let owp := for_loop 0 (VL_WORDS_I (IData lbits))
               (fun i owp => <[i := word lwp i]> owp) owp in
  let owp := for_loop (VL_WORDS_I (IData lbits)) (VL_WORDS_I (IData (lbits * rep)))
               (fun i owp => <[i := 0]> owp) owp in
  for_loop 1 rep
    (fun i owp => _vl_insert_WW owp lwp (i * lbits + lbits - 1) (i * lbits) 0) owp.

(** ** Left stream operator *)

(** The [switch (rd_log2)] of the source falls through: the stage labelled
    [case k] runs for every [rd_log2 <= k]. *)
Definition VL_STREAML_FAST_III (lbits ld rd_log2 : Z) : Z :=
  let ret := ld in
  let ret :=
    if negb (rd_log2 =? 0) then
      let lbitsFloor := Z.land (IData lbits) (bnot 32 (VL_MASK_I rd_log2)) in
      let lbitsRem := IData (lbits - lbitsFloor) in
      let msbMask := if lbitsFloor =? 32 then 0
                     else IData (Z.shiftl (VL_MASK_I lbitsRem) lbitsFloor) in
      Z.lor (Z.land ret (bnot 32 msbMask))
            (IData (Z.shiftl (Z.land ret msbMask)
                             (IData (IData (Z.shiftl 1 rd_log2) - lbitsRem))))
    else ret in
  let ret := if rd_log2 <=? 0 then
               Z.lor (Z.land (Z.shiftr ret 1) 0x55555555)
                     (IData (Z.shiftl (Z.land ret 0x55555555) 1))
             else ret in
  let ret := if rd_log2 <=? 1 then
               Z.lor (Z.land (Z.shiftr ret 2) 0x33333333)
                     (IData (Z.shiftl (Z.land ret 0x33333333) 2))
             else ret in
  let ret := if rd_log2 <=? 2 then
               Z.lor (Z.land (Z.shiftr ret 4) 0x0f0f0f0f)
                     (IData (Z.shiftl (Z.land ret 0x0f0f0f0f) 4))
             else ret in
  let ret := if rd_log2 <=? 3 then
               Z.lor (Z.land (Z.shiftr ret 8) 0x00ff00ff)
                     (IData (Z.shiftl (Z.land ret 0x00ff00ff) 8))
             else ret in
  let ret := if rd_log2 <=? 4 then
               Z.lor (Z.shiftr ret 16) (IData (Z.shiftl ret 16))
             else ret in
  Z.shiftr ret (VL_IDATASIZE - lbits).

(** The slice loop [for (istart = 0; istart < lbits; istart += rd)].  It
    does not terminate for [rd = 0]; [None] is the loop still running when
    the fuel is spent. *)
Fixpoint VL_STREAML_III_loop (fuel : nat) (lbits ld rd mask istart ret : Z) : option Z :=
  if istart <? lbits then
    match fuel with
    | O => None
    | Datatypes.S fuel' =>
        let ostart := int32_t (lbits - rd - istart) in
        let ostart := if 0 <? ostart then ostart else 0 in
        let ret := Z.lor ret (IData (Z.shiftl (Z.land (Z.shiftr ld istart) mask) ostart)) in
        VL_STREAML_III_loop fuel' lbits ld rd mask (int32_t (istart + rd)) ret
    end
  else Some ret.

Definition VL_STREAML_III (lbits ld rd : Z) : option Z :=
  let mask := VL_MASK_I rd in
  VL_STREAML_III_loop (Z.to_nat lbits) lbits ld rd mask 0 0.

(** ** Shifts *)

Definition VL_SHIFTL_III (obits lbits rbits lhs rhs : Z) : Z :=
  if rhs >=? VL_IDATASIZE then 0 else IData (Z.shiftl lhs rhs).
Definition VL_SHIFTL_QQI (obits lbits rbits lhs rhs : Z) : Z :=
  if rhs >=? VL_QUADSIZE then 0 else QData (Z.shiftl lhs rhs).

Definition VL_SHIFTL_WWI (obits lbits rbits : Z) (owp lwp : WData) (rd : Z) : WData :=
  let word_shift := VL_BITWORD_E rd in
  let bit_shift := VL_BITBIT_E rd in
  if rd >=? IData obits then
    for_loop 0 (VL_WORDS_I obits) (fun i owp => <[i := 0]> owp) owp
  else if bit_shift =? 0 then
    let owp := for_loop 0 word_shift (fun i owp => <[i := 0]> owp) owp in
    for_loop word_shift (VL_WORDS_I obits)
      (fun i owp => <[i := word lwp (i - word_shift)]> owp) owp
  else
    let owp := for_loop 0 (VL_WORDS_I obits) (fun i owp => <[i := 0]> owp) owp in
    _vl_insert_WW owp lwp (obits - 1) rd 0.

Definition VL_SHIFTR_III (obits lbits rbits lhs rhs : Z) : Z :=
  if rhs >=? VL_IDATASIZE then 0 else Z.shiftr lhs rhs.
Definition VL_SHIFTR_QQI (obits lbits rbits lhs rhs : Z) : Z :=
  if rhs >=? VL_QUADSIZE then 0 else Z.shiftr lhs rhs.

Definition VL_SHIFTR_WWI (obits lbits rbits : Z) (owp lwp : WData) (rd : Z) : WData :=
  let word_shift := VL_BITWORD_E rd in
  let bit_shift := VL_BITBIT_E rd in
  if rd >=? IData obits then
    for_loop 0 (VL_WORDS_I obits) (fun i owp => <[i := 0]> owp) owp
  else if bit_shift =? 0 then
    let copy_words := VL_WORDS_I obits - word_shift in
    let owp := for_loop 0 copy_words (fun i owp => <[i := word lwp (i + word_shift)]> owp) owp in
    for_loop copy_words (VL_WORDS_I obits) (fun i owp => <[i := 0]> owp) owp
  else
    let loffset := Z.land rd VL_SIZEBITS_E in
    let nbitsonright := VL_EDATASIZE - loffset in
    let words := VL_WORDS_I (obits - rd) in
    let owp :=
      for_loop 0 words
        (fun i owp =>
           let owp := <[i := Z.shiftr (word lwp (i + word_shift)) loffset]> owp in
           let upperword := i + word_shift + 1 in
           if upperword <? VL_WORDS_I obits then
             <[i := Z.lor (word owp i) (EData (Z.shiftl (word lwp upperword) nbitsonright))]> owp
           else owp)
        owp in
    for_loop words (VL_WORDS_I obits) (fun i owp => <[i := 0]> owp) owp.

Definition VL_SHIFTRS_III (obits lbits rbits lhs rhs : Z) : Z :=
  let sign := IData (- Z.shiftr lhs (lbits - 1)) in
  if rhs >=? VL_IDATASIZE then Z.land sign (VL_MASK_I obits)
  else
    let signext := bnot 32 (Z.shiftr (VL_MASK_I lbits) rhs) in
    Z.lor (Z.shiftr lhs rhs) (Z.land sign (VL_CLEAN_II obits obits signext)).
Definition VL_SHIFTRS_QQI (obits lbits rbits lhs rhs : Z) : Z :=
  let sign := QData (- Z.shiftr lhs (lbits - 1)) in
  if rhs >=? VL_QUADSIZE then Z.land sign (VL_MASK_Q obits)
  else
    let signext := bnot 64 (Z.shiftr (VL_MASK_Q lbits) rhs) in
    Z.lor (Z.shiftr lhs rhs) (Z.land sign (VL_CLEAN_QQ obits obits signext)).

Definition VL_SHIFTRS_WWI (obits lbits rbits : Z) (owp lwp : WData) (rd : Z) : WData :=
  let word_shift := VL_BITWORD_E rd in
  let bit_shift := VL_BITBIT_E rd in
  let lmsw := VL_WORDS_I obits - 1 in
  let sign := VL_SIGNONES_E lbits (word lwp lmsw) in
  if rd >=? IData obits then
    let owp := for_loop 0 (lmsw + 1) (fun i owp => <[i := sign]> owp) owp in
    <[lmsw := Z.land (word owp lmsw) (VL_MASK_E lbits)]> owp
  else if bit_shift =? 0 then
    let copy_words := VL_WORDS_I obits - word_shift in
    let owp := for_loop 0 copy_words (fun i owp => <[i := word lwp (i + word_shift)]> owp) owp in
    let owp := if copy_words >=? 0 then
                 <[copy_words - 1 := Z.lor (word owp (copy_words - 1))
                                           (Z.land (bnot 32 (VL_MASK_E obits)) sign)]> owp
               else owp in
    let owp := for_loop copy_words (VL_WORDS_I obits) (fun i owp => <[i := sign]> owp) owp in
    <[lmsw := Z.land (word owp lmsw) (VL_MASK_E lbits)]> owp
  else
    let loffset := Z.land rd VL_SIZEBITS_E in
    let nbitsonright := VL_EDATASIZE - loffset in
    let words := VL_WORDS_I (obits - rd) in
    let owp :=
      for_loop 0 words
        (fun i owp =>
           let owp := <[i := Z.shiftr (word lwp (i + word_shift)) loffset]> owp in
           let upperword := i + word_shift + 1 in
           if upperword <? VL_WORDS_I obits then
             <[i := Z.lor (word owp i) (EData (Z.shiftl (word lwp upperword) nbitsonright))]> owp
           else owp)
        owp in
    let owp := if negb (words =? 0) then
                 <[words - 1 := Z.lor (word owp (words - 1))
                                      (Z.land sign (bnot 32 (VL_MASK_E (obits - loffset))))]> owp
               else owp in
    let owp := for_loop words (VL_WORDS_I obits) (fun i owp => <[i := sign]> owp) owp in
    <[lmsw := Z.land (word owp lmsw) (VL_MASK_E lbits)]> owp.

(** ** Bit selection *)

Definition VL_BITRSHIFT_W (data : WData) (bit : Z) : Z :=
  Z.shiftr (word data (VL_BITWORD_E bit)) (VL_BITBIT_E bit).

Definition VL_BITSEL_IWII (lbits : Z) (lwp : WData) (rd : Z) : Z :=
  let word_ := VL_BITWORD_E rd in
  if rd >? IData lbits then IData (Z.lnot 0)
  else Z.shiftr (word lwp word_) (VL_BITBIT_E rd).

(** [const int msb = lsb + width - 1] is computed in [IData] and converted
    to [int]. *)
Definition VL_SEL_IWII (lbits : Z) (lwp : WData) (lsb width : Z) : Z :=
  let msb := int32_t (IData (lsb + width - 1)) in
  if msb >=? lbits then IData (Z.lnot 0)
  else if VL_BITWORD_E msb =? VL_BITWORD_E (int32_t lsb) then VL_BITRSHIFT_W lwp lsb
  else
    let nbitsfromlow := VL_EDATASIZE - VL_BITBIT_E lsb in
    Z.lor (EData (Z.shiftl (word lwp (VL_BITWORD_E msb)) nbitsfromlow))
          (VL_BITRSHIFT_W lwp lsb).

Definition VL_SEL_QWII (lbits : Z) (lwp : WData) (lsb width : Z) : Z :=
  let msb := int32_t (IData (lsb + width - 1)) in
  if msb >? lbits then QData (Z.lnot 0)
  else if VL_BITWORD_E msb =? VL_BITWORD_E (int32_t lsb) then VL_BITRSHIFT_W lwp lsb
  else if VL_BITWORD_E msb =? 1 + VL_BITWORD_E (int32_t lsb) then
    let nbitsfromlow := VL_EDATASIZE - VL_BITBIT_E lsb in
    let hi := QData (word lwp (VL_BITWORD_E msb)) in
    let lo := QData (VL_BITRSHIFT_W lwp lsb) in
    Z.lor (QData (Z.shiftl hi nbitsfromlow)) lo
  else
    let nbitsfromlow := VL_EDATASIZE - VL_BITBIT_E lsb in
    let hi := QData (word lwp (VL_BITWORD_E msb)) in
    let mid := QData (word lwp (VL_BITWORD_E lsb + 1)) in
    let lo := QData (VL_BITRSHIFT_W lwp lsb) in
    Z.lor (Z.lor (QData (Z.shiftl hi (nbitsfromlow + VL_EDATASIZE)))
                 (QData (Z.shiftl mid nbitsfromlow))) lo.

Definition VL_SEL_WWII (obits lbits : Z) (owp lwp : WData) (lsb width : Z) : WData :=
  let msb := int32_t (IData (lsb + width - 1)) in
  let word_shift := VL_BITWORD_E lsb in
  if msb >? lbits then
    let owp := for_loop 0 (VL_WORDS_I obits - 1) (fun i owp => <[i := EData (Z.lnot 0)]> owp) owp in
    <[VL_WORDS_I obits - 1 := VL_MASK_E obits]> owp
  else if VL_BITBIT_E lsb =? 0 then
    for_loop 0 (VL_WORDS_I obits) (fun i owp => <[i := word lwp (i + word_shift)]> owp) owp
  else
    let loffset := Z.land lsb VL_SIZEBITS_E in
    let nbitsfromlow := VL_EDATASIZE - loffset in
    let words := VL_WORDS_I (msb - lsb + 1) in
    let owp :=
      for_loop 0 words
        (fun i owp =>
           let owp := <[i := Z.shiftr (word lwp (i + word_shift)) loffset]> owp in
           let upperword := i + word_shift + 1 in
           if upperword <=? VL_BITWORD_E msb then
             <[i := Z.lor (word owp i) (EData (Z.shiftl (word lwp upperword) nbitsfromlow))]> owp
           else owp)
        owp in
    for_loop words (VL_WORDS_I obits) (fun i owp => <[i := 0]> owp) owp.

(** Every word of the first [n] is zero. *)
Definition wide_zero (n : Z) (wp : WData) : bool :=
  forallb (fun i => word wp i =? 0) (seqZ 0 n).

(** Boolean equality of optional machine words. *)
Definition option_Z_eqb (a b : option Z) : bool :=
  match a, b with
  | Some x, Some y => x =? y
  | None, None => true
  | _, _ => false
  end.

(** A function of machine words that distributes over bitwise or. *)
Definition or_linear (f : Z -> Z) : Prop :=
  f 0 = 0 /\ forall a b, f (Z.lor a b) = Z.lor (f a) (f b).

Definition option_lor (a b : option Z) : option Z :=
  match a, b with
  | Some x, Some y => Some (Z.lor x y)
  | _, _ => None
  end.

(** The slow and the fast stream operators agree on the input 0 and on
    every single-bit input of width [lbits], for slice size [2^k]. *)
Definition streaml_basis_ok (lbits k : Z) : bool :=
  option_Z_eqb (VL_STREAML_III lbits 0 (2 ^ k)) (Some 0) &&
  forallb (fun i => option_Z_eqb (VL_STREAML_III lbits (2 ^ i) (2 ^ k))
                                 (Some (VL_STREAML_FAST_III lbits (2 ^ i) k)))
          (seqZ 0 lbits).

(** ** Wide negate in place, subtract, multiply *)

Definition VL_NEGATE_INPLACE_W (words : Z) (owp_lwp : WData) : WData :=
  snd (for_loop 0 words
         (fun i '(carry, owp_lwp) =>
            let word_ := EData (bnot 32 (word owp_lwp i) + carry) in
            let carry := if word_ <? bnot 32 (word owp_lwp i) then 1 else 0 in
            (carry, <[i := word_]> owp_lwp))
         (1, owp_lwp)).

Definition VL_SUB_W (words : Z) (owp lwp rwp : WData) : WData :=
  snd (for_loop 0 words
         (fun i '(carry, owp) =>
            let carry := QData (carry + QData (word lwp i)
                                + QData (IData (bnot 32 (word rwp i)))) in
            let carry := if i =? 0 then QData (carry + 1) else carry in
            let owp := <[i := Z.land carry 0xffffffff]> owp in
            let carry := Z.land (Z.shiftr carry 32) 0xffffffff in
            (carry, owp))
         (0, owp)).

Definition VL_MUL_W (words : Z) (owp lwp rwp : WData) : WData :=
  let owp := for_loop 0 words (fun i owp => <[i := 0]> owp) owp in
  for_loop 0 words
    (fun lword owp =>
       for_loop 0 words
         (fun rword owp =>
            let mul := QData (QData (word lwp lword) * QData (word rwp rword)) in
            snd (for_loop (lword + rword) words
                   (fun qword '(mul, owp) =>
                      let mul := QData (mul + QData (word owp qword)) in
                      let owp := <[qword := Z.land mul 0xffffffff]> owp in
                      let mul := Z.land (Z.shiftr mul 32) 0xffffffff in
                      (mul, owp))
                   (mul, owp)))
         owp)
    owp.

(** ** Signed comparisons, narrow and medium *)

(** The two's-complement reading of a clean [W]-bit value. *)
Definition signed_val (W x : Z) : Z := if Z.testbit x (W - 1) then x - 2 ^ W else x.

Definition VL_GTS_III (lbits lhs rhs : Z) : Z :=
  let lhs_signed := int64_t (VL_EXTENDS_QQ 64 lbits lhs) in
  let rhs_signed := int64_t (VL_EXTENDS_QQ 64 lbits rhs) in
  if lhs_signed >? rhs_signed then 1 else 0.
Definition VL_GTS_IQQ (lbits lhs rhs : Z) : Z :=
  let lhs_signed := int64_t (VL_EXTENDS_QQ 64 lbits lhs) in
  let rhs_signed := int64_t (VL_EXTENDS_QQ 64 lbits rhs) in
  if lhs_signed >? rhs_signed then 1 else 0.
Definition VL_GTES_III (lbits lhs rhs : Z) : Z :=
  let lhs_signed := int64_t (VL_EXTENDS_QQ 64 lbits lhs) in
  let rhs_signed := int64_t (VL_EXTENDS_QQ 64 lbits rhs) in
  if lhs_signed >=? rhs_signed then 1 else 0.
Definition VL_GTES_IQQ (lbits lhs rhs : Z) : Z :=
  let lhs_signed := int64_t (VL_EXTENDS_QQ 64 lbits lhs) in
  let rhs_signed := int64_t (VL_EXTENDS_QQ 64 lbits rhs) in
  if lhs_signed >=? rhs_signed then 1 else 0.
Definition VL_LTS_III (lbits lhs rhs : Z) : Z :=
  let lhs_signed := int64_t (VL_EXTENDS_QQ 64 lbits lhs) in
  let rhs_signed := int64_t (VL_EXTENDS_QQ 64 lbits rhs) in
  if lhs_signed <? rhs_signed then 1 else 0.
Definition VL_LTS_IQQ (lbits lhs rhs : Z) : Z :=
  let lhs_signed := int64_t (VL_EXTENDS_QQ 64 lbits lhs) in
  let rhs_signed := int64_t (VL_EXTENDS_QQ 64 lbits rhs) in
  if lhs_signed <? rhs_signed then 1 else 0.
Definition VL_LTES_III (lbits lhs rhs : Z) : Z :=
  let lhs_signed := int64_t (VL_EXTENDS_QQ 64 lbits lhs) in
  let rhs_signed := int64_t (VL_EXTENDS_QQ 64 lbits rhs) in
  if lhs_signed <=? rhs_signed then 1 else 0.
Definition VL_LTES_IQQ (lbits lhs rhs : Z) : Z :=
  let lhs_signed := int64_t (VL_EXTENDS_QQ 64 lbits lhs) in
  let rhs_signed := int64_t (VL_EXTENDS_QQ 64 lbits rhs) in
  if lhs_signed <=? rhs_signed then 1 else 0.

(** ** Wide bitwise operators, comparisons and reductions *)

Definition VL_AND_W (words : Z) (owp lwp rwp : WData) : WData :=
  for_loop 0 words (fun i owp => <[i := Z.land (word lwp i) (word rwp i)]> owp) owp.
Definition VL_OR_W (words : Z) (owp lwp rwp : WData) : WData :=
  for_loop 0 words (fun i owp => <[i := Z.lor (word lwp i) (word rwp i)]> owp) owp.
Definition VL_CHANGEXOR_W (words : Z) (lwp rwp : WData) : Z :=
  for_loop 0 words (fun i od => Z.lor od (Z.lxor (word lwp i) (word rwp i))) 0.
Definition VL_XOR_W (words : Z) (owp lwp rwp : WData) : WData :=
  for_loop 0 words (fun i owp => <[i := Z.lxor (word lwp i) (word rwp i)]> owp) owp.
Definition VL_NOT_W (words : Z) (owp lwp : WData) : WData :=
  for_loop 0 words (fun i owp => <[i := bnot 32 (word lwp i)]> owp) owp.

Definition VL_EQ_W (words : Z) (lwp rwp : WData) : Z :=
  let nequal :=
    for_loop 0 words (fun i nequal => Z.lor nequal (Z.lxor (word lwp i) (word rwp i))) 0 in
  if nequal =? 0 then 1 else 0.

(** The loop [for (; i >= 0; --i)] of the wide comparisons, entered with
    [i = n - 1]; it returns from inside at the first word that differs. *)
Fixpoint _vl_cmp_w_loop (n : nat) (lwp rwp : WData) : Z :=
  match n with
  | O => 0
  | Datatypes.S n' =>
      let i := Z.of_nat n' in
      if word lwp i >? word rwp i then 1
      else if word lwp i <? word rwp i then -1
      else _vl_cmp_w_loop n' lwp rwp
  end.

Definition _vl_cmp_w (words : Z) (lwp rwp : WData) : Z :=
  _vl_cmp_w_loop (Z.to_nat (words - 1 + 1)) lwp rwp.

Definition VL_NEQ_W (words : Z) (lwp rwp : WData) : Z :=
  if VL_EQ_W words lwp rwp =? 0 then 1 else 0.
Definition VL_LT_W (words : Z) (lwp rwp : WData) : Z :=
  if _vl_cmp_w words lwp rwp <? 0 then 1 else 0.
Definition VL_LTE_W (words : Z) (lwp rwp : WData) : Z :=
  if _vl_cmp_w words lwp rwp <=? 0 then 1 else 0.
Definition VL_GT_W (words : Z) (lwp rwp : WData) : Z :=
  if _vl_cmp_w words lwp rwp >? 0 then 1 else 0.
Definition VL_GTE_W (words : Z) (lwp rwp : WData) : Z :=
  if _vl_cmp_w words lwp rwp >=? 0 then 1 else 0.

Definition _vl_cmps_w (lbits : Z) (lwp rwp : WData) : Z :=
  let words := VL_WORDS_I lbits in
  let i := words - 1 in
  let lsign := VL_SIGN_E lbits (word lwp i) in
  let rsign := VL_SIGN_E lbits (word rwp i) in
  if (lsign =? 0) && negb (rsign =? 0) then 1
  else if negb (lsign =? 0) && (rsign =? 0) then -1
  else _vl_cmp_w_loop (Z.to_nat (i + 1)) lwp rwp.

Definition VL_REDOR_W (words : Z) (lwp : WData) : Z :=
  let equal := for_loop 0 words (fun i equal => Z.lor equal (word lwp i)) 0 in
  if equal =? 0 then 0 else 1.

Definition VL_REDAND_IW (lbits : Z) (lwp : WData) : Z :=
  let words := VL_WORDS_I lbits in
  let combine := word lwp 0 in
  let combine :=
    for_loop 1 (words - 1) (fun i combine => Z.land combine (word lwp i)) combine in
  let combine :=
    Z.land combine (Z.lor (bnot 32 (VL_MASK_E lbits)) (word lwp (words - 1))) in
  if bnot 32 combine =? 0 then 1 else 0.

(** Three-way comparison of integers as the C helpers encode it. *)
Definition cmp3 (a b : Z) : Z :=
  match a ?= b with Eq => 0 | Lt => -1 | Gt => 1 end.

(** ** Copies and extension *)

(** Modelled from the spec: [VL_WQ_WORDS_E] of verilatedos.h, the number of
    words of a medium (quad) value, which always occupies two words. *)
Definition VL_WQ_WORDS_E : Z := 2.

(** [VL_MEMCPY_W(owp, iwp, words)] *)
Definition VL_MEMCPY_W (owp iwp : WData) (words : Z) : WData :=
  for_loop 0 words (fun i owp => <[i := word iwp i]> owp) owp.

(** [VL_MEMSET_ZERO_W(owp + off, words)] and [VL_MEMSET_ONES_W(owp + off,
    words)]: the fill of [words] words that starts at word [off] of the
    buffer. *)
Definition VL_MEMSET_ZERO_W_at (owp : WData) (off words : Z) : WData :=
  for_loop off (off + words) (fun i owp => <[i := 0]> owp) owp.
Definition VL_MEMSET_ONES_W_at (owp : WData) (off words : Z) : WData :=
  for_loop off (off + words) (fun i owp => <[i := 0xffffffff]> owp) owp.

Definition VL_CLEAN_WW (obits : Z) (owp lwp : WData) : WData :=
  let words := VL_WORDS_I obits in
  let owp := VL_MEMCPY_W owp lwp (words - 1) in
  <[words - 1 := Z.land (word lwp (words - 1)) (VL_MASK_E obits)]> owp.

Definition VL_ASSIGN_W (obits : Z) (owp lwp : WData) : WData :=
  VL_MEMCPY_W owp lwp (VL_WORDS_I obits).

Definition VL_EXTEND_WI (obits lbits : Z) (owp : WData) (ld : Z) : WData :=
  let owp := <[0 := ld]> owp in
  VL_MEMSET_ZERO_W_at owp 1 (VL_WORDS_I obits - 1).
Definition VL_EXTEND_WQ (obits lbits : Z) (owp : WData) (ld : Z) : WData :=
  let owp := VL_SET_WQ owp ld in
  VL_MEMSET_ZERO_W_at owp VL_WQ_WORDS_E (VL_WORDS_I obits - VL_WQ_WORDS_E).
Definition VL_EXTEND_WW (obits lbits : Z) (owp lwp : WData) : WData :=
  let lwords := VL_WORDS_I lbits in
  let owp := VL_MEMSET_ZERO_W_at owp lwords (VL_WORDS_I obits - lwords) in
  VL_MEMCPY_W owp lwp lwords.

Definition VL_EXTENDS_WI (obits lbits : Z) (owp : WData) (ld : Z) : WData :=
  let owp := <[0 := ld]> owp in
  if negb (VL_SIGN_E lbits (word owp 0) =? 0) then
    let owp := <[0 := Z.lor (word owp 0) (bnot 32 (VL_MASK_E lbits))]> owp in
    VL_MEMSET_ONES_W_at owp 1 (VL_WORDS_I obits - 1)
  else VL_MEMSET_ZERO_W_at owp 1 (VL_WORDS_I obits - 1).
Definition VL_EXTENDS_WQ (obits lbits : Z) (owp : WData) (ld : Z) : WData :=
  let owp := VL_SET_WQ owp ld in
  if negb (VL_SIGN_E lbits (word owp 1) =? 0) then
    let owp := <[1 := Z.lor (word owp 1) (bnot 32 (VL_MASK_E lbits))]> owp in
    VL_MEMSET_ONES_W_at owp VL_WQ_WORDS_E (VL_WORDS_I obits - VL_WQ_WORDS_E)
  else VL_MEMSET_ZERO_W_at owp VL_WQ_WORDS_E (VL_WORDS_I obits - VL_WQ_WORDS_E).
Definition VL_EXTENDS_WW (obits lbits : Z) (owp lwp : WData) : WData :=
  let lwords := VL_WORDS_I lbits in
  let owp := <[lwords - 1 := word lwp (lwords - 1)]> owp in
  let owp :=
    if negb (VL_SIGN_E lbits (word lwp (lwords - 1)) =? 0) then
      let owp := <[lwords - 1 := Z.lor (word owp (lwords - 1))
                                       (bnot 32 (VL_MASK_E lbits))]> owp in
      VL_MEMSET_ONES_W_at owp lwords (VL_WORDS_I obits - lwords)
    else VL_MEMSET_ZERO_W_at owp lwords (VL_WORDS_I obits - lwords) in
  VL_MEMCPY_W owp lwp (lwords - 1).

(** ** One-hot tests and ceiling logarithm *)

Definition VL_ONEHOT_I (lhs : Z) : Z :=
  Z.land (if Z.land lhs (IData (lhs - 1)) =? 0 then 1 else 0) (if lhs =? 0 then 0 else 1).
Definition VL_ONEHOT_Q (lhs : Z) : Z :=
  Z.land (if Z.land lhs (QData (lhs - 1)) =? 0 then 1 else 0) (if lhs =? 0 then 0 else 1).
Definition VL_ONEHOT0_I (lhs : Z) : Z :=
  if Z.land lhs (IData (lhs - 1)) =? 0 then 1 else 0.
Definition VL_ONEHOT0_Q (lhs : Z) : Z :=
  if Z.land lhs (QData (lhs - 1)) =? 0 then 1 else 0.

(** The loop [for (; lhs != 0; ++shifts) lhs = lhs >> 1]; [None] is the
    loop still running when the fuel is spent. *)
Fixpoint VL_CLOG2_loop (fuel : nat) (lhs shifts : Z) : option Z :=
  if lhs =? 0 then Some shifts
  else match fuel with
       | O => None
       | Datatypes.S fuel' => VL_CLOG2_loop fuel' (Z.shiftr lhs 1) (shifts + 1)
       end.

Definition VL_CLOG2_I (fuel : nat) (lhs : Z) : option Z :=
  if lhs =? 0 then Some 0
  else let lhs := IData (lhs - 1) in VL_CLOG2_loop fuel lhs 0.
Definition VL_CLOG2_Q (fuel : nat) (lhs : Z) : option Z :=
  if lhs =? 0 then Some 0
  else let lhs := QData (lhs - 1) in VL_CLOG2_loop fuel lhs 0.

(** ** Concatenation *)

Definition VL_CONCAT_WII (obits lbits rbits : Z) (owp : WData) (ld rd : Z) : WData :=
  let owp := <[0 := rd]> owp in
  let owp := VL_MEMSET_ZERO_W_at owp 1 (VL_WORDS_I obits - 1) in
  _vl_insert_WI owp ld (rbits + lbits - 1) rbits 0.

Definition VL_CONCAT_WIW (obits lbits rbits : Z) (owp : WData) (ld : Z) (rwp : WData) : WData :=
  let rwords := VL_WORDS_I rbits in
  let owp := VL_MEMCPY_W owp rwp rwords in
  let owp := VL_MEMSET_ZERO_W_at owp rwords (VL_WORDS_I obits - rwords) in
  _vl_insert_WI owp ld (rbits + lbits - 1) rbits 0.

(** ** Replication, as a value *)

(** The value of [rep] copies of the [lbits]-bit field [ld] laid end to
    end. *)
Fixpoint replicate_val (rep : nat) (lbits ld : Z) : Z :=
  match rep with
  | O => 0
  | Datatypes.S r => ld + 2 ^ lbits * replicate_val r lbits ld
  end.

(** ** Count of set bits, wide one-hot tests *)

(** The masks are octal in the source: 033333333333, 011111111111,
    030707070707 and 077. *)
Definition VL_COUNTONES_I (lhs : Z) : Z :=
  let r := IData (IData (lhs - Z.land (Z.shiftr lhs 1) 0xdb6db6db)
                  - Z.land (Z.shiftr lhs 2) 0x49249249) in
  let r := Z.land (IData (r + Z.shiftr r 3)) 0xc71c71c7 in
  let r := IData (r + Z.shiftr r 6) in
  let r := Z.land (IData (IData (r + Z.shiftr r 12) + Z.shiftr r 24)) 0x3f in
  r.

Definition VL_COUNTONES_Q (lhs : Z) : Z :=
  IData (VL_COUNTONES_I (IData lhs) + VL_COUNTONES_I (IData (Z.shiftr lhs 32))).

Definition VL_COUNTONES_E (lhs : Z) : Z := VL_COUNTONES_I lhs.

Definition VL_COUNTONES_W (words : Z) (lwp : WData) : Z :=
  for_loop 0 words (fun i r => EData (r + VL_COUNTONES_E (word lwp i))) 0.

(** The number of set bits among the low [n] bits of [x]: the reading that
    the count-ones routines are compared with. *)
Fixpoint popcount (n : nat) (x : Z) : Z :=
  match n with
  | O => 0
  | Datatypes.S n' => Z.b2z (Z.odd x) + popcount n' (Z.div2 x)
  end.

(** The loop of [VL_ONEHOT_W] from word [i] on, [n] words to go; the two
    [return 0] statements leave it early. *)
Fixpoint VL_ONEHOT_W_loop (n : nat) (i : Z) (lwp : WData) (one : Z) : Z :=
  match n with
  | O => one
  | Datatypes.S n' =>
      if negb (word lwp i =? 0) then
        if negb (one =? 0) then 0
        else if negb (Z.land (word lwp i) (EData (word lwp i - 1)) =? 0) then 0
        else VL_ONEHOT_W_loop n' (i + 1) lwp 1
      else VL_ONEHOT_W_loop n' (i + 1) lwp one
  end.

Definition VL_ONEHOT_W (words : Z) (lwp : WData) : Z :=
  VL_ONEHOT_W_loop (Z.to_nat words) 0 lwp 0.

(** The same loop in [VL_ONEHOT0_W], which ends in [return 1]. *)
Fixpoint VL_ONEHOT0_W_loop (n : nat) (i : Z) (lwp : WData) (one : bool) : Z :=
  match n with
  | O => 1
  | Datatypes.S n' =>
      if negb (word lwp i =? 0) then
        if one then 0
        else if negb (Z.land (word lwp i) (EData (word lwp i - 1)) =? 0) then 0
        else VL_ONEHOT0_W_loop n' (i + 1) lwp true
      else VL_ONEHOT0_W_loop n' (i + 1) lwp one
  end.

Definition VL_ONEHOT0_W (words : Z) (lwp : WData) : Z :=
  VL_ONEHOT0_W_loop (Z.to_nat words) 0 lwp false.

(** The number whose digits in base [B] are [ds], least significant first. *)
Definition digits_val (B : Z) (ds : list Z) : Z :=
  fold_right (fun d acc => d + B * acc) 0 ds.

(** ** Signed wide multiply *)


Section ScratchMultiply.
Variable VL_MULS_MAX_WORDS : Z.


End ScratchMultiply.

(** ** Wide ceiling logarithm and most significant set bit *)

(** Modelled from the spec: [VL_BITISSET_E(data, bit)] of verilatedos.h, the
    test of one bit of a word in the bit-by-bit scan: nonzero exactly when
    the bit is set. *)
Definition VL_BITISSET_E (data bit : Z) : Z :=
  Z.land data (EData (Z.shiftl 1 (VL_BITBIT_E bit))).

(** [for (bit = n - 1; bit >= 0; --bit) if (VL_BITISSET_E(w, bit)) return bit]:
    [Some bit] is the early return, [None] the loop running to its end. *)
Fixpoint most_set_bit_scan (n : nat) (w : Z) : option Z :=
  match n with
  | O => None
  | Datatypes.S n' =>
      if negb (VL_BITISSET_E w (Z.of_nat n') =? 0) then Some (Z.of_nat n')
      else most_set_bit_scan n' w
  end.

(** The word loop of [VL_CLOG2_W] and [VL_MOSTSETBITP1_W], from word [n - 1]
    down to word 0, returning the position found plus [adjust]. *)
Fixpoint most_set_bit_loop (n : nat) (lwp : WData) (adjust : Z) : Z :=
  match n with
  | O => 0
  | Datatypes.S n' =>
      let i := Z.of_nat n' in
      if negb (word lwp i =? 0) then
        match most_set_bit_scan (Z.to_nat VL_EDATASIZE) (word lwp i) with
        | Some bit => IData (i * VL_EDATASIZE + bit + adjust)
        | None => most_set_bit_loop n' lwp adjust
        end
      else most_set_bit_loop n' lwp adjust
  end.

Definition VL_CLOG2_W (words : Z) (lwp : WData) : Z :=
  let adjust := if VL_COUNTONES_W words lwp =? 1 then 0 else 1 in
  most_set_bit_loop (Z.to_nat (words - 1 + 1)) lwp adjust.

Definition VL_MOSTSETBITP1_W (words : Z) (lwp : WData) : Z :=
  most_set_bit_loop (Z.to_nat (words - 1 + 1)) lwp 1.

(** ** Concatenation with a wide left operand *)

Definition VL_CONCAT_WWI (obits lbits rbits : Z) (owp lwp : WData) (rd : Z) : WData :=
  let owp := <[0 := rd]> owp in
  let owp := VL_MEMSET_ZERO_W_at owp 1 (VL_WORDS_I obits - 1) in
  _vl_insert_WW owp lwp (rbits + lbits - 1) rbits 0.

Definition VL_CONCAT_WWW (obits lbits rbits : Z) (owp lwp rwp : WData) : WData :=
  let rwords := VL_WORDS_I rbits in
  let owp := VL_MEMCPY_W owp rwp rwords in
  let owp := VL_MEMSET_ZERO_W_at owp rwords (VL_WORDS_I obits - rwords) in
  _vl_insert_WW owp lwp (rbits + lbits - 1) rbits 0.

(** ** Signed ordering macros; word and quad insert *)

Definition VL_LTS_IWW (lbits : Z) (lwp rwp : WData) : Z :=
  if _vl_cmps_w lbits lwp rwp <? 0 then 1 else 0.
Definition VL_LTES_IWW (lbits : Z) (lwp rwp : WData) : Z :=
  if _vl_cmps_w lbits lwp rwp <=? 0 then 1 else 0.
Definition VL_GTS_IWW (lbits : Z) (lwp rwp : WData) : Z :=
  if _vl_cmps_w lbits lwp rwp >? 0 then 1 else 0.
Definition VL_GTES_IWW (lbits : Z) (lwp rwp : WData) : Z :=
  if _vl_cmps_w lbits lwp rwp >=? 0 then 1 else 0.

(** [_vl_insert_II] on an [IData&] and [_vl_insert_QQ]: the new value of
    [lhsr]. *)
Definition _vl_insert_II (lhsr ld hbit lbit rbits : Z) : Z :=
  let cleanmask := VL_MASK_I rbits in
  let insmask := IData (Z.shiftl (VL_MASK_I (hbit - lbit + 1)) lbit) in
  Z.lor (Z.land lhsr (bnot 32 insmask))
        (Z.land (IData (Z.shiftl ld lbit)) (Z.land insmask cleanmask)).

Definition _vl_insert_QQ (lhsr ld hbit lbit rbits : Z) : Z :=
  let cleanmask := VL_MASK_Q rbits in
  let insmask := QData (Z.shiftl (VL_MASK_Q (hbit - lbit + 1)) lbit) in
  Z.lor (Z.land lhsr (bnot 64 insmask))
        (Z.land (QData (Z.shiftl ld lbit)) (Z.land insmask cleanmask)).

(** * Properties *)

(** Case analysis on the integer comparisons of the goal. *)
Ltac zcmp :=
  repeat match goal with
    | |- context [?a <=? ?b] => destruct (Z.leb_spec a b)
    | |- context [?a <? ?b] => destruct (Z.ltb_spec a b)
    | |- context [?a =? ?b] => destruct (Z.eqb_spec a b)
    | |- context [?a >=? ?b] => rewrite (Z.geb_leb a b)
    | |- context [?a >? ?b] => rewrite (Z.gtb_ltb a b)
    end;
  cbn [andb orb negb]; try lia.


(** ** Machine arithmetic *)

Lemma wrap_range w x : 0 <= w -> 0 <= wrap w x < 2 ^ w.
Proof. intros Hw. unfold wrap. apply Z.mod_pos_bound. apply Z.pow_pos_nonneg; lia. Qed.

Lemma wrap_small w x : 0 <= x < 2 ^ w -> wrap w x = x.
Proof. intros H. unfold wrap. apply Z.mod_small; assumption. Qed.

Lemma wrap_land w x : 0 <= w -> wrap w x = Z.land x (Z.ones w).
Proof. intros Hw. unfold wrap. symmetry. apply Z.land_ones; assumption. Qed.

Lemma IData_range x : 0 <= IData x < 2 ^ 32.
Proof. apply wrap_range; lia. Qed.

Lemma QData_range x : 0 <= QData x < 2 ^ 64.
Proof. apply wrap_range; lia. Qed.

Lemma VL_WORDS_I_div nbits : 0 <= nbits -> VL_WORDS_I nbits = (nbits + 31) / 32.
Proof.
  intros H. unfold VL_WORDS_I, VL_EDATASIZE.
  rewrite Z.quot_div_nonneg by lia. reflexivity.
Qed.

Lemma VL_BITWORD_E_div bit : VL_BITWORD_E bit = bit / 32.
Proof. unfold VL_BITWORD_E, VL_EDATASIZE_LOG2. rewrite Z.shiftr_div_pow2 by lia. reflexivity. Qed.

Lemma VL_BITBIT_E_mod bit : VL_BITBIT_E bit = bit mod 32.
Proof.
  unfold VL_BITBIT_E, VL_SIZEBITS_E, VL_EDATASIZE.
  change (32 - 1) with (Z.ones 5). rewrite Z.land_ones by lia. reflexivity.
Qed.

Lemma VL_BITBIT_I_mod bit : VL_BITBIT_I bit = bit mod 32.
Proof. apply VL_BITBIT_E_mod. Qed.

Lemma VL_BITBIT_Q_mod bit : VL_BITBIT_Q bit = bit mod 64.
Proof.
  unfold VL_BITBIT_Q, VL_SIZEBITS_Q, VL_QUADSIZE.
  change (64 - 1) with (Z.ones 6). rewrite Z.land_ones by lia. reflexivity.
Qed.

(** The mask of a width keeps the bits below [nbits mod 32], or the whole
    word when that is 0. *)
Lemma VL_MASK_I_ones nbits :
  VL_MASK_I nbits = Z.ones (if nbits mod 32 =? 0 then 32 else nbits mod 32).
Proof.
  unfold VL_MASK_I. fold (VL_BITBIT_I nbits). rewrite VL_BITBIT_I_mod.
  pose proof (Z.mod_pos_bound nbits 32 ltac:(lia)) as Hm.
  destruct (nbits mod 32 =? 0) eqn:E.
  - reflexivity.
  - apply Z.eqb_neq in E. unfold IData. rewrite Z.shiftl_1_l.
    rewrite wrap_small.
    + rewrite Z.ones_equiv. lia.
    + assert (2 ^ (nbits mod 32) <= 2 ^ 31) by (apply Z.pow_le_mono_r; lia).
      assert (0 < 2 ^ (nbits mod 32)) by (apply Z.pow_pos_nonneg; lia).
      lia.
Qed.

Lemma VL_MASK_Q_ones nbits :
  VL_MASK_Q nbits = Z.ones (if nbits mod 64 =? 0 then 64 else nbits mod 64).
Proof.
  unfold VL_MASK_Q. fold (VL_BITBIT_Q nbits). rewrite VL_BITBIT_Q_mod.
  pose proof (Z.mod_pos_bound nbits 64 ltac:(lia)) as Hm.
  destruct (nbits mod 64 =? 0) eqn:E.
  - reflexivity.
  - apply Z.eqb_neq in E. unfold QData. rewrite Z.shiftl_1_l.
    rewrite wrap_small.
    + rewrite Z.ones_equiv. lia.
    + assert (2 ^ (nbits mod 64) <= 2 ^ 63) by (apply Z.pow_le_mono_r; lia).
      assert (0 < 2 ^ (nbits mod 64)) by (apply Z.pow_pos_nonneg; lia).
      lia.
Qed.

Lemma ones_pos k : 1 <= k -> 1 <= Z.ones k.
Proof.
  intros Hk. rewrite Z.ones_equiv.
  assert (2 ^ 1 <= 2 ^ k) by (apply Z.pow_le_mono_r; lia). lia.
Qed.

Lemma VL_MASK_I_pos nbits : 1 <= VL_MASK_I nbits.
Proof.
  rewrite VL_MASK_I_ones. pose proof (Z.mod_pos_bound nbits 32 ltac:(lia)).
  apply ones_pos. destruct (Z.eqb_spec (nbits mod 32) 0); lia.
Qed.

Lemma VL_MASK_Q_pos nbits : 1 <= VL_MASK_Q nbits.
Proof.
  rewrite VL_MASK_Q_ones. pose proof (Z.mod_pos_bound nbits 64 ltac:(lia)).
  apply ones_pos. destruct (Z.eqb_spec (nbits mod 64) 0); lia.
Qed.

(** ** Loops *)

Lemma for_up_ind {S : Type} (P : Z -> S -> Prop) (body : Z -> S -> S) n i s :
  P i s ->
  (forall j t, i <= j < i + Z.of_nat n -> P j t -> P (j + 1) (body j t)) ->
  P (i + Z.of_nat n) (for_up n i body s).
Proof.
  revert i s. induction n as [|n IH]; intros i s H0 Hstep.
  - simpl. replace (i + Z.of_nat 0) with i by lia. exact H0.
  - cbn [for_up]. replace (i + Z.of_nat (Datatypes.S n)) with ((i + 1) + Z.of_nat n) by lia.
    apply IH.
    + apply Hstep; [lia | exact H0].
    + intros j t Hj. apply Hstep. lia.
Qed.

Lemma for_loop_ind {S : Type} (P : Z -> S -> Prop) (body : Z -> S -> S) lo hi s :
  lo <= hi ->
  P lo s ->
  (forall j t, lo <= j < hi -> P j t -> P (j + 1) (body j t)) ->
  P hi (for_loop lo hi body s).
Proof.
  intros Hle H0 Hstep. unfold for_loop.
  replace hi with (lo + Z.of_nat (Z.to_nat (hi - lo))) at 1 by lia.
  apply for_up_ind; [exact H0 |].
  intros j t Hj. apply Hstep. lia.
Qed.

Lemma for_loop_empty {S : Type} (body : Z -> S -> S) lo hi s :
  hi <= lo -> for_loop lo hi body s = s.
Proof.
  intros H. unfold for_loop. replace (Z.to_nat (hi - lo)) with O by lia. reflexivity.
Qed.

(** ** Wide buffers *)

Lemma word_insert_eq (wp : WData) i v : word (<[i := v]> wp) i = v.
Proof. unfold word. rewrite lookup_insert_eq. reflexivity. Qed.

Lemma word_insert_ne (wp : WData) i j v : i <> j -> word (<[i := v]> wp) j = word wp j.
Proof. intros H. unfold word. rewrite lookup_insert_ne by exact H. reflexivity. Qed.

Lemma wide_zero_spec n (wp : WData) :
  wide_zero n wp = true <-> forall i, 0 <= i < n -> word wp i = 0.
Proof.
  unfold wide_zero. rewrite forallb_forall. split.
  - intros H i Hi. apply Z.eqb_eq, H. apply list_elem_of_In, elem_of_seqZ. lia.
  - intros H i Hi. apply list_elem_of_In, elem_of_seqZ in Hi. apply Z.eqb_eq, H. lia.
Qed.

Lemma wide_words_spec n (wp : WData) :
  wide_words n wp = true ->
  forall i, 0 <= i < n -> wp !! i = Some (word wp i) /\ 0 <= word wp i < 2 ^ 32.
Proof.
  unfold wide_words. intros H i Hi.
  rewrite forallb_forall in H.
  specialize (H i ltac:(apply list_elem_of_In, elem_of_seqZ; lia)).
  unfold word. destruct (wp !! i) as [w|]; [| discriminate].
  simpl. split; [reflexivity | lia].
Qed.

Lemma word_store_val n i v (owp : WData) j :
  word (store_val n i v owp) j =
  if (i <=? j) && (j <? i + Z.of_nat n)
  then Z.land (Z.shiftr v (32 * (j - i))) 0xffffffff
  else word owp j.
Proof.
  revert i v owp. induction n as [|n IH]; intros i v owp.
  - simpl. zcmp; reflexivity.
  - cbn [store_val]. rewrite IH.
    destruct (Z.eq_dec i j) as [->|Hne].
    + rewrite word_insert_eq. zcmp.
      replace (32 * (j - j)) with 0 by lia. rewrite Z.shiftr_0_r. reflexivity.
    + rewrite word_insert_ne by exact Hne. zcmp; try reflexivity.
      rewrite Z.shiftr_shiftr by lia. do 2 f_equal. lia.
Qed.

Lemma wide_val_zero n i (wp : WData) :
  (forall k, i <= k < i + Z.of_nat n -> word wp k = 0) -> wide_val n i wp = 0.
Proof.
  revert i. induction n as [|n IH]; intros i H; [reflexivity |].
  cbn [wide_val]. rewrite H by lia. rewrite IH; [lia |].
  intros k Hk. apply H. lia.
Qed.

(** The model of the absent long division returns all-zero words on a zero
    divisor. *)
Lemma _vl_moddiv_w_zero lbits (owp lwp rwp : WData) m :
  wide_zero (VL_WORDS_I lbits) rwp = true ->
  wide_zero (VL_WORDS_I lbits) (_vl_moddiv_w lbits owp lwp rwp m) = true.
Proof.
  intros Hz. rewrite wide_zero_spec in Hz. apply wide_zero_spec. intros i Hi.
  unfold _vl_moddiv_w. rewrite word_store_val.
  rewrite (wide_val_zero _ 0 rwp) by (intros k Hk; apply Hz; lia).
  simpl (0 =? 0). cbv iota. rewrite Z.shiftr_0_l.
  zcmp. reflexivity.
Qed.

Lemma VL_NEGATE_W_zero words (owp lwp : WData) :
  wide_zero words lwp = true ->
  wide_zero words (VL_NEGATE_W words owp lwp) = true.
Proof.
  intros Hz. rewrite wide_zero_spec in Hz. apply wide_zero_spec.
  unfold VL_NEGATE_W.
  destruct (Z_le_gt_dec 0 words) as [Hw|Hw]; [| intros i Hi; lia].
  pose (P := fun (j : Z) (t : Z * WData) =>
               fst t = 1 /\ forall k, 0 <= k < j -> word (snd t) k = 0).
  assert (HP : P words
    (for_loop 0 words
       (fun i '(carry, owp) =>
          let owp := <[i := EData (bnot 32 (word lwp i) + carry)]> owp in
          let carry := if word owp i <? bnot 32 (word lwp i) then 1 else 0 in
          (carry, owp)) (1, owp))).
  { apply for_loop_ind; [exact Hw | split; [reflexivity | intros k Hk; lia] |].
    intros j [c o] Hj [Hc Ho]. simpl in Hc. subst c. simpl in Ho.
    rewrite (Hz j Hj). cbn zeta. rewrite word_insert_eq.
    split; [reflexivity |]. simpl snd. intros k Hk.
    destruct (Z.eq_dec j k) as [->|Hne].
    - rewrite word_insert_eq. reflexivity.
    - rewrite word_insert_ne by exact Hne. apply Ho. lia. }
  destruct HP as [_ HP]. exact HP.
Qed.

Lemma _vl_clean_inplace_w_zero lbits (owp : WData) :
  wide_zero (VL_WORDS_I lbits) owp = true ->
  wide_zero (VL_WORDS_I lbits) (_vl_clean_inplace_w lbits owp) = true.
Proof.
  intros Hz. rewrite wide_zero_spec in Hz. apply wide_zero_spec. intros i Hi.
  unfold _vl_clean_inplace_w.
  destruct (Z.eq_dec (VL_WORDS_I lbits - 1) i) as [<-|Hne].
  - rewrite word_insert_eq. rewrite Hz by lia. apply Z.land_0_l.
  - rewrite word_insert_ne by exact Hne. apply Hz, Hi.
Qed.

Lemma VL_SIGN_E_zero nbits : VL_SIGN_E nbits 0 = 0.
Proof. unfold VL_SIGN_E. apply Z.shiftr_0_l. Qed.

(** Past the capacity of the scratch arrays the signed wide division and
    modulus have no result, whatever the capacity is. *)
Lemma VL_DIVS_WWW_past_capacity VL_MULS_MAX_WORDS lbits (owp lwp rwp : WData) :
  VL_MULS_MAX_WORDS < VL_WORDS_I lbits ->
  VL_DIVS_WWW VL_MULS_MAX_WORDS lbits owp lwp rwp = None /\
  VL_MODDIVS_WWW VL_MULS_MAX_WORDS lbits owp lwp rwp = None.
Proof.
  intros H. unfold VL_DIVS_WWW, VL_MODDIVS_WWW. cbv zeta.
  destruct (Z.leb_spec (VL_WORDS_I lbits) VL_MULS_MAX_WORDS); [lia |].
  split; reflexivity.
Qed.

(** Within the capacity, the words a call writes to a scratch array are
    inside it: a negated and cleaned copy, and a quotient or remainder,
    written into an empty array of [VL_MULS_MAX_WORDS] words, leave every
    word outside [0 .. VL_MULS_MAX_WORDS - 1] unwritten. *)
Lemma scratch_within_capacity VL_MULS_MAX_WORDS lbits (lwp rwp : WData) j :
  1 <= lbits -> VL_WORDS_I lbits <= VL_MULS_MAX_WORDS ->
  ~ 0 <= j < VL_MULS_MAX_WORDS ->
  _vl_clean_inplace_w lbits (VL_NEGATE_W (VL_WORDS_I lbits) ∅ lwp) !! j = None /\
  VL_DIV_WWW lbits ∅ lwp rwp !! j = None /\
  VL_MODDIV_WWW lbits ∅ lwp rwp !! j = None.
Proof.
  intros Hl Hcap Hj.
  assert (Hn : 1 <= VL_WORDS_I lbits).
  { rewrite VL_WORDS_I_div by lia. apply Z.div_le_lower_bound; lia. }
  assert (Hs : forall n i v (o : WData),
             0 <= i -> ~ i <= j < i + Z.of_nat n -> o !! j = None ->
             store_val n i v o !! j = None).
  { induction n as [|n IH]; intros i v o Hi Hout Ho; [exact Ho |].
    cbn [store_val]. apply IH; [lia | lia |].
    rewrite lookup_insert_ne by lia. exact Ho. }
  split; [| split].
  - unfold _vl_clean_inplace_w. rewrite lookup_insert_ne by lia.
    unfold VL_NEGATE_W.
    apply (for_loop_ind (fun (i : Z) (s : Z * WData) => snd s !! j = None));
      [lia | reflexivity |].
    intros i [c o] Hi Ho. cbn [snd] in *. rewrite lookup_insert_ne by lia. exact Ho.
  - unfold VL_DIV_WWW, _vl_moddiv_w. apply Hs; [lia | lia | reflexivity].
  - unfold VL_MODDIV_WWW, _vl_moddiv_w. apply Hs; [lia | lia | reflexivity].
Qed.

Lemma VL_DIVS_WWW_zero VL_MULS_MAX_WORDS lbits (owp lwp rwp : WData) :
  1 <= lbits ->
  VL_WORDS_I lbits <= VL_MULS_MAX_WORDS ->
  wide_zero (VL_WORDS_I lbits) rwp = true ->
  exists r, VL_DIVS_WWW VL_MULS_MAX_WORDS lbits owp lwp rwp = Some r /\
            wide_zero (VL_WORDS_I lbits) r = true.
Proof.
  intros Hl Hcap Hz. unfold VL_DIVS_WWW. cbv zeta.
  destruct (Z.leb_spec (VL_WORDS_I lbits) VL_MULS_MAX_WORDS); [| lia]. cbn [negb].
  assert (Hn : 1 <= VL_WORDS_I lbits).
  { rewrite VL_WORDS_I_div by lia. apply Z.div_le_lower_bound; lia. }
  assert (Hr : word rwp (VL_WORDS_I lbits - 1) = 0).
  { apply wide_zero_spec with (i := VL_WORDS_I lbits - 1) in Hz; [exact Hz | lia]. }
  rewrite Hr, VL_SIGN_E_zero. cbn [Z.eqb negb andb orb].
  rewrite !andb_true_r, !andb_false_r, !orb_false_r.
  destruct (negb (VL_SIGN_E lbits (word lwp (VL_WORDS_I lbits - 1)) =? 0));
    (eexists; split; [reflexivity |]).
  - apply _vl_clean_inplace_w_zero, VL_NEGATE_W_zero.
    unfold VL_DIV_WWW. apply _vl_moddiv_w_zero, Hz.
  - unfold VL_DIV_WWW. apply _vl_moddiv_w_zero, Hz.
Qed.

Lemma VL_MODDIVS_WWW_zero VL_MULS_MAX_WORDS lbits (owp lwp rwp : WData) :
  1 <= lbits ->
  VL_WORDS_I lbits <= VL_MULS_MAX_WORDS ->
  wide_zero (VL_WORDS_I lbits) rwp = true ->
  exists r, VL_MODDIVS_WWW VL_MULS_MAX_WORDS lbits owp lwp rwp = Some r /\
            wide_zero (VL_WORDS_I lbits) r = true.
Proof.
  intros Hl Hcap Hz. unfold VL_MODDIVS_WWW. cbv zeta.
  destruct (Z.leb_spec (VL_WORDS_I lbits) VL_MULS_MAX_WORDS); [| lia]. cbn [negb].
  assert (Hn : 1 <= VL_WORDS_I lbits).
  { rewrite VL_WORDS_I_div by lia. apply Z.div_le_lower_bound; lia. }
  assert (Hr : word rwp (VL_WORDS_I lbits - 1) = 0).
  { apply wide_zero_spec with (i := VL_WORDS_I lbits - 1) in Hz; [exact Hz | lia]. }
  rewrite Hr, VL_SIGN_E_zero. cbn [Z.eqb negb].
  destruct (negb (VL_SIGN_E lbits (word lwp (VL_WORDS_I lbits - 1)) =? 0));
    (eexists; split; [reflexivity |]).
  - apply _vl_clean_inplace_w_zero, VL_NEGATE_W_zero.
    unfold VL_MODDIV_WWW. apply _vl_moddiv_w_zero, Hz.
  - unfold VL_MODDIV_WWW. apply _vl_moddiv_w_zero, Hz.
Qed.

(** C7, as stated (counterexample): the signed wide division and modulus
    by zero have no result at a width whose words do not fit the scratch
    arrays.  With a capacity of 128 words and a width of 4097 bits (129
    words), a negative dividend and a zero divisor, the assertion
    [lwords <= VL_MULS_MAX_WORDS] fails, and without it the negated dividend
    is written past the end of [lwstore].  By [VL_DIVS_WWW_past_capacity]
    the same happens at every capacity, one word above it. *)
Lemma div_mod_by_zero_past_capacity_counterexample :
  wide_zero 129 (wide (repeat 0 129)) = true /\
  VL_SIGN_E 4097 (word (wide (repeat 0 128 ++ [1])) 128) = 1 /\
  VL_DIVS_WWW 128 4097 (wide (repeat 0 129)) (wide (repeat 0 128 ++ [1]))
    (wide (repeat 0 129)) = None /\
  VL_MODDIVS_WWW 128 4097 (wide (repeat 0 129)) (wide (repeat 0 128 ++ [1]))
    (wide (repeat 0 129)) = None.
Proof. repeat split; vm_compute; reflexivity. Qed.

(** C7, amended: every division and every modulus, unsigned and signed,
    narrow, medium and wide, returns 0 (and does not trap) when the divisor
    is zero, whatever the dividend: at every width for the narrow, medium
    and unsigned wide variants, and for the signed wide variants at every
    width whose [words(lbits)] words fit the scratch arrays
    ([words(lbits) <= VL_MULS_MAX_WORDS], whatever that capacity is).  For
    the wide variants the divisor is a buffer whose [words(lbits)] words are
    zero and the result is a buffer whose [words(lbits)] words are zero. *)
Theorem div_mod_by_zero_is_zero (VL_MULS_MAX_WORDS lbits lhs : Z) (owp lwp rwp : WData) :
  VL_DIV_III lbits lhs 0 = 0 /\
  VL_DIV_QQQ lbits lhs 0 = 0 /\
  VL_MODDIV_III lbits lhs 0 = 0 /\
  VL_MODDIV_QQQ lbits lhs 0 = 0 /\
  VL_DIVS_III lbits lhs 0 = Some 0 /\
  VL_DIVS_QQQ lbits lhs 0 = Some 0 /\
  VL_MODDIVS_III lbits lhs 0 = Some 0 /\
  VL_MODDIVS_QQQ lbits lhs 0 = Some 0 /\
  (1 <= lbits ->
   wide_zero (VL_WORDS_I lbits) rwp = true ->
   wide_zero (VL_WORDS_I lbits) (VL_DIV_WWW lbits owp lwp rwp) = true /\
   wide_zero (VL_WORDS_I lbits) (VL_MODDIV_WWW lbits owp lwp rwp) = true /\
   (VL_WORDS_I lbits <= VL_MULS_MAX_WORDS ->
    (exists r, VL_DIVS_WWW VL_MULS_MAX_WORDS lbits owp lwp rwp = Some r /\
               wide_zero (VL_WORDS_I lbits) r = true) /\
    (exists r, VL_MODDIVS_WWW VL_MULS_MAX_WORDS lbits owp lwp rwp = Some r /\
               wide_zero (VL_WORDS_I lbits) r = true))).
Proof.
  do 8 (split; [reflexivity |]).
  intros Hl Hz. split; [| split].
  - apply _vl_moddiv_w_zero, Hz.
  - apply _vl_moddiv_w_zero, Hz.
  - intros Hcap. split.
    + apply VL_DIVS_WWW_zero; assumption.
    + apply VL_MODDIVS_WWW_zero; assumption.
Qed.

Lemma div_mod_by_zero_is_zero_witness :
  VL_DIV_III 8 200 0 = 0 /\
  VL_MODDIVS_QQQ 40 12345 0 = Some 0 /\
  exists r, VL_DIVS_WWW 128 70 (wide [9; 9; 9]) (wide [5; 0; 0x3f]) (wide [0; 0; 0]) = Some r /\
            wide_zero 3 r = true.
Proof.
  pose proof (div_mod_by_zero_is_zero 128 8 200 (wide []) (wide []) (wide [0])) as H8.
  pose proof (div_mod_by_zero_is_zero 128 40 12345 (wide []) (wide []) (wide [0; 0])) as H40.
  pose proof (div_mod_by_zero_is_zero 128 70 0 (wide [9; 9; 9]) (wide [5; 0; 0x3f])
                (wide [0; 0; 0])) as H70.
  split; [apply H8 |]. split; [apply H40 |].
  apply H70; [lia | vm_compute; reflexivity | vm_compute; discriminate].
Defined.

(** ** Checking a decidable property over a range of widths *)

Lemma forallb_seqZ (P : Z -> bool) lo n :
  forallb P (seqZ lo n) = true -> forall x, lo <= x < lo + n -> P x = true.
Proof.
  intros H x Hx. rewrite forallb_forall in H. apply H.
  apply list_elem_of_In, elem_of_seqZ. exact Hx.
Qed.

Lemma option_Z_eqb_eq a b : option_Z_eqb a b = true -> a = b.
Proof.
  destruct a as [x|], b as [y|]; simpl; intros H; try discriminate; [| reflexivity].
  apply Z.eqb_eq in H. congruence.
Qed.

(** ** Signed power *)

Lemma shiftr_testbit_nonzero x k :
  0 <= k -> Z.testbit x k = true -> Z.shiftr x k <> 0.
Proof.
  intros Hk Hb Hz.
  assert (H : Z.testbit (Z.shiftr x k) 0 = true).
  { rewrite Z.shiftr_spec by lia. simpl. exact Hb. }
  rewrite Hz in H. discriminate.
Qed.

Lemma testbit_true_nonzero x k : Z.testbit x k = true -> x <> 0.
Proof. intros H ->. rewrite Z.bits_0 in H. discriminate. Qed.

Lemma VL_SIGN_I_set rbits rhs :
  1 <= rbits <= 32 -> Z.testbit rhs (rbits - 1) = true -> VL_SIGN_I rbits rhs <> 0.
Proof.
  intros Hr Hb. unfold VL_SIGN_I. rewrite VL_BITBIT_I_mod.
  rewrite Z.mod_small by lia. apply shiftr_testbit_nonzero; [lia | exact Hb].
Qed.

Lemma VL_SIGN_Q_set rbits rhs :
  1 <= rbits <= 64 -> Z.testbit rhs (rbits - 1) = true -> VL_SIGN_Q rbits rhs <> 0.
Proof.
  intros Hr Hb. unfold VL_SIGN_Q. rewrite VL_BITBIT_Q_mod.
  rewrite Z.mod_small by lia. apply shiftr_testbit_nonzero; [lia | exact Hb].
Qed.

Lemma land_1_odd x : (Z.land x 1 =? 0) = negb (Z.odd x).
Proof.
  change 1 with (Z.ones 1). rewrite Z.land_ones by lia. change (2 ^ 1) with 2.
  rewrite Zmod_odd. destruct (Z.odd x); reflexivity.
Qed.

(** C8: for a signed exponent whose sign bit (at its declared width) is
    set, the signed power is 0 for base 0, 1 for base 1, for the signed base
    -1 (all ones at the output width) -1 when the exponent is odd and 1 when
    it is even, and 0 for every other base; an exponent equal to 0 yields 1
    whatever the base and the sign flags. *)
Theorem powss_negative_exponent (obits lbits rbits lhs rhs : Z) (lsign : bool) :
  (1 <= rbits <= 32 -> Z.testbit rhs (rbits - 1) = true ->
   (lhs = 0 -> VL_POWSS_III obits lbits rbits lhs rhs lsign true = 0) /\
   (lhs = 1 -> VL_POWSS_III obits lbits rbits lhs rhs lsign true = 1) /\
   (lsign = true -> lhs = VL_MASK_I obits ->
    VL_POWSS_III obits lbits rbits lhs rhs lsign true
    = if Z.odd rhs then VL_MASK_I obits else 1) /\
   (lhs <> 0 -> lhs <> 1 -> ~ (lsign = true /\ lhs = VL_MASK_I obits) ->
    VL_POWSS_III obits lbits rbits lhs rhs lsign true = 0)) /\
  (1 <= rbits <= 64 -> Z.testbit rhs (rbits - 1) = true ->
   (lhs = 0 -> VL_POWSS_QQQ obits lbits rbits lhs rhs lsign true = 0) /\
   (lhs = 1 -> VL_POWSS_QQQ obits lbits rbits lhs rhs lsign true = 1) /\
   (lsign = true -> lhs = VL_MASK_Q obits ->
    VL_POWSS_QQQ obits lbits rbits lhs rhs lsign true
    = if Z.odd rhs then VL_MASK_Q obits else 1) /\
   (lhs <> 0 -> lhs <> 1 -> ~ (lsign = true /\ lhs = VL_MASK_Q obits) ->
    VL_POWSS_QQQ obits lbits rbits lhs rhs lsign true = 0)) /\
  (forall rsign, VL_POWSS_III obits lbits rbits lhs 0 lsign rsign = 1) /\
  (forall rsign, VL_POWSS_QQQ obits lbits rbits lhs 0 lsign rsign = 1).
Proof.
  split; [| split; [| split; intros rsign; reflexivity]].
  - intros Hr Hb. pose proof (testbit_true_nonzero _ _ Hb) as Hnz.
    pose proof (VL_SIGN_I_set _ _ Hr Hb) as Hs.
    apply Z.eqb_neq in Hnz, Hs. unfold VL_POWSS_III. rewrite Hnz, Hs. cbn [andb negb].
    rewrite land_1_odd, negb_involutive.
    repeat split.
    + intros ->. reflexivity.
    + intros ->. reflexivity.
    + intros -> ->. rewrite Z.eqb_refl. cbn [andb].
      pose proof (VL_MASK_I_pos obits) as Hpos.
      destruct (Z.eqb_spec (VL_MASK_I obits) 0) as [E0|E0]; [lia |].
      destruct (VL_MASK_I obits =? 1) eqn:E1; [| reflexivity].
      apply Z.eqb_eq in E1. rewrite E1. destruct (Z.odd rhs); reflexivity.
    + intros H0 H1 Hm. apply Z.eqb_neq in H0, H1. rewrite H0, H1.
      destruct lsign; [| reflexivity]. cbn [andb].
      destruct (lhs =? VL_MASK_I obits) eqn:E; [| reflexivity].
      apply Z.eqb_eq in E. exfalso. apply Hm. split; [reflexivity | exact E].
  - intros Hr Hb. pose proof (testbit_true_nonzero _ _ Hb) as Hnz.
    pose proof (VL_SIGN_Q_set _ _ Hr Hb) as Hs.
    apply Z.eqb_neq in Hnz, Hs. unfold VL_POWSS_QQQ. rewrite Hnz, Hs. cbn [andb negb].
    rewrite land_1_odd, negb_involutive.
    repeat split.
    + intros ->. reflexivity.
    + intros ->. reflexivity.
    + intros -> ->. rewrite Z.eqb_refl. cbn [andb].
      pose proof (VL_MASK_Q_pos obits) as Hpos.
      destruct (Z.eqb_spec (VL_MASK_Q obits) 0) as [E0|E0]; [lia |].
      destruct (VL_MASK_Q obits =? 1) eqn:E1; [| reflexivity].
      apply Z.eqb_eq in E1. rewrite E1. destruct (Z.odd rhs); reflexivity.
    + intros H0 H1 Hm. apply Z.eqb_neq in H0, H1. rewrite H0, H1.
      destruct lsign; [| reflexivity]. cbn [andb].
      destruct (lhs =? VL_MASK_Q obits) eqn:E; [| reflexivity].
      apply Z.eqb_eq in E. exfalso. apply Hm. split; [reflexivity | exact E].
Qed.

Lemma powss_negative_exponent_witness :
  VL_POWSS_III 8 8 8 0xff 0x81 true true = 0xff /\
  VL_POWSS_QQQ 40 40 40 5 (2 ^ 39) false true = 0.
Proof.
  split.
  - exact (proj1 (proj2 (proj2 (proj1 (powss_negative_exponent 8 8 8 0xff 0x81 true)
             ltac:(lia) ltac:(reflexivity)))) eq_refl eq_refl).
  - refine (proj2 (proj2 (proj2 (proj1 (proj2 (powss_negative_exponent 40 40 40 5 (2 ^ 39) false))
             ltac:(lia) ltac:(reflexivity)))) _ _ _).
    + lia.
    + lia.
    + intros [H _]. discriminate H.
Defined.

(** ** Replication with a zero count *)

(** C10: with replication count 0 the replication operations return the
    base value itself, one copy: the narrow and medium variants return [ld],
    the wide variants store the base value in the low word(s) of the output
    and write nothing else, because the copy loop starts at iteration 1. *)
Theorem replicate_zero_is_one_copy (lbits ld : Z) (owp lwp : WData) :
  VL_REPLICATE_III lbits ld 0 = ld /\
  (0 <= ld < 2 ^ 32 -> VL_REPLICATE_QII lbits ld 0 = ld) /\
  VL_REPLICATE_WII lbits owp ld 0 = <[0 := ld]> owp /\
  VL_REPLICATE_WQI lbits owp ld 0 = VL_SET_WQ owp ld /\
  VL_REPLICATE_WWI lbits owp lwp 0 =
    for_loop 0 (VL_WORDS_I (IData lbits)) (fun i owp => <[i := word lwp i]> owp) owp.
Proof.
  split; [| split; [| split; [| split]]].
  - reflexivity.
  - intros Hld. unfold VL_REPLICATE_QII. rewrite for_loop_empty by lia.
    unfold QData. apply wrap_small. lia.
  - unfold VL_REPLICATE_WII. rewrite Z.mul_0_r.
    rewrite (for_loop_empty _ 1 0) by lia. apply for_loop_empty.
    vm_compute. discriminate.
  - unfold VL_REPLICATE_WQI. rewrite Z.mul_0_r.
    rewrite (for_loop_empty _ 1 0) by lia. apply for_loop_empty.
    vm_compute. discriminate.
  - unfold VL_REPLICATE_WWI. rewrite Z.mul_0_r.
    rewrite (for_loop_empty _ 1 0) by lia. apply for_loop_empty.
    change (VL_WORDS_I (IData 0)) with 0.
    pose proof (IData_range lbits). rewrite VL_WORDS_I_div by lia.
    apply Z.div_pos; lia.
Qed.

Lemma replicate_zero_is_one_copy_witness :
  VL_REPLICATE_III 3 5 0 = 5 /\
  VL_REPLICATE_QII 3 5 0 = 5 /\
  VL_REPLICATE_WII 3 (wide [7; 7]) 5 0 = wide [5; 7].
Proof.
  pose proof (replicate_zero_is_one_copy 3 5 (wide [7; 7]) (wide [])) as H.
  destruct H as (H1 & H2 & H3 & _).
  split; [exact H1 |]. split; [apply H2; lia |].
  rewrite H3. vm_compute. reflexivity.
Defined.

(** ** Shifts by at least the width *)

Lemma VL_MASK_I_narrow W : 1 <= W <= 32 -> VL_MASK_I W = Z.ones W.
Proof.
  intros HW. rewrite VL_MASK_I_ones.
  destruct (Z.eq_dec W 32) as [->|Hne]; [reflexivity |].
  rewrite Z.mod_small by lia. destruct (Z.eqb_spec W 0); [lia | reflexivity].
Qed.

Lemma VL_MASK_Q_medium W : 1 <= W <= 64 -> VL_MASK_Q W = Z.ones W.
Proof.
  intros HW. rewrite VL_MASK_Q_ones.
  destruct (Z.eq_dec W 64) as [->|Hne]; [reflexivity |].
  rewrite Z.mod_small by lia. destruct (Z.eqb_spec W 0); [lia | reflexivity].
Qed.

(** The last word of a [W]-bit value holds [W - 32 * (words(W) - 1)] bits,
    between 1 and 32. *)
Lemma top_bits_range W :
  1 <= W -> 1 <= W - 32 * (VL_WORDS_I W - 1) <= 32.
Proof.
  intros HW. rewrite VL_WORDS_I_div by lia.
  pose proof (Z.div_mod (W + 31) 32 ltac:(lia)).
  pose proof (Z.mod_pos_bound (W + 31) 32 ltac:(lia)). lia.
Qed.

Lemma VL_MASK_E_top W :
  1 <= W -> VL_MASK_E W = Z.ones (W - 32 * (VL_WORDS_I W - 1)).
Proof.
  intros HW. unfold VL_MASK_E. rewrite VL_MASK_I_ones.
  pose proof (top_bits_range W HW) as Ht.
  replace (W mod 32) with ((W - 32 * (VL_WORDS_I W - 1)) mod 32)
    by (rewrite <- (Z.mod_add W (- (VL_WORDS_I W - 1)) 32) by lia; f_equal; lia).
  destruct (Z.eq_dec (W - 32 * (VL_WORDS_I W - 1)) 32) as [->|Hne]; [reflexivity |].
  rewrite Z.mod_small by lia.
  destruct (Z.eqb_spec (W - 32 * (VL_WORDS_I W - 1)) 0); [lia | reflexivity].
Qed.

Lemma sign_word_index W : 1 <= W -> VL_BITWORD_E (W - 1) = VL_WORDS_I W - 1.
Proof.
  intros HW. rewrite VL_BITWORD_E_div, VL_WORDS_I_div by lia.
  replace (W + 31) with (W - 1 + 1 * 32) by lia. rewrite Z.div_add by lia. lia.
Qed.

Lemma sign_bit_index W :
  1 <= W -> VL_BITBIT_E (W - 1) = W - 32 * (VL_WORDS_I W - 1) - 1.
Proof.
  intros HW. rewrite VL_BITBIT_E_mod. rewrite <- sign_word_index by lia.
  rewrite VL_BITWORD_E_div. pose proof (Z.div_mod (W - 1) 32 ltac:(lia)). lia.
Qed.

Lemma shiftr_small x W k : 0 <= x < 2 ^ W -> 0 <= W <= k -> Z.shiftr x k = 0.
Proof.
  intros Hx Hk. rewrite Z.shiftr_div_pow2 by lia. apply Z.div_small.
  assert (2 ^ W <= 2 ^ k) by (apply Z.pow_le_mono_r; lia). lia.
Qed.

(** On a clean value, shifting the sign bit down to bit 0 leaves just that
    bit. *)
Lemma sign_of_clean x W :
  1 <= W -> 0 <= x < 2 ^ W -> Z.shiftr x (W - 1) = Z.b2z (Z.testbit x (W - 1)).
Proof.
  intros HW Hx.
  assert (Hr : 0 <= Z.shiftr x (W - 1) < 2).
  { rewrite Z.shiftr_div_pow2 by lia. split.
    - apply Z.div_pos; [lia | apply Z.pow_pos_nonneg; lia].
    - apply Z.div_lt_upper_bound; [apply Z.pow_pos_nonneg; lia |].
      replace (2 ^ (W - 1) * 2) with (2 ^ W); [lia |].
      replace W with (W - 1 + 1) at 1 by lia. rewrite Z.pow_add_r by lia. lia. }
  replace (Z.testbit x (W - 1)) with (Z.testbit (Z.shiftr x (W - 1)) 0)
    by (rewrite Z.shiftr_spec by lia; f_equal; lia).
  assert (Z.shiftr x (W - 1) = 0 \/ Z.shiftr x (W - 1) = 1) as [->| ->] by lia; reflexivity.
Qed.

Lemma land_ones_small m w : 0 <= w -> 0 <= m < 2 ^ w -> Z.land (Z.ones w) m = m.
Proof.
  intros Hw Hm. rewrite Z.land_comm, Z.land_ones by lia. apply Z.mod_small, Hm.
Qed.

Lemma ones_range w : 0 <= w -> 0 <= Z.ones w < 2 ^ w.
Proof.
  intros Hw. rewrite Z.ones_equiv. pose proof (Z.pow_pos_nonneg 2 w ltac:(lia) Hw). lia.
Qed.

Lemma VL_SHIFTL_III_over W x k :
  1 <= W <= 32 -> W <= k ->
  VL_CLEAN_II W W (VL_SHIFTL_III W W 32 x k) = 0.
Proof.
  intros HW Hk. unfold VL_CLEAN_II, VL_SHIFTL_III, VL_IDATASIZE.
  rewrite Z.geb_leb. destruct (Z.leb_spec 32 k); [apply Z.land_0_l |].
  rewrite VL_MASK_I_narrow by lia. unfold IData. rewrite wrap_land by lia.
  Z.bitblast. subst l. rewrite Z.testbit_neg_r by lia. reflexivity.
Qed.

Lemma VL_SHIFTL_QQI_over W x k :
  1 <= W <= 64 -> W <= k ->
  VL_CLEAN_QQ W W (VL_SHIFTL_QQI W W 32 x k) = 0.
Proof.
  intros HW Hk. unfold VL_CLEAN_QQ, VL_SHIFTL_QQI, VL_QUADSIZE.
  rewrite Z.geb_leb. destruct (Z.leb_spec 64 k); [apply Z.land_0_l |].
  rewrite VL_MASK_Q_medium by lia. unfold QData. rewrite wrap_land by lia.
  Z.bitblast. subst l. rewrite Z.testbit_neg_r by lia. reflexivity.
Qed.

Lemma VL_SHIFTR_III_over W x k :
  1 <= W <= 32 -> 0 <= x < 2 ^ W -> W <= k ->
  VL_SHIFTR_III W W 32 x k = 0.
Proof.
  intros HW Hx Hk. unfold VL_SHIFTR_III.
  destruct (k >=? VL_IDATASIZE); [reflexivity |]. apply (shiftr_small x W); lia.
Qed.

Lemma VL_SHIFTR_QQI_over W x k :
  1 <= W <= 64 -> 0 <= x < 2 ^ W -> W <= k ->
  VL_SHIFTR_QQI W W 32 x k = 0.
Proof.
  intros HW Hx Hk. unfold VL_SHIFTR_QQI.
  destruct (k >=? VL_QUADSIZE); [reflexivity |]. apply (shiftr_small x W); lia.
Qed.

Lemma VL_SHIFTRS_III_over W x k :
  1 <= W <= 32 -> 0 <= x < 2 ^ W -> W <= k ->
  VL_SHIFTRS_III W W 32 x k = if Z.testbit x (W - 1) then VL_MASK_I W else 0.
Proof.
  intros HW Hx Hk. unfold VL_SHIFTRS_III, VL_IDATASIZE, VL_CLEAN_II.
  rewrite sign_of_clean by lia. rewrite VL_MASK_I_narrow by lia.
  pose proof (ones_range W ltac:(lia)) as Ho.
  assert (Hp : 2 ^ W <= 2 ^ 32) by (apply Z.pow_le_mono_r; lia).
  assert (Hs : Z.land (IData (- Z.b2z (Z.testbit x (W - 1)))) (Z.ones W)
               = if Z.testbit x (W - 1) then Z.ones W else 0).
  { destruct (Z.testbit x (W - 1)); [| reflexivity].
    change (IData (- Z.b2z true)) with (Z.ones 32). apply land_ones_small; lia. }
  rewrite Z.geb_leb. destruct (Z.leb_spec 32 k); [exact Hs |].
  rewrite (shiftr_small x W k) by lia.
  rewrite (shiftr_small (Z.ones W) W k) by lia.
  change (bnot 32 0) with (Z.ones 32).
  rewrite (land_ones_small (Z.ones W) 32) by lia. rewrite Z.lor_0_l. exact Hs.
Qed.

Lemma VL_SHIFTRS_QQI_over W x k :
  1 <= W <= 64 -> 0 <= x < 2 ^ W -> W <= k ->
  VL_SHIFTRS_QQI W W 32 x k = if Z.testbit x (W - 1) then VL_MASK_Q W else 0.
Proof.
  intros HW Hx Hk. unfold VL_SHIFTRS_QQI, VL_QUADSIZE, VL_CLEAN_QQ.
  rewrite sign_of_clean by lia. rewrite VL_MASK_Q_medium by lia.
  pose proof (ones_range W ltac:(lia)) as Ho.
  assert (Hp : 2 ^ W <= 2 ^ 64) by (apply Z.pow_le_mono_r; lia).
  assert (Hs : Z.land (QData (- Z.b2z (Z.testbit x (W - 1)))) (Z.ones W)
               = if Z.testbit x (W - 1) then Z.ones W else 0).
  { destruct (Z.testbit x (W - 1)); [| reflexivity].
    change (QData (- Z.b2z true)) with (Z.ones 64). apply land_ones_small; lia. }
  rewrite Z.geb_leb. destruct (Z.leb_spec 64 k); [exact Hs |].
  rewrite (shiftr_small x W k) by lia.
  rewrite (shiftr_small (Z.ones W) W k) by lia.
  change (bnot 64 0) with (Z.ones 64).
  rewrite (land_ones_small (Z.ones W) 64) by lia. rewrite Z.lor_0_l. exact Hs.
Qed.

Lemma lookup_for_loop_store (f : Z -> Z) lo hi (owp : WData) j :
  for_loop lo hi (fun i o => <[i := f i]> o) owp !! j =
  if (lo <=? j) && (j <? hi) then Some (f j) else owp !! j.
Proof.
  destruct (Z_le_gt_dec lo hi) as [Hle|Hgt].
  - revert j.
    apply (for_loop_ind
             (fun i (o : WData) =>
                forall j, o !! j = if (lo <=? j) && (j <? i) then Some (f j) else owp !! j));
      [exact Hle | |].
    + intros j. zcmp; reflexivity.
    + intros i o Hi IH j. destruct (Z.eq_dec i j) as [->|Hne].
      * rewrite lookup_insert_eq. zcmp; reflexivity.
      * rewrite lookup_insert_ne by exact Hne. rewrite IH. zcmp; reflexivity.
  - rewrite for_loop_empty by lia. zcmp; reflexivity.
Qed.

Lemma word_for_loop_store (f : Z -> Z) lo hi (owp : WData) j :
  word (for_loop lo hi (fun i o => <[i := f i]> o) owp) j =
  if (lo <=? j) && (j <? hi) then f j else word owp j.
Proof.
  unfold word. rewrite lookup_for_loop_store.
  destruct ((lo <=? j) && (j <? hi)); reflexivity.
Qed.

Lemma wide_clean_range W (wp : WData) :
  1 <= W -> wide_clean W wp = true ->
  0 <= word wp (VL_WORDS_I W - 1) < 2 ^ (W - 32 * (VL_WORDS_I W - 1)).
Proof.
  intros HW Hc. unfold wide_clean in Hc. apply Z.eqb_eq in Hc.
  pose proof (top_bits_range W HW) as Ht.
  rewrite VL_MASK_E_top, Z.land_ones in Hc by lia. rewrite <- Hc.
  apply Z.mod_pos_bound. apply Z.pow_pos_nonneg; lia.
Qed.

Lemma VL_SHIFTL_WWI_over W (owp lwp : WData) k :
  1 <= W < 2 ^ 31 -> W <= k ->
  VL_SHIFTL_WWI W W 32 owp lwp k = VL_ZERO_W W owp.
Proof.
  intros HW Hk. unfold VL_SHIFTL_WWI. unfold IData. rewrite wrap_small by lia.
  rewrite Z.geb_leb. destruct (Z.leb_spec W k); [reflexivity | lia].
Qed.

Lemma VL_SHIFTR_WWI_over W (owp lwp : WData) k :
  1 <= W < 2 ^ 31 -> W <= k ->
  VL_SHIFTR_WWI W W 32 owp lwp k = VL_ZERO_W W owp.
Proof.
  intros HW Hk. unfold VL_SHIFTR_WWI. unfold IData. rewrite wrap_small by lia.
  rewrite Z.geb_leb. destruct (Z.leb_spec W k); [reflexivity | lia].
Qed.

Lemma VL_SHIFTRS_WWI_over W (owp lwp : WData) k :
  1 <= W < 2 ^ 31 -> wide_clean W lwp = true -> W <= k ->
  VL_SHIFTRS_WWI W W 32 owp lwp k =
  if negb (VL_SIGN_W W lwp =? 0) then VL_ALLONES_W W owp else VL_ZERO_W W owp.
Proof.
  intros HW Hc Hk. unfold VL_SHIFTRS_WWI. unfold IData. rewrite wrap_small by lia.
  rewrite Z.geb_leb. destruct (Z.leb_spec W k) as [_|]; [| lia].
  pose proof (top_bits_range W ltac:(lia)) as Ht.
  pose proof (wide_clean_range W lwp ltac:(lia) Hc) as Hr.
  unfold VL_SIGN_W, VL_SIGNONES_E, VL_SIGN_E.
  rewrite sign_word_index, sign_bit_index by lia.
  set (n := VL_WORDS_I W) in *. set (t := W - 32 * (n - 1)) in *.
  rewrite (sign_of_clean _ t) by lia.
  replace (n - 1 + 1) with n by lia.
  assert (Hn : 1 <= n) by lia.
  rewrite VL_MASK_E_top by lia. fold n. fold t.
  pose proof (ones_range t ltac:(lia)) as Ho.
  assert (Hp : 2 ^ t <= 2 ^ 32) by (apply Z.pow_le_mono_r; lia).
  destruct (Z.testbit (word lwp (n - 1)) (t - 1)).
  - change (EData (- Z.b2z true)) with 0xffffffff. cbn [Z.b2z Z.eqb negb].
    unfold VL_ALLONES_W, VL_MEMSET_ONES_W. fold n.
    rewrite VL_MASK_E_top by lia. fold n. fold t.
    apply map_eq. intros j. destruct (Z.eq_dec (n - 1) j) as [<-|Hne].
    + rewrite !lookup_insert_eq. f_equal.
      rewrite (word_for_loop_store (fun _ => 0xffffffff)).
      replace ((0 <=? n - 1) && (n - 1 <? n)) with true by (symmetry; zcmp).
      apply (land_ones_small (Z.ones t) 32); lia.
    + rewrite !lookup_insert_ne by exact Hne.
      rewrite !(lookup_for_loop_store (fun _ => 0xffffffff)). zcmp; reflexivity.
  - change (EData (- Z.b2z false)) with 0. cbn [Z.b2z Z.eqb negb].
    unfold VL_ZERO_W, VL_MEMSET_ZERO_W. fold n.
    apply map_eq. intros j. destruct (Z.eq_dec (n - 1) j) as [<-|Hne].
    + rewrite lookup_insert_eq. rewrite (word_for_loop_store (fun _ => 0)).
      rewrite (lookup_for_loop_store (fun _ => 0)).
      replace ((0 <=? n - 1) && (n - 1 <? n)) with true by (symmetry; zcmp).
      rewrite Z.land_0_l. reflexivity.
    + rewrite lookup_insert_ne by exact Hne. reflexivity.
Qed.

(** C6: a shift by [k >= W] of a clean [W]-bit value.  The logical left
    shift, masked to [W], is 0 (for any [x], clean or not); the logical right
    shift is 0; the arithmetic right shift is 0 when the sign bit of [x] is
    clear and all ones masked to [W] when it is set.  Narrow ([W <= 32]),
    medium ([W <= 64]) and wide variants, where the wide results are the
    zeroed buffer [VL_ZERO_W] and the all-ones buffer [VL_ALLONES_W]. *)
Theorem shift_by_width_or_more (W x k : Z) (owp lwp : WData) :
  W <= k ->
  (1 <= W <= 32 ->
   VL_CLEAN_II W W (VL_SHIFTL_III W W 32 x k) = 0 /\
   (0 <= x < 2 ^ W ->
    VL_SHIFTR_III W W 32 x k = 0 /\
    VL_SHIFTRS_III W W 32 x k = if Z.testbit x (W - 1) then VL_MASK_I W else 0)) /\
  (1 <= W <= 64 ->
   VL_CLEAN_QQ W W (VL_SHIFTL_QQI W W 32 x k) = 0 /\
   (0 <= x < 2 ^ W ->
    VL_SHIFTR_QQI W W 32 x k = 0 /\
    VL_SHIFTRS_QQI W W 32 x k = if Z.testbit x (W - 1) then VL_MASK_Q W else 0)) /\
  (1 <= W < 2 ^ 31 ->
   VL_SHIFTL_WWI W W 32 owp lwp k = VL_ZERO_W W owp /\
   VL_SHIFTR_WWI W W 32 owp lwp k = VL_ZERO_W W owp /\
   (wide_clean W lwp = true ->
    VL_SHIFTRS_WWI W W 32 owp lwp k =
    if negb (VL_SIGN_W W lwp =? 0) then VL_ALLONES_W W owp else VL_ZERO_W W owp)).
Proof.
  intros Hk. split; [| split].
  - intros HW. split; [apply VL_SHIFTL_III_over; assumption |].
    intros Hx. split; [apply VL_SHIFTR_III_over | apply VL_SHIFTRS_III_over]; assumption.
  - intros HW. split; [apply VL_SHIFTL_QQI_over; assumption |].
    intros Hx. split; [apply VL_SHIFTR_QQI_over | apply VL_SHIFTRS_QQI_over]; assumption.
  - intros HW. split; [apply VL_SHIFTL_WWI_over; assumption |].
    split; [apply VL_SHIFTR_WWI_over; assumption |].
    intros Hc. apply VL_SHIFTRS_WWI_over; assumption.
Qed.

Lemma shift_by_width_or_more_witness :
  VL_SHIFTRS_III 8 8 32 0x80 8 = 0xff /\
  VL_SHIFTR_QQI 40 40 32 (2 ^ 39) 40 = 0 /\
  VL_SHIFTRS_WWI 70 70 32 (wide [7; 7; 7]) (wide [1; 2; 0x20]) 70 = wide [0xffffffff; 0xffffffff; 0x3f].
Proof.
  split; [| split].
  - exact (proj2 (proj2 (proj1 (shift_by_width_or_more 8 0x80 8 (wide []) (wide [])
             ltac:(lia)) ltac:(lia)) ltac:(lia))).
  - exact (proj1 (proj2 (proj1 (proj2 (shift_by_width_or_more 40 (2 ^ 39) 40 (wide []) (wide [])
             ltac:(lia))) ltac:(lia)) ltac:(lia))).
  - rewrite (proj2 (proj2 (proj2 (proj2
               (shift_by_width_or_more 70 0 70 (wide [7; 7; 7]) (wide [1; 2; 0x20])
                  ltac:(lia))) ltac:(lia))) ltac:(vm_compute; reflexivity)).
    vm_compute. reflexivity.
Defined.

(** ** The integer value of a wide buffer *)

Lemma wide_val_snoc n i (wp : WData) :
  wide_val (Datatypes.S n) i wp
  = wide_val n i wp + 2 ^ (32 * Z.of_nat n) * word wp (i + Z.of_nat n).
Proof.
  revert i. induction n as [|n IH]; intros i.
  - cbn [wide_val]. replace (i + Z.of_nat 0) with i by lia.
    change (2 ^ (32 * Z.of_nat 0)) with 1. lia.
  - change (wide_val (Datatypes.S (Datatypes.S n)) i wp)
      with (word wp i + 2 ^ 32 * wide_val (Datatypes.S n) (i + 1) wp).
    rewrite IH. cbn [wide_val].
    replace (i + 1 + Z.of_nat n) with (i + Z.of_nat (Datatypes.S n)) by lia.
    replace (32 * Z.of_nat (Datatypes.S n)) with (32 + 32 * Z.of_nat n) by lia.
    rewrite Z.pow_add_r by lia. lia.
Qed.

Lemma wide_val_insert_out n i (wp : WData) j v :
  j < i \/ i + Z.of_nat n <= j ->
  wide_val n i (<[j := v]> wp) = wide_val n i wp.
Proof.
  revert i. induction n as [|n IH]; intros i Hj; [reflexivity |].
  cbn [wide_val]. rewrite word_insert_ne by lia. rewrite IH by lia. reflexivity.
Qed.

Lemma wide_val_ext n i (a b : WData) :
  (forall k, i <= k < i + Z.of_nat n -> word a k = word b k) ->
  wide_val n i a = wide_val n i b.
Proof.
  revert i. induction n as [|n IH]; intros i H; [reflexivity |].
  cbn [wide_val]. rewrite H by lia. rewrite (IH (i + 1)); [reflexivity |].
  intros k Hk. apply H. lia.
Qed.

Lemma wide_val_range n i (wp : WData) :
  (forall k, i <= k < i + Z.of_nat n -> 0 <= word wp k < 2 ^ 32) ->
  0 <= wide_val n i wp < 2 ^ (32 * Z.of_nat n).
Proof.
  revert i. induction n as [|n IH]; intros i H.
  - simpl. lia.
  - cbn [wide_val]. specialize (IH (i + 1) ltac:(intros k Hk; apply H; lia)).
    specialize (H i ltac:(lia)).
    replace (32 * Z.of_nat (Datatypes.S n)) with (32 + 32 * Z.of_nat n) by lia.
    rewrite Z.pow_add_r by lia.
    set (X := 2 ^ (32 * Z.of_nat n)) in *. change (2 ^ 32) with 4294967296 in *. lia.
Qed.

(** Splitting an integer at a bit position. *)
Lemma mod_split a b c d :
  0 <= a < 2 ^ b -> 0 <= b -> 0 <= d -> 0 <= c ->
  (a + 2 ^ b * c) mod 2 ^ (b + d) = a + 2 ^ b * (c mod 2 ^ d).
Proof.
  intros Ha Hb Hd Hc. rewrite Z.pow_add_r by lia.
  assert (0 < 2 ^ b) by (apply Z.pow_pos_nonneg; lia).
  assert (0 < 2 ^ d) by (apply Z.pow_pos_nonneg; lia).
  rewrite Z.rem_mul_r by lia.
  replace (a + 2 ^ b * c) with (a + c * 2 ^ b) by lia.
  rewrite Z.mod_add, Z.div_add by lia.
  rewrite Z.mod_small, Z.div_small by lia. rewrite Z.add_0_l. reflexivity.
Qed.

(** Cleaning the top word reduces the value modulo 2^W. *)
Lemma wide_val_clean W (owp : WData) :
  1 <= W ->
  (forall k, 0 <= k < VL_WORDS_I W -> 0 <= word owp k < 2 ^ 32) ->
  wide_val (Z.to_nat (VL_WORDS_I W)) 0 (_vl_clean_inplace_w W owp)
  = wide_val (Z.to_nat (VL_WORDS_I W)) 0 owp mod 2 ^ W.
Proof.
  intros HW Hr. pose proof (top_bits_range W HW) as Ht.
  unfold _vl_clean_inplace_w. rewrite VL_MASK_E_top by lia.
  set (n := VL_WORDS_I W) in *. set (t := W - 32 * (n - 1)) in *.
  assert (Hn : 1 <= n) by lia.
  replace (Z.to_nat n) with (Datatypes.S (Z.to_nat (n - 1))) by lia.
  rewrite !wide_val_snoc. replace (0 + Z.of_nat (Z.to_nat (n - 1))) with (n - 1) by lia.
  rewrite word_insert_eq. rewrite wide_val_insert_out by lia.
  rewrite Z.land_ones by lia.
  replace (2 ^ W) with (2 ^ (32 * Z.of_nat (Z.to_nat (n - 1)) + t)) by (f_equal; lia).
  rewrite mod_split; [reflexivity | | lia | lia |].
  - apply wide_val_range. intros k Hk. apply Hr. lia.
  - apply Hr. lia.
Qed.

(** ** Wide add *)

Lemma VL_ADD_W_val words (owp lwp rwp : WData) :
  0 <= words ->
  wide_words words lwp = true -> wide_words words rwp = true ->
  (forall k, 0 <= k < words -> 0 <= word (VL_ADD_W words owp lwp rwp) k < 2 ^ 32) /\
  wide_val (Z.to_nat words) 0 (VL_ADD_W words owp lwp rwp)
  = (wide_val (Z.to_nat words) 0 lwp + wide_val (Z.to_nat words) 0 rwp)
    mod 2 ^ (32 * words).
Proof.
  intros Hw Hl Hr. unfold VL_ADD_W.
  set (st := for_loop 0 words _ (0, owp)).
  pose proof (wide_words_spec _ _ Hl) as Hl'. pose proof (wide_words_spec _ _ Hr) as Hr'.
  pose (P := fun (j : Z) (t : Z * WData) =>
    0 <= fst t <= 1 /\
    (forall k, 0 <= k < j -> 0 <= word (snd t) k < 2 ^ 32) /\
    wide_val (Z.to_nat j) 0 (snd t) + 2 ^ (32 * j) * fst t
    = wide_val (Z.to_nat j) 0 lwp + wide_val (Z.to_nat j) 0 rwp).
  assert (HP : P words st).
  { unfold st. apply for_loop_ind; [exact Hw | |].
    - unfold P. simpl. split; [lia |]. split; [intros; lia | reflexivity].
    - intros j [c o] Hj (Hc & Ho & Hv). cbn [fst snd] in Hc, Ho, Hv.
      destruct (Hl' j Hj) as [_ Hlj]. destruct (Hr' j Hj) as [_ Hrj].
      set (s := c + word lwp j + word rwp j).
      assert (Hq : QData (c + QData (word lwp j) + QData (word rwp j)) = s).
      { unfold QData. rewrite !(wrap_small 64 (word _ j)) by lia.
        apply wrap_small. unfold s. lia. }
      cbn zeta. rewrite !Hq.
      change 0xffffffff with (Z.ones 32).
      rewrite Z.shiftr_div_pow2 by lia. rewrite !Z.land_ones by lia.
      assert (Hs : 0 <= s < 2 * 2 ^ 32) by (unfold s; lia).
      assert (Hd : 0 <= s / 2 ^ 32 <= 1).
      { split; [apply Z.div_pos; lia |].
        apply Z.lt_succ_r. apply Z.div_lt_upper_bound; lia. }
      rewrite (Z.mod_small (s / 2 ^ 32)) by lia.
      unfold P. cbn [fst snd]. split; [exact Hd |]. split.
      + intros k Hk. destruct (Z.eq_dec j k) as [->|Hne].
        * rewrite word_insert_eq. apply Z.mod_pos_bound. lia.
        * rewrite word_insert_ne by exact Hne. apply Ho. lia.
      + replace (Z.to_nat (j + 1)) with (Datatypes.S (Z.to_nat j)) by lia.
        rewrite !wide_val_snoc. replace (0 + Z.of_nat (Z.to_nat j)) with j by lia.
        rewrite word_insert_eq. rewrite wide_val_insert_out by lia.
        replace (Z.of_nat (Z.to_nat j)) with j by lia.
        replace (32 * (j + 1)) with (32 * j + 32) by lia.
        rewrite Z.pow_add_r by lia.
        pose proof (Z.div_mod s (2 ^ 32) ltac:(lia)) as Hdm.
        unfold s in Hdm at 1. set (X := 2 ^ (32 * j)) in *.
        change (2 ^ 32) with 4294967296 in *. nia. }
  destruct HP as (Hc & Ho & Hv). split.
  - exact Ho.
  - pose proof (wide_val_range (Z.to_nat words) 0 (snd st)
                  ltac:(intros k Hk; apply Ho; lia)) as Hb.
    replace (Z.of_nat (Z.to_nat words)) with words in Hb by lia.
    apply Z.mod_unique_pos with (q := fst st); [exact Hb |].
    rewrite <- Hv. lia.
Qed.

(** C4: for every width [W], the ripple-carry add over [words(W)] words,
    with its dirty result masked to [W] bits, holds (a + b) mod 2^W, where
    [a] and [b] are the integers held by the operands (clean operands in
    particular). *)
Theorem wide_add_correct (W : Z) (owp lwp rwp : WData) :
  1 <= W ->
  wide_words (VL_WORDS_I W) lwp = true ->
  wide_words (VL_WORDS_I W) rwp = true ->
  wide_val (Z.to_nat (VL_WORDS_I W)) 0
    (_vl_clean_inplace_w W (VL_ADD_W (VL_WORDS_I W) owp lwp rwp))
  = (wide_val (Z.to_nat (VL_WORDS_I W)) 0 lwp
     + wide_val (Z.to_nat (VL_WORDS_I W)) 0 rwp) mod 2 ^ W.
Proof.
  intros HW Hl Hr. pose proof (top_bits_range W HW) as Ht.
  destruct (VL_ADD_W_val (VL_WORDS_I W) owp lwp rwp ltac:(lia) Hl Hr) as [Hrange Hval].
  rewrite wide_val_clean by assumption. rewrite Hval.
  apply Z.mod_mod_divide.
  exists (2 ^ (32 * VL_WORDS_I W - W)). rewrite <- Z.pow_add_r by lia. f_equal. lia.
Qed.

Lemma wide_add_correct_witness :
  wide_val 1 0 (_vl_clean_inplace_w 8 (VL_ADD_W 1 (wide [0x55]) (wide [0xff]) (wide [0x01])))
  = 0x00.
Proof.
  exact (wide_add_correct 8 (wide [0x55]) (wide [0xff]) (wide [0x01])
           ltac:(lia) ltac:(vm_compute; reflexivity) ltac:(vm_compute; reflexivity)).
Defined.

(** ** Range select past the declared width *)

(** What the selects do return: all ones when [msb >= lbits] for the
    32-bit select, and when [msb > lbits] (strictly) for the 64-bit, the wide
    and the single-bit selects. *)
Lemma VL_SEL_IWII_out_of_range lbits (lwp : WData) lsb width :
  lbits <= int32_t (IData (lsb + width - 1)) ->
  VL_SEL_IWII lbits lwp lsb width = 0xffffffff.
Proof.
  intros H. unfold VL_SEL_IWII. rewrite Z.geb_leb.
  destruct (Z.leb_spec lbits (int32_t (IData (lsb + width - 1)))); [reflexivity | lia].
Qed.

Lemma VL_SEL_QWII_out_of_range lbits (lwp : WData) lsb width :
  lbits < int32_t (IData (lsb + width - 1)) ->
  VL_SEL_QWII lbits lwp lsb width = 0xffffffffffffffff.
Proof.
  intros H. unfold VL_SEL_QWII. rewrite Z.gtb_ltb.
  destruct (Z.ltb_spec lbits (int32_t (IData (lsb + width - 1)))); [reflexivity | lia].
Qed.

Lemma VL_SEL_WWII_out_of_range obits lbits (owp lwp : WData) lsb width :
  lbits < int32_t (IData (lsb + width - 1)) ->
  VL_SEL_WWII obits lbits owp lwp lsb width = VL_ALLONES_W obits owp.
Proof.
  intros H. unfold VL_SEL_WWII. rewrite Z.gtb_ltb.
  destruct (Z.ltb_spec lbits (int32_t (IData (lsb + width - 1)))); [reflexivity | lia].
Qed.

Lemma VL_BITSEL_IWII_out_of_range lbits (lwp : WData) rd :
  IData lbits < rd -> VL_BITSEL_IWII lbits lwp rd = 0xffffffff.
Proof.
  intros H. unfold VL_BITSEL_IWII. rewrite Z.gtb_ltb.
  destruct (Z.ltb_spec (IData lbits) rd); [reflexivity | lia].
Qed.

(** C2, at the boundary [msb = lbits]: the 32-bit select returns all ones,
    but the 64-bit select, the wide select and the single-bit select test
    [msb > lbits] and read the buffer instead; on a zeroed 100-bit source
    they return 0, and on a zeroed 200-bit source the wide select returns a
    zeroed buffer. *)
Theorem select_at_boundary_not_all_ones :
  VL_SEL_IWII 100 (wide [0; 0; 0; 0]) 93 8 = 0xffffffff /\
  VL_SEL_QWII 100 (wide [0; 0; 0; 0]) 61 40 = 0 /\
  VL_BITSEL_IWII 100 (wide [0; 0; 0; 0]) 100 = 0 /\
  VL_SEL_WWII 100 200 (wide [7; 7; 7; 7]) (wide [0; 0; 0; 0; 0; 0; 0]) 101 100
  = wide [0; 0; 0; 0].
Proof. repeat split; vm_compute; reflexivity. Qed.

(** ** Range insert past the declared width *)

(** C9, at a destination whose width is not a multiple of 32: a 72-bit
    destination has words 0..2; the insert of 32 bits at [101:70] stores
    word 3, which is not part of the buffer. *)
Theorem insert_writes_past_unaligned_width :
  VL_WORDS_I 72 = 3 /\
  wide [0; 0; 0] !! 3 = None /\
  _vl_insert_WI (wide [0; 0; 0]) 0xffffffff 101 70 72 !! 3 = Some 0x3f.
Proof. repeat split; vm_compute; reflexivity. Qed.

(** ** Insert/select round trip *)

Lemma bit_split b :
  b = 32 * VL_BITWORD_E b + VL_BITBIT_E b /\ 0 <= VL_BITBIT_E b < 32.
Proof.
  rewrite VL_BITWORD_E_div, VL_BITBIT_E_mod.
  pose proof (Z.div_mod b 32 ltac:(lia)). pose proof (Z.mod_pos_bound b 32 ltac:(lia)). lia.
Qed.

Lemma VL_MASK_E_ones k : 1 <= k <= 32 -> VL_MASK_E k = Z.ones k.
Proof. apply VL_MASK_I_narrow. Qed.

Lemma EData_land x : EData x = Z.land x (Z.ones 32).
Proof. apply wrap_land. lia. Qed.

Lemma bnot_land w x : 0 <= w -> bnot w x = Z.land (Z.lnot x) (Z.ones w).
Proof. intros. unfold bnot. apply wrap_land. lia. Qed.

Lemma int32_t_small x : 0 <= x < 2 ^ 31 -> int32_t x = x.
Proof.
  intros H. unfold int32_t. rewrite wrap_small by lia.
  destruct (Z.ltb_spec x (2 ^ 31)); lia.
Qed.

Ltac simpl_bool_bits :=
  cbn [negb andb orb];
  rewrite ?andb_true_r, ?andb_false_r, ?orb_false_r, ?orb_false_l;
  try reflexivity.

(** C5, as stated (counterexample): the range [64:31] of a 96-bit
    destination satisfies 0 <= lo <= hi < W but is 34 bits wide; inserting
    v = 4 and selecting the range again gives 0, not v masked to 34 bits. *)
Lemma insert_select_wide_range_counterexample :
  0 <= 31 <= 64 /\ 64 < 96 /\
  VL_SEL_IWII 96 (_vl_insert_WI (wide [0; 0; 0]) 4 64 31 96) 31 (64 - 31 + 1) = 0 /\
  Z.land (VL_SEL_IWII 96 (_vl_insert_WI (wide [0; 0; 0]) 4 64 31 96) 31 (64 - 31 + 1))
         (Z.ones (64 - 31 + 1)) = 0 /\
  Z.land 4 (Z.ones (64 - 31 + 1)) = 4.
Proof. repeat split; try lia; vm_compute; reflexivity. Qed.

(** C5, amended: for a destination of width [W], a range [hi:lo] inside it
    that is at most 32 bits wide (what an [IData] can carry), any inserted
    value [v] and any prior contents [x], selecting [hi:lo] after inserting
    [v] at [hi:lo] gives, masked to [hi-lo+1] bits, [v] masked to [hi-lo+1]
    bits. *)
Theorem insert_select_roundtrip (W : Z) (x : WData) (v hi lo : Z) :
  0 <= lo <= hi -> hi < W < 2 ^ 31 -> hi - lo + 1 <= 32 ->
  Z.land (VL_SEL_IWII W (_vl_insert_WI x v hi lo W) lo (hi - lo + 1)) (Z.ones (hi - lo + 1))
  = Z.land v (Z.ones (hi - lo + 1)).
Proof.
  intros Hlo Hhi Hw. unfold VL_SEL_IWII.
  replace (lo + (hi - lo + 1) - 1) with hi by lia.
  assert (Hm : int32_t (IData hi) = hi).
  { unfold IData. rewrite (wrap_small 32 hi) by lia. apply int32_t_small. lia. }
  rewrite Hm, (int32_t_small lo) by lia.
  rewrite Z.geb_leb. destruct (Z.leb_spec W hi) as [|_]; [lia |].
  unfold VL_BITRSHIFT_W, _vl_insert_WI.
  destruct (bit_split hi) as [Eh Hho]. destruct (bit_split lo) as [El Hlo'].
  destruct (bit_split W) as [Er Hro].
  set (hw := VL_BITWORD_E hi) in *. set (ho := VL_BITBIT_E hi) in *.
  set (lw := VL_BITWORD_E lo) in *. set (lo' := VL_BITBIT_E lo) in *.
  set (rw := VL_BITWORD_E W) in *. set (ro := VL_BITBIT_E W) in *.
  unfold VL_SIZEBITS_E, VL_EDATASIZE. change (32 - 1) with 31.
  assert (Hcm : forall j, 0 <= j <= ho ->
            Z.testbit (if hw =? rw then VL_MASK_E ro else VL_MASK_E 0) j = true).
  { intros j Hj. destruct (Z.eqb_spec hw rw).
    - rewrite VL_MASK_E_ones by lia. rewrite Z.ones_spec_low; lia.
    - change (VL_MASK_E 0) with (Z.ones 32). rewrite Z.ones_spec_low; lia. }
  set (cm := if hw =? rw then VL_MASK_E ro else VL_MASK_E 0) in *.
  destruct (Z.eqb_spec hw lw) as [Ehl|Ehl].
  - (* the range lies in one word *)
    destruct ((ho =? 31) && (lo' =? 0)) eqn:Efast.
    + apply andb_true_iff in Efast as [E1 E2]. apply Z.eqb_eq in E1, E2.
      rewrite word_insert_eq. rewrite E2.
      replace (hi - lo + 1) with 32 by lia.
      Z.bitblast. rewrite Hcm by lia. rewrite andb_true_r. f_equal; lia.
    + rewrite word_insert_eq.
      rewrite VL_MASK_E_ones by lia. rewrite !EData_land, bnot_land by lia.
      replace (hi - lo + 1) with (ho - lo' + 1) by lia.
      Z.bitblast.
      all: try (rewrite Hcm by lia).
      all: simpl_bool_bits.
  - (* the range crosses a word boundary *)
    assert (Ehw : hw = lw + 1) by lia.
    assert (Efast : (ho =? 31) && (lo' =? 0) = false).
    { destruct (Z.eqb_spec ho 31), (Z.eqb_spec lo' 0); try reflexivity. lia. }
    rewrite Efast.
    assert (Eg : negb ((hw =? rw) && (ro =? 0)) = true).
    { destruct (Z.eqb_spec hw rw), (Z.eqb_spec ro 0); try reflexivity. lia. }
    rewrite Eg. repeat (rewrite word_insert_eq || rewrite word_insert_ne by lia).
    replace (ho - 0 + 1) with (ho + 1) by lia.
    replace (31 - lo' + 1) with (32 - lo') by lia.
    rewrite !VL_MASK_E_ones by lia. rewrite !EData_land, !bnot_land by lia.
    Z.bitblast.
    all: try (rewrite Hcm by lia).
    all: simpl_bool_bits.
    all: try Z.bitblast_core.
Qed.

Lemma insert_select_roundtrip_witness :
  Z.land (VL_SEL_IWII 100 (_vl_insert_WI (wide [0; 0; 0; 0]) 0xb 99 96 100) 96 (99 - 96 + 1))
         (Z.ones (99 - 96 + 1))
  = Z.land 0xb (Z.ones (99 - 96 + 1)).
Proof.
  exact (insert_select_roundtrip 100 (wide [0; 0; 0; 0]) 0xb 99 96
           ltac:(lia) ltac:(lia) ltac:(lia)).
Defined.

(** ** Stream operators: the fast path and the slow path *)

Lemma or_linear_id : or_linear (fun x => x).
Proof. split; [reflexivity | intros; reflexivity]. Qed.

Lemma or_linear_lor f g :
  or_linear f -> or_linear g -> or_linear (fun x => Z.lor (f x) (g x)).
Proof.
  intros [Hf0 Hf] [Hg0 Hg]. split.
  - rewrite Hf0, Hg0. reflexivity.
  - intros a b. rewrite Hf, Hg. Z.bitblast.
Qed.

Lemma or_linear_land f c : or_linear f -> or_linear (fun x => Z.land (f x) c).
Proof.
  intros [Hf0 Hf]. split.
  - rewrite Hf0. reflexivity.
  - intros a b. rewrite Hf. Z.bitblast.
Qed.

Lemma or_linear_shiftl f n : or_linear f -> or_linear (fun x => Z.shiftl (f x) n).
Proof.
  intros [Hf0 Hf]. split.
  - rewrite Hf0. apply Z.shiftl_0_l.
  - intros a b. rewrite Hf. apply Z.shiftl_lor.
Qed.

Lemma or_linear_shiftr f n : or_linear f -> or_linear (fun x => Z.shiftr (f x) n).
Proof.
  intros [Hf0 Hf]. split.
  - rewrite Hf0. apply Z.shiftr_0_l.
  - intros a b. rewrite Hf. apply Z.shiftr_lor.
Qed.

Lemma or_linear_IData f : or_linear f -> or_linear (fun x => IData (f x)).
Proof.
  intros H. unfold IData.
  assert (E : forall y, wrap 32 y = Z.land y (Z.ones 32)) by (intros; apply wrap_land; lia).
  destruct (or_linear_land f (Z.ones 32) H) as [H0 H1].
  split; [rewrite E; exact H0 | intros a b; rewrite !E; apply H1].
Qed.

Lemma or_linear_if (c : bool) f g :
  or_linear f -> or_linear g -> or_linear (fun x => if c then f x else g x).
Proof. destruct c; auto. Qed.

Ltac or_linear_steps :=
  repeat first [ apply or_linear_id | apply or_linear_shiftr | apply or_linear_if
               | apply or_linear_lor | apply or_linear_land | apply or_linear_IData
               | apply or_linear_shiftl ].

(** Every step of the fast path is a mask, a shift or an or of its input. *)
Lemma VL_STREAML_FAST_III_linear lbits k :
  or_linear (fun ld => VL_STREAML_FAST_III lbits ld k).
Proof. unfold VL_STREAML_FAST_III. cbv zeta. or_linear_steps. Qed.

(** The slice loop ors together masked and shifted copies of its input; its
    control flow does not depend on the input. *)
Lemma VL_STREAML_III_loop_lor fuel lbits rd mask : forall istart a b ra rb,
  VL_STREAML_III_loop fuel lbits (Z.lor a b) rd mask istart (Z.lor ra rb)
  = option_lor (VL_STREAML_III_loop fuel lbits a rd mask istart ra)
               (VL_STREAML_III_loop fuel lbits b rd mask istart rb).
Proof.
  induction fuel as [|fuel IH]; intros istart a b ra rb.
  - simpl. destruct (istart <? lbits); reflexivity.
  - cbn [VL_STREAML_III_loop]. destruct (istart <? lbits); [| reflexivity].
    cbv zeta. rewrite <- IH. f_equal.
    set (o := if 0 <? int32_t (lbits - rd - istart)
              then int32_t (lbits - rd - istart) else 0).
    destruct (or_linear_IData (fun x => Z.shiftl (Z.land (Z.shiftr x istart) mask) o))
      as [_ H]; [or_linear_steps |].
    rewrite H. Z.bitblast.
Qed.

(** A value below 2^(n+1) is the union of its low [n] bits and bit [n]. *)
Lemma split_top_bit x n :
  0 <= n -> 0 <= x < 2 ^ (n + 1) ->
  x = Z.lor (x mod 2 ^ n) (if Z.testbit x n then 2 ^ n else 0).
Proof.
  intros Hn Hx. apply Z.bits_inj'. intros i Hi.
  rewrite Z.lor_spec, Z.testbit_mod_pow2 by lia.
  destruct (Z.ltb_spec i n).
  - simpl. destruct (Z.testbit x n).
    + rewrite Z.pow2_bits_false by lia. rewrite orb_false_r. reflexivity.
    + rewrite Z.bits_0, orb_false_r. reflexivity.
  - simpl. destruct (Z.eq_dec i n) as [->|Hne].
    + destruct (Z.testbit x n);
        [rewrite Z.pow2_bits_true by lia | rewrite Z.bits_0]; reflexivity.
    + assert (Z.testbit x i = false) as ->.
      { apply (Z.bits_above_log2 x i); [lia |].
        destruct (Z.eq_dec x 0) as [->|]; [simpl; lia |].
        apply Z.log2_lt_pow2; [lia |].
        assert (2 ^ (n + 1) <= 2 ^ i) by (apply Z.pow_le_mono_r; lia). lia. }
      destruct (Z.testbit x n);
        [rewrite Z.pow2_bits_false by lia | rewrite Z.bits_0]; reflexivity.
Qed.

(** Two or-distributing functions that agree on 0 and on every single bit
    below [n] agree on every value below 2^n. *)
Lemma agree_on_basis (f : Z -> Z) (g : Z -> option Z) (n : nat) :
  or_linear f ->
  (forall a b, g (Z.lor a b) = option_lor (g a) (g b)) ->
  g 0 = Some 0 ->
  (forall i, 0 <= i < Z.of_nat n -> g (2 ^ i) = Some (f (2 ^ i))) ->
  forall x, 0 <= x < 2 ^ Z.of_nat n -> g x = Some (f x).
Proof.
  intros [Hf0 Hf] Hg Hg0. induction n as [|n IH]; intros Hb x Hx.
  - assert (x = 0) as -> by (simpl in Hx; lia). rewrite Hf0. exact Hg0.
  - rewrite Nat2Z.inj_succ in Hx. unfold Z.succ in Hx.
    rewrite (split_top_bit x (Z.of_nat n)) by lia.
    rewrite Hg, Hf.
    rewrite (IH ltac:(intros i Hi; apply Hb; lia) (x mod 2 ^ Z.of_nat n))
      by (apply Z.mod_pos_bound; apply Z.pow_pos_nonneg; lia).
    destruct (Z.testbit x (Z.of_nat n)).
    + rewrite (Hb (Z.of_nat n)) by lia. reflexivity.
    + rewrite Hg0, Hf0. reflexivity.
Qed.

Lemma streaml_basis_all_true :
  forallb (fun lbits =>
             forallb (fun k => if 2 ^ k <=? lbits then streaml_basis_ok lbits k else true)
                     (seqZ 0 6))
          (seqZ 1 32) = true.
Proof. vm_compute. reflexivity. Qed.

Lemma streaml_basis_lookup lbits k :
  1 <= lbits <= 32 -> 0 <= k < 6 -> 2 ^ k <= lbits -> streaml_basis_ok lbits k = true.
Proof.
  intros Hl Hk Hrd.
  pose proof (forallb_seqZ _ 1 32 streaml_basis_all_true lbits ltac:(lia)) as H1.
  cbv beta in H1.
  pose proof (forallb_seqZ _ 0 6 H1 k ltac:(lia)) as H2.
  cbv beta in H2. destruct (Z.leb_spec (2 ^ k) lbits) as [_|]; [exact H2 | lia].
Qed.

(** C3: for every width 1 <= lbits <= 32, every value [ld] of that width
    and every slice size 2^rd_log2 <= lbits, the slow path terminates and
    returns exactly what the fast path returns. *)
Theorem streaml_fast_eq_slow (lbits ld rd_log2 : Z) :
  1 <= lbits <= 32 -> 0 <= rd_log2 -> 2 ^ rd_log2 <= lbits -> 0 <= ld < 2 ^ lbits ->
  VL_STREAML_III lbits ld (2 ^ rd_log2) = Some (VL_STREAML_FAST_III lbits ld rd_log2).
Proof.
  intros Hl Hk Hrd Hld.
  assert (Hk5 : rd_log2 < 6).
  { destruct (Z_lt_ge_dec rd_log2 6); [assumption |].
    assert (2 ^ 6 <= 2 ^ rd_log2) by (apply Z.pow_le_mono_r; lia). lia. }
  pose proof (streaml_basis_lookup lbits rd_log2 Hl ltac:(lia) Hrd) as H2.
  unfold streaml_basis_ok in H2. apply andb_true_iff in H2 as [H0 Hb].
  apply option_Z_eqb_eq in H0.
  replace lbits with (Z.of_nat (Z.to_nat lbits)) in Hld by lia.
  revert ld Hld.
  apply (agree_on_basis (fun ld => VL_STREAML_FAST_III lbits ld rd_log2)
           (fun ld => VL_STREAML_III lbits ld (2 ^ rd_log2))).
  - apply VL_STREAML_FAST_III_linear.
  - intros a b. unfold VL_STREAML_III. cbv zeta.
    rewrite <- VL_STREAML_III_loop_lor. reflexivity.
  - exact H0.
  - intros i Hi. apply option_Z_eqb_eq. apply (forallb_seqZ _ 0 lbits Hb). lia.
Qed.

Lemma streaml_fast_eq_slow_witness :
  VL_STREAML_III 8 0xb4 (2 ^ 1) = Some (VL_STREAML_FAST_III 8 0xb4 1).
Proof.
  exact (streaml_fast_eq_slow 8 0xb4 1 ltac:(lia) ltac:(lia) ltac:(lia) ltac:(lia)).
Defined.

(** The scenario of the specification: width 8, slice size 2, all 256
    inputs, checked by running both paths. *)
Example streaml_width8_slice2_all_inputs :
  forallb (fun ld => option_Z_eqb (VL_STREAML_III 8 ld 2)
                                  (Some (VL_STREAML_FAST_III 8 ld 1)))
          (seqZ 0 256) = true.
Proof. vm_compute. reflexivity. Qed.

(** The equality is about values of the declared width: on an input with a
    bit set above [lbits] (which the operators' contract excludes, both
    operands must be clean) the two paths differ. *)
Remark streaml_dirty_input_differs :
  VL_STREAML_FAST_III 5 32 1 = 1 /\ VL_STREAML_III 5 32 2 = Some 2.
Proof. split; vm_compute; reflexivity. Qed.

(** ** Wide signed division of the most-negative value by -1 *)

Lemma bnot32_word l : 0 <= l < 2 ^ 32 -> bnot 32 l = 2 ^ 32 - 1 - l.
Proof.
  intros Hl. unfold bnot, wrap, Z.lnot.
  replace (Z.pred (- l)) with ((2 ^ 32 - 1 - l) + (-1) * 2 ^ 32) by lia.
  rewrite Z.mod_add by lia. apply Z.mod_small. lia.
Qed.

Lemma VL_NEGATE_W_val words (owp lwp : WData) :
  0 <= words ->
  (forall k, 0 <= k < words -> 0 <= word lwp k < 2 ^ 32) ->
  (forall k, 0 <= k < words -> 0 <= word (VL_NEGATE_W words owp lwp) k < 2 ^ 32) /\
  wide_val (Z.to_nat words) 0 (VL_NEGATE_W words owp lwp)
  = (- wide_val (Z.to_nat words) 0 lwp) mod 2 ^ (32 * words).
Proof.
  intros Hw Hl. unfold VL_NEGATE_W.
  set (st := for_loop 0 words _ (1, owp)).
  pose (P := fun (j : Z) (t : Z * WData) =>
    0 <= fst t <= 1 /\
    (forall k, 0 <= k < j -> 0 <= word (snd t) k < 2 ^ 32) /\
    wide_val (Z.to_nat j) 0 (snd t) + 2 ^ (32 * j) * fst t
    = 2 ^ (32 * j) - wide_val (Z.to_nat j) 0 lwp).
  assert (HP : P words st).
  { unfold st. apply for_loop_ind; [exact Hw | |].
    - unfold P. simpl. split; [lia |]. split; [intros; lia | reflexivity].
    - intros j [c o] Hj (Hc & Ho & Hv). cbn [fst snd] in Hc, Ho, Hv.
      pose proof (Hl j Hj) as Hlj.
      cbn zeta. rewrite word_insert_eq. rewrite (bnot32_word _ Hlj).
      set (nl := 2 ^ 32 - 1 - word lwp j).
      set (w := EData (nl + c)).
      assert (Hwc : 0 <= w < 2 ^ 32 /\
                    w + 2 ^ 32 * (if w <? nl then 1 else 0) = nl + c).
      { unfold w, EData, wrap.
        destruct (Z.eq_dec (nl + c) (2 ^ 32)) as [E|E].
        - rewrite E. rewrite Z.mod_same by lia.
          destruct (Z.ltb_spec 0 nl); unfold nl in *; lia.
        - rewrite Z.mod_small by (unfold nl; lia).
          destruct (Z.ltb_spec (nl + c) nl); unfold nl in *; lia. }
      destruct Hwc as [Hwr Hwe].
      unfold P. cbn [fst snd]. split; [destruct (w <? nl); lia |]. split.
      + intros k Hk. destruct (Z.eq_dec j k) as [->|Hne].
        * rewrite word_insert_eq. exact Hwr.
        * rewrite word_insert_ne by exact Hne. apply Ho. lia.
      + replace (Z.to_nat (j + 1)) with (Datatypes.S (Z.to_nat j)) by lia.
        rewrite !wide_val_snoc. replace (0 + Z.of_nat (Z.to_nat j)) with j by lia.
        rewrite word_insert_eq. rewrite wide_val_insert_out by lia.
        replace (Z.of_nat (Z.to_nat j)) with j by lia.
        replace (32 * (j + 1)) with (32 * j + 32) by lia.
        rewrite Z.pow_add_r by lia.
        set (X := 2 ^ (32 * j)) in *. set (c' := if w <? nl then 1 else 0) in *.
        unfold nl in Hwe. change (2 ^ 32) with 4294967296 in *. nia. }
  destruct HP as (Hc & Ho & Hv). split.
  - exact Ho.
  - pose proof (wide_val_range (Z.to_nat words) 0 (snd st)
                  ltac:(intros k Hk; apply Ho; lia)) as Hb.
    replace (Z.of_nat (Z.to_nat words)) with words in Hb by lia.
    apply Z.mod_unique_pos with (q := fst st - 1); [exact Hb |]. lia.
Qed.

Lemma word_clean_range lbits (owp : WData) :
  (forall k, 0 <= k < VL_WORDS_I lbits -> 0 <= word owp k < 2 ^ 32) ->
  forall k, 0 <= k < VL_WORDS_I lbits ->
  0 <= word (_vl_clean_inplace_w lbits owp) k < 2 ^ 32.
Proof.
  intros Ho k Hk. unfold _vl_clean_inplace_w.
  destruct (Z.eq_dec (VL_WORDS_I lbits - 1) k) as [<-|Hne].
  - rewrite word_insert_eq. unfold VL_MASK_E. rewrite VL_MASK_I_ones.
    rewrite Z.land_ones by (destruct (lbits mod 32 =? 0);
                            pose proof (Z.mod_pos_bound lbits 32); lia).
    pose proof (Z.mod_pos_bound lbits 32 ltac:(lia)) as Hm.
    set (t := if lbits mod 32 =? 0 then 32 else lbits mod 32).
    assert (Ht : 0 <= t <= 32) by (unfold t; destruct (lbits mod 32 =? 0); lia).
    assert (2 ^ t <= 2 ^ 32) by (apply Z.pow_le_mono_r; lia).
    pose proof (Z.mod_pos_bound (word owp (VL_WORDS_I lbits - 1)) (2 ^ t)
                  ltac:(apply Z.pow_pos_nonneg; lia)). lia.
  - rewrite word_insert_ne by exact Hne. apply Ho, Hk.
Qed.

(** Negating and cleaning a wide value gives its two's complement at the
    declared width. *)
Lemma negate_clean_val lbits (owp lwp : WData) :
  1 <= lbits ->
  (forall k, 0 <= k < VL_WORDS_I lbits -> 0 <= word lwp k < 2 ^ 32) ->
  let r := _vl_clean_inplace_w lbits (VL_NEGATE_W (VL_WORDS_I lbits) owp lwp) in
  (forall k, 0 <= k < VL_WORDS_I lbits -> 0 <= word r k < 2 ^ 32) /\
  wide_val (Z.to_nat (VL_WORDS_I lbits)) 0 r
  = (- wide_val (Z.to_nat (VL_WORDS_I lbits)) 0 lwp) mod 2 ^ lbits.
Proof.
  intros HL Hl r. pose proof (top_bits_range lbits HL) as Ht.
  destruct (VL_NEGATE_W_val (VL_WORDS_I lbits) owp lwp ltac:(lia) Hl) as [Hr Hv].
  split.
  - apply word_clean_range, Hr.
  - unfold r. rewrite wide_val_clean by assumption. rewrite Hv.
    apply Z.mod_mod_divide.
    exists (2 ^ (32 * VL_WORDS_I lbits - lbits)).
    rewrite <- Z.pow_add_r by lia. f_equal. lia.
Qed.

Lemma wide_val_store_val n v (owp : WData) :
  0 <= v ->
  (forall k, 0 <= k < Z.of_nat n -> 0 <= word (store_val n 0 v owp) k < 2 ^ 32) /\
  wide_val n 0 (store_val n 0 v owp) = v mod 2 ^ (32 * Z.of_nat n).
Proof.
  intros Hv. split.
  - intros k Hk. rewrite word_store_val.
    replace ((0 <=? k) && (k <? 0 + Z.of_nat n)) with true by (symmetry; zcmp).
    change 0xffffffff with (Z.ones 32). rewrite Z.land_ones by lia.
    apply Z.mod_pos_bound. lia.
  - induction n as [|n IH].
    + simpl. rewrite Z.mod_1_r. reflexivity.
    + rewrite wide_val_snoc.
      rewrite (wide_val_ext n 0 _ (store_val n 0 v owp)).
      * rewrite IH. rewrite word_store_val.
        replace ((0 <=? 0 + Z.of_nat n) && (0 + Z.of_nat n <? 0 + Z.of_nat (Datatypes.S n)))
          with true by (symmetry; zcmp).
        change 0xffffffff with (Z.ones 32). rewrite Z.land_ones by lia.
        rewrite Z.shiftr_div_pow2 by lia.
        replace (32 * (0 + Z.of_nat n - 0)) with (32 * Z.of_nat n) by lia.
        replace (32 * Z.of_nat (Datatypes.S n)) with (32 * Z.of_nat n + 32) by lia.
        rewrite Z.pow_add_r by lia.
        rewrite Z.rem_mul_r by (try apply Z.pow_nonzero; lia). reflexivity.
      * intros k Hk. rewrite !word_store_val.
        replace ((0 <=? k) && (k <? 0 + Z.of_nat (Datatypes.S n))) with true
          by (symmetry; zcmp).
        replace ((0 <=? k) && (k <? 0 + Z.of_nat n)) with true by (symmetry; zcmp).
        reflexivity.
Qed.

(** The top word of a wide value is the value shifted down. *)
Lemma top_word_of_val W (wp : WData) :
  1 <= W ->
  (forall k, 0 <= k < VL_WORDS_I W -> 0 <= word wp k < 2 ^ 32) ->
  word wp (VL_WORDS_I W - 1)
  = wide_val (Z.to_nat (VL_WORDS_I W)) 0 wp / 2 ^ (32 * (VL_WORDS_I W - 1)).
Proof.
  intros HW Hr. pose proof (top_bits_range W HW) as Ht.
  set (n := VL_WORDS_I W) in *.
  replace (Z.to_nat n) with (Datatypes.S (Z.to_nat (n - 1))) by lia.
  rewrite wide_val_snoc. replace (0 + Z.of_nat (Z.to_nat (n - 1))) with (n - 1) by lia.
  replace (Z.of_nat (Z.to_nat (n - 1))) with (n - 1) by lia.
  pose proof (wide_val_range (Z.to_nat (n - 1)) 0 wp
                ltac:(intros k Hk; apply Hr; lia)) as Hb.
  replace (Z.of_nat (Z.to_nat (n - 1))) with (n - 1) in Hb by lia.
  rewrite Z.mul_comm, Z.div_add by (apply Z.pow_nonzero; lia).
  rewrite Z.div_small by lia. reflexivity.
Qed.

Lemma VL_SIGN_E_of_val W (wp : WData) :
  1 <= W ->
  (forall k, 0 <= k < VL_WORDS_I W -> 0 <= word wp k < 2 ^ 32) ->
  VL_SIGN_E W (word wp (VL_WORDS_I W - 1))
  = wide_val (Z.to_nat (VL_WORDS_I W)) 0 wp / 2 ^ (W - 1).
Proof.
  intros HW Hr. pose proof (top_bits_range W HW) as Ht.
  unfold VL_SIGN_E. rewrite sign_bit_index by lia.
  rewrite top_word_of_val by assumption.
  rewrite Z.shiftr_div_pow2 by lia.
  rewrite Z.div_div by (try apply Z.pow_nonzero; try apply Z.pow_pos_nonneg; lia).
  rewrite <- Z.pow_add_r by lia. do 2 f_equal. lia.
Qed.

Lemma wide_words_range n (wp : WData) :
  wide_words n wp = true -> forall k, 0 <= k < n -> 0 <= word wp k < 2 ^ 32.
Proof. intros H k Hk. apply (wide_words_spec n wp H k Hk). Qed.

Lemma pow2_half L : 1 <= L -> 2 ^ L = 2 * 2 ^ (L - 1).
Proof.
  intros HL. replace L with (1 + (L - 1)) at 1 by lia.
  rewrite Z.pow_add_r by lia. reflexivity.
Qed.

Lemma VL_DIVS_WWW_min_by_minus1 (VL_MULS_MAX_WORDS L : Z) (owp lwp rwp : WData) :
  1 <= L ->
  VL_WORDS_I L <= VL_MULS_MAX_WORDS ->
  wide_words (VL_WORDS_I L) lwp = true ->
  wide_words (VL_WORDS_I L) rwp = true ->
  wide_val (Z.to_nat (VL_WORDS_I L)) 0 lwp = 2 ^ (L - 1) ->
  wide_val (Z.to_nat (VL_WORDS_I L)) 0 rwp = 2 ^ L - 1 ->
  (exists r, VL_MODDIVS_WWW VL_MULS_MAX_WORDS L owp lwp rwp = Some r /\
             wide_val (Z.to_nat (VL_WORDS_I L)) 0 r = 0) /\
  (exists r, VL_DIVS_WWW VL_MULS_MAX_WORDS L owp lwp rwp = Some r /\
             wide_val (Z.to_nat (VL_WORDS_I L)) 0 r = 2 ^ (L - 1)).
Proof.
  intros HL Hcap Hl Hr Hlv Hrv.
  pose proof (wide_words_range _ _ Hl) as Hlr. pose proof (wide_words_range _ _ Hr) as Hrr.
  pose proof (top_bits_range L HL) as Ht.
  pose proof (pow2_half L HL) as Hh.
  assert (Hp : 0 < 2 ^ (L - 1)) by (apply Z.pow_pos_nonneg; lia).
  assert (Hpn : 2 ^ L <= 2 ^ (32 * VL_WORDS_I L)) by (apply Z.pow_le_mono_r; lia).
  assert (Hls : (VL_SIGN_E L (word lwp (VL_WORDS_I L - 1)) =? 0) = false).
  { rewrite VL_SIGN_E_of_val, Hlv by assumption. rewrite Z.div_same by lia. reflexivity. }
  assert (Hrs : (VL_SIGN_E L (word rwp (VL_WORDS_I L - 1)) =? 0) = false).
  { rewrite VL_SIGN_E_of_val, Hrv by assumption.
    replace (2 ^ L - 1) with (1 * 2 ^ (L - 1) + (2 ^ (L - 1) - 1)) by lia.
    rewrite Z.div_add_l by lia. rewrite Z.div_small by lia. reflexivity. }
  assert (Hfit : (VL_WORDS_I L <=? VL_MULS_MAX_WORDS) = true) by (apply Z.leb_le; exact Hcap).
  destruct (negate_clean_val L ∅ lwp HL Hlr) as [Hltr Hltv].
  destruct (negate_clean_val L ∅ rwp HL Hrr) as [Hrtr Hrtv].
  rewrite Hlv in Hltv. rewrite Hrv in Hrtv.
  assert (El : (- 2 ^ (L - 1)) mod 2 ^ L = 2 ^ (L - 1)).
  { symmetry. apply Z.mod_unique_pos with (q := -1); lia. }
  assert (Er : (- (2 ^ L - 1)) mod 2 ^ L = 1).
  { symmetry. apply Z.mod_unique_pos with (q := -1); lia. }
  rewrite El in Hltv. rewrite Er in Hrtv.
  split.
  - unfold VL_MODDIVS_WWW. cbv zeta. rewrite Hfit, Hls, Hrs. cbn [negb].
    eexists. split; [reflexivity |].
    set (q := VL_MODDIV_WWW L ∅ _ _).
    assert (Hq : (forall k, 0 <= k < VL_WORDS_I L -> 0 <= word q k < 2 ^ 32) /\
                 wide_val (Z.to_nat (VL_WORDS_I L)) 0 q = 0).
    { unfold q, VL_MODDIV_WWW, _vl_moddiv_w. rewrite Hltv, Hrtv.
      change (1 =? 0) with false. cbv iota. rewrite Z.rem_1_r.
      destruct (wide_val_store_val (Z.to_nat (VL_WORDS_I L)) 0 ∅ ltac:(lia)) as [Hs1 Hs2].
      split; [intros k Hk; apply Hs1; lia | rewrite Hs2; apply Z.mod_0_l].
      apply Z.pow_nonzero; lia. }
    destruct Hq as [Hqr Hqv].
    destruct (negate_clean_val L owp q HL Hqr) as [_ Hv]. rewrite Hv, Hqv.
    apply Z.mod_0_l. apply Z.pow_nonzero; lia.
  - unfold VL_DIVS_WWW. cbv zeta. rewrite Hfit, Hls, Hrs. cbn [negb andb orb].
    eexists. split; [reflexivity |].
    unfold VL_DIV_WWW, _vl_moddiv_w. rewrite Hltv, Hrtv.
    change (1 =? 0) with false. cbv iota. rewrite Z.quot_1_r.
    destruct (wide_val_store_val (Z.to_nat (VL_WORDS_I L)) (2 ^ (L - 1)) owp ltac:(lia))
      as [_ Hs2].
    rewrite Hs2. replace (Z.of_nat (Z.to_nat (VL_WORDS_I L))) with (VL_WORDS_I L) by lia.
    apply Z.mod_small. lia.
Qed.

(** ** Signed division overflow *)

(** C1, as stated (counterexample): the width-5 signed divide of -16
    (0b10000) by -1 (0b11111) returns 16 = 0b10000, the wrapped quotient,
    not 0. *)
Lemma signed_div_overflow_width5_counterexample :
  VL_DIVS_III 5 16 31 = Some 16 /\ VL_DIVS_III 5 16 31 <> Some 0.
Proof. split; [vm_compute; reflexivity | vm_compute; discriminate]. Qed.

(** C1, amended: with the most-negative dividend 2^(L-1) and the divisor
    -1 = 2^L - 1, the signed modulus is 0 at every width and in every
    variant; the signed division is 0 only where the explicit guard fires,
    when L is the full machine width (32 for the narrow variant, 64 for the
    medium one), and is the wrapped quotient 2^(L-1) at every smaller width
    and in the wide variant.  None of them traps.  The wide variant has
    these results at every width whose [words(L)] words fit its scratch
    arrays ([words(L) <= VL_MULS_MAX_WORDS], whatever that capacity is). *)
Theorem signed_div_overflow (VL_MULS_MAX_WORDS L : Z) (owp lwp rwp : WData) :
  (1 <= L <= 32 ->
   VL_MODDIVS_III L (2 ^ (L - 1)) (2 ^ L - 1) = Some 0 /\
   VL_DIVS_III L (2 ^ (L - 1)) (2 ^ L - 1) = Some (if L =? 32 then 0 else 2 ^ (L - 1))) /\
  (1 <= L <= 64 ->
   VL_MODDIVS_QQQ L (2 ^ (L - 1)) (2 ^ L - 1) = Some 0 /\
   VL_DIVS_QQQ L (2 ^ (L - 1)) (2 ^ L - 1) = Some (if L =? 64 then 0 else 2 ^ (L - 1))) /\
  (1 <= L ->
   VL_WORDS_I L <= VL_MULS_MAX_WORDS ->
   wide_words (VL_WORDS_I L) lwp = true ->
   wide_words (VL_WORDS_I L) rwp = true ->
   wide_val (Z.to_nat (VL_WORDS_I L)) 0 lwp = 2 ^ (L - 1) ->
   wide_val (Z.to_nat (VL_WORDS_I L)) 0 rwp = 2 ^ L - 1 ->
   (exists r, VL_MODDIVS_WWW VL_MULS_MAX_WORDS L owp lwp rwp = Some r /\
              wide_val (Z.to_nat (VL_WORDS_I L)) 0 r = 0) /\
   (exists r, VL_DIVS_WWW VL_MULS_MAX_WORDS L owp lwp rwp = Some r /\
              wide_val (Z.to_nat (VL_WORDS_I L)) 0 r = 2 ^ (L - 1))).
Proof.
  split; [| split].
  - intros HL.
    pose (chk := fun L =>
      option_Z_eqb (VL_MODDIVS_III L (2 ^ (L - 1)) (2 ^ L - 1)) (Some 0)
      && option_Z_eqb (VL_DIVS_III L (2 ^ (L - 1)) (2 ^ L - 1))
                      (Some (if L =? 32 then 0 else 2 ^ (L - 1)))).
    assert (H : chk L = true).
    { apply (forallb_seqZ chk 1 32); [vm_compute; reflexivity | lia]. }
    apply andb_true_iff in H as [H1 H2]. split; apply option_Z_eqb_eq; assumption.
  - intros HL.
    pose (chk := fun L =>
      option_Z_eqb (VL_MODDIVS_QQQ L (2 ^ (L - 1)) (2 ^ L - 1)) (Some 0)
      && option_Z_eqb (VL_DIVS_QQQ L (2 ^ (L - 1)) (2 ^ L - 1))
                      (Some (if L =? 64 then 0 else 2 ^ (L - 1)))).
    assert (H : chk L = true).
    { apply (forallb_seqZ chk 1 64); [vm_compute; reflexivity | lia]. }
    apply andb_true_iff in H as [H1 H2]. split; apply option_Z_eqb_eq; assumption.
  - apply VL_DIVS_WWW_min_by_minus1.
Qed.

Lemma signed_div_overflow_witness :
  VL_MODDIVS_III 5 16 31 = Some 0 /\
  VL_DIVS_III 32 0x80000000 0xffffffff = Some 0 /\
  VL_DIVS_QQQ 40 (2 ^ 39) (2 ^ 40 - 1) = Some (2 ^ 39) /\
  exists r, VL_DIVS_WWW 128 70 (wide [0; 0; 0]) (wide [0; 0; 0x20])
              (wide [0xffffffff; 0xffffffff; 0x3f]) = Some r /\
            wide_val 3 0 r = 2 ^ 69.
Proof.
  split; [| split; [| split]].
  - exact (proj1 (proj1 (signed_div_overflow 128 5 (wide []) (wide []) (wide [])) ltac:(lia))).
  - exact (proj2 (proj1 (signed_div_overflow 128 32 (wide []) (wide []) (wide [])) ltac:(lia))).
  - exact (proj2 (proj1 (proj2 (signed_div_overflow 128 40 (wide []) (wide []) (wide [])))
                    ltac:(lia))).
  - exact (proj2 (proj2 (proj2 (signed_div_overflow 128 70 (wide [0; 0; 0]) (wide [0; 0; 0x20])
                                  (wide [0xffffffff; 0xffffffff; 0x3f])))
                    ltac:(lia) ltac:(vm_compute; discriminate)
                    ltac:(vm_compute; reflexivity) ltac:(vm_compute; reflexivity)
                    ltac:(vm_compute; reflexivity) ltac:(vm_compute; reflexivity))).
Defined.

(** ** Range insert inside an aligned destination *)

(** Where the destination width is a multiple of 32 (or the range lies
    inside the declared width), an insert of at most 32 bits that starts
    inside the destination stores no word at index [words(rbits)] or
    above: when the high word of the range would be word [rbits/32], the
    guard skips the store. *)
Lemma _vl_insert_WI_in_bounds (iowp : WData) (ld hbit lbit rbits : Z) :
  1 <= rbits -> 0 <= lbit <= hbit -> hbit - lbit < 32 -> lbit < rbits ->
  hbit < rbits \/ rbits mod 32 = 0 ->
  forall i, VL_WORDS_I rbits <= i -> iowp !! i = None ->
  _vl_insert_WI iowp ld hbit lbit rbits !! i = None.
Proof.
  intros Hr Hlh Hw Hl Hcase i Hi Hnone.
  rewrite VL_WORDS_I_div in Hi by lia.
  destruct (bit_split hbit) as [Eh Hho]. destruct (bit_split lbit) as [El Hlo].
  destruct (bit_split rbits) as [Er Hro].
  pose proof (Z.div_mod (rbits + 31) 32 ltac:(lia)) as Hdm.
  pose proof (Z.mod_pos_bound (rbits + 31) 32 ltac:(lia)) as Hmb.
  assert (Hrm : rbits mod 32 = VL_BITBIT_E rbits) by (symmetry; apply VL_BITBIT_E_mod).
  unfold _vl_insert_WI.
  set (hw := VL_BITWORD_E hbit) in *. set (ho := VL_BITBIT_E hbit) in *.
  set (lw := VL_BITWORD_E lbit) in *. set (lo := VL_BITBIT_E lbit) in *.
  set (rw := VL_BITWORD_E rbits) in *. set (ro := VL_BITBIT_E rbits) in *.
  assert (Hlw : lw <> i) by lia.
  destruct ((ho =? VL_SIZEBITS_E) && (lo =? 0)).
  - rewrite lookup_insert_ne by exact Hlw. exact Hnone.
  - destruct (Z.eqb_spec hw lw).
    + rewrite lookup_insert_ne by exact Hlw. exact Hnone.
    + destruct (Z.eqb_spec hw rw) as [Ehr|Ehr], (Z.eqb_spec ro 0) as [Ero|Ero];
        cbn [andb negb].
      * rewrite lookup_insert_ne by exact Hlw. exact Hnone.
      * rewrite !lookup_insert_ne by lia. exact Hnone.
      * rewrite !lookup_insert_ne by lia. exact Hnone.
      * rewrite !lookup_insert_ne by lia. exact Hnone.
Qed.

(** ** Wide subtract and multiply: loop invariants *)

Lemma wide_val_insert_in n i (wp : WData) j v :
  i <= j < i + Z.of_nat n ->
  wide_val n i (<[j := v]> wp) = wide_val n i wp + 2 ^ (32 * (j - i)) * (v - word wp j).
Proof.
  revert i. induction n as [|n IH]; intros i Hj; [lia |].
  cbn [wide_val]. destruct (Z.eq_dec i j) as [->|Hne].
  - rewrite word_insert_eq. rewrite wide_val_insert_out by lia.
    replace (32 * (j - j)) with 0 by lia. change (2 ^ 0) with 1. lia.
  - rewrite word_insert_ne by lia. rewrite IH by lia.
    replace (32 * (j - i)) with (32 + 32 * (j - (i + 1))) by lia.
    rewrite Z.pow_add_r by lia. lia.
Qed.

Lemma wide_val_inj n i (a b : WData) :
  (forall k, i <= k < i + Z.of_nat n -> 0 <= word a k < 2 ^ 32) ->
  (forall k, i <= k < i + Z.of_nat n -> 0 <= word b k < 2 ^ 32) ->
  wide_val n i a = wide_val n i b ->
  forall k, i <= k < i + Z.of_nat n -> word a k = word b k.
Proof.
  revert i. induction n as [|n IH]; intros i Ha Hb Hv k Hk; [lia |].
  cbn [wide_val] in Hv.
  pose proof (Ha i ltac:(lia)) as Hai. pose proof (Hb i ltac:(lia)) as Hbi.
  assert (Hw : word a i = word b i /\ wide_val n (i + 1) a = wide_val n (i + 1) b).
  { change (2 ^ 32) with 4294967296 in *. lia. }
  destruct Hw as [Hw Hv']. destruct (Z.eq_dec k i) as [->|Hne]; [exact Hw |].
  apply (IH (i + 1)); [intros; apply Ha; lia | intros; apply Hb; lia | exact Hv' | lia].
Qed.

Lemma for_up_ext_inv {S : Type} (I : Z -> S -> Prop) (f g : Z -> S -> S) n i s :
  I i s ->
  (forall j t, i <= j < i + Z.of_nat n -> I j t -> f j t = g j t /\ I (j + 1) (f j t)) ->
  for_up n i f s = for_up n i g s.
Proof.
  revert i s. induction n as [|n IH]; intros i s Hs Hstep; [reflexivity |].
  cbn [for_up]. destruct (Hstep i s ltac:(lia) Hs) as [E HI]. rewrite <- E.
  apply IH; [exact HI |]. intros j t Hj. apply Hstep. lia.
Qed.

Lemma VL_NEGATE_INPLACE_W_eq words (wp : WData) :
  VL_NEGATE_INPLACE_W words wp = VL_NEGATE_W words wp wp.
Proof.
  unfold VL_NEGATE_INPLACE_W, VL_NEGATE_W, for_loop. f_equal.
  apply (for_up_ext_inv (fun j t => forall k, j <= k -> word (snd t) k = word wp k)).
  - intros k _. reflexivity.
  - intros j [c m] Hj HI. cbn [snd] in HI. split.
    + cbn zeta. rewrite word_insert_eq. rewrite (HI j) by lia. reflexivity.
    + cbn [snd]. intros k Hk. rewrite word_insert_ne by lia. apply HI. lia.
Qed.

Lemma VL_SUB_W_val words (owp lwp rwp : WData) :
  0 <= words ->
  (forall k, 0 <= k < words -> 0 <= word lwp k < 2 ^ 32) ->
  (forall k, 0 <= k < words -> 0 <= word rwp k < 2 ^ 32) ->
  (forall k, 0 <= k < words -> 0 <= word (VL_SUB_W words owp lwp rwp) k < 2 ^ 32) /\
  wide_val (Z.to_nat words) 0 (VL_SUB_W words owp lwp rwp)
  = (wide_val (Z.to_nat words) 0 lwp - wide_val (Z.to_nat words) 0 rwp)
    mod 2 ^ (32 * words).
Proof.
  intros Hw Hl' Hr'. unfold VL_SUB_W.
  set (st := for_loop 0 words _ (0, owp)).
  pose (P := fun (j : Z) (t : Z * WData) =>
    0 <= fst t <= 1 /\
    (forall k, 0 <= k < j -> 0 <= word (snd t) k < 2 ^ 32) /\
    wide_val (Z.to_nat j) 0 (snd t) + 2 ^ (32 * j) * fst t
    = wide_val (Z.to_nat j) 0 lwp - wide_val (Z.to_nat j) 0 rwp
      + (if j =? 0 then 0 else 2 ^ (32 * j))).
  assert (HP : P words st).
  { unfold st. apply for_loop_ind; [exact Hw | |].
    - unfold P. simpl. split; [lia |]. split; [intros; lia | reflexivity].
    - intros j [c o] Hj (Hc & Ho & Hv). cbn [fst snd] in Hc, Ho, Hv.
      pose proof (Hl' j Hj) as Hlj. pose proof (Hr' j Hj) as Hrj.
      set (s := c + word lwp j + (2 ^ 32 - 1 - word rwp j) + (if j =? 0 then 1 else 0)).
      assert (Hs : 0 <= s < 2 * 2 ^ 32).
      { unfold s. destruct (Z.eqb_spec j 0) as [->|Hj0].
        - simpl in Hv. lia.
        - lia. }
      assert (Hq : (if j =? 0
                    then QData (QData (c + QData (word lwp j)
                                       + QData (IData (bnot 32 (word rwp j)))) + 1)
                    else QData (c + QData (word lwp j)
                                + QData (IData (bnot 32 (word rwp j))))) = s).
      { rewrite bnot32_word by lia. unfold QData, IData.
        rewrite (wrap_small 32) by lia.
        rewrite !(wrap_small 64 (word _ j)) by lia.
        rewrite (wrap_small 64 (2 ^ 32 - 1 - _)) by lia.
        unfold s. change (2 ^ 32) with 4294967296 in *.
        destruct (Z.eqb_spec j 0).
        - rewrite (wrap_small 64 (c + _ + _)) by (change (2 ^ 64) with 18446744073709551616; lia).
          apply wrap_small. change (2 ^ 64) with 18446744073709551616; lia.
        - rewrite Z.add_0_r. apply wrap_small. change (2 ^ 64) with 18446744073709551616; lia. }
      cbn zeta. rewrite !Hq.
      change 0xffffffff with (Z.ones 32).
      rewrite Z.shiftr_div_pow2 by lia. rewrite !Z.land_ones by lia.
      assert (Hd : 0 <= s / 2 ^ 32 <= 1).
      { split; [apply Z.div_pos; lia |].
        apply Z.lt_succ_r. apply Z.div_lt_upper_bound; lia. }
      rewrite (Z.mod_small (s / 2 ^ 32)) by lia.
      unfold P. cbn [fst snd]. split; [exact Hd |]. split.
      + intros k Hk. destruct (Z.eq_dec j k) as [->|Hne].
        * rewrite word_insert_eq. apply Z.mod_pos_bound. lia.
        * rewrite word_insert_ne by exact Hne. apply Ho. lia.
      + replace (Z.to_nat (j + 1)) with (Datatypes.S (Z.to_nat j)) by lia.
        rewrite !wide_val_snoc. replace (0 + Z.of_nat (Z.to_nat j)) with j by lia.
        rewrite word_insert_eq. rewrite wide_val_insert_out by lia.
        replace (Z.of_nat (Z.to_nat j)) with j by lia.
        replace (32 * (j + 1)) with (32 * j + 32) by lia.
        rewrite Z.pow_add_r by lia.
        pose proof (Z.div_mod s (2 ^ 32) ltac:(lia)) as Hdm.
        unfold s in Hdm at 1.
        destruct (Z.eqb_spec (j + 1) 0) as [|_]; [lia |].
        destruct (Z.eqb_spec j 0) as [Hj0|Hj0].
        * subst j. change (2 ^ (32 * 0)) with 1 in *.
          change (2 ^ 32) with 4294967296 in *. lia.
        * set (X := 2 ^ (32 * j)) in *.
          change (2 ^ 32) with 4294967296 in *. nia. }
  destruct HP as (Hc & Ho & Hv). split.
  - exact Ho.
  - pose proof (wide_val_range (Z.to_nat words) 0 (snd st)
                  ltac:(intros k Hk; apply Ho; lia)) as Hb.
    replace (Z.of_nat (Z.to_nat words)) with words in Hb by lia.
    apply Z.mod_unique_pos with (q := fst st - (if words =? 0 then 0 else 1)); [exact Hb |].
    revert Hv. destruct (Z.eqb_spec words 0) as [E|E]; intros Hv.
    + rewrite E in Hv |- *. simpl in Hv |- *. lia.
    + set (X := 2 ^ (32 * words)) in *. lia.
Qed.

(** One partial product added into the accumulator at word [q0]. *)
Lemma VL_MUL_W_accumulate words q0 m (owp : WData) :
  0 <= q0 -> 0 <= words ->
  (forall k, 0 <= k < words -> 0 <= word owp k < 2 ^ 32) ->
  0 <= m <= (2 ^ 32 - 1) * (2 ^ 32 - 1) ->
  let r := snd (for_loop q0 words
                  (fun qword '(mul, owp) =>
                     let mul := QData (mul + QData (word owp qword)) in
                     let owp := <[qword := Z.land mul 0xffffffff]> owp in
                     let mul := Z.land (Z.shiftr mul 32) 0xffffffff in
                     (mul, owp))
                  (m, owp)) in
  (forall k, 0 <= k < words -> 0 <= word r k < 2 ^ 32) /\
  wide_val (Z.to_nat words) 0 r
  = (wide_val (Z.to_nat words) 0 owp + m * 2 ^ (32 * q0)) mod 2 ^ (32 * words).
Proof.
  intros Hq Hw Ho Hm.
  pose proof (wide_val_range (Z.to_nat words) 0 owp ltac:(intros k Hk; apply Ho; lia)) as Hb.
  replace (Z.of_nat (Z.to_nat words)) with words in Hb by lia.
  destruct (Z.le_gt_cases q0 words) as [Hle|Hgt].
  2:{ cbn zeta. rewrite for_loop_empty by lia. cbn [snd]. split; [exact Ho |].
      replace (32 * q0) with (32 * (q0 - words) + 32 * words) by lia.
      rewrite Z.pow_add_r by lia. rewrite Z.mul_assoc. rewrite Z.mod_add by lia.
      symmetry. apply Z.mod_small. exact Hb. }
  cbn zeta. set (st := for_loop q0 words _ (m, owp)).
  pose (P := fun (j : Z) (t : Z * WData) =>
    0 <= fst t <= (2 ^ 32 - 1) * (2 ^ 32 - 1) /\
    (forall k, 0 <= k < words -> 0 <= word (snd t) k < 2 ^ 32) /\
    wide_val (Z.to_nat words) 0 (snd t) + fst t * 2 ^ (32 * j)
    = wide_val (Z.to_nat words) 0 owp + m * 2 ^ (32 * q0)).
  assert (HP : P words st).
  { unfold st. apply for_loop_ind; [exact Hle | |].
    - unfold P. cbn [fst snd]. split; [exact Hm |]. split; [exact Ho | reflexivity].
    - intros j [c o] Hj (Hc & Hor & Hv). cbn [fst snd] in Hc, Hor, Hv.
      pose proof (Hor j ltac:(lia)) as Hoj.
      set (s := c + word o j).
      assert (Hs : 0 <= s < 2 ^ 64).
      { unfold s. change (2 ^ 32) with 4294967296 in *.
        change (2 ^ 64) with 18446744073709551616. lia. }
      assert (Hqd : QData (c + QData (word o j)) = s).
      { unfold QData. rewrite (wrap_small 64 (word o j))
          by (change (2 ^ 32) with 4294967296 in *;
              change (2 ^ 64) with 18446744073709551616; lia).
        apply wrap_small. exact Hs. }
      cbn zeta. rewrite !Hqd.
      change 0xffffffff with (Z.ones 32).
      rewrite Z.shiftr_div_pow2 by lia. rewrite !Z.land_ones by lia.
      assert (Hd : 0 <= s / 2 ^ 32 < 2 ^ 32).
      { split; [apply Z.div_pos; lia |].
        apply Z.div_lt_upper_bound; [lia |]. rewrite <- Z.pow_add_r by lia. apply Hs. }
      rewrite (Z.mod_small (s / 2 ^ 32)) by lia.
      unfold P. cbn [fst snd]. split.
      { change (2 ^ 32) with 4294967296 in *. lia. }
      split.
      + intros k Hk. destruct (Z.eq_dec j k) as [->|Hne].
        * rewrite word_insert_eq. apply Z.mod_pos_bound. lia.
        * rewrite word_insert_ne by exact Hne. apply Hor. lia.
      + rewrite wide_val_insert_in by lia. rewrite Z.sub_0_r.
        replace (32 * (j + 1)) with (32 * j + 32) by lia.
        rewrite Z.pow_add_r by lia.
        pose proof (Z.div_mod s (2 ^ 32) ltac:(lia)) as Hdm.
        unfold s in Hdm at 1. set (X := 2 ^ (32 * j)) in *.
        change (2 ^ 32) with 4294967296 in *. nia. }
  destruct HP as (Hc & Hor & Hv). split; [exact Hor |].
  pose proof (wide_val_range (Z.to_nat words) 0 (snd st)
                ltac:(intros k Hk; apply Hor; lia)) as Hb'.
  replace (Z.of_nat (Z.to_nat words)) with words in Hb' by lia.
  apply Z.mod_unique_pos with (q := fst st); [exact Hb' |].
  rewrite <- Hv. lia.
Qed.

Lemma VL_MUL_W_val words (owp lwp rwp : WData) :
  0 <= words ->
  (forall k, 0 <= k < words -> 0 <= word lwp k < 2 ^ 32) ->
  (forall k, 0 <= k < words -> 0 <= word rwp k < 2 ^ 32) ->
  (forall k, 0 <= k < words -> 0 <= word (VL_MUL_W words owp lwp rwp) k < 2 ^ 32) /\
  wide_val (Z.to_nat words) 0 (VL_MUL_W words owp lwp rwp)
  = (wide_val (Z.to_nat words) 0 lwp * wide_val (Z.to_nat words) 0 rwp)
    mod 2 ^ (32 * words).
Proof.
  intros Hw Hl Hr. unfold VL_MUL_W. cbn zeta.
  set (M := 2 ^ (32 * words)).
  assert (HM : 0 < M) by (apply Z.pow_pos_nonneg; lia).
  set (B := wide_val (Z.to_nat words) 0 rwp).
  set (z := for_loop 0 words (fun i o => <[i := 0]> o) owp).
  assert (Hz : forall k, 0 <= k < words -> word z k = 0).
  { intros k Hk. unfold z. rewrite word_for_loop_store.
    destruct (Z.leb_spec 0 k), (Z.ltb_spec k words); cbn [andb]; lia. }
  apply (for_loop_ind
           (fun L (o : WData) =>
              (forall k, 0 <= k < words -> 0 <= word o k < 2 ^ 32) /\
              wide_val (Z.to_nat words) 0 o = (wide_val (Z.to_nat L) 0 lwp * B) mod M));
    [exact Hw | |].
  - split.
    + intros k Hk. rewrite Hz by lia. lia.
    + rewrite wide_val_zero by (intros k Hk; apply Hz; lia). reflexivity.
  - intros L o HL [Hor Hov].
    pose proof (Hl L HL) as HlL.
    assert (Hmid :
      (forall k, 0 <= k < words ->
         0 <= word (for_loop 0 words
                      (fun rword owp =>
                         snd (for_loop (L + rword) words
                                (fun qword '(mul, owp) =>
                                   let mul := QData (mul + QData (word owp qword)) in
                                   let owp := <[qword := Z.land mul 0xffffffff]> owp in
                                   let mul := Z.land (Z.shiftr mul 32) 0xffffffff in
                                   (mul, owp))
                                (QData (QData (word lwp L) * QData (word rwp rword)), owp)))
                      o) k < 2 ^ 32) /\
      wide_val (Z.to_nat words) 0
        (for_loop 0 words
           (fun rword owp =>
              snd (for_loop (L + rword) words
                     (fun qword '(mul, owp) =>
                        let mul := QData (mul + QData (word owp qword)) in
                        let owp := <[qword := Z.land mul 0xffffffff]> owp in
                        let mul := Z.land (Z.shiftr mul 32) 0xffffffff in
                        (mul, owp))
                     (QData (QData (word lwp L) * QData (word rwp rword)), owp)))
           o)
      = (wide_val (Z.to_nat words) 0 o
         + word lwp L * wide_val (Z.to_nat words) 0 rwp * 2 ^ (32 * L)) mod M).
    { apply (for_loop_ind
               (fun R (t : WData) =>
                  (forall k, 0 <= k < words -> 0 <= word t k < 2 ^ 32) /\
                  wide_val (Z.to_nat words) 0 t
                  = (wide_val (Z.to_nat words) 0 o
                     + word lwp L * wide_val (Z.to_nat R) 0 rwp * 2 ^ (32 * L)) mod M));
        [exact Hw | |].
      - split; [exact Hor |]. simpl wide_val at 3. rewrite Z.mul_0_r, Z.mul_0_l, Z.add_0_r.
        symmetry. apply Z.mod_small.
        pose proof (wide_val_range (Z.to_nat words) 0 o ltac:(intros k Hk; apply Hor; lia)) as Hb.
        replace (Z.of_nat (Z.to_nat words)) with words in Hb by lia. exact Hb.
      - intros R t HR [Htr Htv].
        pose proof (Hr R HR) as HrR.
        assert (Hm : QData (QData (word lwp L) * QData (word rwp R)) = word lwp L * word rwp R).
        { unfold QData.
          rewrite !(wrap_small 64 (word _ _))
            by (change (2 ^ 32) with 4294967296 in *;
                change (2 ^ 64) with 18446744073709551616; lia).
          apply wrap_small. change (2 ^ 32) with 4294967296 in *.
          change (2 ^ 64) with 18446744073709551616. nia. }
        rewrite Hm.
        destruct (VL_MUL_W_accumulate words (L + R) (word lwp L * word rwp R) t
                    ltac:(lia) Hw Htr
                    ltac:(change (2 ^ 32) with 4294967296 in *; nia)) as [Hr1 Hr2].
        split; [exact Hr1 |].
        rewrite Hr2, Htv. rewrite Zplus_mod_idemp_l.
        replace (Z.to_nat (R + 1)) with (Datatypes.S (Z.to_nat R)) by lia.
        rewrite wide_val_snoc. replace (0 + Z.of_nat (Z.to_nat R)) with R by lia.
        replace (Z.of_nat (Z.to_nat R)) with R by lia.
        replace (32 * (L + R)) with (32 * L + 32 * R) by lia.
        rewrite Z.pow_add_r by lia. f_equal. ring. }
    cbv zeta in Hmid. destruct Hmid as [Hm1 Hm2]. split; [exact Hm1 |].
    rewrite Hm2, Hov. fold B. rewrite Zplus_mod_idemp_l.
    replace (Z.to_nat (L + 1)) with (Datatypes.S (Z.to_nat L)) by lia.
    rewrite wide_val_snoc. replace (0 + Z.of_nat (Z.to_nat L)) with L by lia.
    replace (Z.of_nat (Z.to_nat L)) with L by lia. f_equal. ring.
Qed.

(** ** Two's-complement reading *)

Lemma signed_val_range W x :
  1 <= W -> 0 <= x < 2 ^ W -> - 2 ^ (W - 1) <= signed_val W x < 2 ^ (W - 1).
Proof.
  intros HW Hx. unfold signed_val. pose proof (pow2_half W HW) as Hh.
  destruct (Z.testbit x (W - 1)) eqn:E.
  - assert (2 ^ (W - 1) <= x); [| lia].
    destruct (Z.lt_ge_cases x (2 ^ (W - 1))) as [Hlt|]; [| assumption].
    destruct (Z.eq_dec x 0) as [->|]; [rewrite Z.bits_0 in E; discriminate |].
    rewrite Z.bits_above_log2 in E; [discriminate | lia |].
    apply Z.log2_lt_pow2; lia.
  - assert (x < 2 ^ (W - 1)); [| lia].
    destruct (Z.lt_ge_cases x (2 ^ (W - 1))) as [|Hge]; [assumption |].
    rewrite Z.testbit_eqb in E by lia.
    assert (x / 2 ^ (W - 1) = 1).
    { symmetry. apply Z.div_unique with (r := x - 2 ^ (W - 1)); lia. }
    rewrite H in E. discriminate.
Qed.

Lemma sign_bit_set W x :
  1 <= W -> 0 <= x < 2 ^ W -> Z.testbit x (W - 1) = (2 ^ (W - 1) <=? x).
Proof.
  intros HW Hx. pose proof (signed_val_range W x HW Hx) as H. unfold signed_val in H.
  pose proof (pow2_half W HW) as Hh.
  destruct (Z.testbit x (W - 1)); destruct (Z.leb_spec (2 ^ (W - 1)) x); lia.
Qed.

(** The pattern produced by [VL_EXTENDSIGN]: minus the sign bit. *)
Lemma neg_sign_bit w L x :
  1 <= L <= w -> 0 <= x < 2 ^ L ->
  Z.lor (wrap w (- Z.land x (wrap w (Z.shiftl 1 (L - 1))))) x = wrap w (signed_val L x).
Proof.
  intros HL Hx.
  pose proof (pow2_half L ltac:(lia)) as Hh.
  assert (Hp : 0 < 2 ^ (L - 1)) by (apply Z.pow_pos_nonneg; lia).
  assert (Hw : 2 ^ L <= 2 ^ w) by (apply Z.pow_le_mono_r; lia).
  rewrite Z.shiftl_1_l. rewrite (wrap_small w (2 ^ (L - 1))) by lia.
  assert (Hland : Z.land x (2 ^ (L - 1)) = if Z.testbit x (L - 1) then 2 ^ (L - 1) else 0).
  { apply Z.bits_inj'. intros i Hi. rewrite Z.land_spec, Z.pow2_bits_eqb by lia.
    destruct (Z.eqb_spec (L - 1) i) as [<-|Hne].
    - destruct (Z.testbit x (L - 1)); [rewrite Z.pow2_bits_true by lia | rewrite Z.bits_0];
        reflexivity.
    - rewrite andb_false_r.
      destruct (Z.testbit x (L - 1)); [rewrite Z.pow2_bits_false by lia | rewrite Z.bits_0];
        reflexivity. }
  rewrite Hland. unfold signed_val. rewrite (sign_bit_set L x) by lia.
  destruct (Z.leb_spec (2 ^ (L - 1)) x) as [Hge|Hlt].
  - assert (E1 : wrap w (- 2 ^ (L - 1)) = 2 ^ w - 2 ^ (L - 1)).
    { unfold wrap. symmetry. apply Z.mod_unique_pos with (q := -1); lia. }
    assert (E2 : wrap w (x - 2 ^ L) = x + (2 ^ w - 2 ^ L)).
    { unfold wrap. symmetry. apply Z.mod_unique_pos with (q := -1); lia. }
    rewrite E1, E2.
    replace (2 ^ w - 2 ^ (L - 1)) with (Z.shiftl (Z.ones (w - (L - 1))) (L - 1)).
    2:{ rewrite Z.shiftl_mul_pow2, Z.ones_equiv by lia. rewrite Z.mul_pred_l.
        rewrite <- Z.pow_add_r by lia. replace (w - (L - 1) + (L - 1)) with w by lia. lia. }
    replace (2 ^ w - 2 ^ L) with (Z.shiftl (Z.ones (w - L)) L).
    2:{ rewrite Z.shiftl_mul_pow2, Z.ones_equiv by lia. rewrite Z.mul_pred_l.
        rewrite <- Z.pow_add_r by lia. replace (w - L + L) with w by lia. lia. }
    assert (Hb : Z.testbit x (L - 1) = true).
    { rewrite (sign_bit_set L x) by lia. apply Z.leb_le. exact Hge. }
    assert (Hhi : forall i, L <= i -> Z.testbit x i = false).
    { intros i Hi. destruct (Z.eq_dec x 0) as [->|]; [apply Z.bits_0 |].
      apply Z.bits_above_log2; [lia |].
      apply Z.lt_le_trans with L; [apply Z.log2_lt_pow2; lia | lia]. }
    rewrite Z.add_nocarry_lxor.
    + apply Z.bits_inj'. intros i Hi.
      rewrite Z.lor_spec, Z.lxor_spec, !Z.shiftl_spec by lia.
      destruct (Z.lt_ge_cases i (L - 1)) as [H1|H1].
      * rewrite !(Z.testbit_neg_r _ (i - _)) by lia. cbn [orb]. rewrite xorb_false_r.
        reflexivity.
      * destruct (Z.eq_dec i (L - 1)) as [->|H2].
        -- rewrite Hb. rewrite (Z.testbit_neg_r _ (L - 1 - L)) by lia.
           rewrite orb_true_r. reflexivity.
        -- rewrite Hhi by lia. rewrite orb_false_r. cbn [xorb].
           rewrite !Z.testbit_ones by lia.
           destruct (Z.leb_spec 0 (i - (L - 1))), (Z.leb_spec 0 (i - L)),
             (Z.ltb_spec (i - (L - 1)) (w - (L - 1))), (Z.ltb_spec (i - L) (w - L));
             cbn [andb]; try lia; reflexivity.
    + apply Z.bits_inj'. intros i Hi. rewrite Z.land_spec, Z.bits_0.
      rewrite Z.shiftl_spec by lia.
      destruct (Z.lt_ge_cases i L) as [H1|H1].
      * rewrite (Z.testbit_neg_r _ (i - L)) by lia. apply andb_false_r.
      * rewrite Hhi by lia. reflexivity.
  - change (- 0) with 0. unfold wrap at 1. rewrite Z.mod_0_l by (apply Z.pow_nonzero; lia).
    rewrite Z.lor_0_l. symmetry. apply wrap_small. lia.
Qed.

Lemma int32_t_wrap s : - 2 ^ 31 <= s < 2 ^ 31 -> int32_t (wrap 32 s) = s.
Proof.
  intros Hs. unfold int32_t, wrap. rewrite Z.mod_mod by lia.
  change (2 ^ 31) with 2147483648 in *. change (2 ^ 32) with 4294967296 in *.
  destruct (Z.lt_ge_cases s 0).
  - replace (s mod 4294967296) with (s + 4294967296)
      by (apply Z.mod_unique_pos with (q := -1); lia).
    destruct (Z.ltb_spec (s + 4294967296) 2147483648); lia.
  - rewrite Z.mod_small by lia. destruct (Z.ltb_spec s 2147483648); lia.
Qed.

Lemma int64_t_wrap s : - 2 ^ 63 <= s < 2 ^ 63 -> int64_t (wrap 64 s) = s.
Proof.
  intros Hs. unfold int64_t, wrap. rewrite Z.mod_mod by lia.
  change (2 ^ 63) with 9223372036854775808 in *.
  change (2 ^ 64) with 18446744073709551616 in *.
  destruct (Z.lt_ge_cases s 0).
  - replace (s mod 18446744073709551616) with (s + 18446744073709551616)
      by (apply Z.mod_unique_pos with (q := -1); lia).
    destruct (Z.ltb_spec (s + 18446744073709551616) 9223372036854775808); lia.
  - rewrite Z.mod_small by lia. destruct (Z.ltb_spec s 9223372036854775808); lia.
Qed.

Lemma VL_EXTENDS_II_signed obits L x :
  1 <= L <= 32 -> 0 <= x < 2 ^ L ->
  VL_EXTENDS_II obits L x = wrap 32 (signed_val L x) /\
  int32_t (VL_EXTENDS_II obits L x) = signed_val L x.
Proof.
  intros HL Hx.
  assert (E : VL_EXTENDS_II obits L x = wrap 32 (signed_val L x)).
  { unfold VL_EXTENDS_II, VL_EXTENDSIGN_I, IData. apply neg_sign_bit; lia. }
  split; [exact E |]. rewrite E. apply int32_t_wrap.
  pose proof (signed_val_range L x ltac:(lia) Hx).
  assert (2 ^ (L - 1) <= 2 ^ 31) by (apply Z.pow_le_mono_r; lia). lia.
Qed.

Lemma VL_EXTENDS_QQ_signed obits L x :
  1 <= L <= 64 -> 0 <= x < 2 ^ L ->
  VL_EXTENDS_QQ obits L x = wrap 64 (signed_val L x) /\
  int64_t (VL_EXTENDS_QQ obits L x) = signed_val L x.
Proof.
  intros HL Hx.
  assert (E : VL_EXTENDS_QQ obits L x = wrap 64 (signed_val L x)).
  { unfold VL_EXTENDS_QQ, VL_EXTENDSIGN_Q, QData. apply neg_sign_bit; lia. }
  split; [exact E |]. rewrite E. apply int64_t_wrap.
  pose proof (signed_val_range L x ltac:(lia) Hx).
  assert (2 ^ (L - 1) <= 2 ^ 63) by (apply Z.pow_le_mono_r; lia). lia.
Qed.

(** ** Bits of a wide value; comparisons and reductions *)

Lemma wide_val_testbit n i (wp : WData) b :
  (forall k, i <= k < i + Z.of_nat n -> 0 <= word wp k < 2 ^ 32) ->
  0 <= b < 32 * Z.of_nat n ->
  Z.testbit (wide_val n i wp) b = Z.testbit (word wp (i + b / 32)) (b mod 32).
Proof.
  revert i b. induction n as [|n IH]; intros i b Hr Hb; [lia |].
  cbn [wide_val]. pose proof (Hr i ltac:(lia)) as Hi.
  destruct (Z.lt_ge_cases b 32) as [Hlt|Hge].
  - rewrite Z.div_small, Z.mod_small, Z.add_0_r by lia.
    rewrite <- (Z.mod_pow2_bits_low _ 32 b) by lia.
    rewrite Z.mul_comm, Z.mod_add by lia. rewrite Z.mod_small by lia. reflexivity.
  - replace b with ((b - 32) + 32) at 1 by lia.
    rewrite <- Z.div_pow2_bits by lia.
    rewrite Z.mul_comm, Z.div_add by lia. rewrite Z.div_small, Z.add_0_l by lia.
    rewrite IH; [| intros k Hk; apply Hr; lia | lia].
    replace b with ((b - 32) + 1 * 32) at 3 4 by lia.
    rewrite Z.div_add, Z.mod_add by lia. f_equal. f_equal. lia.
Qed.

Lemma wide_val_testbit_high n i (wp : WData) b :
  (forall k, i <= k < i + Z.of_nat n -> 0 <= word wp k < 2 ^ 32) ->
  32 * Z.of_nat n <= b ->
  Z.testbit (wide_val n i wp) b = false.
Proof.
  intros Hr Hb. pose proof (wide_val_range n i wp Hr) as Hv.
  destruct (Z.eq_dec (wide_val n i wp) 0) as [->|Hne]; [apply Z.bits_0 |].
  apply Z.bits_above_log2; [lia |].
  apply Z.lt_le_trans with (32 * Z.of_nat n); [apply Z.log2_lt_pow2; lia | lia].
Qed.

(** A clean buffer holds a value below 2^W. *)
Lemma wide_val_clean_range W (wp : WData) :
  1 <= W ->
  (forall k, 0 <= k < VL_WORDS_I W -> 0 <= word wp k < 2 ^ 32) ->
  wide_clean W wp = true ->
  0 <= wide_val (Z.to_nat (VL_WORDS_I W)) 0 wp < 2 ^ W.
Proof.
  intros HW Hr Hc. pose proof (top_bits_range W HW) as Ht.
  pose proof (wide_clean_range W wp HW Hc) as Htop.
  set (n := VL_WORDS_I W) in *. set (t := W - 32 * (n - 1)) in *.
  replace (Z.to_nat n) with (Datatypes.S (Z.to_nat (n - 1))) by lia.
  rewrite wide_val_snoc. replace (0 + Z.of_nat (Z.to_nat (n - 1))) with (n - 1) by lia.
  pose proof (wide_val_range (Z.to_nat (n - 1)) 0 wp ltac:(intros k Hk; apply Hr; lia)) as Hlow.
  replace (2 ^ W) with (2 ^ (32 * Z.of_nat (Z.to_nat (n - 1))) * 2 ^ t)
    by (rewrite <- Z.pow_add_r by lia; f_equal; lia).
  set (X := 2 ^ (32 * Z.of_nat (Z.to_nat (n - 1)))) in *.
  set (T := 2 ^ t) in *. nia.
Qed.

Lemma _vl_cmp_w_loop_val n (lwp rwp : WData) :
  (forall k, 0 <= k < Z.of_nat n -> 0 <= word lwp k < 2 ^ 32) ->
  (forall k, 0 <= k < Z.of_nat n -> 0 <= word rwp k < 2 ^ 32) ->
  _vl_cmp_w_loop n lwp rwp = cmp3 (wide_val n 0 lwp) (wide_val n 0 rwp).
Proof.
  induction n as [|n IH]; intros Hl Hr; [reflexivity |].
  cbn [_vl_cmp_w_loop]. cbv zeta. rewrite !wide_val_snoc. rewrite !Z.add_0_l.
  pose proof (Hl (Z.of_nat n) ltac:(lia)) as Hln. pose proof (Hr (Z.of_nat n) ltac:(lia)) as Hrn.
  pose proof (wide_val_range n 0 lwp ltac:(intros k Hk; apply Hl; lia)) as Hlv.
  pose proof (wide_val_range n 0 rwp ltac:(intros k Hk; apply Hr; lia)) as Hrv.
  set (X := 2 ^ (32 * Z.of_nat n)) in *.
  set (a := word lwp (Z.of_nat n)) in *. set (b := word rwp (Z.of_nat n)) in *.
  unfold cmp3 at 1.
  destruct (Z.gtb_spec a b) as [Hgt|Hle].
  - assert (H : wide_val n 0 lwp + X * a > wide_val n 0 rwp + X * b) by nia.
    unfold cmp3. rewrite (proj2 (Z.compare_gt_iff _ _)) by lia. reflexivity.
  - destruct (Z.ltb_spec a b) as [Hlt|Hge].
    + assert (H : wide_val n 0 lwp + X * a < wide_val n 0 rwp + X * b) by nia.
      unfold cmp3. rewrite (proj2 (Z.compare_lt_iff _ _)) by lia. reflexivity.
    + assert (a = b) by lia. rewrite IH by (intros; (apply Hl || apply Hr); lia).
      unfold cmp3. replace b with a by assumption.
      rewrite (Z.add_comm (wide_val n 0 lwp)), (Z.add_comm (wide_val n 0 rwp)).
      rewrite Z.add_compare_mono_l. reflexivity.
Qed.

Lemma testbit_above x n i : 0 <= x < 2 ^ n -> n <= i -> Z.testbit x i = false.
Proof.
  intros Hx Hi. destruct (Z.eq_dec x 0) as [->|Hne]; [apply Z.bits_0 |].
  assert (0 <= n).
  { destruct (Z.lt_ge_cases n 0); [| assumption]. rewrite Z.pow_neg_r in Hx by lia. lia. }
  apply Z.bits_above_log2; [lia |].
  apply Z.lt_le_trans with n; [apply Z.log2_lt_pow2; lia | lia].
Qed.

Lemma for_loop_lor_zero (f : Z -> Z) lo hi :
  lo <= hi ->
  (for_loop lo hi (fun i acc => Z.lor acc (f i)) 0 = 0 <-> forall k, lo <= k < hi -> f k = 0).
Proof.
  intros Hle.
  apply (for_loop_ind (fun j acc => acc = 0 <-> forall k, lo <= k < j -> f k = 0));
    [exact Hle | |].
  - split; [intros _ k Hk; lia | reflexivity].
  - intros j acc Hj IH. rewrite Z.lor_eq_0_iff, IH. split.
    + intros [H1 H2] k Hk. destruct (Z.eq_dec k j) as [->|]; [exact H2 | apply H1; lia].
    + intros H. split; [intros k Hk; apply H; lia | apply H; lia].
Qed.

Lemma wide_val_eq_iff n (a b : WData) :
  (forall k, 0 <= k < Z.of_nat n -> 0 <= word a k < 2 ^ 32) ->
  (forall k, 0 <= k < Z.of_nat n -> 0 <= word b k < 2 ^ 32) ->
  wide_val n 0 a = wide_val n 0 b <-> forall k, 0 <= k < Z.of_nat n -> word a k = word b k.
Proof.
  intros Ha Hb. split.
  - intros H k Hk. apply (wide_val_inj n 0 a b); [intros; apply Ha; lia
                                                  | intros; apply Hb; lia | exact H | lia].
  - intros H. apply wide_val_ext. intros k Hk. apply H. lia.
Qed.

Lemma VL_EQ_W_val words (lwp rwp : WData) :
  0 <= words ->
  (forall k, 0 <= k < words -> 0 <= word lwp k < 2 ^ 32) ->
  (forall k, 0 <= k < words -> 0 <= word rwp k < 2 ^ 32) ->
  VL_EQ_W words lwp rwp
  = if wide_val (Z.to_nat words) 0 lwp =? wide_val (Z.to_nat words) 0 rwp then 1 else 0.
Proof.
  intros Hw Hl Hr. unfold VL_EQ_W. cbv zeta.
  pose proof (for_loop_lor_zero (fun i => Z.lxor (word lwp i) (word rwp i)) 0 words Hw) as Hz.
  cbv beta in Hz.
  pose proof (wide_val_eq_iff (Z.to_nat words) lwp rwp
                ltac:(intros k Hk; apply Hl; lia) ltac:(intros k Hk; apply Hr; lia)) as Hv.
  destruct (Z.eqb_spec (for_loop 0 words
                          (fun i nequal => Z.lor nequal (Z.lxor (word lwp i) (word rwp i))) 0) 0)
    as [E|E];
    destruct (Z.eqb_spec (wide_val (Z.to_nat words) 0 lwp) (wide_val (Z.to_nat words) 0 rwp))
    as [E'|E']; try reflexivity.
  - exfalso. apply E'. apply Hv. intros k Hk. apply Z.lxor_eq_0_iff.
    apply (proj1 Hz E). lia.
  - exfalso. apply E. apply Hz. intros k Hk. apply Z.lxor_eq_0_iff.
    apply (proj1 Hv E'). lia.
Qed.

Lemma VL_REDOR_W_val words (lwp : WData) :
  0 <= words ->
  (forall k, 0 <= k < words -> 0 <= word lwp k < 2 ^ 32) ->
  VL_REDOR_W words lwp = if wide_val (Z.to_nat words) 0 lwp =? 0 then 0 else 1.
Proof.
  intros Hw Hl. unfold VL_REDOR_W. cbv zeta.
  pose proof (for_loop_lor_zero (fun i => word lwp i) 0 words Hw) as Hz. cbv beta in Hz.
  assert (Hv : wide_val (Z.to_nat words) 0 lwp = 0 <-> forall k, 0 <= k < words -> word lwp k = 0).
  { split.
    - intros H k Hk.
      assert (E : wide_val (Z.to_nat words) 0 lwp = wide_val (Z.to_nat words) 0 ∅).
      { rewrite H. symmetry. apply wide_val_zero. intros; reflexivity. }
      rewrite (wide_val_inj (Z.to_nat words) 0 lwp ∅); [reflexivity | | | exact E | lia].
      + intros j Hj. apply Hl. lia.
      + intros j Hj. unfold word. rewrite lookup_empty. simpl. lia.
    - intros H. apply wide_val_zero. intros k Hk. apply H. lia. }
  destruct (Z.eqb_spec (for_loop 0 words (fun i equal => Z.lor equal (word lwp i)) 0) 0) as [E|E];
    destruct (Z.eqb_spec (wide_val (Z.to_nat words) 0 lwp) 0) as [E'|E']; try reflexivity.
  - exfalso. apply E'. apply Hv. apply Hz. exact E.
  - exfalso. apply E. apply Hz. apply Hv. exact E'.
Qed.

Lemma _vl_cmp_w_val words (lwp rwp : WData) :
  0 <= words ->
  (forall k, 0 <= k < words -> 0 <= word lwp k < 2 ^ 32) ->
  (forall k, 0 <= k < words -> 0 <= word rwp k < 2 ^ 32) ->
  _vl_cmp_w words lwp rwp
  = cmp3 (wide_val (Z.to_nat words) 0 lwp) (wide_val (Z.to_nat words) 0 rwp).
Proof.
  intros Hw Hl Hr. unfold _vl_cmp_w. replace (words - 1 + 1) with words by lia.
  apply _vl_cmp_w_loop_val; intros k Hk; [apply Hl | apply Hr]; lia.
Qed.

Lemma sign_of_val W (wp : WData) :
  1 <= W ->
  (forall k, 0 <= k < VL_WORDS_I W -> 0 <= word wp k < 2 ^ 32) ->
  wide_clean W wp = true ->
  VL_SIGN_E W (word wp (VL_WORDS_I W - 1))
  = if Z.testbit (wide_val (Z.to_nat (VL_WORDS_I W)) 0 wp) (W - 1) then 1 else 0.
Proof.
  intros HW Hr Hc. rewrite VL_SIGN_E_of_val by assumption.
  pose proof (wide_val_clean_range W wp HW Hr Hc) as Hv.
  rewrite <- Z.shiftr_div_pow2 by lia. rewrite sign_of_clean by assumption.
  destruct (Z.testbit _ (W - 1)); reflexivity.
Qed.

Lemma _vl_cmps_w_val W (lwp rwp : WData) :
  1 <= W ->
  (forall k, 0 <= k < VL_WORDS_I W -> 0 <= word lwp k < 2 ^ 32) ->
  (forall k, 0 <= k < VL_WORDS_I W -> 0 <= word rwp k < 2 ^ 32) ->
  wide_clean W lwp = true -> wide_clean W rwp = true ->
  _vl_cmps_w W lwp rwp
  = cmp3 (signed_val W (wide_val (Z.to_nat (VL_WORDS_I W)) 0 lwp))
         (signed_val W (wide_val (Z.to_nat (VL_WORDS_I W)) 0 rwp)).
Proof.
  intros HW Hl Hr Hcl Hcr. pose proof (top_bits_range W HW) as Ht.
  unfold _vl_cmps_w. cbv zeta.
  rewrite !sign_of_val by assumption.
  replace (VL_WORDS_I W - 1 + 1) with (VL_WORDS_I W) by lia.
  rewrite _vl_cmp_w_loop_val by (intros k Hk; (apply Hl || apply Hr); lia).
  pose proof (wide_val_clean_range W lwp HW Hl Hcl) as Hlv.
  pose proof (wide_val_clean_range W rwp HW Hr Hcr) as Hrv.
  set (a := wide_val _ 0 lwp) in *. set (b := wide_val _ 0 rwp) in *.
  pose proof (pow2_half W HW) as Hh.
  unfold signed_val. rewrite !(sign_bit_set W) by assumption.
  unfold cmp3.
  destruct (Z.leb_spec (2 ^ (W - 1)) a), (Z.leb_spec (2 ^ (W - 1)) b);
    cbn [Z.eqb negb andb].
  - replace (a - 2 ^ W ?= b - 2 ^ W) with (a ?= b); [reflexivity |].
    rewrite <- !Z.add_opp_r. rewrite (Z.add_comm a), (Z.add_comm b).
    rewrite Z.add_compare_mono_l. reflexivity.
  - rewrite (proj2 (Z.compare_lt_iff (a - 2 ^ W) b)) by lia. reflexivity.
  - rewrite (proj2 (Z.compare_gt_iff a (b - 2 ^ W))) by lia. reflexivity.
  - reflexivity.
Qed.

Lemma wide_val_all_ones n i (wp : WData) :
  (forall k, i <= k < i + Z.of_nat n -> word wp k = 2 ^ 32 - 1) ->
  wide_val n i wp = 2 ^ (32 * Z.of_nat n) - 1.
Proof.
  revert i. induction n as [|n IH]; intros i H; [reflexivity |].
  cbn [wide_val]. rewrite H by lia. rewrite IH by (intros k Hk; apply H; lia).
  replace (32 * Z.of_nat (Datatypes.S n)) with (32 + 32 * Z.of_nat n) by lia.
  rewrite Z.pow_add_r by lia. lia.
Qed.

Lemma VL_ALLONES_W_words W (owp : WData) k :
  1 <= W -> 0 <= k < VL_WORDS_I W ->
  word (VL_ALLONES_W W owp) k
  = if k =? VL_WORDS_I W - 1 then 2 ^ (W - 32 * (VL_WORDS_I W - 1)) - 1 else 2 ^ 32 - 1.
Proof.
  intros HW Hk. pose proof (top_bits_range W HW) as Ht.
  unfold VL_ALLONES_W, VL_MEMSET_ONES_W. cbv zeta.
  destruct (Z.eqb_spec k (VL_WORDS_I W - 1)) as [->|Hne].
  - rewrite word_insert_eq. rewrite VL_MASK_E_top by lia. apply Z.ones_equiv.
  - rewrite word_insert_ne by lia. rewrite word_for_loop_store.
    destruct (Z.leb_spec 0 k), (Z.ltb_spec k (VL_WORDS_I W - 1)); cbn [andb]; lia.
Qed.

Lemma VL_ALLONES_W_val W (owp : WData) :
  1 <= W ->
  (forall k, 0 <= k < VL_WORDS_I W -> 0 <= word (VL_ALLONES_W W owp) k < 2 ^ 32) /\
  wide_clean W (VL_ALLONES_W W owp) = true /\
  wide_val (Z.to_nat (VL_WORDS_I W)) 0 (VL_ALLONES_W W owp) = 2 ^ W - 1.
Proof.
  intros HW. pose proof (top_bits_range W HW) as Ht.
  set (n := VL_WORDS_I W) in *. set (t := W - 32 * (n - 1)) in *.
  assert (Htp : 0 < 2 ^ t <= 2 ^ 32).
  { split; [apply Z.pow_pos_nonneg; lia | apply Z.pow_le_mono_r; lia]. }
  split; [| split].
  - intros k Hk. rewrite VL_ALLONES_W_words by (fold n; lia). fold n. fold t.
    destruct (k =? n - 1); lia.
  - unfold wide_clean. cbv zeta. fold n.
    rewrite VL_ALLONES_W_words by (fold n; lia). fold n. fold t.
    rewrite Z.eqb_refl. rewrite VL_MASK_E_top by lia. fold n. fold t.
    replace (2 ^ t - 1) with (Z.ones t) by (rewrite Z.ones_equiv; lia).
    rewrite Z.land_diag. apply Z.eqb_refl.
  - replace (Z.to_nat n) with (Datatypes.S (Z.to_nat (n - 1))) by lia.
    rewrite wide_val_snoc. replace (0 + Z.of_nat (Z.to_nat (n - 1))) with (n - 1) by lia.
    rewrite wide_val_all_ones.
    2:{ intros k Hk. rewrite VL_ALLONES_W_words by (fold n; lia). fold n.
        destruct (Z.eqb_spec k (n - 1)); [lia | reflexivity]. }
    rewrite VL_ALLONES_W_words by (fold n; lia). fold n. fold t. rewrite Z.eqb_refl.
    replace (2 ^ W) with (2 ^ (32 * Z.of_nat (Z.to_nat (n - 1))) * 2 ^ t)
      by (rewrite <- Z.pow_add_r by lia; f_equal; lia).
    lia.
Qed.

Lemma land_all_ones a b :
  0 <= a < 2 ^ 32 -> 0 <= b < 2 ^ 32 ->
  Z.land a b = Z.ones 32 <-> a = Z.ones 32 /\ b = Z.ones 32.
Proof.
  intros Ha Hb. split.
  - intros H.
    assert (Hbits : forall i, 0 <= i < 32 -> Z.testbit a i = true /\ Z.testbit b i = true).
    { intros i Hi. apply andb_true_iff. rewrite <- Z.land_spec, H.
      apply Z.ones_spec_low. lia. }
    split; apply Z.bits_inj'; intros i Hi; destruct (Z.lt_ge_cases i 32).
    + rewrite Z.ones_spec_low by lia. apply Hbits. lia.
    + rewrite Z.ones_spec_high by lia. apply (testbit_above a 32); lia.
    + rewrite Z.ones_spec_low by lia. apply Hbits. lia.
    + rewrite Z.ones_spec_high by lia. apply (testbit_above b 32); lia.
  - intros [-> ->]. apply Z.land_diag.
Qed.

Lemma for_loop_land_ones (f : Z -> Z) lo hi c :
  lo <= hi -> 0 <= c < 2 ^ 32 -> (forall k, lo <= k < hi -> 0 <= f k < 2 ^ 32) ->
  0 <= for_loop lo hi (fun i acc => Z.land acc (f i)) c < 2 ^ 32 /\
  (for_loop lo hi (fun i acc => Z.land acc (f i)) c = Z.ones 32
   <-> c = Z.ones 32 /\ forall k, lo <= k < hi -> f k = Z.ones 32).
Proof.
  intros Hle Hc Hf.
  apply (for_loop_ind (fun j acc => 0 <= acc < 2 ^ 32 /\
                                    (acc = Z.ones 32 <->
                                     c = Z.ones 32 /\ forall k, lo <= k < j -> f k = Z.ones 32)));
    [exact Hle | |].
  - split; [exact Hc |]. split; [intros H; split; [exact H | intros; lia] | intros [H _]; exact H].
  - intros j acc Hj [Hr IH]. pose proof (Hf j Hj) as Hfj. split.
    + split; [apply Z.land_nonneg; lia |].
      apply Z.le_lt_trans with acc; [| lia].
      rewrite <- (Z.land_ones_low acc 33) at 2.
      2: lia. 2:{ destruct (Z.eq_dec acc 0) as [->|]; [simpl; lia |].
                  apply Z.lt_trans with 32; [apply Z.log2_lt_pow2; lia | lia]. }
      rewrite Z.land_ones by lia.
      assert (Z.land acc (f j) <= acc); [| rewrite Z.mod_small by lia; assumption].
      pose proof (Z.add_lor_land acc (f j)).
      assert (f j <= Z.lor acc (f j)); [| lia].
      clear -Hfj Hr. rewrite Z.lor_comm.
      pose proof (Z.add_lor_land (f j) (Z.ldiff acc (f j))) as H.
      assert (E : Z.land (f j) (Z.ldiff acc (f j)) = 0).
      { apply Z.bits_inj'. intros i Hi.
        rewrite Z.land_spec, Z.ldiff_spec, Z.bits_0. destruct (Z.testbit (f j) i); simpl;
          [apply andb_false_r | reflexivity]. }
      assert (E2 : Z.lor (f j) (Z.ldiff acc (f j)) = Z.lor (f j) acc).
      { apply Z.bits_inj'. intros i Hi.
        rewrite !Z.lor_spec, Z.ldiff_spec. destruct (Z.testbit (f j) i), (Z.testbit acc i);
          reflexivity. }
      rewrite E, E2 in H. assert (0 <= Z.ldiff acc (f j)) by (apply Z.ldiff_nonneg; lia). lia.
    + rewrite land_all_ones by lia. rewrite IH. split.
      * intros [[H1 H2] H3]. split; [exact H1 |]. intros k Hk.
        destruct (Z.eq_dec k j) as [->|]; [exact H3 | apply H2; lia].
      * intros [H1 H2]. split; [split; [exact H1 | intros k Hk; apply H2; lia] | apply H2; lia].
Qed.

Lemma lor_bnot_mask_ones t top :
  1 <= t <= 32 -> 0 <= top < 2 ^ t ->
  Z.lor (bnot 32 (Z.ones t)) top = Z.ones 32 <-> top = Z.ones t.
Proof.
  intros Ht Htop. rewrite bnot_land by lia. split.
  - intros H. apply Z.bits_inj'. intros i Hi.
    destruct (Z.lt_ge_cases i t).
    + rewrite Z.ones_spec_low by lia.
      assert (E : Z.testbit (Z.lor (Z.land (Z.lnot (Z.ones t)) (Z.ones 32)) top) i = true).
      { rewrite H. apply Z.ones_spec_low. lia. }
      rewrite Z.lor_spec, Z.land_spec, Z.lnot_spec, Z.ones_spec_low in E by lia.
      exact E.
    + rewrite Z.ones_spec_high by lia. apply (testbit_above top t); lia.
  - intros ->. apply Z.bits_inj'. intros i Hi.
    rewrite Z.lor_spec, Z.land_spec, Z.lnot_spec by lia.
    destruct (Z.lt_ge_cases i t); destruct (Z.lt_ge_cases i 32);
      repeat ((rewrite Z.ones_spec_low by lia) || (rewrite Z.ones_spec_high by lia));
      try reflexivity; lia.
Qed.

Lemma VL_REDAND_IW_val W (lwp : WData) :
  32 < W ->
  (forall k, 0 <= k < VL_WORDS_I W -> 0 <= word lwp k < 2 ^ 32) ->
  wide_clean W lwp = true ->
  VL_REDAND_IW W lwp
  = if wide_val (Z.to_nat (VL_WORDS_I W)) 0 lwp =? 2 ^ W - 1 then 1 else 0.
Proof.
  intros HW Hr Hc. pose proof (top_bits_range W ltac:(lia)) as Ht.
  pose proof (wide_clean_range W lwp ltac:(lia) Hc) as Htop.
  assert (Hn : 2 <= VL_WORDS_I W).
  { rewrite VL_WORDS_I_div by lia.
    replace (W + 31) with ((W - 33) + 2 * 32) by lia. rewrite Z.div_add by lia.
    pose proof (Z.div_pos (W - 33) 32 ltac:(lia) ltac:(lia)). lia. }
  unfold VL_REDAND_IW. cbv zeta. rewrite VL_MASK_E_top by lia.
  set (n := VL_WORDS_I W) in *. set (t := W - 32 * (n - 1)) in *.
  destruct (for_loop_land_ones (fun i => word lwp i) 1 (n - 1) (word lwp 0)
              ltac:(lia) ltac:(apply Hr; lia) ltac:(intros k Hk; apply Hr; lia)) as [Hc1 Hc1'].
  cbv beta in Hc1, Hc1'.
  set (c1 := for_loop 1 (n - 1) (fun i combine => Z.land combine (word lwp i)) (word lwp 0)) in *.
  set (m := Z.lor (bnot 32 (Z.ones t)) (word lwp (n - 1))).
  assert (Hm : 0 <= m < 2 ^ 32).
  { unfold m. rewrite bnot_land by lia. rewrite <- (Z.land_ones_low (word lwp (n - 1)) 32).
    2: lia. 2:{ destruct (Z.eq_dec (word lwp (n - 1)) 0) as [->|]; [simpl; lia |].
                apply Z.log2_lt_pow2; [lia |].
                assert (2 ^ t <= 2 ^ 32) by (apply Z.pow_le_mono_r; lia). lia. }
    rewrite <- Z.land_lor_distr_l. rewrite Z.land_ones by lia.
    apply Z.mod_pos_bound. lia. }
  assert (Hc2 : 0 <= Z.land c1 m < 2 ^ 32).
  { split; [apply Z.land_nonneg; lia |].
    destruct (Z.eq_dec (Z.land c1 m) 0) as [->|Hne]; [lia |].
    assert (0 <= Z.land c1 m) by (apply Z.land_nonneg; lia).
    apply Z.log2_lt_pow2; [lia |].
    pose proof (Z.log2_land c1 m ltac:(lia) ltac:(lia)).
    destruct (Z.eq_dec c1 0) as [E0|]; [rewrite E0, Z.land_0_l in Hne; lia |].
    assert (Z.log2 c1 < 32) by (apply Z.log2_lt_pow2; lia). lia. }
  pose proof (VL_ALLONES_W_val W ∅ ltac:(lia)) as (Har & _ & Hav).
  pose proof (wide_val_eq_iff (Z.to_nat (VL_WORDS_I W)) lwp (VL_ALLONES_W W ∅)
                ltac:(intros k Hk; apply Hr; lia) ltac:(intros k Hk; apply Har; lia)) as Hiff.
  rewrite Hav in Hiff. fold n in Hiff.
  assert (Hwords : (forall k, 0 <= k < Z.of_nat (Z.to_nat n) ->
                       word lwp k = word (VL_ALLONES_W W ∅) k)
                   <-> (word lwp 0 = Z.ones 32 /\
                        forall k, 1 <= k < n - 1 -> word lwp k = Z.ones 32)
                       /\ word lwp (n - 1) = Z.ones t).
  { split.
    - intros H. split; [split |].
      + rewrite H by lia. rewrite VL_ALLONES_W_words by (fold n; lia). fold n.
        destruct (Z.eqb_spec 0 (n - 1)); [lia | reflexivity].
      + intros k Hk. rewrite H by lia. rewrite VL_ALLONES_W_words by (fold n; lia). fold n.
        destruct (Z.eqb_spec k (n - 1)); [lia | reflexivity].
      + rewrite H by lia. rewrite VL_ALLONES_W_words by (fold n; lia). fold n. fold t.
        rewrite Z.eqb_refl. rewrite Z.ones_equiv. lia.
    - intros [[H0 Hk] Htp] k Hkr. rewrite VL_ALLONES_W_words by (fold n; lia). fold n. fold t.
      destruct (Z.eqb_spec k (n - 1)) as [->|Hne].
      + rewrite Htp, Z.ones_equiv. lia.
      + destruct (Z.eq_dec k 0) as [->|]; [exact H0 | apply Hk; lia]. }
  assert (Hall : bnot 32 (Z.land c1 m) = 0
                 <-> wide_val (Z.to_nat n) 0 lwp = 2 ^ W - 1).
  { rewrite bnot32_word by exact Hc2. rewrite Hiff, Hwords.
    rewrite <- Hc1'. rewrite <- (lor_bnot_mask_ones t) by lia. fold m.
    rewrite <- land_all_ones by lia. rewrite Z.ones_equiv. lia. }
  destruct (Z.eqb_spec (bnot 32 (Z.land c1 m)) 0) as [E|E];
    destruct (Z.eqb_spec (wide_val (Z.to_nat n) 0 lwp) (2 ^ W - 1)) as [E'|E'];
    try reflexivity; exfalso; tauto.
Qed.

Lemma land_word_range a b :
  0 <= a < 2 ^ 32 -> 0 <= b < 2 ^ 32 -> 0 <= Z.land a b < 2 ^ 32.
Proof.
  intros Ha Hb. rewrite <- (Z.land_ones_low a 32).
  2: lia. 2:{ destruct (Z.eq_dec a 0) as [->|]; [simpl; lia | apply Z.log2_lt_pow2; lia]. }
  rewrite <- Z.land_assoc, (Z.land_comm (Z.ones 32)), Z.land_assoc.
  rewrite Z.land_ones by lia. apply Z.mod_pos_bound. lia.
Qed.

Lemma lor_word_range a b :
  0 <= a < 2 ^ 32 -> 0 <= b < 2 ^ 32 -> 0 <= Z.lor a b < 2 ^ 32.
Proof.
  intros Ha Hb.
  rewrite <- (Z.land_ones_low a 32), <- (Z.land_ones_low b 32).
  2: lia. 2:{ destruct (Z.eq_dec b 0) as [->|]; [simpl; lia | apply Z.log2_lt_pow2; lia]. }
  2: lia. 2:{ destruct (Z.eq_dec a 0) as [->|]; [simpl; lia | apply Z.log2_lt_pow2; lia]. }
  rewrite <- Z.land_lor_distr_l. rewrite Z.land_ones by lia. apply Z.mod_pos_bound. lia.
Qed.

Lemma lxor_word_range a b :
  0 <= a < 2 ^ 32 -> 0 <= b < 2 ^ 32 -> 0 <= Z.lxor a b < 2 ^ 32.
Proof.
  intros Ha Hb. split; [apply Z.lxor_nonneg; lia |].
  assert (H0 : 0 <= Z.lxor a b) by (apply Z.lxor_nonneg; lia).
  destruct (Z.eq_dec (Z.lxor a b) 0) as [->|Hne]; [lia |].
  apply Z.log2_lt_pow2; [lia |].
  pose proof (Z.log2_lxor a b ltac:(lia) ltac:(lia)) as H.
  assert (Z.log2 a < 32).
  { destruct (Z.eq_dec a 0) as [->|]; [simpl; lia | apply Z.log2_lt_pow2; lia]. }
  assert (Z.log2 b < 32).
  { destruct (Z.eq_dec b 0) as [->|]; [simpl; lia | apply Z.log2_lt_pow2; lia]. }
  lia.
Qed.

(** A word-by-word bitwise operator acts bit by bit on the values. *)
Lemma wide_val_bitwise (op : Z -> Z -> Z) (bop : bool -> bool -> bool) words
      (owp lwp rwp : WData) :
  (forall a b i, 0 <= i -> Z.testbit (op a b) i = bop (Z.testbit a i) (Z.testbit b i)) ->
  bop false false = false ->
  (forall a b, 0 <= a < 2 ^ 32 -> 0 <= b < 2 ^ 32 -> 0 <= op a b < 2 ^ 32) ->
  0 <= words ->
  (forall k, 0 <= k < words -> 0 <= word lwp k < 2 ^ 32) ->
  (forall k, 0 <= k < words -> 0 <= word rwp k < 2 ^ 32) ->
  wide_val (Z.to_nat words) 0
    (for_loop 0 words (fun i o => <[i := op (word lwp i) (word rwp i)]> o) owp)
  = op (wide_val (Z.to_nat words) 0 lwp) (wide_val (Z.to_nat words) 0 rwp).
Proof.
  intros Hop Hff Hrange Hw Hl Hr.
  set (out := for_loop 0 words _ owp).
  assert (Hout : forall k, 0 <= k < words -> word out k = op (word lwp k) (word rwp k)).
  { intros k Hk. unfold out.
    rewrite (word_for_loop_store (fun i => op (word lwp i) (word rwp i))).
    destruct (Z.leb_spec 0 k), (Z.ltb_spec k words); cbn [andb]; lia. }
  assert (Hor : forall k, 0 <= k < 0 + Z.of_nat (Z.to_nat words) -> 0 <= word out k < 2 ^ 32).
  { intros k Hk. rewrite Hout by lia. apply Hrange; [apply Hl | apply Hr]; lia. }
  apply Z.bits_inj'. intros i Hi. rewrite Hop by lia.
  destruct (Z.lt_ge_cases i (32 * Z.of_nat (Z.to_nat words))) as [Hlt|Hge].
  - rewrite !wide_val_testbit; try lia; try (intros k Hk; (apply Hl || apply Hr); lia).
    2: exact Hor.
    rewrite Hout. 2:{ pose proof (Z.div_pos i 32 ltac:(lia) ltac:(lia)).
                      assert (i / 32 < words) by (apply Z.div_lt_upper_bound; lia). lia. }
    apply Hop. apply Z.mod_pos_bound. lia.
  - rewrite !wide_val_testbit_high; try lia; try (intros k Hk; (apply Hl || apply Hr); lia).
    + symmetry. exact Hff.
    + exact Hor.
Qed.

Lemma VL_NOT_W_val words (owp lwp : WData) :
  0 <= words ->
  (forall k, 0 <= k < words -> 0 <= word lwp k < 2 ^ 32) ->
  wide_val (Z.to_nat words) 0 (VL_NOT_W words owp lwp)
  = 2 ^ (32 * words) - 1 - wide_val (Z.to_nat words) 0 lwp.
Proof.
  intros Hw Hl. unfold VL_NOT_W.
  set (out := for_loop 0 words _ owp).
  assert (Hout : forall k, 0 <= k < words -> word out k = 2 ^ 32 - 1 - word lwp k).
  { intros k Hk. unfold out. rewrite (word_for_loop_store (fun i => bnot 32 (word lwp i))).
    destruct (Z.leb_spec 0 k), (Z.ltb_spec k words); cbn [andb]; try lia.
    apply bnot32_word. apply Hl. lia. }
  assert (G : forall n i,
              (forall k, i <= k < i + Z.of_nat n -> word out k = 2 ^ 32 - 1 - word lwp k) ->
              wide_val n i out = 2 ^ (32 * Z.of_nat n) - 1 - wide_val n i lwp).
  { induction n as [|n IH]; intros i H; [reflexivity |].
    cbn [wide_val]. rewrite H by lia. rewrite IH by (intros k Hk; apply H; lia).
    replace (32 * Z.of_nat (Datatypes.S n)) with (32 + 32 * Z.of_nat n) by lia.
    rewrite Z.pow_add_r by lia. lia. }
  rewrite G by (intros k Hk; apply Hout; lia).
  replace (Z.of_nat (Z.to_nat words)) with words by lia. reflexivity.
Qed.

(** ** Extension *)

Lemma wide_val_app n m i (wp : WData) :
  wide_val (n + m) i wp
  = wide_val n i wp + 2 ^ (32 * Z.of_nat n) * wide_val m (i + Z.of_nat n) wp.
Proof.
  revert i. induction n as [|n IH]; intros i.
  - cbn [wide_val Nat.add]. replace (i + Z.of_nat 0) with i by lia.
    change (2 ^ (32 * Z.of_nat 0)) with 1. lia.
  - cbn [wide_val Nat.add]. rewrite IH.
    replace (i + 1 + Z.of_nat n) with (i + Z.of_nat (Datatypes.S n)) by lia.
    replace (32 * Z.of_nat (Datatypes.S n)) with (32 + 32 * Z.of_nat n) by lia.
    rewrite Z.pow_add_r by lia. lia.
Qed.

Lemma wide_val_split n k (wp : WData) :
  0 <= k <= n ->
  wide_val (Z.to_nat n) 0 wp
  = wide_val (Z.to_nat k) 0 wp + 2 ^ (32 * k) * wide_val (Z.to_nat (n - k)) k wp.
Proof.
  intros Hk. replace (Z.to_nat n) with (Z.to_nat k + Z.to_nat (n - k))%nat by lia.
  rewrite wide_val_app. replace (Z.of_nat (Z.to_nat k)) with k by lia.
  rewrite Z.add_0_l. reflexivity.
Qed.

Lemma word_MEMCPY_W (owp iwp : WData) words j :
  word (VL_MEMCPY_W owp iwp words) j
  = if (0 <=? j) && (j <? words) then word iwp j else word owp j.
Proof. unfold VL_MEMCPY_W. apply (word_for_loop_store (fun i => word iwp i)). Qed.

Lemma word_MEMSET_ZERO_W_at (owp : WData) off words j :
  word (VL_MEMSET_ZERO_W_at owp off words) j
  = if (off <=? j) && (j <? off + words) then 0 else word owp j.
Proof. unfold VL_MEMSET_ZERO_W_at. apply (word_for_loop_store (fun _ => 0)). Qed.

Lemma word_MEMSET_ONES_W_at (owp : WData) off words j :
  word (VL_MEMSET_ONES_W_at owp off words) j
  = if (off <=? j) && (j <? off + words) then 0xffffffff else word owp j.
Proof. unfold VL_MEMSET_ONES_W_at. apply (word_for_loop_store (fun _ => 0xffffffff)). Qed.

Lemma VL_EXTEND_WW_val obits lbits (owp lwp : WData) :
  1 <= lbits <= obits ->
  (forall k, 0 <= k < VL_WORDS_I obits ->
     word (VL_EXTEND_WW obits lbits owp lwp) k
     = if k <? VL_WORDS_I lbits then word lwp k else 0) /\
  wide_val (Z.to_nat (VL_WORDS_I obits)) 0 (VL_EXTEND_WW obits lbits owp lwp)
  = wide_val (Z.to_nat (VL_WORDS_I lbits)) 0 lwp.
Proof.
  intros HL. pose proof (top_bits_range lbits ltac:(lia)) as Htl.
  pose proof (top_bits_range obits ltac:(lia)) as Hto.
  set (lw := VL_WORDS_I lbits) in *. set (ow := VL_WORDS_I obits) in *.
  assert (Hlo : lw <= ow) by lia.
  assert (Hw : forall k, 0 <= k < ow ->
            word (VL_EXTEND_WW obits lbits owp lwp) k = if k <? lw then word lwp k else 0).
  { intros k Hk. unfold VL_EXTEND_WW. cbv zeta. fold lw. fold ow.
    rewrite word_MEMCPY_W, word_MEMSET_ZERO_W_at.
    destruct (Z.leb_spec 0 k), (Z.ltb_spec k lw), (Z.leb_spec lw k),
      (Z.ltb_spec k (lw + (ow - lw))); cbn [andb]; try lia; reflexivity. }
  split; [exact Hw |].
  rewrite (wide_val_split ow lw) by lia.
  rewrite (wide_val_zero (Z.to_nat (ow - lw))).
  2:{ intros k Hk. rewrite Hw by lia. destruct (Z.ltb_spec k lw); [lia | reflexivity]. }
  rewrite Z.mul_0_r, Z.add_0_r. apply wide_val_ext. intros k Hk.
  rewrite Hw by lia. destruct (Z.ltb_spec k lw); [reflexivity | lia].
Qed.

Lemma EData_all_ones_val n i (wp : WData) :
  (forall k, i <= k < i + Z.of_nat n -> word wp k = 0xffffffff) ->
  wide_val n i wp = 2 ^ (32 * Z.of_nat n) - 1.
Proof. intros H. apply wide_val_all_ones. intros k Hk. rewrite H by lia. reflexivity. Qed.

Lemma lor_bnot_mask_add t top :
  1 <= t <= 32 -> 0 <= top < 2 ^ t ->
  Z.lor top (bnot 32 (Z.ones t)) = top + (2 ^ 32 - 2 ^ t).
Proof.
  intros Ht Htop.
  assert (H2 : 2 ^ t <= 2 ^ 32) by (apply Z.pow_le_mono_r; lia).
  assert (Hp : 0 < 2 ^ t) by (apply Z.pow_pos_nonneg; lia).
  rewrite bnot32_word by (rewrite Z.ones_equiv; lia).
  rewrite Z.ones_equiv.
  replace (2 ^ 32 - 1 - Z.pred (2 ^ t)) with (2 ^ 32 - 2 ^ t) by lia.
  rewrite <- Z.lxor_lor, <- Z.add_nocarry_lxor; [reflexivity | |];
    (apply Z.bits_inj'; intros i Hi; rewrite Z.land_spec, Z.bits_0;
     destruct (Z.lt_ge_cases i t);
     [ replace (2 ^ 32 - 2 ^ t) with (Z.shiftl (2 ^ (32 - t) - 1) t)
         by (rewrite Z.shiftl_mul_pow2 by lia; rewrite Z.mul_sub_distr_r;
             rewrite <- Z.pow_add_r by lia; replace (32 - t + t) with 32 by lia; lia);
       rewrite Z.shiftl_spec_low by lia; apply andb_false_r
     | rewrite (testbit_above top t) by lia; reflexivity ]).
Qed.

Lemma VL_EXTENDS_WW_val obits lbits (owp lwp : WData) :
  1 <= lbits <= obits ->
  (forall k, 0 <= k < VL_WORDS_I lbits -> 0 <= word lwp k < 2 ^ 32) ->
  wide_clean lbits lwp = true ->
  wide_val (Z.to_nat (VL_WORDS_I obits)) 0 (VL_EXTENDS_WW obits lbits owp lwp)
  = signed_val lbits (wide_val (Z.to_nat (VL_WORDS_I lbits)) 0 lwp)
    mod 2 ^ (32 * VL_WORDS_I obits).
Proof.
  intros HL Hr Hc. pose proof (top_bits_range lbits ltac:(lia)) as Htl.
  pose proof (top_bits_range obits ltac:(lia)) as Hto.
  pose proof (wide_clean_range lbits lwp ltac:(lia) Hc) as Htop.
  pose proof (wide_val_clean_range lbits lwp ltac:(lia) Hr Hc) as Hv.
  pose proof (sign_of_val lbits lwp ltac:(lia) Hr Hc) as Hs.
  unfold signed_val, VL_EXTENDS_WW. cbv zeta. rewrite Hs. rewrite VL_MASK_E_top by lia.
  set (lw := VL_WORDS_I lbits) in *. set (ow := VL_WORDS_I obits) in *.
  set (t := lbits - 32 * (lw - 1)) in *.
  assert (Hlo : lw <= ow) by lia.
  set (v := wide_val (Z.to_nat lw) 0 lwp) in *.
  assert (Hpo : 2 ^ lbits <= 2 ^ (32 * ow)) by (apply Z.pow_le_mono_r; lia).
  assert (Hvs : v = wide_val (Z.to_nat (lw - 1)) 0 lwp + 2 ^ (32 * (lw - 1)) * word lwp (lw - 1)).
  { unfold v. rewrite (wide_val_split lw (lw - 1)) by lia.
    replace (Z.to_nat (lw - (lw - 1))) with 1%nat by lia. cbn [wide_val]. lia. }
  destruct (Z.testbit v (lbits - 1)) eqn:Eb; cbn [Z.eqb negb].
  - set (out := VL_MEMCPY_W _ lwp (lw - 1)).
    assert (Hw : forall k, 0 <= k < ow ->
              word out k = if k <? lw - 1 then word lwp k
                           else if k =? lw - 1 then word lwp (lw - 1) + (2 ^ 32 - 2 ^ t)
                           else 0xffffffff).
    { intros k Hk. unfold out. rewrite word_MEMCPY_W, word_MEMSET_ONES_W_at.
      destruct (Z.leb_spec 0 k), (Z.ltb_spec k (lw - 1)), (Z.leb_spec lw k),
        (Z.ltb_spec k (lw + (ow - lw))), (Z.eqb_spec k (lw - 1));
        cbn [andb]; try lia; try reflexivity.
      subst k. rewrite !word_insert_eq. apply lor_bnot_mask_add; lia. }
    rewrite (wide_val_split ow lw) by lia.
    rewrite (EData_all_ones_val (Z.to_nat (ow - lw))).
    2:{ intros k Hk. rewrite Hw by lia.
        destruct (Z.ltb_spec k (lw - 1)), (Z.eqb_spec k (lw - 1)); try lia; try reflexivity. }
    rewrite (wide_val_split lw (lw - 1)) by lia.
    replace (Z.to_nat (lw - (lw - 1))) with 1%nat by lia. cbn [wide_val].
    rewrite Hw by lia.
    destruct (Z.ltb_spec (lw - 1) (lw - 1)); [lia |]. rewrite Z.eqb_refl.
    rewrite (wide_val_ext _ 0 out lwp).
    2:{ intros k Hk. rewrite Hw by lia. destruct (Z.ltb_spec k (lw - 1)); [reflexivity | lia]. }
    apply Z.mod_unique_pos with (q := -1).
    + rewrite (sign_bit_set lbits) in Eb by lia. apply Z.leb_le in Eb.
      pose proof (pow2_half lbits ltac:(lia)).
      assert (0 < 2 ^ (lbits - 1)) by (apply Z.pow_pos_nonneg; lia).
      replace (2 ^ (32 * ow)) with (2 ^ (32 * lw) * 2 ^ (32 * Z.of_nat (Z.to_nat (ow - lw))))
        by (rewrite <- Z.pow_add_r by lia; f_equal; lia).
      replace (2 ^ (32 * lw)) with (2 ^ (32 * (lw - 1)) * 2 ^ 32)
        by (rewrite <- Z.pow_add_r by lia; f_equal; lia).
      replace (2 ^ lbits) with (2 ^ (32 * (lw - 1)) * 2 ^ t) in *
        by (rewrite <- Z.pow_add_r by lia; f_equal; lia).
      assert (0 < 2 ^ (32 * Z.of_nat (Z.to_nat (ow - lw)))) by (apply Z.pow_pos_nonneg; lia).
      assert (0 < 2 ^ (32 * (lw - 1))) by (apply Z.pow_pos_nonneg; lia).
      set (X := 2 ^ (32 * (lw - 1))) in *. set (Y := 2 ^ (32 * Z.of_nat (Z.to_nat (ow - lw)))) in *.
      set (T := 2 ^ t) in *.
      assert (HT : T <= 2 ^ 32) by (apply Z.pow_le_mono_r; lia).
      change (2 ^ 32) with 4294967296 in *.
      assert (H5 : X * T <= X * 4294967296) by nia.
      assert (H6 : X * 4294967296 * 1 <= X * 4294967296 * Y) by nia.
      rewrite Hvs in Hv. lia.
    + replace (2 ^ (32 * ow)) with (2 ^ (32 * lw) * 2 ^ (32 * Z.of_nat (Z.to_nat (ow - lw))))
        by (rewrite <- Z.pow_add_r by lia; f_equal; lia).
      replace (2 ^ (32 * lw)) with (2 ^ (32 * (lw - 1)) * 2 ^ 32)
        by (rewrite <- Z.pow_add_r by lia; f_equal; lia).
      replace (2 ^ lbits) with (2 ^ (32 * (lw - 1)) * 2 ^ t)
        by (rewrite <- Z.pow_add_r by lia; f_equal; lia).
      rewrite Hvs. ring.
  - set (out := VL_MEMCPY_W _ lwp (lw - 1)).
    assert (Hw : forall k, 0 <= k < ow -> word out k = if k <? lw then word lwp k else 0).
    { intros k Hk. unfold out. rewrite word_MEMCPY_W, word_MEMSET_ZERO_W_at.
      destruct (Z.leb_spec 0 k), (Z.ltb_spec k (lw - 1)), (Z.leb_spec lw k),
        (Z.ltb_spec k (lw + (ow - lw))), (Z.ltb_spec k lw);
        cbn [andb]; try lia; try reflexivity.
      assert (k = lw - 1) by lia. subst k. rewrite word_insert_eq. reflexivity. }
    rewrite (wide_val_split ow lw) by lia.
    rewrite (wide_val_zero (Z.to_nat (ow - lw))).
    2:{ intros k Hk. rewrite Hw by lia. destruct (Z.ltb_spec k lw); [lia | reflexivity]. }
    rewrite Z.mul_0_r, Z.add_0_r.
    rewrite (wide_val_ext _ 0 out lwp).
    2:{ intros k Hk. rewrite Hw by lia. destruct (Z.ltb_spec k lw); [reflexivity | lia]. }
    fold v. symmetry. apply Z.mod_small. lia.
Qed.

(** ** Arithmetic shift and signed division on the two's-complement reading *)

Lemma signed_val_bits W x i :
  1 <= W -> 0 <= x < 2 ^ W -> 0 <= i ->
  Z.testbit (signed_val W x) i = if i <? W then Z.testbit x i else Z.testbit x (W - 1).
Proof.
  intros HW Hx Hi. unfold signed_val.
  assert (Hp : 0 < 2 ^ W) by (apply Z.pow_pos_nonneg; lia).
  destruct (Z.testbit x (W - 1)) eqn:Eb; destruct (Z.ltb_spec i W) as [Hlt|Hge].
  - rewrite <- (Z.mod_pow2_bits_low _ W i) by lia.
    replace (x - 2 ^ W) with (x + (-1) * 2 ^ W) by lia.
    rewrite Z.mod_add by lia. rewrite Z.mod_small by lia. reflexivity.
  - replace i with ((i - W) + W) by lia. rewrite <- Z.div_pow2_bits by lia.
    replace (x - 2 ^ W) with (x + (-1) * 2 ^ W) by lia.
    rewrite Z.div_add by lia. rewrite Z.div_small by lia. apply Z.bits_m1. lia.
  - reflexivity.
  - apply (testbit_above x W); lia.
Qed.

Lemma sign_word w W x :
  1 <= W <= w -> 0 <= x < 2 ^ W ->
  wrap w (- Z.shiftr x (W - 1)) = if Z.testbit x (W - 1) then Z.ones w else 0.
Proof.
  intros HW Hx. rewrite sign_of_clean by lia.
  destruct (Z.testbit x (W - 1)); cbn [Z.b2z].
  - unfold wrap. rewrite Z.ones_equiv. symmetry.
    assert (0 < 2 ^ w) by (apply Z.pow_pos_nonneg; lia).
    apply Z.mod_unique_pos with (q := -1); lia.
  - unfold wrap. apply Z.mod_0_l. apply Z.pow_nonzero; lia.
Qed.

(** An arithmetic right shift by less than the machine width. *)
Lemma shiftrs_in_word w W x k :
  1 <= W <= w -> 0 <= x < 2 ^ W -> 0 <= k < w ->
  Z.lor (Z.shiftr x k)
        (Z.land (wrap w (- Z.shiftr x (W - 1)))
                (Z.land (bnot w (Z.shiftr (Z.ones W) k)) (Z.ones W)))
  = wrap W (Z.shiftr (signed_val W x) k).
Proof.
  intros HW Hx Hk. rewrite sign_word by lia. rewrite bnot_land by lia.
  rewrite (wrap_land W) by lia.
  apply Z.bits_inj'. intros i Hi.
  rewrite Z.lor_spec, !Z.land_spec, Z.lnot_spec, !Z.shiftr_spec by lia.
  rewrite signed_val_bits by lia.
  rewrite !Z.testbit_ones by lia.
  destruct (Z.testbit x (W - 1)) eqn:Eb.
  - rewrite Z.testbit_ones by lia.
    destruct (Z.leb_spec 0 i), (Z.leb_spec 0 (i + k)), (Z.ltb_spec i w), (Z.ltb_spec i W),
      (Z.ltb_spec (i + k) W); cbn [andb orb negb]; try lia;
      rewrite ?orb_false_r, ?orb_true_r, ?andb_true_r, ?andb_false_r; try reflexivity;
      apply (testbit_above x W); lia.
  - rewrite Z.bits_0.
    destruct (Z.leb_spec 0 i), (Z.leb_spec 0 (i + k)), (Z.ltb_spec i w), (Z.ltb_spec i W),
      (Z.ltb_spec (i + k) W); cbn [andb orb negb]; try lia;
      rewrite ?orb_false_r, ?orb_true_r, ?andb_true_r, ?andb_false_r; try reflexivity;
      apply (testbit_above x W); lia.
Qed.

Lemma shiftrs_over W x k :
  1 <= W -> 0 <= x < 2 ^ W -> W <= k ->
  wrap W (Z.shiftr (signed_val W x) k) = if Z.testbit x (W - 1) then Z.ones W else 0.
Proof.
  intros HW Hx Hk. rewrite wrap_land by lia.
  apply Z.bits_inj'. intros i Hi.
  rewrite Z.land_spec, Z.shiftr_spec by lia. rewrite signed_val_bits by lia.
  destruct (Z.ltb_spec (i + k) W); [lia |].
  destruct (Z.testbit x (W - 1)); [reflexivity | rewrite Z.bits_0; reflexivity].
Qed.

Lemma VL_SHIFTRS_III_val W rbits x k :
  1 <= W <= 32 -> 0 <= x < 2 ^ W -> 0 <= k ->
  VL_SHIFTRS_III W W rbits x k = wrap W (Z.shiftr (signed_val W x) k).
Proof.
  intros HW Hx Hk. unfold VL_SHIFTRS_III, VL_CLEAN_II, VL_IDATASIZE, IData. cbv zeta.
  rewrite VL_MASK_I_narrow by lia.
  destruct (Z.geb_spec k 32) as [Hge|Hlt].
  - rewrite sign_word by lia. rewrite shiftrs_over by lia.
    destruct (Z.testbit x (W - 1)); [| reflexivity].
    apply Z.bits_inj'. intros i Hi. rewrite Z.land_spec, !Z.testbit_ones by lia.
    destruct (Z.leb_spec 0 i), (Z.ltb_spec i 32), (Z.ltb_spec i W); cbn [andb]; try lia;
      reflexivity.
  - apply shiftrs_in_word; lia.
Qed.

Lemma VL_SHIFTRS_QQI_val W rbits x k :
  1 <= W <= 64 -> 0 <= x < 2 ^ W -> 0 <= k ->
  VL_SHIFTRS_QQI W W rbits x k = wrap W (Z.shiftr (signed_val W x) k).
Proof.
  intros HW Hx Hk. unfold VL_SHIFTRS_QQI, VL_CLEAN_QQ, VL_QUADSIZE, QData. cbv zeta.
  rewrite VL_MASK_Q_medium by lia.
  destruct (Z.geb_spec k 64) as [Hge|Hlt].
  - rewrite sign_word by lia. rewrite shiftrs_over by lia.
    destruct (Z.testbit x (W - 1)); [| reflexivity].
    apply Z.bits_inj'. intros i Hi. rewrite Z.land_spec, !Z.testbit_ones by lia.
    destruct (Z.leb_spec 0 i), (Z.ltb_spec i 64), (Z.ltb_spec i W); cbn [andb]; try lia;
      reflexivity.
  - apply shiftrs_in_word; lia.
Qed.

Lemma signed_val_nonzero W x : 1 <= W -> 0 <= x < 2 ^ W -> x <> 0 -> signed_val W x <> 0.
Proof. intros HW Hx Hne. unfold signed_val. destruct (Z.testbit x (W - 1)); lia. Qed.

Lemma signed_val_min W x :
  1 <= W -> 0 <= x < 2 ^ W -> signed_val W x = - 2 ^ (W - 1) -> x = 2 ^ (W - 1).
Proof.
  intros HW Hx H. pose proof (pow2_half W HW). unfold signed_val in H.
  rewrite (sign_bit_set W) in H by lia.
  destruct (Z.leb_spec (2 ^ (W - 1)) x); lia.
Qed.

Lemma signed_val_m1 W x :
  1 <= W -> 0 <= x < 2 ^ W -> signed_val W x = -1 -> x = 2 ^ W - 1.
Proof.
  intros HW Hx H. unfold signed_val in H. destruct (Z.testbit x (W - 1)); lia.
Qed.

Lemma sdiv_total w a b :
  b <> 0 -> ~ (a = - 2 ^ (w - 1) /\ b = -1) -> sdiv w a b = Some (Z.quot a b).
Proof.
  intros Hb Hm. unfold sdiv.
  destruct (Z.eqb_spec b 0); [lia |].
  destruct (Z.eqb_spec a (- 2 ^ (w - 1))), (Z.eqb_spec b (-1)); cbn [orb andb];
    try reflexivity. tauto.
Qed.

Lemma smod_total w a b :
  b <> 0 -> ~ (a = - 2 ^ (w - 1) /\ b = -1) -> smod w a b = Some (Z.rem a b).
Proof.
  intros Hb Hm. unfold smod.
  destruct (Z.eqb_spec b 0); [lia |].
  destruct (Z.eqb_spec a (- 2 ^ (w - 1))), (Z.eqb_spec b (-1)); cbn [orb andb];
    try reflexivity. tauto.
Qed.

Lemma narrow_no_overflow w L a b :
  1 <= L <= w -> 0 <= a < 2 ^ L -> 0 <= b < 2 ^ L ->
  ~ (a = 2 ^ (w - 1) /\ b = 2 ^ w - 1) ->
  ~ (signed_val L a = - 2 ^ (w - 1) /\ signed_val L b = -1).
Proof.
  intros HL Ha Hb Hg [H1 H2].
  pose proof (signed_val_range L a ltac:(lia) Ha) as Hr.
  assert (Hle : 2 ^ (L - 1) <= 2 ^ (w - 1)) by (apply Z.pow_le_mono_r; lia).
  assert (E : 2 ^ (L - 1) = 2 ^ (w - 1)) by lia.
  assert (L = w).
  { apply Z.pow_inj_r in E; lia. }
  subst L. apply Hg. split.
  - apply signed_val_min; [lia | assumption | assumption].
  - apply signed_val_m1; [lia | assumption | assumption].
Qed.

(** ** Power, one-hot, ceiling logarithm *)

Lemma land_pow2_zero x i : 0 <= i -> (Z.land x (2 ^ i) =? 0) = negb (Z.testbit x i).
Proof.
  intros Hi.
  assert (E : Z.land x (2 ^ i) = if Z.testbit x i then 2 ^ i else 0).
  { apply Z.bits_inj'. intros j Hj. rewrite Z.land_spec, Z.pow2_bits_eqb by lia.
    destruct (Z.eqb_spec i j) as [<-|Hne].
    - destruct (Z.testbit x i); [rewrite Z.pow2_bits_true by lia | rewrite Z.bits_0];
        reflexivity.
    - rewrite andb_false_r.
      destruct (Z.testbit x i); [rewrite Z.pow2_bits_false by lia | rewrite Z.bits_0];
        reflexivity. }
  rewrite E. assert (0 < 2 ^ i) by (apply Z.pow_pos_nonneg; lia).
  destruct (Z.testbit x i); cbn [negb]; [apply Z.eqb_neq; lia | reflexivity].
Qed.

Lemma mod_pow2_succ x i :
  0 <= i -> x mod 2 ^ (i + 1) = x mod 2 ^ i + 2 ^ i * Z.b2z (Z.testbit x i).
Proof.
  intros Hi. rewrite Z.pow_add_r by lia. change (2 ^ 1) with 2.
  assert (0 < 2 ^ i) by (apply Z.pow_pos_nonneg; lia).
  rewrite Z.rem_mul_r by lia. rewrite Z.testbit_spec' by lia. reflexivity.
Qed.

Lemma wrap_mul_idemp w a b : 0 <= w -> wrap w (wrap w a * wrap w b) = wrap w (a * b).
Proof.
  intros Hw. unfold wrap. symmetry. apply Z.mul_mod. apply Z.pow_nonzero; lia.
Qed.

(** Square-and-multiply over the low [rbits] bits of the exponent. *)
Lemma pow_loop w rbits lhs rhs :
  1 <= w -> 0 <= rbits <= 64 -> 0 <= lhs < 2 ^ w -> 0 <= rhs < 2 ^ rbits ->
  snd (for_loop 0 rbits
         (fun i '(power, out) =>
            let power := if 0 <? i then wrap w (power * power) else power in
            let out := if Z.land rhs (QData (Z.shiftl 1 i)) =? 0 then out
                       else wrap w (out * power) in
            (power, out))
         (lhs, 1))
  = wrap w (lhs ^ rhs).
Proof.
  intros Hw Hrb Hl Hr.
  set (st := for_loop 0 rbits _ (lhs, 1)).
  assert (H1 : wrap w 1 = 1).
  { apply wrap_small. assert (2 ^ 1 <= 2 ^ w) by (apply Z.pow_le_mono_r; lia).
    change (2 ^ 1) with 2 in *. lia. }
  assert (HP : fst st = (if rbits =? 0 then lhs else wrap w (lhs ^ (2 ^ (rbits - 1)))) /\
               snd st = wrap w (lhs ^ (rhs mod 2 ^ rbits))).
  { unfold st.
    apply (for_loop_ind (fun i (t : Z * Z) =>
             fst t = (if i =? 0 then lhs else wrap w (lhs ^ (2 ^ (i - 1)))) /\
             snd t = wrap w (lhs ^ (rhs mod 2 ^ i)))); [lia | |].
    - cbn [fst snd]. split; [reflexivity |].
      change (2 ^ 0) with 1. rewrite Z.mod_1_r. symmetry. exact H1.
    - intros i [p o] Hi [Hp Ho]. cbn [fst snd] in Hp, Ho.
      assert (Hp' : (if 0 <? i then wrap w (p * p) else p) = wrap w (lhs ^ (2 ^ i))).
      { destruct (Z.ltb_spec 0 i) as [Hpos|Hz].
        - destruct (Z.eqb_spec i 0); [lia |]. rewrite Hp. rewrite wrap_mul_idemp by lia.
          rewrite <- Z.pow_add_r by (try apply Z.pow_nonneg; lia).
          f_equal. f_equal. replace i with (1 + (i - 1)) at 3 by lia.
          rewrite Z.pow_add_r by lia. change (2 ^ 1) with 2. lia.
        - assert (i = 0) by lia. subst i. cbn [Z.eqb] in Hp. rewrite Hp.
          change (2 ^ 0) with 1. rewrite Z.pow_1_r. symmetry. apply wrap_small. exact Hl. }
      cbv zeta. rewrite Hp'. cbn [fst snd]. split.
      + destruct (Z.eqb_spec (i + 1) 0); [lia |]. f_equal. f_equal. f_equal. lia.
      + rewrite Z.shiftl_1_l.
        assert (Hq : QData (2 ^ i) = 2 ^ i).
        { apply wrap_small. split; [apply Z.pow_nonneg; lia | apply Z.pow_lt_mono_r; lia]. }
        rewrite Hq. rewrite land_pow2_zero by lia. rewrite mod_pow2_succ by lia.
        destruct (Z.testbit rhs i); cbn [negb Z.b2z].
        * rewrite Ho, wrap_mul_idemp by lia.
          rewrite <- Z.pow_add_r; [f_equal; f_equal; lia | | apply Z.pow_nonneg; lia].
          apply Z.mod_pos_bound. apply Z.pow_pos_nonneg; lia.
        * rewrite Z.mul_0_r, Z.add_0_r. exact Ho. }
  destruct HP as [_ Ho]. rewrite Ho. rewrite Z.mod_small by lia. reflexivity.
Qed.

Lemma VL_POW_III_val obits lbits rbits lhs rhs :
  0 <= rbits <= 64 -> 0 <= lhs < 2 ^ 32 -> 0 <= rhs < 2 ^ rbits ->
  VL_POW_III obits lbits rbits lhs rhs = (lhs ^ rhs) mod 2 ^ 32.
Proof.
  intros Hrb Hl Hr. unfold VL_POW_III.
  destruct (Z.eqb_spec rhs 0) as [->|Hr0]; [reflexivity |].
  destruct (Z.eqb_spec lhs 0) as [->|Hl0].
  - rewrite Z.pow_0_l by lia. reflexivity.
  - apply (pow_loop 32 rbits lhs rhs); lia.
Qed.

Lemma VL_POW_QQQ_val obits lbits rbits lhs rhs :
  0 <= rbits <= 64 -> 0 <= lhs < 2 ^ 64 -> 0 <= rhs < 2 ^ rbits ->
  VL_POW_QQQ obits lbits rbits lhs rhs = (lhs ^ rhs) mod 2 ^ 64.
Proof.
  intros Hrb Hl Hr. unfold VL_POW_QQQ.
  destruct (Z.eqb_spec rhs 0) as [->|Hr0]; [reflexivity |].
  destruct (Z.eqb_spec lhs 0) as [->|Hl0].
  - rewrite Z.pow_0_l by lia. reflexivity.
  - apply (pow_loop 64 rbits lhs rhs); lia.
Qed.

Lemma land_pred_zero w x :
  0 <= w -> 0 <= x < 2 ^ w ->
  Z.land x (wrap w (x - 1)) = 0 <-> x = 0 \/ exists k, 0 <= k /\ x = 2 ^ k.
Proof.
  intros Hw Hx. destruct (Z.eq_dec x 0) as [->|Hne].
  - rewrite Z.land_0_l. tauto.
  - rewrite (wrap_small w (x - 1)) by lia.
    pose proof (Z.log2_spec x ltac:(lia)) as Hl. pose proof (Z.log2_nonneg x) as Hk.
    set (k := Z.log2 x) in *. split.
    + intros H. right. exists k. split; [exact Hk |].
      destruct (Z.eq_dec x (2 ^ k)) as [|Hd]; [assumption | exfalso].
      assert (Hb1 : Z.testbit x k = true) by (apply Z.bit_log2; lia).
      assert (Hb2 : Z.testbit (x - 1) k = true).
      { replace k with (Z.log2 (x - 1)); [apply Z.bit_log2; lia |].
        apply Z.log2_unique; [exact Hk |]. rewrite Z.pow_succ_r in Hl by lia.
        rewrite Z.pow_succ_r by lia. lia. }
      assert (Hb : Z.testbit (Z.land x (x - 1)) k = true)
        by (rewrite Z.land_spec, Hb1, Hb2; reflexivity).
      rewrite H, Z.bits_0 in Hb. discriminate.
    + intros [|[j [Hj ->]]]; [lia |].
      replace (2 ^ j - 1) with (Z.ones j) by (rewrite Z.ones_equiv; lia).
      apply Z.bits_inj'. intros i Hi.
      rewrite Z.land_spec, Z.bits_0, Z.pow2_bits_eqb by lia.
      destruct (Z.eqb_spec j i) as [<-|]; [| reflexivity].
      rewrite Z.ones_spec_high by lia. reflexivity.
Qed.

Lemma VL_CLOG2_loop_val fuel : forall y s,
  0 <= y < 2 ^ Z.of_nat fuel ->
  VL_CLOG2_loop fuel y s = Some (s + (if y =? 0 then 0 else Z.log2 y + 1)).
Proof.
  induction fuel as [|fuel IH]; intros y s Hy.
  - change (2 ^ Z.of_nat 0) with 1 in Hy. assert (y = 0) by lia. subst y.
    cbn. f_equal. lia.
  - cbn [VL_CLOG2_loop]. destruct (Z.eqb_spec y 0) as [->|Hne]; [f_equal; lia |].
    rewrite Nat2Z.inj_succ, Z.pow_succ_r in Hy by lia.
    rewrite IH.
    2:{ rewrite Z.shiftr_div_pow2 by lia. change (2 ^ 1) with 2.
        split; [apply Z.div_pos; lia | apply Z.div_lt_upper_bound; lia]. }
    f_equal. rewrite Z.log2_shiftr by lia.
    destruct (Z.eqb_spec (Z.shiftr y 1) 0) as [E|E].
    + rewrite Z.shiftr_div_pow2 in E by lia. change (2 ^ 1) with 2 in E.
      assert (y = 1).
      { pose proof (Z.div_mod y 2 ltac:(lia)). pose proof (Z.mod_pos_bound y 2 ltac:(lia)). lia. }
      subst y. change (Z.log2 1) with 0. lia.
    + assert (2 <= y).
      { destruct (Z.eq_dec y 1) as [->|]; [exfalso; apply E; reflexivity | lia]. }
      assert (1 <= Z.log2 y) by (apply Z.log2_le_pow2; [lia | change (2 ^ 1) with 2; lia]).
      lia.
Qed.

Lemma clog2_val w fuel x :
  0 <= w <= Z.of_nat fuel -> 0 < x < 2 ^ w ->
  VL_CLOG2_loop fuel (wrap w (x - 1)) 0 = Some (Z.log2_up x).
Proof.
  intros Hw Hx. rewrite (wrap_small w (x - 1)) by lia.
  rewrite VL_CLOG2_loop_val.
  2:{ assert (2 ^ w <= 2 ^ Z.of_nat fuel) by (apply Z.pow_le_mono_r; lia). lia. }
  f_equal. destruct (Z.eqb_spec (x - 1) 0) as [E|E].
  - replace x with 1 by lia. reflexivity.
  - rewrite Z.log2_up_eqn by lia. replace (Z.pred x) with (x - 1) by lia. lia.
Qed.

(** ** Select and insert on the integer value *)

(** Position of bit [i] of a wide value. *)
Lemma bit_pos i : 0 <= i -> i = 32 * (i / 32) + i mod 32 /\ 0 <= i mod 32 < 32 /\ 0 <= i / 32.
Proof.
  intros Hi. pose proof (Z.div_mod i 32 ltac:(lia)). pose proof (Z.mod_pos_bound i 32 ltac:(lia)).
  pose proof (Z.div_pos i 32 ltac:(lia) ltac:(lia)). lia.
Qed.

Lemma wide_val_bit n (wp : WData) q r :
  (forall k, 0 <= k < Z.of_nat n -> 0 <= word wp k < 2 ^ 32) ->
  0 <= q < Z.of_nat n -> 0 <= r < 32 ->
  Z.testbit (wide_val n 0 wp) (32 * q + r) = Z.testbit (word wp q) r.
Proof.
  intros Hr Hq Hrr. rewrite wide_val_testbit by (try lia; intros k Hk; apply Hr; lia).
  replace ((32 * q + r) / 32) with q.
  2:{ apply Z.div_unique with (r := r); lia. }
  replace ((32 * q + r) mod 32) with r.
  2:{ apply Z.mod_unique with (q := q); lia. }
  rewrite Z.add_0_l. reflexivity.
Qed.

Lemma VL_SEL_IWII_val lbits (lwp : WData) lsb width :
  0 <= lsb -> 1 <= width <= 32 -> lsb + width <= lbits -> lbits < 2 ^ 31 ->
  (forall k, 0 <= k < VL_WORDS_I lbits -> 0 <= word lwp k < 2 ^ 32) ->
  Z.land (VL_SEL_IWII lbits lwp lsb width) (Z.ones width)
  = Z.land (Z.shiftr (wide_val (Z.to_nat (VL_WORDS_I lbits)) 0 lwp) lsb) (Z.ones width).
Proof.
  intros Hlsb Hwd Hin Hlb Hr. unfold VL_SEL_IWII. cbv zeta.
  assert (Hm : int32_t (IData (lsb + width - 1)) = lsb + width - 1).
  { unfold IData. rewrite (wrap_small 32) by lia. apply int32_t_small. lia. }
  rewrite Hm, (int32_t_small lsb) by lia.
  rewrite Z.geb_leb. destruct (Z.leb_spec lbits (lsb + width - 1)) as [|_]; [lia |].
  pose proof (top_bits_range lbits ltac:(lia)) as Ht.
  set (n := VL_WORDS_I lbits) in *.
  unfold VL_BITRSHIFT_W, VL_EDATASIZE.
  destruct (bit_split (lsb + width - 1)) as [Eh Hho]. destruct (bit_split lsb) as [El Hlo].
  set (hw := VL_BITWORD_E (lsb + width - 1)) in *. set (ho := VL_BITBIT_E (lsb + width - 1)) in *.
  set (lw := VL_BITWORD_E lsb) in *. set (lo := VL_BITBIT_E lsb) in *.
  assert (Hhw : 0 <= lw /\ hw < n /\ (hw = lw \/ hw = lw + 1)) by lia.
  apply Z.bits_inj'. intros i Hi.
  rewrite !Z.land_spec. rewrite Z.testbit_ones by lia.
  destruct (Z.leb_spec 0 i); [| lia]. destruct (Z.ltb_spec i width); cbn [andb];
    [| rewrite !andb_false_r; reflexivity].
  rewrite !andb_true_r. rewrite Z.shiftr_spec by lia.
  destruct (Z.lt_ge_cases (i + lo) 32) as [Hlow|Hhigh].
  - replace (i + lsb) with (32 * lw + (i + lo)) by lia.
    rewrite wide_val_bit by (try lia; intros k Hk; apply Hr; lia).
    destruct (Z.eqb_spec hw lw).
    + rewrite Z.shiftr_spec by lia. reflexivity.
    + rewrite Z.lor_spec, EData_land, Z.land_spec, Z.shiftl_spec, Z.shiftr_spec by lia.
      rewrite (Z.testbit_neg_r _ (i - (32 - lo))) by lia. reflexivity.
  - replace (i + lsb) with (32 * (lw + 1) + (i + lo - 32)) by lia.
    rewrite wide_val_bit by (try lia; intros k Hk; apply Hr; lia).
    destruct (Z.eqb_spec hw lw); [lia |].
    replace hw with (lw + 1) by lia.
    rewrite Z.lor_spec, EData_land, Z.land_spec, Z.shiftl_spec, Z.shiftr_spec by lia.
    rewrite (testbit_above (word lwp lw) 32 (i + lo)) by (try lia; apply Hr; lia).
    rewrite orb_false_r. rewrite Z.ones_spec_low by lia. rewrite andb_true_r.
    f_equal. lia.
Qed.

Lemma VL_BITSEL_IWII_val lbits (lwp : WData) rd :
  0 <= rd < lbits -> lbits < 2 ^ 32 ->
  (forall k, 0 <= k < VL_WORDS_I lbits -> 0 <= word lwp k < 2 ^ 32) ->
  Z.land (VL_BITSEL_IWII lbits lwp rd) 1
  = Z.b2z (Z.testbit (wide_val (Z.to_nat (VL_WORDS_I lbits)) 0 lwp) rd).
Proof.
  intros Hrd Hlb Hr. unfold VL_BITSEL_IWII. cbv zeta.
  unfold IData at 1. rewrite (wrap_small 32 lbits) by lia.
  destruct (Z.gtb_spec rd lbits); [lia |].
  pose proof (top_bits_range lbits ltac:(lia)) as Ht.
  destruct (bit_split rd) as [E Ho].
  set (w := VL_BITWORD_E rd) in *. set (o := VL_BITBIT_E rd) in *.
  change 1 with (Z.ones 1) at 1. rewrite Z.land_ones by lia. change (2 ^ 1) with 2.
  rewrite <- Z.bit0_mod. rewrite Z.shiftr_spec by lia. rewrite Z.add_0_l.
  rewrite E at 1. rewrite wide_val_bit by (try lia; intros k Hk; apply Hr; lia).
  reflexivity.
Qed.

Lemma _vl_insert_WI_bit (iowp : WData) ld hbit lbit rbits q r :
  0 <= lbit <= hbit -> hbit - lbit < 32 -> rbits = 0 \/ hbit < rbits -> 0 <= r < 32 ->
  Z.testbit (word (_vl_insert_WI iowp ld hbit lbit rbits) q) r
  = if (lbit <=? 32 * q + r) && (32 * q + r <=? hbit)
    then Z.testbit ld (32 * q + r - lbit)
    else Z.testbit (word iowp q) r.
Proof.
  intros Hlh Hw Hrb Hr. assert (Hr0 : 0 <= r) by lia. unfold _vl_insert_WI.
  destruct (bit_split hbit) as [Eh Hho]. destruct (bit_split lbit) as [El Hlo].
  destruct (bit_split rbits) as [Er Hro].
  set (hw := VL_BITWORD_E hbit) in *. set (ho := VL_BITBIT_E hbit) in *.
  set (lw := VL_BITWORD_E lbit) in *. set (lo := VL_BITBIT_E lbit) in *.
  set (rw := VL_BITWORD_E rbits) in *. set (ro := VL_BITBIT_E rbits) in *.
  unfold VL_SIZEBITS_E, VL_EDATASIZE. change (32 - 1) with 31.
  assert (Hcm : forall j, 0 <= j <= ho ->
            Z.testbit (if hw =? rw then VL_MASK_E ro else VL_MASK_E 0) j = true).
  { intros j Hj. destruct (Z.eqb_spec hw rw).
    - destruct (Z.eq_dec ro 0) as [->|].
      + change (VL_MASK_E 0) with (Z.ones 32). rewrite Z.ones_spec_low; lia.
      + rewrite VL_MASK_E_ones by lia. rewrite Z.ones_spec_low; lia.
    - change (VL_MASK_E 0) with (Z.ones 32). rewrite Z.ones_spec_low; lia. }
  set (cm := if hw =? rw then VL_MASK_E ro else VL_MASK_E 0) in *.
  assert (Hws : hw = lw \/ hw = lw + 1) by lia.
  destruct (Z.leb_spec lbit (32 * q + r)) as [Hge|Hlt];
    destruct (Z.leb_spec (32 * q + r) hbit) as [Hle|Hgt]; cbn [andb].
  - (* inside the range *)
    destruct ((ho =? 31) && (lo =? 0)) eqn:Efast.
    + apply andb_true_iff in Efast as [E1 E2]. apply Z.eqb_eq in E1, E2.
      assert (q = lw) by lia. subst q. rewrite word_insert_eq.
      rewrite Z.land_spec, Hcm by lia. rewrite andb_true_r. f_equal. lia.
    + destruct (Z.eqb_spec hw lw) as [Ehl|Ehl].
      * assert (q = lw) by lia. subst q. rewrite word_insert_eq.
        rewrite VL_MASK_E_ones by lia. rewrite !EData_land, bnot_land by lia.
        replace (32 * lw + r - lbit) with (r - lo) by lia.
        Z.bitblast_core. all: try (rewrite Hcm by lia). all: simpl_bool_bits.
      * assert (Eg : negb ((hw =? rw) && (ro =? 0)) = true).
        { destruct (Z.eqb_spec hw rw), (Z.eqb_spec ro 0); try reflexivity. lia. }
        rewrite Eg.
        replace (ho - 0 + 1) with (ho + 1) by lia.
        replace (31 - lo + 1) with (32 - lo) by lia.
        rewrite !VL_MASK_E_ones by lia. rewrite !EData_land, !bnot_land by lia.
        assert (Hq : q = lw \/ q = hw) by lia. destruct Hq as [-> | ->].
        -- rewrite word_insert_ne by lia. rewrite word_insert_eq.
           replace (32 * lw + r - lbit) with (r - lo) by lia.
           Z.bitblast_core. all: simpl_bool_bits.
        -- rewrite word_insert_eq. rewrite word_insert_ne by lia.
           replace (32 * hw + r - lbit) with (r + (32 - lo)) by lia.
           Z.bitblast_core. all: try (rewrite Hcm by lia). all: simpl_bool_bits.
  - (* above the range *)
    destruct ((ho =? 31) && (lo =? 0)) eqn:Efast.
    + apply andb_true_iff in Efast as [E1 E2]. apply Z.eqb_eq in E1, E2.
      rewrite word_insert_ne by lia. reflexivity.
    + destruct (Z.eqb_spec hw lw) as [Ehl|Ehl].
      * destruct (Z.eq_dec q lw) as [->|Hq]; [| rewrite word_insert_ne by lia; reflexivity].
        rewrite word_insert_eq.
        rewrite VL_MASK_E_ones by lia. rewrite !EData_land, bnot_land by lia.
        Z.bitblast_core. all: simpl_bool_bits.
      * assert (Eg : negb ((hw =? rw) && (ro =? 0)) = true).
        { destruct (Z.eqb_spec hw rw), (Z.eqb_spec ro 0); try reflexivity. lia. }
        rewrite Eg.
        replace (ho - 0 + 1) with (ho + 1) by lia.
        replace (31 - lo + 1) with (32 - lo) by lia.
        rewrite !VL_MASK_E_ones by lia. rewrite !EData_land, !bnot_land by lia.
        destruct (Z.eq_dec q hw) as [->|Hq]; [| rewrite !word_insert_ne by lia; reflexivity].
        rewrite word_insert_eq. rewrite word_insert_ne by lia.
        Z.bitblast_core. all: simpl_bool_bits.
  - (* below the range *)
    destruct ((ho =? 31) && (lo =? 0)) eqn:Efast.
    + apply andb_true_iff in Efast as [E1 E2]. apply Z.eqb_eq in E1, E2.
      rewrite word_insert_ne by lia. reflexivity.
    + destruct (Z.eqb_spec hw lw) as [Ehl|Ehl].
      * destruct (Z.eq_dec q lw) as [->|Hq]; [| rewrite word_insert_ne by lia; reflexivity].
        rewrite word_insert_eq.
        rewrite VL_MASK_E_ones by lia. rewrite !EData_land, bnot_land by lia.
        Z.bitblast_core. all: simpl_bool_bits.
      * assert (Eg : negb ((hw =? rw) && (ro =? 0)) = true).
        { destruct (Z.eqb_spec hw rw), (Z.eqb_spec ro 0); try reflexivity. lia. }
        rewrite Eg.
        replace (ho - 0 + 1) with (ho + 1) by lia.
        replace (31 - lo + 1) with (32 - lo) by lia.
        rewrite !VL_MASK_E_ones by lia. rewrite !EData_land, !bnot_land by lia.
        destruct (Z.eq_dec q lw) as [->|Hq]; [| rewrite !word_insert_ne by lia; reflexivity].
        rewrite word_insert_ne by lia. rewrite word_insert_eq.
        Z.bitblast_core. all: simpl_bool_bits.
  - lia.
Qed.

Lemma land_range_r a b : 0 <= b < 2 ^ 32 -> 0 <= Z.land a b < 2 ^ 32.
Proof.
  intros Hb. rewrite <- (Z.land_ones_low b 32).
  2: lia. 2:{ destruct (Z.eq_dec b 0) as [->|]; [simpl; lia | apply Z.log2_lt_pow2; lia]. }
  rewrite Z.land_assoc. rewrite Z.land_ones by lia. apply Z.mod_pos_bound. lia.
Qed.

Lemma land_range_l a b : 0 <= a < 2 ^ 32 -> 0 <= Z.land a b < 2 ^ 32.
Proof. intros Ha. rewrite Z.land_comm. apply land_range_r. exact Ha. Qed.

Lemma VL_MASK_E_range k : 0 <= VL_MASK_E k < 2 ^ 32.
Proof.
  unfold VL_MASK_E. rewrite VL_MASK_I_ones.
  destruct (k mod 32 =? 0).
  - apply ones_range. lia.
  - pose proof (Z.mod_pos_bound k 32 ltac:(lia)) as Hm.
    pose proof (ones_range (k mod 32) ltac:(lia)).
    assert (2 ^ (k mod 32) <= 2 ^ 32) by (apply Z.pow_le_mono_r; lia). lia.
Qed.

Lemma EData_range x : 0 <= EData x < 2 ^ 32.
Proof. apply IData_range. Qed.

Lemma _vl_insert_WI_range (iowp : WData) ld hbit lbit rbits n :
  (forall k, 0 <= k < n -> 0 <= word iowp k < 2 ^ 32) ->
  forall k, 0 <= k < n -> 0 <= word (_vl_insert_WI iowp ld hbit lbit rbits) k < 2 ^ 32.
Proof.
  intros Hr k Hk. unfold _vl_insert_WI. cbv zeta.
  set (cm := if VL_BITWORD_E hbit =? VL_BITWORD_E rbits
             then VL_MASK_E (VL_BITBIT_E rbits) else VL_MASK_E 0).
  assert (Hcm : 0 <= cm < 2 ^ 32) by (unfold cm; destruct (_ =? _); apply VL_MASK_E_range).
  set (hw := VL_BITWORD_E hbit). set (lw := VL_BITWORD_E lbit).
  destruct ((_ =? VL_SIZEBITS_E) && (_ =? 0)).
  - destruct (Z.eq_dec k lw) as [->|Hne].
    + rewrite word_insert_eq. apply land_range_r. exact Hcm.
    + rewrite word_insert_ne by lia. apply Hr. exact Hk.
  - destruct (hw =? lw).
    + destruct (Z.eq_dec k lw) as [->|Hne].
      * rewrite word_insert_eq. apply lor_word_range.
        -- apply land_range_l. apply Hr. exact Hk.
        -- apply land_range_l. apply EData_range.
      * rewrite word_insert_ne by lia. apply Hr. exact Hk.
    + assert (Hlow : forall j, 0 <= j < n ->
                0 <= word (<[lw := Z.lor (Z.land (word iowp lw)
                                    (bnot 32 (EData (Z.shiftl
                                       (VL_MASK_E (VL_EDATASIZE - 1 - VL_BITBIT_E lbit + 1))
                                       (VL_BITBIT_E lbit)))))
                                  (Z.land (EData (Z.shiftl (EData ld) (VL_BITBIT_E lbit)))
                                     (EData (Z.shiftl
                                        (VL_MASK_E (VL_EDATASIZE - 1 - VL_BITBIT_E lbit + 1))
                                        (VL_BITBIT_E lbit))))]> iowp) j < 2 ^ 32).
      { intros j Hj. destruct (Z.eq_dec j lw) as [->|Hne].
        - rewrite word_insert_eq. apply lor_word_range.
          + apply land_range_l. apply Hr. exact Hj.
          + apply land_range_l. apply EData_range.
        - rewrite word_insert_ne by lia. apply Hr. exact Hj. }
      destruct (negb _).
      * destruct (Z.eq_dec k hw) as [->|Hne].
        -- rewrite word_insert_eq. apply lor_word_range.
           ++ apply land_range_l. apply Hlow. exact Hk.
           ++ apply land_range_r. apply land_range_r. exact Hcm.
        -- rewrite word_insert_ne by lia. apply Hlow. exact Hk.
      * apply Hlow. exact Hk.
Qed.

(** Inserting [ld] at [hbit:lbit] replaces exactly that bit range of the
    value held by the buffer. *)
Lemma _vl_insert_WI_val (iowp : WData) ld hbit lbit rbits n :
  0 <= lbit <= hbit -> hbit - lbit < 32 -> rbits = 0 \/ hbit < rbits ->
  hbit < 32 * n ->
  (forall k, 0 <= k < n -> 0 <= word iowp k < 2 ^ 32) ->
  wide_val (Z.to_nat n) 0 (_vl_insert_WI iowp ld hbit lbit rbits)
  = Z.lor (Z.land (wide_val (Z.to_nat n) 0 iowp)
                  (Z.lnot (Z.shiftl (Z.ones (hbit - lbit + 1)) lbit)))
          (Z.shiftl (Z.land ld (Z.ones (hbit - lbit + 1))) lbit).
Proof.
  intros Hlh Hw Hrb Hn Hr.
  pose proof (_vl_insert_WI_range iowp ld hbit lbit rbits n Hr) as Hor.
  apply Z.bits_inj'. intros i Hi.
  rewrite Z.lor_spec, Z.land_spec, Z.lnot_spec, !Z.shiftl_spec, Z.land_spec by lia.
  rewrite !Z.testbit_ones by lia.
  destruct (Z.lt_ge_cases i (32 * n)) as [Hlt|Hge].
  - destruct (bit_pos i Hi) as (Ei & Hm & Hd).
    assert (Hq : i / 32 < n) by lia.
    rewrite Ei at 1 2. rewrite !wide_val_bit by (try lia; intros k Hk; (apply Hor || apply Hr); lia).
    rewrite _vl_insert_WI_bit by lia. rewrite <- Ei.
    destruct (Z.leb_spec lbit i), (Z.leb_spec i hbit), (Z.leb_spec 0 (i - lbit)),
      (Z.ltb_spec (i - lbit) (hbit - lbit + 1)); cbn [andb negb orb]; try lia;
      rewrite ?andb_true_r, ?andb_false_r, ?orb_false_r; reflexivity.
  - rewrite !wide_val_testbit_high by (try lia; intros k Hk; (apply Hor || apply Hr); lia).
    destruct (Z.leb_spec 0 (i - lbit)), (Z.ltb_spec (i - lbit) (hbit - lbit + 1));
      cbn [andb negb orb]; try lia; rewrite ?andb_false_r; reflexivity.
Qed.

(** Placing a clean field above a value that fits below it adds the two. *)
Lemma insert_above lo_val ld lbits rbits :
  0 <= rbits -> 1 <= lbits -> 0 <= lo_val < 2 ^ rbits -> 0 <= ld < 2 ^ lbits ->
  Z.lor (Z.land lo_val (Z.lnot (Z.shiftl (Z.ones (rbits + lbits - 1 - rbits + 1)) rbits)))
        (Z.shiftl (Z.land ld (Z.ones (rbits + lbits - 1 - rbits + 1))) rbits)
  = ld * 2 ^ rbits + lo_val.
Proof.
  intros Hrb Hlb Hlo Hld. replace (rbits + lbits - 1 - rbits + 1) with lbits by lia.
  rewrite <- (Z.mod_small lo_val (2 ^ rbits)) by lia.
  rewrite <- (Z.mod_small ld (2 ^ lbits)) at 2 by lia.
  rewrite <- !Z.land_ones by lia. rewrite <- Z.shiftl_mul_pow2 by lia.
  rewrite Z.add_comm. rewrite <- Z.or_to_plus; Z.bitblast.
Qed.

Lemma VL_CONCAT_WII_val obits lbits rbits (owp : WData) ld rd :
  1 <= lbits <= 32 -> 1 <= rbits <= 32 -> lbits + rbits <= obits ->
  0 <= ld < 2 ^ lbits -> 0 <= rd < 2 ^ rbits ->
  (forall k, 0 <= k < VL_WORDS_I obits ->
     0 <= word (VL_CONCAT_WII obits lbits rbits owp ld rd) k < 2 ^ 32) /\
  wide_val (Z.to_nat (VL_WORDS_I obits)) 0 (VL_CONCAT_WII obits lbits rbits owp ld rd)
  = ld * 2 ^ rbits + rd.
Proof.
  intros Hl Hr Ho Hld Hrd. pose proof (top_bits_range obits ltac:(lia)) as Ht.
  unfold VL_CONCAT_WII. cbv zeta.
  set (n := VL_WORDS_I obits) in *.
  set (b := VL_MEMSET_ZERO_W_at (<[0 := rd]> owp) 1 (n - 1)).
  assert (Hrd32 : 0 <= rd < 2 ^ 32).
  { assert (2 ^ rbits <= 2 ^ 32) by (apply Z.pow_le_mono_r; lia). lia. }
  assert (Hb : forall k, 0 <= k < n -> word b k = if k =? 0 then rd else 0).
  { intros k Hk. unfold b. rewrite word_MEMSET_ZERO_W_at.
    destruct (Z.leb_spec 1 k), (Z.ltb_spec k (1 + (n - 1))), (Z.eqb_spec k 0);
      cbn [andb]; try lia; try reflexivity.
    subst k. apply word_insert_eq. }
  assert (Hbr : forall k, 0 <= k < n -> 0 <= word b k < 2 ^ 32).
  { intros k Hk. rewrite Hb by lia. destruct (k =? 0); lia. }
  assert (Hbv : wide_val (Z.to_nat n) 0 b = rd).
  { rewrite (wide_val_split n 1) by lia. rewrite (wide_val_zero (Z.to_nat (n - 1))).
    - change (Z.to_nat 1) with 1%nat. cbn [wide_val]. rewrite Hb by lia. simpl. lia.
    - intros k Hk. rewrite Hb by lia. destruct (Z.eqb_spec k 0); [lia | reflexivity]. }
  split.
  - apply _vl_insert_WI_range. exact Hbr.
  - rewrite _vl_insert_WI_val; [| lia | lia | left; reflexivity | lia | exact Hbr].
    rewrite Hbv. apply insert_above; lia.
Qed.

Lemma VL_CONCAT_WIW_val obits lbits rbits (owp : WData) ld (rwp : WData) :
  1 <= lbits <= 32 -> 1 <= rbits -> lbits + rbits <= obits ->
  0 <= ld < 2 ^ lbits ->
  (forall k, 0 <= k < VL_WORDS_I rbits -> 0 <= word rwp k < 2 ^ 32) ->
  wide_clean rbits rwp = true ->
  (forall k, 0 <= k < VL_WORDS_I obits ->
     0 <= word (VL_CONCAT_WIW obits lbits rbits owp ld rwp) k < 2 ^ 32) /\
  wide_val (Z.to_nat (VL_WORDS_I obits)) 0 (VL_CONCAT_WIW obits lbits rbits owp ld rwp)
  = ld * 2 ^ rbits + wide_val (Z.to_nat (VL_WORDS_I rbits)) 0 rwp.
Proof.
  intros Hl Hr Ho Hld Hrr Hrc. pose proof (top_bits_range obits ltac:(lia)) as Ht.
  pose proof (top_bits_range rbits ltac:(lia)) as Htr.
  pose proof (wide_val_clean_range rbits rwp ltac:(lia) Hrr Hrc) as Hrv.
  unfold VL_CONCAT_WIW. cbv zeta.
  set (n := VL_WORDS_I obits) in *. set (rn := VL_WORDS_I rbits) in *.
  assert (Hrn : rn <= n) by lia.
  set (b := VL_MEMSET_ZERO_W_at (VL_MEMCPY_W owp rwp rn) rn (n - rn)).
  assert (Hb : forall k, 0 <= k < n -> word b k = if k <? rn then word rwp k else 0).
  { intros k Hk. unfold b. rewrite word_MEMSET_ZERO_W_at, word_MEMCPY_W.
    destruct (Z.leb_spec rn k), (Z.ltb_spec k (rn + (n - rn))), (Z.ltb_spec k rn),
      (Z.leb_spec 0 k); cbn [andb]; try lia; reflexivity. }
  assert (Hbr : forall k, 0 <= k < n -> 0 <= word b k < 2 ^ 32).
  { intros k Hk. rewrite Hb by lia. destruct (Z.ltb_spec k rn); [apply Hrr; lia | lia]. }
  assert (Hbv : wide_val (Z.to_nat n) 0 b = wide_val (Z.to_nat rn) 0 rwp).
  { rewrite (wide_val_split n rn) by lia. rewrite (wide_val_zero (Z.to_nat (n - rn))).
    - rewrite Z.mul_0_r, Z.add_0_r. apply wide_val_ext. intros k Hk. rewrite Hb by lia.
      destruct (Z.ltb_spec k rn); [reflexivity | lia].
    - intros k Hk. rewrite Hb by lia. destruct (Z.ltb_spec k rn); [lia | reflexivity]. }
  split.
  - apply _vl_insert_WI_range. exact Hbr.
  - rewrite _vl_insert_WI_val; [| lia | lia | left; reflexivity | lia | exact Hbr].
    rewrite Hbv. apply insert_above; lia.
Qed.

(** ** Replication *)

Lemma replicate_val_range rep lbits ld :
  0 <= lbits -> 0 <= ld < 2 ^ lbits ->
  0 <= replicate_val rep lbits ld < 2 ^ (lbits * Z.of_nat rep).
Proof.
  intros Hl Hld. induction rep as [|r IH].
  - cbn [replicate_val]. change (Z.of_nat 0) with 0. rewrite Z.mul_0_r.
    change (2 ^ 0) with 1. lia.
  - cbn [replicate_val]. replace (lbits * Z.of_nat (Datatypes.S r)) with (lbits + lbits * Z.of_nat r) by lia.
    rewrite Z.pow_add_r by lia. set (X := 2 ^ (lbits * Z.of_nat r)) in *.
    set (L := 2 ^ lbits) in *. nia.
Qed.

Lemma replicate_val_snoc rep lbits ld :
  0 <= lbits ->
  replicate_val (Datatypes.S rep) lbits ld
  = replicate_val rep lbits ld + ld * 2 ^ (lbits * Z.of_nat rep).
Proof.
  intros Hl. induction rep as [|r IH].
  - cbn [replicate_val]. change (Z.of_nat 0) with 0. rewrite !Z.mul_0_r.
    change (2 ^ 0) with 1. lia.
  - change (replicate_val (Datatypes.S (Datatypes.S r)) lbits ld)
      with (ld + 2 ^ lbits * replicate_val (Datatypes.S r) lbits ld).
    rewrite IH at 1. cbn [replicate_val].
    replace (lbits * Z.of_nat (Datatypes.S r)) with (lbits + lbits * Z.of_nat r) by lia.
    rewrite Z.pow_add_r by lia.
    set (X := 2 ^ (lbits * Z.of_nat r)). set (L := 2 ^ lbits). ring.
Qed.

Lemma VL_REPLICATE_III_val lbits ld rep :
  1 <= lbits -> 1 <= rep -> lbits * rep <= 32 -> 0 <= ld < 2 ^ lbits ->
  VL_REPLICATE_III lbits ld rep = replicate_val (Z.to_nat rep) lbits ld.
Proof.
  intros Hl Hrep Hfit Hld. unfold VL_REPLICATE_III.
  apply (for_loop_ind (fun i ret => ret = replicate_val (Z.to_nat i) lbits ld)); [lia | |].
  - change (Z.to_nat 1) with 1%nat. simpl. lia.
  - intros i ret Hi ->.
    pose proof (replicate_val_range (Z.to_nat i) lbits ld ltac:(lia) Hld) as Hrv.
    replace (lbits * Z.of_nat (Z.to_nat i)) with (lbits * i) in Hrv by lia.
    replace (Z.to_nat (i + 1)) with (Datatypes.S (Z.to_nat i)) by lia.
    cbn [replicate_val]. set (v := replicate_val (Z.to_nat i) lbits ld) in *.
    rewrite Z.shiftl_mul_pow2 by lia.
    assert (Hb : 0 <= v * 2 ^ lbits < 2 ^ 32).
    { assert (2 ^ (lbits * i) * 2 ^ lbits <= 2 ^ 32).
      { rewrite <- Z.pow_add_r by lia. apply Z.pow_le_mono_r; nia. }
      assert (0 < 2 ^ lbits) by (apply Z.pow_pos_nonneg; lia). nia. }
    unfold IData. rewrite wrap_small by exact Hb.
    rewrite <- Z.shiftl_mul_pow2 by lia.
    rewrite <- (Z.mod_small ld (2 ^ lbits)) at 1 2 by lia. rewrite <- Z.land_ones by lia.
    rewrite Z.mul_comm, <- Z.shiftl_mul_pow2 by lia. rewrite Z.add_comm.
    rewrite <- Z.or_to_plus; Z.bitblast.
    all: subst l; rewrite Z.testbit_neg_r by lia; reflexivity.
Qed.

Lemma VL_REPLICATE_WII_val lbits (owp : WData) ld rep :
  1 <= lbits <= 32 -> 1 <= rep -> lbits * rep < 2 ^ 31 -> 0 <= ld < 2 ^ lbits ->
  (forall k, 0 <= k < VL_WORDS_I (lbits * rep) ->
     0 <= word (VL_REPLICATE_WII lbits owp ld rep) k < 2 ^ 32) /\
  wide_val (Z.to_nat (VL_WORDS_I (lbits * rep))) 0 (VL_REPLICATE_WII lbits owp ld rep)
  = replicate_val (Z.to_nat rep) lbits ld.
Proof.
  intros Hl Hrep Hfit Hld. unfold VL_REPLICATE_WII. cbv zeta.
  assert (Hprod : 1 <= lbits * rep) by nia.
  assert (E : IData (IData lbits * rep) = lbits * rep).
  { unfold IData. rewrite (wrap_small 32 lbits) by lia. apply wrap_small. lia. }
  rewrite E. pose proof (top_bits_range (lbits * rep) Hprod) as Ht.
  set (n := VL_WORDS_I (lbits * rep)) in *.
  set (b := for_loop 1 n (fun i o => <[i := 0]> o) (<[0 := ld]> owp)).
  assert (Hld32 : 0 <= ld < 2 ^ 32).
  { assert (2 ^ lbits <= 2 ^ 32) by (apply Z.pow_le_mono_r; lia). lia. }
  assert (Hb : forall k, 0 <= k < n -> word b k = if k =? 0 then ld else 0).
  { intros k Hk. unfold b. rewrite (word_for_loop_store (fun _ => 0)).
    destruct (Z.leb_spec 1 k), (Z.ltb_spec k n), (Z.eqb_spec k 0);
      cbn [andb]; try lia; try reflexivity.
    subst k. apply word_insert_eq. }
  apply (for_loop_ind
           (fun i (o : WData) =>
              (forall k, 0 <= k < n -> 0 <= word o k < 2 ^ 32) /\
              wide_val (Z.to_nat n) 0 o = replicate_val (Z.to_nat i) lbits ld)); [lia | |].
  - split.
    + intros k Hk. rewrite Hb by lia. destruct (k =? 0); lia.
    + rewrite (wide_val_split n 1) by lia. rewrite (wide_val_zero (Z.to_nat (n - 1))).
      * change (Z.to_nat 1) with 1%nat. cbn [wide_val replicate_val]. rewrite Hb by lia.
        simpl. lia.
      * intros k Hk. rewrite Hb by lia. destruct (Z.eqb_spec k 0); [lia | reflexivity].
  - intros i o Hi [Hor Hov]. split.
    + apply _vl_insert_WI_range. exact Hor.
    + pose proof (replicate_val_range (Z.to_nat i) lbits ld ltac:(lia) Hld) as Hrv.
      replace (lbits * Z.of_nat (Z.to_nat i)) with (i * lbits) in Hrv by lia.
      rewrite _vl_insert_WI_val; [| nia | lia | left; reflexivity | nia | exact Hor].
      rewrite Hov. rewrite insert_above by (try lia; try nia; assumption).
      replace (Z.to_nat (i + 1)) with (Datatypes.S (Z.to_nat i)) by lia.
      rewrite replicate_val_snoc by lia.
      replace (lbits * Z.of_nat (Z.to_nat i)) with (i * lbits) by lia. lia.
Qed.

(** ** Wide right shift *)

Lemma for_loop_ext {S : Type} (f g : Z -> S -> S) lo hi s :
  (forall j t, lo <= j < hi -> f j t = g j t) ->
  for_loop lo hi f s = for_loop lo hi g s.
Proof.
  intros H. unfold for_loop.
  apply (for_up_ext_inv (fun _ _ => True)); [exact I |].
  intros j t Hj _. split; [apply H; lia | exact I].
Qed.

(** The funnel loop shared by the unaligned right shift and the unaligned
    wide select: output word [i] takes the bits of source word [i + ws]
    from bit [lo] up and, where there is an upper word, its low [lo] bits
    above them. *)
Lemma funnel_loop_word (lwp owp : WData) ws lo nbits words (has_upper : Z -> bool) j :
  word (for_loop 0 words
          (fun i owp =>
             let owp := <[i := Z.shiftr (word lwp (i + ws)) lo]> owp in
             let upperword := i + ws + 1 in
             if has_upper upperword then
               <[i := Z.lor (word owp i) (EData (Z.shiftl (word lwp upperword) nbits))]> owp
             else owp)
          owp) j
  = if (0 <=? j) && (j <? words)
    then if has_upper (j + ws + 1)
         then Z.lor (Z.shiftr (word lwp (j + ws)) lo)
                    (EData (Z.shiftl (word lwp (j + ws + 1)) nbits))
         else Z.shiftr (word lwp (j + ws)) lo
    else word owp j.
Proof.
  rewrite (for_loop_ext _
             (fun i o => <[i := if has_upper (i + ws + 1)
                                then Z.lor (Z.shiftr (word lwp (i + ws)) lo)
                                           (EData (Z.shiftl (word lwp (i + ws + 1)) nbits))
                                else Z.shiftr (word lwp (i + ws)) lo]> o)).
  - apply (word_for_loop_store
             (fun i => if has_upper (i + ws + 1)
                       then Z.lor (Z.shiftr (word lwp (i + ws)) lo)
                                  (EData (Z.shiftl (word lwp (i + ws + 1)) nbits))
                       else Z.shiftr (word lwp (i + ws)) lo)).
  - intros i t _. cbv zeta. destruct (has_upper (i + ws + 1)); [| reflexivity].
    rewrite word_insert_eq. apply insert_insert_eq.
Qed.

Lemma shiftr_word_range x k : 0 <= x < 2 ^ 32 -> 0 <= k -> 0 <= Z.shiftr x k < 2 ^ 32.
Proof.
  intros Hx Hk. rewrite Z.shiftr_div_pow2 by lia.
  assert (0 < 2 ^ k) by (apply Z.pow_pos_nonneg; lia). split.
  - apply Z.div_pos; lia.
  - apply Z.le_lt_trans with x; [| lia]. apply Z.div_le_upper_bound; [lia |]. nia.
Qed.

Lemma VL_SHIFTR_WWI_val W rbits (owp lwp : WData) rd :
  1 <= W < 2 ^ 31 -> 0 <= rd ->
  (forall k, 0 <= k < VL_WORDS_I W -> 0 <= word lwp k < 2 ^ 32) ->
  wide_clean W lwp = true ->
  (forall k, 0 <= k < VL_WORDS_I W ->
     0 <= word (VL_SHIFTR_WWI W W rbits owp lwp rd) k < 2 ^ 32) /\
  wide_val (Z.to_nat (VL_WORDS_I W)) 0 (VL_SHIFTR_WWI W W rbits owp lwp rd)
  = Z.shiftr (wide_val (Z.to_nat (VL_WORDS_I W)) 0 lwp) rd.
Proof.
  intros HW Hrd Hr Hc. pose proof (top_bits_range W ltac:(lia)) as Ht.
  pose proof (wide_val_clean_range W lwp ltac:(lia) Hr Hc) as Hv.
  set (V := wide_val (Z.to_nat (VL_WORDS_I W)) 0 lwp) in *.
  unfold VL_SHIFTR_WWI. cbv zeta.
  unfold IData. rewrite (wrap_small 32 W) by lia.
  destruct (bit_split rd) as [Erd Hlo].
  set (ws := VL_BITWORD_E rd) in *. set (lo := VL_BITBIT_E rd) in *.
  set (n := VL_WORDS_I W) in *.
  assert (Hws : 0 <= ws) by lia.
  (* it suffices to know each output word *)
  assert (Hsuff : forall out : WData,
            (forall k, 0 <= k < n -> 0 <= word out k < 2 ^ 32) ->
            (forall q r, 0 <= q < n -> 0 <= r < 32 ->
               Z.testbit (word out q) r = Z.testbit V (32 * q + r + rd)) ->
            wide_val (Z.to_nat n) 0 out = Z.shiftr V rd).
  { intros out Hor Hbits. apply Z.bits_inj'. intros i Hi. rewrite Z.shiftr_spec by lia.
    destruct (Z.lt_ge_cases i (32 * n)) as [Hlt|Hge].
    - destruct (bit_pos i Hi) as (Ei & Hm & Hd). rewrite Ei at 1.
      rewrite wide_val_bit by (try lia; intros k Hk; apply Hor; lia).
      rewrite Hbits by lia. rewrite <- Ei. reflexivity.
    - rewrite wide_val_testbit_high by (try lia; intros k Hk; apply Hor; lia).
      symmetry. apply (testbit_above V W); lia. }
  assert (HV : forall q r, 0 <= q -> 0 <= r < 32 ->
            Z.testbit V (32 * q + r) = if q <? n then Z.testbit (word lwp q) r else false).
  { intros q r Hq Hrr. destruct (Z.ltb_spec q n).
    - unfold V. apply wide_val_bit; [intros k Hk; apply Hr; lia | lia | lia].
    - apply (testbit_above V W); lia. }
  destruct (Z.geb_spec rd W) as [Hover|Hin].
  - (* everything is shifted out *)
    set (out := for_loop 0 n (fun i o => <[i := 0]> o) owp).
    assert (Hout : forall k, 0 <= k < n -> word out k = 0).
    { intros k Hk. unfold out. rewrite (word_for_loop_store (fun _ => 0)).
      destruct (Z.leb_spec 0 k), (Z.ltb_spec k n); cbn [andb]; lia. }
    split.
    + intros k Hk. rewrite Hout by lia. lia.
    + rewrite wide_val_zero by (intros k Hk; apply Hout; lia).
      symmetry. apply (shiftr_small V W); lia.
  - unfold VL_SIZEBITS_E, VL_EDATASIZE. change (32 - 1) with 31.
    replace (Z.land rd 31) with lo by reflexivity.
    destruct (Z.eqb_spec lo 0) as [Hlo0|Hlo0].
    + (* whole words *)
      set (out := for_loop (n - ws) n (fun i o => <[i := 0]> o) _).
      assert (Hout : forall k, 0 <= k < n ->
                word out k = if k <? n - ws then word lwp (k + ws) else 0).
      { intros k Hk. unfold out. rewrite (word_for_loop_store (fun _ => 0)).
        rewrite (word_for_loop_store (fun i => word lwp (i + ws))).
        destruct (Z.leb_spec (n - ws) k), (Z.ltb_spec k n), (Z.leb_spec 0 k),
          (Z.ltb_spec k (n - ws)); cbn [andb]; try lia; reflexivity. }
      split.
      * intros k Hk. rewrite Hout by lia.
        destruct (Z.ltb_spec k (n - ws)); [apply Hr; lia | lia].
      * apply Hsuff.
        -- intros k Hk. rewrite Hout by lia.
           destruct (Z.ltb_spec k (n - ws)); [apply Hr; lia | lia].
        -- intros q r Hq Hrr. rewrite Hout by lia.
           replace (32 * q + r + rd) with (32 * (q + ws) + r) by lia.
           rewrite HV by lia.
           destruct (Z.ltb_spec q (n - ws)), (Z.ltb_spec (q + ws) n); try lia;
             [reflexivity | apply Z.bits_0].
    + (* funnel shift *)
      pose proof (top_bits_range (W - rd) ltac:(lia)) as Ht'.
      set (m := VL_WORDS_I (W - rd)) in *.
      set (out := for_loop m n (fun i o => <[i := 0]> o) _).
      assert (Hm : m <= n).
      { unfold m, n. rewrite !VL_WORDS_I_div by lia.
        apply Z.div_le_mono; lia. }
      assert (Hout : forall k, 0 <= k < n ->
                word out k
                = if k <? m
                  then if k + ws + 1 <? n
                       then Z.lor (Z.shiftr (word lwp (k + ws)) lo)
                                  (EData (Z.shiftl (word lwp (k + ws + 1)) (32 - lo)))
                       else Z.shiftr (word lwp (k + ws)) lo
                  else 0).
      { intros k Hk. unfold out. rewrite (word_for_loop_store (fun _ => 0)).
        rewrite (funnel_loop_word lwp owp ws lo (32 - lo) m (fun u => u <? n)).
        destruct (Z.leb_spec m k), (Z.ltb_spec k n), (Z.leb_spec 0 k),
          (Z.ltb_spec k m); cbn [andb]; try lia; reflexivity. }
      assert (Hsrc : forall k, 0 <= k < m -> k + ws < n).
      { intros k Hk. assert (32 * k < W - rd) by lia. lia. }
      assert (Hor : forall k, 0 <= k < n -> 0 <= word out k < 2 ^ 32).
      { intros k Hk. rewrite Hout by lia. destruct (Z.ltb_spec k m); [| lia].
        pose proof (Hsrc k ltac:(lia)).
        destruct (Z.ltb_spec (k + ws + 1) n).
        - apply lor_word_range; [apply shiftr_word_range; [apply Hr |]; lia | apply EData_range].
        - apply shiftr_word_range; [apply Hr |]; lia. }
      split; [exact Hor |]. apply Hsuff; [exact Hor |].
      intros q r Hq Hrr. rewrite Hout by lia.
      destruct (Z.ltb_spec q m) as [Hqm|Hqm].
      * pose proof (Hsrc q ltac:(lia)) as Hqs.
        pose proof (Hr (q + ws) ltac:(lia)) as Hw1.
        destruct (Z.lt_ge_cases (r + lo) 32) as [Hlow|Hhigh].
        -- replace (32 * q + r + rd) with (32 * (q + ws) + (r + lo)) by lia.
           rewrite HV by lia. destruct (Z.ltb_spec (q + ws) n); [| lia].
           destruct (Z.ltb_spec (q + ws + 1) n).
           ++ rewrite Z.lor_spec, EData_land, Z.land_spec, Z.shiftl_spec, Z.shiftr_spec by lia.
              rewrite (Z.testbit_neg_r _ (r - (32 - lo))) by lia.
              cbn [andb]. rewrite orb_false_r. reflexivity.
           ++ rewrite Z.shiftr_spec by lia. reflexivity.
        -- replace (32 * q + r + rd) with (32 * (q + ws + 1) + (r + lo - 32)) by lia.
           rewrite HV by lia.
           destruct (Z.ltb_spec (q + ws + 1) n).
           ++ rewrite Z.lor_spec, EData_land, Z.land_spec, Z.shiftl_spec, Z.shiftr_spec by lia.
              rewrite (testbit_above (word lwp (q + ws)) 32 (r + lo)) by lia.
              rewrite Z.ones_spec_low by lia. rewrite andb_true_r. cbn [orb].
              f_equal. lia.
           ++ rewrite Z.shiftr_spec by lia.
              apply (testbit_above (word lwp (q + ws)) 32); lia.
      * rewrite Z.bits_0. symmetry. apply (testbit_above V W); [lia |].
        assert (W - rd <= 32 * m) by lia. lia.
Qed.

(** ** Wide subtract, multiply and negate *)

(** X1: for every width [W], the ripple-borrow subtract over [words(W)]
    words, with its dirty result masked to [W] bits, holds (a - b) mod 2^W,
    where [a] and [b] are the integers held by the operands. *)
Theorem wide_sub_correct (W : Z) (owp lwp rwp : WData) :
  1 <= W ->
  wide_words (VL_WORDS_I W) lwp = true ->
  wide_words (VL_WORDS_I W) rwp = true ->
  wide_val (Z.to_nat (VL_WORDS_I W)) 0
    (_vl_clean_inplace_w W (VL_SUB_W (VL_WORDS_I W) owp lwp rwp))
  = (wide_val (Z.to_nat (VL_WORDS_I W)) 0 lwp
     - wide_val (Z.to_nat (VL_WORDS_I W)) 0 rwp) mod 2 ^ W.
Proof.
  intros HW Hl Hr. pose proof (top_bits_range W HW) as Ht.
  destruct (VL_SUB_W_val (VL_WORDS_I W) owp lwp rwp ltac:(lia)
              (wide_words_range _ _ Hl) (wide_words_range _ _ Hr)) as [Hrange Hval].
  rewrite wide_val_clean by assumption. rewrite Hval.
  apply Z.mod_mod_divide.
  exists (2 ^ (32 * VL_WORDS_I W - W)). rewrite <- Z.pow_add_r by lia. f_equal. lia.
Qed.

Lemma wide_sub_correct_witness :
  wide_val 3 0 (_vl_clean_inplace_w 70 (VL_SUB_W 3 (wide [9; 9; 9]) (wide [0; 0; 0])
                                           (wide [1; 0; 0])))
  = 2 ^ 70 - 1.
Proof.
  exact (wide_sub_correct 70 (wide [9; 9; 9]) (wide [0; 0; 0]) (wide [1; 0; 0])
           ltac:(lia) ltac:(vm_compute; reflexivity) ltac:(vm_compute; reflexivity)).
Defined.

(** X2: for every width [W], the schoolbook multiply over [words(W)]
    words, with its dirty result masked to [W] bits, holds (a * b) mod 2^W. *)
Theorem wide_mul_correct (W : Z) (owp lwp rwp : WData) :
  1 <= W ->
  wide_words (VL_WORDS_I W) lwp = true ->
  wide_words (VL_WORDS_I W) rwp = true ->
  wide_val (Z.to_nat (VL_WORDS_I W)) 0
    (_vl_clean_inplace_w W (VL_MUL_W (VL_WORDS_I W) owp lwp rwp))
  = (wide_val (Z.to_nat (VL_WORDS_I W)) 0 lwp
     * wide_val (Z.to_nat (VL_WORDS_I W)) 0 rwp) mod 2 ^ W.
Proof.
  intros HW Hl Hr. pose proof (top_bits_range W HW) as Ht.
  destruct (VL_MUL_W_val (VL_WORDS_I W) owp lwp rwp ltac:(lia)
              (wide_words_range _ _ Hl) (wide_words_range _ _ Hr)) as [Hrange Hval].
  rewrite wide_val_clean by assumption. rewrite Hval.
  apply Z.mod_mod_divide.
  exists (2 ^ (32 * VL_WORDS_I W - W)). rewrite <- Z.pow_add_r by lia. f_equal. lia.
Qed.

Lemma wide_mul_correct_witness :
  wide_val 3 0 (_vl_clean_inplace_w 70 (VL_MUL_W 3 (wide [9; 9; 9])
                                           (wide [0xffffffff; 0xffffffff; 0x3f])
                                           (wide [0xffffffff; 0xffffffff; 0x3f])))
  = 1.
Proof.
  exact (wide_mul_correct 70 (wide [9; 9; 9]) (wide [0xffffffff; 0xffffffff; 0x3f])
           (wide [0xffffffff; 0xffffffff; 0x3f])
           ltac:(lia) ltac:(vm_compute; reflexivity) ltac:(vm_compute; reflexivity)).
Defined.

(** X3: negating twice gives back every word of the operand. *)
Theorem wide_negate_involutive (words : Z) (o1 o2 lwp : WData) :
  0 <= words ->
  wide_words words lwp = true ->
  forall k, 0 <= k < words ->
  word (VL_NEGATE_W words o2 (VL_NEGATE_W words o1 lwp)) k = word lwp k.
Proof.
  intros Hw Hl k Hk. pose proof (wide_words_range _ _ Hl) as Hlr.
  destruct (VL_NEGATE_W_val words o1 lwp Hw Hlr) as [Hr1 Hv1].
  destruct (VL_NEGATE_W_val words o2 (VL_NEGATE_W words o1 lwp) Hw Hr1) as [Hr2 Hv2].
  apply (wide_val_inj (Z.to_nat words) 0); try lia.
  - intros j Hj. apply Hr2. lia.
  - intros j Hj. apply Hlr. lia.
  - rewrite Hv2, Hv1.
    pose proof (wide_val_range (Z.to_nat words) 0 lwp
                  ltac:(intros j Hj; apply Hlr; lia)) as Hb.
    replace (Z.of_nat (Z.to_nat words)) with words in Hb by lia.
    assert (HM : 0 < 2 ^ (32 * words)) by (apply Z.pow_pos_nonneg; lia).
    rewrite <- (Z.sub_0_l (_ mod _)). rewrite Zminus_mod_idemp_r.
    rewrite Z.sub_0_l, Z.opp_involutive. apply Z.mod_small. exact Hb.
Qed.

Lemma wide_negate_involutive_witness :
  word (VL_NEGATE_W 3 (wide [7; 7; 7]) (VL_NEGATE_W 3 (wide [9; 9; 9]) (wide [5; 0; 0x20]))) 2
  = word (wide [5; 0; 0x20]) 2.
Proof.
  exact (wide_negate_involutive 3 (wide [9; 9; 9]) (wide [7; 7; 7]) (wide [5; 0; 0x20])
           ltac:(lia) ltac:(vm_compute; reflexivity) 2 ltac:(lia)).
Defined.

(** X4: the in-place negate leaves in the buffer exactly what the
    two-buffer negate writes over a copy of it: each step reads word [i]
    before it stores word [i] and never reads a word it has stored. *)
Theorem negate_inplace_agrees (words : Z) (wp : WData) :
  VL_NEGATE_INPLACE_W words wp = VL_NEGATE_W words wp wp.
Proof. apply VL_NEGATE_INPLACE_W_eq. Qed.

(** X5: subtracting [b] from the (dirty) sum [a + b] gives back every
    word of [a]. *)
Theorem wide_add_sub_roundtrip (words : Z) (o1 o2 lwp rwp : WData) :
  0 <= words ->
  wide_words words lwp = true ->
  wide_words words rwp = true ->
  forall k, 0 <= k < words ->
  word (VL_SUB_W words o2 (VL_ADD_W words o1 lwp rwp) rwp) k = word lwp k.
Proof.
  intros Hw Hl Hr k Hk.
  pose proof (wide_words_range _ _ Hl) as Hlr. pose proof (wide_words_range _ _ Hr) as Hrr.
  destruct (VL_ADD_W_val words o1 lwp rwp Hw Hl Hr) as [Hr1 Hv1].
  destruct (VL_SUB_W_val words o2 (VL_ADD_W words o1 lwp rwp) rwp Hw Hr1 Hrr) as [Hr2 Hv2].
  apply (wide_val_inj (Z.to_nat words) 0); try lia.
  - intros j Hj. apply Hr2. lia.
  - intros j Hj. apply Hlr. lia.
  - rewrite Hv2, Hv1.
    pose proof (wide_val_range (Z.to_nat words) 0 lwp
                  ltac:(intros j Hj; apply Hlr; lia)) as Hb.
    replace (Z.of_nat (Z.to_nat words)) with words in Hb by lia.
    rewrite Zminus_mod_idemp_l.
    replace (wide_val (Z.to_nat words) 0 lwp + wide_val (Z.to_nat words) 0 rwp
             - wide_val (Z.to_nat words) 0 rwp)
      with (wide_val (Z.to_nat words) 0 lwp) by lia.
    apply Z.mod_small. exact Hb.
Qed.

Lemma wide_add_sub_roundtrip_witness :
  word (VL_SUB_W 2 (wide [7; 7]) (VL_ADD_W 2 (wide [9; 9]) (wide [0xffffffff; 0xffffffff])
                                    (wide [2; 0])) (wide [2; 0])) 1
  = word (wide [0xffffffff; 0xffffffff]) 1.
Proof.
  exact (wide_add_sub_roundtrip 2 (wide [9; 9]) (wide [7; 7]) (wide [0xffffffff; 0xffffffff])
           (wide [2; 0]) ltac:(lia) ltac:(vm_compute; reflexivity)
           ltac:(vm_compute; reflexivity) 1 ltac:(lia)).
Defined.

(** ** Signed readings of narrow and medium values *)

(** X6: sign extension of a clean [L]-bit value to the machine word
    produces the two's-complement reading of the value: the extended word,
    read as a signed 32-bit (64-bit) integer, is the value minus 2^L when
    bit [L-1] is set and the value otherwise. *)
Theorem sign_extension_value (obits L x : Z) :
  0 <= x < 2 ^ L ->
  (1 <= L <= 32 -> int32_t (VL_EXTENDS_II obits L x) = signed_val L x) /\
  (1 <= L <= 64 -> int64_t (VL_EXTENDS_QQ obits L x) = signed_val L x).
Proof.
  intros Hx. split; intros HL.
  - apply VL_EXTENDS_II_signed; assumption.
  - apply VL_EXTENDS_QQ_signed; assumption.
Qed.

Lemma sign_extension_value_witness :
  int32_t (VL_EXTENDS_II 32 5 0x1f) = signed_val 5 0x1f /\
  int64_t (VL_EXTENDS_QQ 64 40 (2 ^ 39)) = signed_val 40 (2 ^ 39).
Proof.
  split.
  - exact (proj1 (sign_extension_value 32 5 0x1f ltac:(lia)) ltac:(lia)).
  - exact (proj2 (sign_extension_value 64 40 (2 ^ 39) ltac:(lia)) ltac:(lia)).
Defined.

(** X7: on clean operands of width [L], the signed comparisons order the
    two's-complement readings of the operands. *)
Theorem signed_compare_narrow (L a b : Z) :
  1 <= L <= 64 -> 0 <= a < 2 ^ L -> 0 <= b < 2 ^ L ->
  VL_GTS_III L a b = (if signed_val L a >? signed_val L b then 1 else 0) /\
  VL_GTES_III L a b = (if signed_val L a >=? signed_val L b then 1 else 0) /\
  VL_LTS_III L a b = (if signed_val L a <? signed_val L b then 1 else 0) /\
  VL_LTES_III L a b = (if signed_val L a <=? signed_val L b then 1 else 0) /\
  VL_GTS_IQQ L a b = (if signed_val L a >? signed_val L b then 1 else 0) /\
  VL_GTES_IQQ L a b = (if signed_val L a >=? signed_val L b then 1 else 0) /\
  VL_LTS_IQQ L a b = (if signed_val L a <? signed_val L b then 1 else 0) /\
  VL_LTES_IQQ L a b = (if signed_val L a <=? signed_val L b then 1 else 0).
Proof.
  intros HL Ha Hb.
  destruct (VL_EXTENDS_QQ_signed 64 L a HL Ha) as [_ Ea].
  destruct (VL_EXTENDS_QQ_signed 64 L b HL Hb) as [_ Eb].
  unfold VL_GTS_III, VL_GTES_III, VL_LTS_III, VL_LTES_III,
    VL_GTS_IQQ, VL_GTES_IQQ, VL_LTS_IQQ, VL_LTES_IQQ.
  cbv zeta. rewrite Ea, Eb. repeat split.
Qed.

Lemma signed_compare_narrow_witness :
  VL_GTS_III 8 0x01 0xff = 1 /\ VL_LTS_IQQ 40 (2 ^ 39) 3 = 1.
Proof.
  split.
  - exact (proj1 (signed_compare_narrow 8 0x01 0xff ltac:(lia) ltac:(lia) ltac:(lia))).
  - exact (proj1 (proj2 (proj2 (proj2 (proj2 (proj2 (proj2
             (signed_compare_narrow 40 (2 ^ 39) 3 ltac:(lia) ltac:(lia) ltac:(lia))))))))).
Defined.

(** X8: on clean operands with a nonzero divisor the signed division and
    the signed modulus never reach the trapping machine division: the one
    operand pair that would trap is the one the guard answers with 0, and
    every other pair returns the truncated quotient (remainder) of the
    two's-complement readings, wrapped to the machine word. *)
Theorem signed_div_never_traps (L a b : Z) :
  0 <= a < 2 ^ L -> 0 <= b < 2 ^ L -> b <> 0 ->
  (1 <= L <= 32 ->
   VL_DIVS_III L a b
   = Some (if (a =? 0x80000000) && (b =? 0xffffffff) then 0
           else IData (Z.quot (signed_val L a) (signed_val L b))) /\
   VL_MODDIVS_III L a b
   = Some (if (a =? 0x80000000) && (b =? 0xffffffff) then 0
           else IData (Z.rem (signed_val L a) (signed_val L b)))) /\
  (1 <= L <= 64 ->
   VL_DIVS_QQQ L a b
   = Some (if (a =? 0x8000000000000000) && (b =? 0xffffffffffffffff) then 0
           else QData (Z.quot (signed_val L a) (signed_val L b))) /\
   VL_MODDIVS_QQQ L a b
   = Some (if (a =? 0x8000000000000000) && (b =? 0xffffffffffffffff) then 0
           else QData (Z.rem (signed_val L a) (signed_val L b)))).
Proof.
  intros Ha Hb Hb0. split; intros HL.
  - destruct (VL_EXTENDS_II_signed VL_IDATASIZE L a HL Ha) as [_ Ea].
    destruct (VL_EXTENDS_II_signed VL_IDATASIZE L b HL Hb) as [_ Eb].
    unfold VL_DIVS_III, VL_MODDIVS_III. cbv zeta. rewrite Ea, Eb.
    destruct (Z.eqb_spec b 0); [lia |].
    destruct ((a =? 0x80000000) && (b =? 0xffffffff)) eqn:Eg; [split; reflexivity |].
    assert (Hno : ~ (signed_val L a = - 2 ^ (32 - 1) /\ signed_val L b = -1)).
    { apply (narrow_no_overflow 32 L a b); lia. }
    rewrite sdiv_total, smod_total by (try exact Hno; apply signed_val_nonzero; lia).
    split; reflexivity.
  - destruct (VL_EXTENDS_QQ_signed VL_QUADSIZE L a HL Ha) as [_ Ea].
    destruct (VL_EXTENDS_QQ_signed VL_QUADSIZE L b HL Hb) as [_ Eb].
    unfold VL_DIVS_QQQ, VL_MODDIVS_QQQ. cbv zeta. rewrite Ea, Eb.
    destruct (Z.eqb_spec b 0); [lia |].
    destruct ((a =? 0x8000000000000000) && (b =? 0xffffffffffffffff)) eqn:Eg;
      [split; reflexivity |].
    assert (Hno : ~ (signed_val L a = - 2 ^ (64 - 1) /\ signed_val L b = -1)).
    { apply (narrow_no_overflow 64 L a b); lia. }
    rewrite sdiv_total, smod_total by (try exact Hno; apply signed_val_nonzero; lia).
    split; reflexivity.
Qed.

Lemma signed_div_never_traps_witness :
  VL_DIVS_III 8 0xf9 0x02
  = Some (if (0xf9 =? 0x80000000) && (0x02 =? 0xffffffff) then 0
          else IData (Z.quot (signed_val 8 0xf9) (signed_val 8 0x02))).
Proof.
  exact (proj1 (proj1 (signed_div_never_traps 8 0xf9 0x02 ltac:(lia) ltac:(lia) ltac:(lia))
                  ltac:(lia))).
Defined.

(** X9: for an exponent that is clean at its declared width [rbits], the
    square-and-multiply power returns lhs^rhs modulo the machine word;
    this covers 0^0 = 1 and 0^rhs = 0. *)
Theorem power_value (obits lbits rbits lhs rhs : Z) :
  0 <= rbits <= 64 -> 0 <= rhs < 2 ^ rbits ->
  (0 <= lhs < 2 ^ 32 -> VL_POW_III obits lbits rbits lhs rhs = (lhs ^ rhs) mod 2 ^ 32) /\
  (0 <= lhs < 2 ^ 64 -> VL_POW_QQQ obits lbits rbits lhs rhs = (lhs ^ rhs) mod 2 ^ 64).
Proof.
  intros Hrb Hr. split; intros Hl.
  - apply VL_POW_III_val; assumption.
  - apply VL_POW_QQQ_val; assumption.
Qed.

Lemma power_value_witness :
  VL_POW_III 32 32 8 3 200 = (3 ^ 200) mod 2 ^ 32.
Proof.
  exact (proj1 (power_value 32 32 8 3 200 ltac:(lia) ltac:(lia)) ltac:(lia)).
Defined.

(** X10: on a machine word, the one-hot test answers 1 exactly for the
    powers of two and 0 otherwise, and the one-hot-or-zero test answers 1
    exactly for 0 and the powers of two. *)
Theorem onehot_iff_power_of_two (x : Z) :
  (0 <= x < 2 ^ 32 ->
   (VL_ONEHOT_I x = 1 <-> exists k, 0 <= k /\ x = 2 ^ k) /\
   (VL_ONEHOT_I x = 0 \/ VL_ONEHOT_I x = 1) /\
   (VL_ONEHOT0_I x = 1 <-> x = 0 \/ exists k, 0 <= k /\ x = 2 ^ k) /\
   (VL_ONEHOT0_I x = 0 \/ VL_ONEHOT0_I x = 1)) /\
  (0 <= x < 2 ^ 64 ->
   (VL_ONEHOT_Q x = 1 <-> exists k, 0 <= k /\ x = 2 ^ k) /\
   (VL_ONEHOT_Q x = 0 \/ VL_ONEHOT_Q x = 1) /\
   (VL_ONEHOT0_Q x = 1 <-> x = 0 \/ exists k, 0 <= k /\ x = 2 ^ k) /\
   (VL_ONEHOT0_Q x = 0 \/ VL_ONEHOT0_Q x = 1)).
Proof.
  assert (Hnz : (exists k, 0 <= k /\ x = 2 ^ k) -> x <> 0).
  { intros [k [Hk ->]]. apply Z.pow_nonzero; lia. }
  split; intros Hx.
  - pose proof (land_pred_zero 32 x ltac:(lia) Hx) as H.
    unfold VL_ONEHOT_I, VL_ONEHOT0_I, IData.
    destruct (Z.eqb_spec (Z.land x (wrap 32 (x - 1))) 0) as [E|E];
      destruct (Z.eqb_spec x 0) as [E0|E0]; cbn [Z.land Pos.land];
      intuition (auto; try discriminate).
  - pose proof (land_pred_zero 64 x ltac:(lia) Hx) as H.
    unfold VL_ONEHOT_Q, VL_ONEHOT0_Q, QData.
    destruct (Z.eqb_spec (Z.land x (wrap 64 (x - 1))) 0) as [E|E];
      destruct (Z.eqb_spec x 0) as [E0|E0]; cbn [Z.land Pos.land];
      intuition (auto; try discriminate).
Qed.

Lemma onehot_iff_power_of_two_witness :
  VL_ONEHOT_I 64 = 1 <-> exists k, 0 <= k /\ 64 = 2 ^ k.
Proof.
  exact (proj1 (proj1 (onehot_iff_power_of_two 64) ltac:(lia))).
Defined.

Lemma cmp3_lt a b : (cmp3 a b <? 0) = (a <? b).
Proof.
  unfold cmp3. destruct (Z.compare_spec a b); destruct (Z.ltb_spec a b); try lia; reflexivity.
Qed.

Lemma cmp3_le a b : (cmp3 a b <=? 0) = (a <=? b).
Proof.
  unfold cmp3. destruct (Z.compare_spec a b); destruct (Z.leb_spec a b); try lia; reflexivity.
Qed.

Lemma cmp3_gt a b : (cmp3 a b >? 0) = (a >? b).
Proof.
  unfold cmp3. destruct (Z.compare_spec a b); destruct (Z.gtb_spec a b); try lia; reflexivity.
Qed.

Lemma cmp3_ge a b : (cmp3 a b >=? 0) = (a >=? b).
Proof.
  unfold cmp3. destruct (Z.compare_spec a b); destruct (Z.geb_spec a b); try lia; reflexivity.
Qed.

(** ** Wide comparisons and reductions *)

(** X11: the word-by-word comparison from the most significant word down
    orders the integers held by the operands; [_vl_cmp_w] returns 1, 0 or
    -1 accordingly and the four ordering macros agree with it. *)
Theorem wide_compare_unsigned (words : Z) (lwp rwp : WData) :
  0 <= words ->
  wide_words words lwp = true ->
  wide_words words rwp = true ->
  let a := wide_val (Z.to_nat words) 0 lwp in
  let b := wide_val (Z.to_nat words) 0 rwp in
  _vl_cmp_w words lwp rwp = cmp3 a b /\
  VL_LT_W words lwp rwp = (if a <? b then 1 else 0) /\
  VL_LTE_W words lwp rwp = (if a <=? b then 1 else 0) /\
  VL_GT_W words lwp rwp = (if a >? b then 1 else 0) /\
  VL_GTE_W words lwp rwp = (if a >=? b then 1 else 0).
Proof.
  intros Hw Hl Hr a b.
  assert (E : _vl_cmp_w words lwp rwp = cmp3 a b).
  { apply _vl_cmp_w_val; [exact Hw | apply wide_words_range, Hl | apply wide_words_range, Hr]. }
  unfold VL_LT_W, VL_LTE_W, VL_GT_W, VL_GTE_W. rewrite E.
  rewrite cmp3_lt, cmp3_le, cmp3_gt, cmp3_ge. repeat split.
Qed.

Lemma wide_compare_unsigned_witness :
  VL_LT_W 3 (wide [0xffffffff; 0xffffffff; 1]) (wide [0; 0; 2]) = 1.
Proof.
  pose proof (wide_compare_unsigned 3 (wide [0xffffffff; 0xffffffff; 1]) (wide [0; 0; 2])
                ltac:(lia) ltac:(vm_compute; reflexivity) ltac:(vm_compute; reflexivity)) as H.
  cbv zeta in H. destruct H as (_ & H & _). rewrite H. vm_compute. reflexivity.
Defined.

(** X12: the xor-accumulating equality answers 1 exactly when the operands
    hold the same integer; the inequality is its negation, and the change
    detector returns 0 exactly in that case. *)
Theorem wide_equality (words : Z) (lwp rwp : WData) :
  0 <= words ->
  wide_words words lwp = true ->
  wide_words words rwp = true ->
  let a := wide_val (Z.to_nat words) 0 lwp in
  let b := wide_val (Z.to_nat words) 0 rwp in
  VL_EQ_W words lwp rwp = (if a =? b then 1 else 0) /\
  VL_NEQ_W words lwp rwp = (if a =? b then 0 else 1) /\
  (VL_CHANGEXOR_W words lwp rwp = 0 <-> a = b).
Proof.
  intros Hw Hl Hr a b.
  pose proof (wide_words_range _ _ Hl) as Hlr. pose proof (wide_words_range _ _ Hr) as Hrr.
  assert (E : VL_EQ_W words lwp rwp = if a =? b then 1 else 0)
    by (apply VL_EQ_W_val; assumption).
  split; [exact E |]. split.
  - unfold VL_NEQ_W. rewrite E. destruct (a =? b); reflexivity.
  - unfold VL_CHANGEXOR_W.
    rewrite (for_loop_lor_zero (fun i => Z.lxor (word lwp i) (word rwp i)) 0 words Hw).
    unfold a, b. rewrite (wide_val_eq_iff (Z.to_nat words) lwp rwp)
      by (intros k Hk; (apply Hlr || apply Hrr); lia).
    split; intros H k Hk.
    + apply Z.lxor_eq_0_iff. apply H. lia.
    + apply Z.lxor_eq_0_iff. apply H. lia.
Qed.

Lemma wide_equality_witness :
  VL_EQ_W 3 (wide [1; 2; 3]) (wide [1; 2; 4]) = 0.
Proof.
  pose proof (wide_equality 3 (wide [1; 2; 3]) (wide [1; 2; 4])
                ltac:(lia) ltac:(vm_compute; reflexivity) ltac:(vm_compute; reflexivity)) as H.
  cbv zeta in H. destruct H as (H & _). rewrite H. vm_compute. reflexivity.
Defined.

(** X13: the or-reduction of a wide value is 1 exactly when the value is
    not 0; the and-reduction of a clean value of more than 32 bits is 1
    exactly when the value is 2^W - 1, every bit below the width set. *)
Theorem wide_reductions (W : Z) (lwp : WData) :
  1 <= W ->
  wide_words (VL_WORDS_I W) lwp = true ->
  VL_REDOR_W (VL_WORDS_I W) lwp
  = (if wide_val (Z.to_nat (VL_WORDS_I W)) 0 lwp =? 0 then 0 else 1) /\
  (32 < W -> wide_clean W lwp = true ->
   VL_REDAND_IW W lwp
   = if wide_val (Z.to_nat (VL_WORDS_I W)) 0 lwp =? 2 ^ W - 1 then 1 else 0).
Proof.
  intros HW Hl. pose proof (wide_words_range _ _ Hl) as Hlr.
  pose proof (top_bits_range W HW) as Ht. split.
  - apply VL_REDOR_W_val; [lia | exact Hlr].
  - intros H32 Hc. apply VL_REDAND_IW_val; assumption.
Qed.

Lemma wide_reductions_witness :
  VL_REDAND_IW 70 (wide [0xffffffff; 0xffffffff; 0x3f]) = 1.
Proof.
  rewrite (proj2 (wide_reductions 70 (wide [0xffffffff; 0xffffffff; 0x3f])
                    ltac:(lia) ltac:(vm_compute; reflexivity))
             ltac:(lia) ltac:(vm_compute; reflexivity)).
  vm_compute. reflexivity.
Defined.

(** X14: the word-by-word and, or and xor of two wide values hold the
    bitwise and, or and xor of the integers they hold, and the word-by-word
    complement holds 2^(32*words) - 1 minus the integer (its top word is
    dirty). *)
Theorem wide_bitwise_values (words : Z) (owp lwp rwp : WData) :
  0 <= words ->
  wide_words words lwp = true ->
  wide_words words rwp = true ->
  let a := wide_val (Z.to_nat words) 0 lwp in
  let b := wide_val (Z.to_nat words) 0 rwp in
  wide_val (Z.to_nat words) 0 (VL_AND_W words owp lwp rwp) = Z.land a b /\
  wide_val (Z.to_nat words) 0 (VL_OR_W words owp lwp rwp) = Z.lor a b /\
  wide_val (Z.to_nat words) 0 (VL_XOR_W words owp lwp rwp) = Z.lxor a b /\
  wide_val (Z.to_nat words) 0 (VL_NOT_W words owp lwp) = 2 ^ (32 * words) - 1 - a.
Proof.
  intros Hw Hl Hr a b.
  pose proof (wide_words_range _ _ Hl) as Hlr. pose proof (wide_words_range _ _ Hr) as Hrr.
  split; [| split; [| split]].
  - apply (wide_val_bitwise Z.land andb); try assumption; try reflexivity.
    + intros x y i Hi. apply Z.land_spec.
    + apply land_word_range.
  - apply (wide_val_bitwise Z.lor orb); try assumption; try reflexivity.
    + intros x y i Hi. apply Z.lor_spec.
    + apply lor_word_range.
  - apply (wide_val_bitwise Z.lxor xorb); try assumption; try reflexivity.
    + intros x y i Hi. apply Z.lxor_spec.
    + apply lxor_word_range.
  - apply VL_NOT_W_val; assumption.
Qed.

Lemma wide_bitwise_values_witness :
  wide_val 2 0 (VL_XOR_W 2 (wide [9; 9]) (wide [0xff; 1]) (wide [0x0f; 1])) = 0xf0.
Proof.
  pose proof (wide_bitwise_values 2 (wide [9; 9]) (wide [0xff; 1]) (wide [0x0f; 1])
                ltac:(lia) ltac:(vm_compute; reflexivity) ltac:(vm_compute; reflexivity)) as H.
  cbv zeta in H. destruct H as (_ & _ & H & _).
  etransitivity; [exact H | vm_compute; reflexivity].
Defined.

Lemma VL_ZERO_W_val W (owp : WData) :
  0 <= W -> wide_val (Z.to_nat (VL_WORDS_I W)) 0 (VL_ZERO_W W owp) = 0.
Proof.
  intros HW. apply wide_val_zero. intros k Hk.
  unfold VL_ZERO_W, VL_MEMSET_ZERO_W. rewrite (word_for_loop_store (fun _ => 0)).
  destruct (Z.leb_spec 0 k), (Z.ltb_spec k (VL_WORDS_I W)); cbn [andb]; lia.
Qed.

(** X15: the all-ones fill of a [W]-bit buffer holds 2^W - 1 and is
    clean (its last word is the width's mask, not 0xffffffff), and the zero
    fill holds 0. *)
Theorem fill_values (W : Z) (owp : WData) :
  1 <= W ->
  wide_val (Z.to_nat (VL_WORDS_I W)) 0 (VL_ALLONES_W W owp) = 2 ^ W - 1 /\
  wide_clean W (VL_ALLONES_W W owp) = true /\
  wide_val (Z.to_nat (VL_WORDS_I W)) 0 (VL_ZERO_W W owp) = 0.
Proof.
  intros HW. destruct (VL_ALLONES_W_val W owp HW) as (_ & Hc & Hv).
  split; [exact Hv |]. split; [exact Hc |]. apply VL_ZERO_W_val. lia.
Qed.

Lemma fill_values_witness :
  wide_val 3 0 (VL_ALLONES_W 70 (wide [0; 0; 0])) = 2 ^ 70 - 1.
Proof.
  exact (proj1 (fill_values 70 (wide [0; 0; 0]) ltac:(lia))).
Defined.

Lemma VL_EXTEND_WI_val obits lbits (owp : WData) ld :
  1 <= obits -> 0 <= ld < 2 ^ 32 ->
  wide_val (Z.to_nat (VL_WORDS_I obits)) 0 (VL_EXTEND_WI obits lbits owp ld) = ld.
Proof.
  intros Ho Hld. pose proof (top_bits_range obits Ho) as Ht.
  unfold VL_EXTEND_WI. cbv zeta. set (n := VL_WORDS_I obits) in *.
  rewrite (wide_val_split n 1) by lia. rewrite (wide_val_zero (Z.to_nat (n - 1))).
  - change (Z.to_nat 1) with 1%nat. cbn [wide_val].
    rewrite word_MEMSET_ZERO_W_at. cbn [Z.leb Z.compare andb]. rewrite word_insert_eq. lia.
  - intros k Hk. rewrite word_MEMSET_ZERO_W_at.
    destruct (Z.leb_spec 1 k), (Z.ltb_spec k (1 + (n - 1))); cbn [andb]; lia.
Qed.

Lemma VL_EXTEND_WQ_val obits lbits (owp : WData) ld :
  33 <= obits -> 0 <= ld < 2 ^ 64 ->
  wide_val (Z.to_nat (VL_WORDS_I obits)) 0 (VL_EXTEND_WQ obits lbits owp ld) = ld.
Proof.
  intros Ho Hld. pose proof (top_bits_range obits ltac:(lia)) as Ht.
  unfold VL_EXTEND_WQ, VL_WQ_WORDS_E, VL_SET_WQ, VL_EDATASIZE. cbv zeta.
  set (n := VL_WORDS_I obits) in *.
  rewrite (wide_val_split n 2) by lia. rewrite (wide_val_zero (Z.to_nat (n - 2))).
  - change (Z.to_nat 2) with 2%nat. cbn [wide_val]. change (0 + 1) with 1.
    rewrite !word_MEMSET_ZERO_W_at.
    change (2 <=? 0) with false. change (2 <=? 1) with false. cbn [andb].
    rewrite word_insert_ne by lia. rewrite !word_insert_eq.
    unfold IData, wrap. rewrite Z.shiftr_div_pow2 by lia.
    rewrite (Z.mod_small (ld / 2 ^ 32)).
    + pose proof (Z.div_mod ld (2 ^ 32) ltac:(lia)) as Hdm.
      change (2 ^ 32) with 4294967296 in *. lia.
    + split; [apply Z.div_pos; lia | apply Z.div_lt_upper_bound; lia].
  - intros k Hk. rewrite word_MEMSET_ZERO_W_at.
    destruct (Z.leb_spec 2 k), (Z.ltb_spec k (2 + (n - 2))); cbn [andb]; lia.
Qed.

(** ** Select, insert, concatenate and replicate on the integer value *)

(** ** Wide logical right shift *)

(** X16: the logical right shift of a clean [W]-bit wide value by any
    amount [rd >= 0] holds the integer shifted right by [rd], whichever of
    the three paths (everything shifted out, whole words, funnel) runs. *)
Theorem wide_shift_right_value (W rbits rd : Z) (owp lwp : WData) :
  1 <= W < 2 ^ 31 -> 0 <= rd ->
  wide_words (VL_WORDS_I W) lwp = true ->
  wide_clean W lwp = true ->
  wide_val (Z.to_nat (VL_WORDS_I W)) 0 (VL_SHIFTR_WWI W W rbits owp lwp rd)
  = Z.shiftr (wide_val (Z.to_nat (VL_WORDS_I W)) 0 lwp) rd.
Proof.
  intros HW Hrd Hl Hc. apply VL_SHIFTR_WWI_val; try assumption.
  apply wide_words_range. exact Hl.
Qed.

Lemma wide_shift_right_value_witness :
  wide_val 3 0 (VL_SHIFTR_WWI 70 70 32 (wide [9; 9; 9]) (wide [1; 2; 0x20]) 37)
  = Z.shiftr (wide_val 3 0 (wide [1; 2; 0x20])) 37.
Proof.
  exact (wide_shift_right_value 70 32 37 (wide [9; 9; 9]) (wide [1; 2; 0x20])
           ltac:(lia) ltac:(lia) ltac:(vm_compute; reflexivity) ltac:(vm_compute; reflexivity)).
Defined.

(** ** Count of set bits *)

Lemma land_peel k a A b B :
  0 <= k -> 0 <= a < 2 ^ k -> 0 <= b < 2 ^ k ->
  Z.land (a + 2 ^ k * A) (b + 2 ^ k * B) = Z.land a b + 2 ^ k * Z.land A B.
Proof.
  intros Hk Ha Hb.
  assert (Hp : 0 < 2 ^ k) by lia.
  rewrite (Z.div_mod (Z.land (a + 2 ^ k * A) (b + 2 ^ k * B)) (2 ^ k)) by lia.
  rewrite <- (Z.shiftr_div_pow2 _ k), Z.shiftr_land, !Z.shiftr_div_pow2 by lia.
  rewrite <- Z.land_ones by lia.
  replace (Z.land (Z.land (a + 2 ^ k * A) (b + 2 ^ k * B)) (Z.ones k))
    with (Z.land (Z.land (a + 2 ^ k * A) (Z.ones k)) (Z.land (b + 2 ^ k * B) (Z.ones k))).
  2:{ Z.bitblast. }
  rewrite !Z.land_ones by lia.
  replace ((a + 2 ^ k * A) mod 2 ^ k) with a.
  2:{ apply (Z.mod_unique_pos _ _ A); lia. }
  replace ((b + 2 ^ k * B) mod 2 ^ k) with b.
  2:{ apply (Z.mod_unique_pos _ _ B); lia. }
  replace ((a + 2 ^ k * A) / 2 ^ k) with A.
  2:{ apply (Z.div_unique_pos _ _ A a); lia. }
  replace ((b + 2 ^ k * B) / 2 ^ k) with B.
  2:{ apply (Z.div_unique_pos _ _ B b); lia. }
  lia.
Qed.

Lemma land_digit a A b B :
  0 <= a < 8 -> 0 <= b < 8 ->
  Z.land (a + 8 * A) (b + 8 * B) = Z.land a b + 8 * Z.land A B.
Proof. intros. apply (land_peel 3); lia. Qed.

Lemma land_low k c t :
  0 <= k -> 0 <= c < 2 ^ k -> Z.land (c + 2 ^ k * t) (2 ^ k - 1) = c.
Proof.
  intros Hk Hc. replace (2 ^ k - 1) with (Z.ones k) by (rewrite Z.ones_equiv; lia).
  rewrite Z.land_ones by lia. symmetry. apply (Z.mod_unique_pos _ _ t); lia.
Qed.

Lemma land_shr1_digit d X M :
  0 <= d < 8 ->
  Z.land (Z.shiftr (d + 8 * X) 1) (3 + 8 * M) = d / 2 + 8 * Z.land (Z.shiftr X 1) M.
Proof.
  intros Hd. rewrite !Z.shiftr_div_pow2 by lia. change (2 ^ 1) with 2.
  replace ((d + 8 * X) / 2) with ((d / 2 + 4 * (X mod 2)) + 8 * (X / 2))
    by (Z.div_mod_to_equations; lia).
  rewrite land_digit by (Z.div_mod_to_equations; lia). f_equal.
  apply (land_low 2); Z.div_mod_to_equations; lia.
Qed.

Lemma land_shr2_digit d X M :
  0 <= d < 8 ->
  Z.land (Z.shiftr (d + 8 * X) 2) (1 + 8 * M) = d / 4 + 8 * Z.land (Z.shiftr X 2) M.
Proof.
  intros Hd. rewrite !Z.shiftr_div_pow2 by lia. change (2 ^ 2) with 4.
  replace ((d + 8 * X) / 4) with ((d / 4 + 2 * (X mod 4)) + 8 * (X / 4))
    by (Z.div_mod_to_equations; lia).
  rewrite land_digit by (Z.div_mod_to_equations; lia). f_equal.
  apply (land_low 1); Z.div_mod_to_equations; lia.
Qed.

(** First line of the routine: every octal digit of [r] holds the number of
    set bits of the same digit of the operand. *)
Lemma countones_octal d0 d1 d2 d3 d4 d5 d6 d7 d8 d9 d10 :
  0 <= d0 < 8 -> 0 <= d1 < 8 -> 0 <= d2 < 8 -> 0 <= d3 < 8 -> 0 <= d4 < 8 ->
  0 <= d5 < 8 -> 0 <= d6 < 8 -> 0 <= d7 < 8 -> 0 <= d8 < 8 -> 0 <= d9 < 8 ->
  0 <= d10 < 4 ->
  let x := digits_val 8 [d0; d1; d2; d3; d4; d5; d6; d7; d8; d9; d10] in
  IData (IData (x - Z.land (Z.shiftr x 1) 0xdb6db6db) - Z.land (Z.shiftr x 2) 0x49249249)
  = digits_val 8 (map (fun d => d - d / 2 - d / 4) [d0; d1; d2; d3; d4; d5; d6; d7; d8; d9; d10]).
Proof.
  intros H0 H1 H2 H3 H4 H5 H6 H7 H8 H9 H10 x. subst x.
  cbn [digits_val fold_right map].
  change 0xdb6db6db
    with (3 + 8 * (3 + 8 * (3 + 8 * (3 + 8 * (3 + 8 * (3 + 8 * (3 + 8 * (3 + 8 * (3 + 8 * (3 + 8 * (3 + 8 * 0))))))))))).
  change 0x49249249
    with (1 + 8 * (1 + 8 * (1 + 8 * (1 + 8 * (1 + 8 * (1 + 8 * (1 + 8 * (1 + 8 * (1 + 8 * (1 + 8 * (1 + 8 * 0))))))))))).
  rewrite !land_shr1_digit, !land_shr2_digit by lia.
  change (Z.shiftr 0 1) with 0. change (Z.shiftr 0 2) with 0. change (Z.land 0 0) with 0.
  unfold IData, wrap.
  rewrite (Z.mod_small (_ - _)) by (Z.div_mod_to_equations; lia).
  rewrite Z.mod_small by (Z.div_mod_to_equations; lia).
  ring.
Qed.

Lemma land_7 c : 0 <= c < 8 -> Z.land c 7 = c.
Proof. intros H. change 7 with (Z.ones 3). rewrite Z.land_ones by lia. apply Z.mod_small. lia. Qed.

Lemma land_3 c : 0 <= c < 4 -> Z.land c 3 = c.
Proof. intros H. change 3 with (Z.ones 2). rewrite Z.land_ones by lia. apply Z.mod_small. lia. Qed.

(** Second line: adjacent octal digits are added, leaving a count in every
    6-bit field. *)
Lemma countones_fields p0 p1 p2 p3 p4 p5 p6 p7 p8 p9 p10 :
  0 <= p0 <= 3 -> 0 <= p1 <= 3 -> 0 <= p2 <= 3 -> 0 <= p3 <= 3 -> 0 <= p4 <= 3 ->
  0 <= p5 <= 3 -> 0 <= p6 <= 3 -> 0 <= p7 <= 3 -> 0 <= p8 <= 3 -> 0 <= p9 <= 3 ->
  0 <= p10 <= 2 ->
  let r := digits_val 8 [p0; p1; p2; p3; p4; p5; p6; p7; p8; p9; p10] in
  Z.land (IData (r + Z.shiftr r 3)) 0xc71c71c7
  = digits_val 64 [p0 + p1; p2 + p3; p4 + p5; p6 + p7; p8 + p9; p10].
Proof.
  intros H0 H1 H2 H3 H4 H5 H6 H7 H8 H9 H10 r. subst r.
  cbn [digits_val fold_right].
  rewrite Z.shiftr_div_pow2 by lia. change (2 ^ 3) with 8.
  rewrite (Z.mul_comm 8 (p1 + _)), Z.div_add by lia.
  rewrite (Z.div_small p0) by lia.
  unfold IData, wrap. rewrite Z.mod_small by lia.
  match goal with |- Z.land ?u _ = _ =>
    replace u with ((p0 + p1) + 8 * ((p1 + p2) + 8 * ((p2 + p3) + 8 * ((p3 + p4)
      + 8 * ((p4 + p5) + 8 * ((p5 + p6) + 8 * ((p6 + p7) + 8 * ((p7 + p8)
      + 8 * ((p8 + p9) + 8 * ((p9 + p10) + 8 * (p10 + 8 * 0))))))))))) by ring
  end.
  change 0xc71c71c7
    with (7 + 8 * (0 + 8 * (7 + 8 * (0 + 8 * (7 + 8 * (0 + 8 * (7 + 8 * (0 + 8 * (7 + 8 * (0 + 8 * (3 + 8 * 0))))))))))).
  rewrite !land_digit by lia.
  rewrite !land_7, !Z.land_0_r, land_3 by lia.
  ring.
Qed.

Lemma div_low a B k : 0 <= a < k -> (a + k * B) / k = B.
Proof. intros H. symmetry. apply (Z.div_unique_pos _ _ B a); lia. Qed.

Lemma mod_low a B k : 0 <= a < k -> (a + k * B) mod k = a.
Proof. intros H. symmetry. apply (Z.mod_unique_pos _ _ B); lia. Qed.

(** Last two lines: the six fields are summed into the low one. *)
Lemma countones_sum s0 s1 s2 s3 s4 s5 :
  0 <= s0 <= 6 -> 0 <= s1 <= 6 -> 0 <= s2 <= 6 -> 0 <= s3 <= 6 -> 0 <= s4 <= 6 ->
  0 <= s5 <= 2 ->
  let r := digits_val 64 [s0; s1; s2; s3; s4; s5] in
  let r := IData (r + Z.shiftr r 6) in
  Z.land (IData (IData (r + Z.shiftr r 12) + Z.shiftr r 24)) 0x3f
  = s0 + s1 + s2 + s3 + s4 + s5.
Proof.
  intros H0 H1 H2 H3 H4 H5. cbv zeta.
  cbn [digits_val fold_right].
  change 0x3f with (Z.ones 6). rewrite Z.land_ones by lia.
  rewrite !Z.shiftr_div_pow2 by lia. unfold IData, wrap.
  change (2 ^ 6) with 64. change (2 ^ 12) with 4096. change (2 ^ 24) with 16777216.
  change (2 ^ 32) with 4294967296.
  rewrite (div_low s0 _ 64) by lia.
  rewrite !(Z.mod_small (s0 + _ + _) 4294967296) by lia.
  set (t2 := (s2 + s3) + 64 * ((s3 + s4) + 64 * ((s4 + s5) + 64 * s5))).
  set (t4 := (s4 + s5) + 64 * s5).
  match goal with |- ((?r + _) mod _ + _) mod _ mod _ = _ =>
    replace r with (((s0 + s1) + 64 * (s1 + s2)) + 4096 * t2) by (subst t2; ring);
    rewrite (div_low ((s0 + s1) + 64 * (s1 + s2)) t2 4096) by lia;
    replace (((s0 + s1) + 64 * (s1 + s2)) + 4096 * t2)
      with (((s0 + s1) + 64 * ((s1 + s2) + 64 * ((s2 + s3) + 64 * (s3 + s4))))
            + 16777216 * t4) by (subst t2 t4; ring);
    rewrite (div_low _ t4 16777216) by lia
  end.
  rewrite (Z.mod_small (_ + t2) 4294967296) by (subst t2 t4; lia).
  rewrite (Z.mod_small (_ + t4) 4294967296) by (subst t2 t4; lia).
  match goal with |- ?u mod 64 = ?v =>
    replace u with (v + 64 * (((s1 + s2) + (s3 + s4) + s5)
                              + 64 * (((s2 + s3) + (s4 + s5))
                                      + 64 * (((s3 + s4) + s5)
                                              + 64 * ((s4 + s5) + 64 * s5)))))
      by (subst t2 t4; ring)
  end.
  apply mod_low. lia.
Qed.

Lemma popcount_S n x : popcount (Datatypes.S n) x = x mod 2 + popcount n (x / 2).
Proof.
  cbn [popcount]. rewrite Z.div2_div, Zmod_odd. destruct (Z.odd x); reflexivity.
Qed.

Lemma popcount_range n x : 0 <= popcount n x <= Z.of_nat n.
Proof.
  revert x. induction n as [|n IH]; intros x.
  - cbn [popcount]. lia.
  - rewrite popcount_S. specialize (IH (x / 2)).
    pose proof (Z.mod_pos_bound x 2 ltac:(lia)). lia.
Qed.

Lemma popcount_0 n : popcount n 0 = 0.
Proof. induction n as [|n IH]; [reflexivity|]. rewrite popcount_S. exact IH. Qed.

Lemma popcount_add_high n a b : popcount n (a + 2 ^ Z.of_nat n * b) = popcount n a.
Proof.
  revert a. induction n as [|n IH]; intros a; [reflexivity|].
  rewrite !popcount_S. rewrite Nat2Z.inj_succ, Z.pow_succ_r by lia.
  replace ((a + 2 * 2 ^ Z.of_nat n * b) mod 2) with (a mod 2).
  2:{ replace (a + 2 * 2 ^ Z.of_nat n * b) with (a + (2 ^ Z.of_nat n * b) * 2) by ring.
      rewrite Z.mod_add by lia. reflexivity. }
  replace ((a + 2 * 2 ^ Z.of_nat n * b) / 2) with (a / 2 + 2 ^ Z.of_nat n * b).
  2:{ replace (a + 2 * 2 ^ Z.of_nat n * b) with (a + (2 ^ Z.of_nat n * b) * 2) by ring.
      rewrite Z.div_add by lia. reflexivity. }
  rewrite IH. reflexivity.
Qed.

Lemma popcount_app n m x :
  popcount (n + m) x = popcount n x + popcount m (x / 2 ^ Z.of_nat n).
Proof.
  revert x. induction n as [|n IH]; intros x.
  - cbn [popcount Nat.add]. change (2 ^ Z.of_nat 0) with 1. rewrite Z.div_1_r. lia.
  - change (Datatypes.S n + m)%nat with (Datatypes.S (n + m)).
    rewrite !popcount_S, IH. rewrite Nat2Z.inj_succ, Z.pow_succ_r by lia.
    rewrite Z.div_div by lia. lia.
Qed.

Lemma popcount_octal n d X :
  0 <= d < 8 ->
  popcount (3 + n) (d + 8 * X) = (d - d / 2 - d / 4) + popcount n X.
Proof.
  intros Hd. change (3 + n)%nat with (Datatypes.S (Datatypes.S (Datatypes.S n))).
  rewrite !popcount_S.
  replace ((d + 8 * X) / 2 / 2 / 2) with X by (Z.div_mod_to_equations; lia).
  Z.div_mod_to_equations. lia.
Qed.

Lemma popcount_top d : 0 <= d < 4 -> popcount 2 (d + 8 * 0) = d - d / 2 - d / 4.
Proof.
  intros Hd. rewrite !popcount_S. cbn [popcount]. Z.div_mod_to_equations. lia.
Qed.

Lemma octal_digits x :
  0 <= x < 2 ^ 32 ->
  exists d0 d1 d2 d3 d4 d5 d6 d7 d8 d9 d10,
    (0 <= d0 < 8 /\ 0 <= d1 < 8 /\ 0 <= d2 < 8 /\ 0 <= d3 < 8 /\ 0 <= d4 < 8 /\
     0 <= d5 < 8 /\ 0 <= d6 < 8 /\ 0 <= d7 < 8 /\ 0 <= d8 < 8 /\ 0 <= d9 < 8 /\
     0 <= d10 < 4) /\
    x = digits_val 8 [d0; d1; d2; d3; d4; d5; d6; d7; d8; d9; d10].
Proof.
  intros Hx. change (2 ^ 32) with 4294967296 in Hx.
  exists (x mod 8), (x / 8 mod 8), (x / 8 / 8 mod 8), (x / 8 / 8 / 8 mod 8),
    (x / 8 / 8 / 8 / 8 mod 8), (x / 8 / 8 / 8 / 8 / 8 mod 8),
    (x / 8 / 8 / 8 / 8 / 8 / 8 mod 8), (x / 8 / 8 / 8 / 8 / 8 / 8 / 8 mod 8),
    (x / 8 / 8 / 8 / 8 / 8 / 8 / 8 / 8 mod 8),
    (x / 8 / 8 / 8 / 8 / 8 / 8 / 8 / 8 / 8 mod 8),
    (x / 8 / 8 / 8 / 8 / 8 / 8 / 8 / 8 / 8 / 8).
  cbn [digits_val fold_right].
  Z.div_mod_to_equations. lia.
Qed.

Lemma VL_COUNTONES_I_val x : 0 <= x < 2 ^ 32 -> VL_COUNTONES_I x = popcount 32 x.
Proof.
  intros Hx.
  destruct (octal_digits x Hx)
    as (d0 & d1 & d2 & d3 & d4 & d5 & d6 & d7 & d8 & d9 & d10 & Hd & ->).
  destruct Hd as (H0 & H1 & H2 & H3 & H4 & H5 & H6 & H7 & H8 & H9 & H10).
  unfold VL_COUNTONES_I. cbv zeta.
  pose proof (countones_octal d0 d1 d2 d3 d4 d5 d6 d7 d8 d9 d10
                H0 H1 H2 H3 H4 H5 H6 H7 H8 H9 H10) as E1.
  cbv zeta in E1. rewrite E1. clear E1. cbn [map].
  assert (B : forall d, 0 <= d < 8 -> 0 <= d - d / 2 - d / 4 <= 3)
    by (intros; Z.div_mod_to_equations; lia).
  assert (B10 : 0 <= d10 - d10 / 2 - d10 / 4 <= 2) by (Z.div_mod_to_equations; lia).
  pose proof (countones_fields _ _ _ _ _ _ _ _ _ _ _
                (B _ H0) (B _ H1) (B _ H2) (B _ H3) (B _ H4) (B _ H5) (B _ H6)
                (B _ H7) (B _ H8) (B _ H9) B10) as E2.
  cbv zeta in E2. rewrite E2. clear E2.
  pose proof (B _ H0); pose proof (B _ H1); pose proof (B _ H2); pose proof (B _ H3);
    pose proof (B _ H4); pose proof (B _ H5); pose proof (B _ H6); pose proof (B _ H7);
    pose proof (B _ H8); pose proof (B _ H9).
  pose proof (countones_sum (d0 - d0 / 2 - d0 / 4 + (d1 - d1 / 2 - d1 / 4))
                (d2 - d2 / 2 - d2 / 4 + (d3 - d3 / 2 - d3 / 4))
                (d4 - d4 / 2 - d4 / 4 + (d5 - d5 / 2 - d5 / 4))
                (d6 - d6 / 2 - d6 / 4 + (d7 - d7 / 2 - d7 / 4))
                (d8 - d8 / 2 - d8 / 4 + (d9 - d9 / 2 - d9 / 4))
                (d10 - d10 / 2 - d10 / 4)
                ltac:(lia) ltac:(lia) ltac:(lia) ltac:(lia) ltac:(lia) ltac:(lia)) as E3.
  cbv zeta in E3. rewrite E3. clear E3.
  cbn [digits_val fold_right].
  change 32%nat with (3 + (3 + (3 + (3 + (3 + (3 + (3 + (3 + (3 + (3 + 2))))))))))%nat.
  rewrite !popcount_octal by assumption. rewrite popcount_top by assumption.
  ring.
Qed.

Lemma VL_COUNTONES_Q_val x : 0 <= x < 2 ^ 64 -> VL_COUNTONES_Q x = popcount 64 x.
Proof.
  intros Hx. unfold VL_COUNTONES_Q, IData, wrap.
  rewrite Z.shiftr_div_pow2 by lia.
  assert (Hh : 0 <= x / 2 ^ 32 < 2 ^ 32).
  { split; [apply Z.div_pos; lia | apply Z.div_lt_upper_bound; lia]. }
  rewrite (Z.mod_small (x / 2 ^ 32)) by exact Hh.
  rewrite !VL_COUNTONES_I_val by (try exact Hh; apply Z.mod_pos_bound; lia).
  change 64%nat with (32 + 32)%nat. rewrite popcount_app.
  change (2 ^ Z.of_nat 32) with (2 ^ 32).
  replace (popcount 32 x) with (popcount 32 (x mod 2 ^ 32)).
  2:{ rewrite (Z.div_mod x (2 ^ 32)) at 2 by lia.
      rewrite (Z.add_comm (2 ^ 32 * _)). symmetry. apply (popcount_add_high 32). }
  pose proof (popcount_range 32 (x mod 2 ^ 32)).
  pose proof (popcount_range 32 (x / 2 ^ 32)).
  apply Z.mod_small. lia.
Qed.

Lemma popcount_snoc_word n V w :
  0 <= V < 2 ^ (32 * Z.of_nat n) ->
  popcount (32 * n + 32) (V + 2 ^ (32 * Z.of_nat n) * w) = popcount (32 * n) V + popcount 32 w.
Proof.
  intros HV. rewrite popcount_app.
  replace (Z.of_nat (32 * n)) with (32 * Z.of_nat n) by lia.
  rewrite div_low by lia. f_equal.
  pose proof (popcount_add_high (32 * n) V w) as E.
  replace (Z.of_nat (32 * n)) with (32 * Z.of_nat n) in E by lia. exact E.
Qed.

Lemma VL_COUNTONES_W_val words (lwp : WData) :
  0 <= words < 2 ^ 27 ->
  (forall k, 0 <= k < words -> 0 <= word lwp k < 2 ^ 32) ->
  VL_COUNTONES_W words lwp
  = popcount (32 * Z.to_nat words) (wide_val (Z.to_nat words) 0 lwp).
Proof.
  intros Hw Hr. unfold VL_COUNTONES_W.
  apply (for_loop_ind
           (fun i r => r = popcount (32 * Z.to_nat i) (wide_val (Z.to_nat i) 0 lwp))).
  - lia.
  - reflexivity.
  - intros j t Hj ->.
    replace (Z.to_nat (j + 1)) with (Datatypes.S (Z.to_nat j)) by lia.
    rewrite wide_val_snoc.
    replace (32 * Datatypes.S (Z.to_nat j))%nat with (32 * Z.to_nat j + 32)%nat by lia.
    rewrite popcount_snoc_word.
    2:{ apply wide_val_range. intros k Hk. apply Hr. lia. }
    replace (0 + Z.of_nat (Z.to_nat j)) with j by lia.
    unfold VL_COUNTONES_E. rewrite VL_COUNTONES_I_val by (apply Hr; lia).
    pose proof (popcount_range (32 * Z.to_nat j) (wide_val (Z.to_nat j) 0 lwp)).
    pose proof (popcount_range 32 (word lwp j)).
    unfold EData, wrap. apply Z.mod_small.
    change (2 ^ 27) with 134217728 in Hw. change (2 ^ 32) with 4294967296. lia.
Qed.

Lemma popcount_zero_iff n x :
  0 <= x < 2 ^ Z.of_nat n -> (popcount n x = 0 <-> x = 0).
Proof.
  revert x. induction n as [|n IH]; intros x Hx.
  - cbn [popcount]. change (2 ^ Z.of_nat 0) with 1 in Hx. lia.
  - rewrite Nat2Z.inj_succ, Z.pow_succ_r in Hx by lia.
    rewrite popcount_S.
    assert (Hh : 0 <= x / 2 < 2 ^ Z.of_nat n) by (Z.div_mod_to_equations; lia).
    specialize (IH (x / 2) Hh).
    pose proof (popcount_range n (x / 2)).
    pose proof (Z.mod_pos_bound x 2 ltac:(lia)).
    pose proof (Z.div_mod x 2 ltac:(lia)). lia.
Qed.

Lemma popcount_one_iff n x :
  0 <= x < 2 ^ Z.of_nat n -> (popcount n x = 1 <-> exists k, 0 <= k /\ x = 2 ^ k).
Proof.
  revert x. induction n as [|n IH]; intros x Hx.
  - cbn [popcount]. change (2 ^ Z.of_nat 0) with 1 in Hx.
    split; [lia|]. intros (k & Hk & E).
    pose proof (Z.pow_pos_nonneg 2 k ltac:(lia) Hk). lia.
  - rewrite Nat2Z.inj_succ, Z.pow_succ_r in Hx by lia.
    rewrite popcount_S.
    assert (Hh : 0 <= x / 2 < 2 ^ Z.of_nat n) by (Z.div_mod_to_equations; lia).
    pose proof (IH (x / 2) Hh) as IH1.
    pose proof (popcount_zero_iff n (x / 2) Hh) as IH0.
    pose proof (popcount_range n (x / 2)).
    pose proof (Z.mod_pos_bound x 2 ltac:(lia)).
    pose proof (Z.div_mod x 2 ltac:(lia)) as Ex.
    split.
    + intros E. destruct (Z.eq_dec (x mod 2) 0) as [E0|E0].
      * destruct (proj1 IH1 ltac:(lia)) as (k & Hk & Ek).
        exists (k + 1). split; [lia|]. rewrite Z.pow_add_r by lia. change (2 ^ 1) with 2. lia.
      * exists 0. split; [lia|]. change (2 ^ 0) with 1.
        assert (x / 2 = 0) by (apply IH0; lia). lia.
    + intros (k & Hk & Ek). destruct (Z.eq_dec k 0) as [->|Hk0].
      * change (2 ^ 0) with 1 in Ek. subst x. change (1 mod 2) with 1.
        change (1 / 2) with 0. rewrite popcount_0. reflexivity.
      * assert (E2 : x = 2 * 2 ^ (k - 1)).
        { rewrite Ek. rewrite <- Z.pow_succ_r by lia. f_equal. lia. }
        assert (Hm : x mod 2 = 0) by (rewrite E2, Z.mul_comm; apply Z.mod_mul; lia).
        assert (Hd : x / 2 = 2 ^ (k - 1))
          by (rewrite E2, Z.mul_comm; apply Z.div_mul; lia).
        rewrite Hm. rewrite (proj2 IH1); [reflexivity|].
        exists (k - 1). split; [lia | exact Hd].
Qed.

Lemma VL_ONEHOT_W_loop_val n i (lwp : WData) one :
  (forall k, i <= k < i + Z.of_nat n -> 0 <= word lwp k < 2 ^ 32) ->
  one = 0 \/ one = 1 ->
  (VL_ONEHOT_W_loop n i lwp one = 0 \/ VL_ONEHOT_W_loop n i lwp one = 1) /\
  (VL_ONEHOT_W_loop n i lwp one = 1
   <-> one + popcount (32 * n) (wide_val n i lwp) = 1).
Proof.
  revert i one. induction n as [|n IH]; intros i one Hr Hone.
  - rewrite Nat.mul_0_r. cbn [VL_ONEHOT_W_loop wide_val popcount]. lia.
  - cbn [VL_ONEHOT_W_loop wide_val].
    replace (32 * Datatypes.S n)%nat with (32 + 32 * n)%nat by lia.
    rewrite popcount_app. change (2 ^ Z.of_nat 32) with (2 ^ 32).
    pose proof (Hr i ltac:(lia)) as Hw.
    rewrite div_low by lia.
    pose proof (popcount_add_high 32 (word lwp i) (wide_val n (i + 1) lwp)) as E.
    change (2 ^ Z.of_nat 32) with (2 ^ 32) in E. rewrite E. clear E.
    assert (Hr' : forall k, i + 1 <= k < i + 1 + Z.of_nat n -> 0 <= word lwp k < 2 ^ 32)
      by (intros k Hk; apply Hr; lia).
    pose proof (popcount_range (32 * n) (wide_val n (i + 1) lwp)) as Hp.
    pose proof (popcount_range 32 (word lwp i)) as Hpw.
    pose proof (popcount_zero_iff 32 (word lwp i) Hw) as Hz.
    pose proof (popcount_one_iff 32 (word lwp i) Hw) as Ho.
    pose proof (land_pred_zero 32 (word lwp i) ltac:(lia) Hw) as Hl.
    destruct (Z.eqb_spec (word lwp i) 0) as [E0|E0]; cbn [negb].
    + rewrite (proj2 Hz E0). apply IH; assumption.
    + destruct (Z.eqb_spec one 0) as [E1|E1]; cbn [negb].
      * unfold EData.
        destruct (Z.eqb_spec (Z.land (word lwp i) (wrap 32 (word lwp i - 1))) 0)
          as [E2|E2]; cbn [negb].
        -- assert (Hpc : popcount 32 (word lwp i) = 1).
           { apply Ho. destruct (proj1 Hl E2) as [?|?]; [lia | assumption]. }
           rewrite Hpc. destruct (IH (i + 1) 1 Hr' ltac:(lia)) as [IHa IHb].
           split; [exact IHa|]. rewrite IHb. lia.
        -- split; [lia|]. split; [lia|]. intros E. subst one.
           assert (Hpc : popcount 32 (word lwp i) = 1) by lia.
           exfalso. apply E2. apply Hl. right. apply Ho. exact Hpc.
      * split; [lia|]. split; [lia|]. intros E. lia.
Qed.

Lemma VL_ONEHOT0_W_loop_val n i (lwp : WData) (one : bool) :
  (forall k, i <= k < i + Z.of_nat n -> 0 <= word lwp k < 2 ^ 32) ->
  (VL_ONEHOT0_W_loop n i lwp one = 0 \/ VL_ONEHOT0_W_loop n i lwp one = 1) /\
  (VL_ONEHOT0_W_loop n i lwp one = 1
   <-> Z.b2z one + popcount (32 * n) (wide_val n i lwp) <= 1).
Proof.
  revert i one. induction n as [|n IH]; intros i one Hr.
  - rewrite Nat.mul_0_r. cbn [VL_ONEHOT0_W_loop wide_val popcount].
    destruct one; cbn [Z.b2z]; lia.
  - cbn [VL_ONEHOT0_W_loop wide_val].
    replace (32 * Datatypes.S n)%nat with (32 + 32 * n)%nat by lia.
    rewrite popcount_app. change (2 ^ Z.of_nat 32) with (2 ^ 32).
    pose proof (Hr i ltac:(lia)) as Hw.
    rewrite div_low by lia.
    pose proof (popcount_add_high 32 (word lwp i) (wide_val n (i + 1) lwp)) as E.
    change (2 ^ Z.of_nat 32) with (2 ^ 32) in E. rewrite E. clear E.
    assert (Hr' : forall k, i + 1 <= k < i + 1 + Z.of_nat n -> 0 <= word lwp k < 2 ^ 32)
      by (intros k Hk; apply Hr; lia).
    pose proof (popcount_range (32 * n) (wide_val n (i + 1) lwp)) as Hp.
    pose proof (popcount_range 32 (word lwp i)) as Hpw.
    pose proof (popcount_zero_iff 32 (word lwp i) Hw) as Hz.
    pose proof (popcount_one_iff 32 (word lwp i) Hw) as Ho.
    pose proof (land_pred_zero 32 (word lwp i) ltac:(lia) Hw) as Hl.
    destruct (Z.eqb_spec (word lwp i) 0) as [E0|E0]; cbn [negb].
    + rewrite (proj2 Hz E0). apply IH; assumption.
    + destruct one; cbn [Z.b2z].
      * split; [lia|]. split; [lia|]. intros E. lia.
      * unfold EData.
        destruct (Z.eqb_spec (Z.land (word lwp i) (wrap 32 (word lwp i - 1))) 0)
          as [E2|E2]; cbn [negb].
        -- assert (Hpc : popcount 32 (word lwp i) = 1).
           { apply Ho. destruct (proj1 Hl E2) as [?|?]; [lia | assumption]. }
           rewrite Hpc. destruct (IH (i + 1) true Hr') as [IHa IHb].
           split; [exact IHa|]. rewrite IHb. cbn [Z.b2z]. lia.
        -- split; [lia|]. split; [lia|]. intros E.
           assert (Hpc : popcount 32 (word lwp i) = 1) by lia.
           exfalso. apply E2. apply Hl. right. apply Ho. exact Hpc.
Qed.

(** ** Wide insert and wide left shift *)

Lemma word_for_loop_copy (f : Z -> Z) off lo hi (owp : WData) j :
  word (for_loop lo hi (fun i o => <[off + i := f i]> o) owp) j =
  if (off + lo <=? j) && (j <? off + hi) then f (j - off) else word owp j.
Proof.
  destruct (Z_le_gt_dec lo hi) as [Hle|Hgt].
  - revert j.
    apply (for_loop_ind
             (fun i (o : WData) =>
                forall j, word o j
                          = if (off + lo <=? j) && (j <? off + i) then f (j - off)
                            else word owp j));
      [exact Hle | |].
    + intros j. zcmp; cbn [andb]; try reflexivity; lia.
    + intros i o Hi IH j. destruct (Z.eq_dec (off + i) j) as [<-|Hne].
      * rewrite word_insert_eq. zcmp; cbn [andb]; try lia. f_equal. lia.
      * rewrite word_insert_ne by exact Hne. rewrite IH.
        zcmp; cbn [andb]; try reflexivity; lia.
  - rewrite for_loop_empty by lia. zcmp; cbn [andb]; try reflexivity; lia.
Qed.

Ltac zcases :=
  repeat match goal with
    | |- context [?a <=? ?b] =>
        destruct (Z.leb_spec a b); try (exfalso; lia); cbn [andb orb negb]
    | |- context [?a <? ?b] =>
        destruct (Z.ltb_spec a b); try (exfalso; lia); cbn [andb orb negb]
    | |- context [?a =? ?b] =>
        destruct (Z.eqb_spec a b); try (exfalso; lia); cbn [andb orb negb]
    end.

Lemma word_insert_at (wp : WData) i j v : i = j -> word (<[i := v]> wp) j = v.
Proof. intros ->. apply word_insert_eq. Qed.

Lemma testbit_word_eq (wp : WData) a b r r' :
  a = b -> r = r' -> Z.testbit (word wp a) r = Z.testbit (word wp b) r'.
Proof. intros -> ->. reflexivity. Qed.

(** What [_vl_insert_WW] leaves in every bit of every word: inside
    [hbit:lbit] the bit of the source at the same distance from [lbit],
    elsewhere the old bit. *)
Lemma _vl_insert_WW_bit (iowp lwp : WData) hbit lbit rbits q r :
  0 <= lbit <= hbit -> rbits = 0 \/ hbit < rbits -> 0 <= r < 32 ->
  Z.testbit (word (_vl_insert_WW iowp lwp hbit lbit rbits) q) r
  = if (lbit <=? 32 * q + r) && (32 * q + r <=? hbit)
    then Z.testbit (word lwp ((32 * q + r - lbit) / 32)) ((32 * q + r - lbit) mod 32)
    else Z.testbit (word iowp q) r.
Proof.
  intros Hlh Hrb Hr. assert (Hr0 : 0 <= r) by lia. unfold _vl_insert_WW.
  destruct (bit_split hbit) as [Eh Hho]. destruct (bit_split lbit) as [El Hlo].
  destruct (bit_split rbits) as [Er Hro].
  rewrite VL_WORDS_I_div by lia.
  set (hw := VL_BITWORD_E hbit) in *. set (ho := VL_BITBIT_E hbit) in *.
  set (lw := VL_BITWORD_E lbit) in *. set (lo := VL_BITBIT_E lbit) in *.
  set (rw := VL_BITWORD_E rbits) in *. set (ro := VL_BITBIT_E rbits) in *.
  unfold VL_SIZEBITS_E, VL_EDATASIZE. change (32 - 1) with 31.
  assert (Hcm : forall j, 0 <= j <= ho ->
            Z.testbit (if hw =? rw then VL_MASK_E ro else VL_MASK_E 0) j = true).
  { intros j Hj. destruct (Z.eqb_spec hw rw).
    - destruct (Z.eq_dec ro 0) as [->|].
      + change (VL_MASK_E 0) with (Z.ones 32). rewrite Z.ones_spec_low; lia.
      + rewrite VL_MASK_E_ones by lia. rewrite Z.ones_spec_low; lia.
    - change (VL_MASK_E 0) with (Z.ones 32). rewrite Z.ones_spec_low; lia. }
  set (cm := if hw =? rw then VL_MASK_E ro else VL_MASK_E 0) in *.
  set (words := (hbit - lbit + 1 + 31) / 32).
  assert (Hwords : 32 * (words - 1) <= hbit - lbit < 32 * words).
  { subst words. Z.div_mod_to_equations. lia. }
  clearbody words.
  set (p := 32 * q + r) in *.
  assert (Hsrc : lbit <= p ->
            p - lbit = 32 * ((p - lbit) / 32) + (p - lbit) mod 32 /\
            0 <= (p - lbit) mod 32 < 32 /\ 0 <= (p - lbit) / 32).
  { intros. apply bit_pos. lia. }
  destruct ((ho =? 31) && (lo =? 0)) eqn:Efast.
  - (* whole words *)
    apply andb_true_iff in Efast as [E1 E2]. apply Z.eqb_eq in E1, E2.
    assert (Ew : words = hw - lw + 1) by lia.
    destruct (Z.eq_dec q hw) as [->|Hq].
    + rewrite word_insert_eq. rewrite Z.land_spec, Hcm by lia. rewrite andb_true_r.
      destruct (Z.leb_spec lbit p), (Z.leb_spec p hbit); cbn [andb]; try lia.
      destruct (Hsrc ltac:(lia)) as (S1 & S2 & S3). apply testbit_word_eq; lia.
    + rewrite word_insert_ne by lia. rewrite word_for_loop_copy.
      destruct (Z.leb_spec (lw + 0) q), (Z.ltb_spec q (lw + (words - 1)));
        destruct (Z.leb_spec lbit p), (Z.leb_spec p hbit); cbn [andb]; try lia;
        try reflexivity.
      destruct (Hsrc ltac:(lia)) as (S1 & S2 & S3). apply testbit_word_eq; lia.
  - destruct (Z.eqb_spec lo 0) as [Elo|Elo].
    + (* aligned low end, partial top word *)
      assert (Ehl : ho <> 31).
      { intros E. rewrite E in Efast. discriminate. }
      assert (Ew : words = hw - lw + 1) by lia.
      replace (ho - 0 + 1) with (ho + 1) by lia.
      rewrite VL_MASK_E_ones by lia. rewrite bnot_land by lia.
      destruct (Z.eq_dec q hw) as [->|Hq].
      * rewrite word_insert_eq. rewrite word_for_loop_copy.
        destruct (Z.leb_spec (lw + 0) hw), (Z.ltb_spec hw (lw + (words - 1)));
          cbn [andb]; try lia.
        destruct (Z.leb_spec lbit p), (Z.leb_spec p hbit); cbn [andb]; try lia.
        -- destruct (Hsrc ltac:(lia)) as (S1 & S2 & S3).
           replace ((p - lbit) / 32) with (words - 1) by lia.
           replace ((p - lbit) mod 32) with r by lia.
           Z.bitblast_core. all: try (rewrite Hcm by lia). all: simpl_bool_bits.
        -- Z.bitblast_core. all: simpl_bool_bits.
      * rewrite word_insert_ne by lia. rewrite word_for_loop_copy.
        destruct (Z.leb_spec (lw + 0) q), (Z.ltb_spec q (lw + (words - 1)));
          destruct (Z.leb_spec lbit p), (Z.leb_spec p hbit); cbn [andb]; try lia;
          try reflexivity.
        destruct (Hsrc ltac:(lia)) as (S1 & S2 & S3). apply testbit_word_eq; lia.
    + (* unaligned: the loop over the source words *)
      replace (ho - 0 + 1) with (ho + 1) by lia.
      replace (31 - lo + 1) with (32 - lo) by lia.
      rewrite !VL_MASK_E_ones by lia. rewrite !EData_land, !bnot_land by lia.
      match goal with |- context [for_loop 0 words ?b iowp] => set (body := b) end.
      assert (Hstep : forall i (o : WData) q r,
                0 <= i -> lw + i <= hw -> 0 <= r < 32 ->
                Z.testbit (word (body i o) q) r
                = if (q =? lw + i) && (lo <=? r) && ((q <? hw) || ((q =? hw) && (r <=? ho)))
                  then Z.testbit (word lwp i) (r - lo)
                  else if (q =? lw + i + 1) && (r <? lo)
                          && ((q <? hw) || ((q =? hw) && (r <=? ho)))
                  then Z.testbit (word lwp i) (r + (32 - lo))
                  else Z.testbit (word o q) r).
      { clear q r Hr Hr0 p Hsrc. intros i o q r Hi Hi' Hr.
        assert (Hr0 : 0 <= r) by lia.
        subst body. cbv beta zeta. rewrite ?EData_land.
        destruct (Z.eqb_spec (lw + i) hw) as [E1|E1];
          destruct (Z.leb_spec (lw + i + 1) hw) as [E2|E2]; try (exfalso; lia);
          [| destruct (Z.eqb_spec (lw + i + 1) hw) as [E3|E3]];
          (destruct (Z.eq_dec q (lw + i)) as [Q1|Q1];
           [| destruct (Z.eq_dec q (lw + i + 1)) as [Q2|Q2]]);
          repeat first [rewrite word_insert_at by lia | rewrite word_insert_ne by lia].
          all: (zcases; try reflexivity).
          all: (Z.bitblast_core; try (rewrite Hcm by lia); simpl_bool_bits;
          apply testbit_word_eq; lia). }
      clearbody body.
      assert (Hinv : forall q r, 0 <= r < 32 ->
                Z.testbit (word (for_loop 0 words body iowp) q) r
                = if (lbit <=? 32 * q + r) && (32 * q + r <=? hbit)
                     && (32 * q + r <? lbit + 32 * words)
                  then Z.testbit (word lwp ((32 * q + r - lbit) / 32))
                                 ((32 * q + r - lbit) mod 32)
                  else Z.testbit (word iowp q) r).
      { apply (for_loop_ind
                 (fun i (o : WData) =>
                    forall q r, 0 <= r < 32 ->
                      Z.testbit (word o q) r
                      = if (lbit <=? 32 * q + r) && (32 * q + r <=? hbit)
                           && (32 * q + r <? lbit + 32 * i)
                        then Z.testbit (word lwp ((32 * q + r - lbit) / 32))
                                       ((32 * q + r - lbit) mod 32)
                        else Z.testbit (word iowp q) r)).
        - lia.
        - intros q' r' Hr'. zcmp; cbn [andb]; try reflexivity; lia.
        - intros i o Hi IH q' r' Hr'. rewrite Hstep by lia. rewrite IH by lia.
          pose proof (bit_pos (32 * q' + r' - lbit)) as Hs.
          (zcases; try reflexivity;
          destruct (Hs ltac:(lia)) as (S1 & S2 & S3); apply testbit_word_eq; lia). }
      rewrite Hinv by lia. fold p.
      zcmp; cbn [andb]; try reflexivity; lia.
Qed.

Lemma bnot_word_range x : 0 <= bnot 32 x < 2 ^ 32.
Proof. unfold bnot. apply wrap_range. lia. Qed.

Ltac word_range :=
  first [ assumption | apply EData_range | apply VL_MASK_E_range | apply bnot_word_range
        | apply lor_word_range; word_range
        | apply land_range_r; word_range
        | apply land_range_l; word_range ].

Lemma _vl_insert_WW_range (iowp lwp : WData) hbit lbit rbits n m :
  0 <= lbit <= hbit ->
  (forall k, 0 <= k < n -> 0 <= word iowp k < 2 ^ 32) ->
  (forall k, 0 <= k < m -> 0 <= word lwp k < 2 ^ 32) ->
  VL_WORDS_I (hbit - lbit + 1) <= m ->
  forall k, 0 <= k < n -> 0 <= word (_vl_insert_WW iowp lwp hbit lbit rbits) k < 2 ^ 32.
Proof.
  intros Hlh Hr Hl Hm k Hk. unfold _vl_insert_WW. cbv zeta.
  destruct (bit_split lbit) as [El Hlo].
  rewrite VL_WORDS_I_div in * by lia.
  set (words := (hbit - lbit + 1 + 31) / 32) in *.
  assert (Hwords : 1 <= words) by (subst words; Z.div_mod_to_equations; lia).
  clearbody words.
  set (cm := if VL_BITWORD_E hbit =? VL_BITWORD_E rbits
             then VL_MASK_E (VL_BITBIT_E rbits) else VL_MASK_E 0).
  assert (Hcm : 0 <= cm < 2 ^ 32) by (unfold cm; destruct (_ =? _); apply VL_MASK_E_range).
  clearbody cm.
  set (hw := VL_BITWORD_E hbit). set (lw := VL_BITWORD_E lbit) in *.
  set (lo := VL_BITBIT_E lbit) in *.
  assert (Hcopy : forall j, 0 <= j < n ->
            0 <= word (for_loop 0 (words - 1)
                         (fun i (o : WData) => <[lw + i := word lwp i]> o) iowp) j < 2 ^ 32).
  { intros j Hj. rewrite (word_for_loop_copy (fun i => word lwp i)).
    destruct (Z.leb_spec (lw + 0) j), (Z.ltb_spec j (lw + (words - 1))); cbn [andb];
      try (apply Hr; lia). apply Hl. lia. }
  destruct ((_ =? VL_SIZEBITS_E) && (_ =? 0)).
  - destruct (Z.eq_dec hw k) as [->|Hne].
    + rewrite word_insert_eq. word_range.
    + rewrite word_insert_ne by lia. apply Hcopy. exact Hk.
  - destruct (lo =? 0).
    + destruct (Z.eq_dec hw k) as [->|Hne].
      * rewrite word_insert_eq. word_range.
      * rewrite word_insert_ne by lia. apply Hcopy. exact Hk.
    + revert k Hk.
      apply (for_loop_ind
               (fun (_ : Z) (o : WData) => forall k, 0 <= k < n -> 0 <= word o k < 2 ^ 32));
        [lia | exact Hr |].
      intros j o Hj IH k Hk. cbv zeta.
      destruct (lw + j =? hw), (lw + j + 1 <=? hw), (lw + j + 1 =? hw);
        repeat match goal with
          | |- context [word (<[?a := _]> _) k] =>
              destruct (Z.eq_dec a k) as [->|];
              [rewrite word_insert_eq | rewrite word_insert_ne by lia]
          end;
        first [apply IH; exact Hk | word_range].
Qed.

(** Inserting the source at [hbit:lbit] replaces exactly that bit range of
    the value held by the buffer with the low bits of the source value. *)
Lemma _vl_insert_WW_val (iowp lwp : WData) hbit lbit rbits n m :
  0 <= lbit <= hbit -> rbits = 0 \/ hbit < rbits -> hbit < 32 * n ->
  (forall k, 0 <= k < n -> 0 <= word iowp k < 2 ^ 32) ->
  (forall k, 0 <= k < m -> 0 <= word lwp k < 2 ^ 32) ->
  VL_WORDS_I (hbit - lbit + 1) <= m ->
  wide_val (Z.to_nat n) 0 (_vl_insert_WW iowp lwp hbit lbit rbits)
  = Z.lor (Z.land (wide_val (Z.to_nat n) 0 iowp)
                  (Z.lnot (Z.shiftl (Z.ones (hbit - lbit + 1)) lbit)))
          (Z.shiftl (Z.land (wide_val (Z.to_nat m) 0 lwp) (Z.ones (hbit - lbit + 1))) lbit).
Proof.
  intros Hlh Hrb Hn Hr Hl Hm.
  pose proof (_vl_insert_WW_range iowp lwp hbit lbit rbits n m Hlh Hr Hl Hm) as Hor.
  rewrite VL_WORDS_I_div in Hm by lia.
  assert (Hm' : hbit - lbit < 32 * m) by (Z.div_mod_to_equations; lia).
  apply Z.bits_inj'. intros i Hi.
  rewrite Z.lor_spec, Z.land_spec, Z.lnot_spec, !Z.shiftl_spec, Z.land_spec by lia.
  rewrite !Z.testbit_ones by lia.
  destruct (Z.lt_ge_cases i (32 * n)) as [Hlt|Hge].
  - destruct (bit_pos i Hi) as (Ei & Hmod & Hd).
    assert (Hq : i / 32 < n) by lia.
    rewrite Ei at 1 2.
    rewrite !wide_val_bit by (try lia; intros k Hk; (apply Hor || apply Hr); lia).
    rewrite _vl_insert_WW_bit by lia. rewrite <- Ei.
    destruct (Z.leb_spec lbit i), (Z.leb_spec i hbit), (Z.leb_spec 0 (i - lbit)),
      (Z.ltb_spec (i - lbit) (hbit - lbit + 1)); cbn [andb negb orb]; try lia;
      rewrite ?andb_true_r, ?andb_false_r, ?orb_false_r; try reflexivity.
    rewrite wide_val_testbit by (try lia; intros k Hk; apply Hl; lia).
    rewrite Z.add_0_l. reflexivity.
  - rewrite !wide_val_testbit_high by (try lia; intros k Hk; (apply Hor || apply Hr); lia).
    destruct (Z.leb_spec 0 (i - lbit)), (Z.ltb_spec (i - lbit) (hbit - lbit + 1));
      cbn [andb negb orb]; try lia; rewrite ?andb_false_r; reflexivity.
Qed.

Lemma wide_val_shifted n i j (a b : WData) :
  (forall t, 0 <= t < Z.of_nat n -> word a (i + t) = word b (j + t)) ->
  wide_val n i a = wide_val n j b.
Proof.
  revert i j. induction n as [|n IH]; intros i j H; [reflexivity |].
  cbn [wide_val]. pose proof (H 0 ltac:(lia)) as H0. rewrite !Z.add_0_r in H0.
  rewrite H0. rewrite (IH (i + 1) (j + 1)); [reflexivity |].
  intros t Ht. replace (i + 1 + t) with (i + (t + 1)) by lia.
  replace (j + 1 + t) with (j + (t + 1)) by lia. apply H. lia.
Qed.

(** The wide left shift: modulo 2^obits the result holds the operand times
    2^rd in each of the three branches. *)
Lemma VL_SHIFTL_WWI_val obits lbits rbits (owp lwp : WData) rd :
  1 <= obits < 2 ^ 31 -> 0 <= rd < 2 ^ 32 ->
  (forall k, 0 <= k < VL_WORDS_I obits -> 0 <= word lwp k < 2 ^ 32) ->
  wide_val (Z.to_nat (VL_WORDS_I obits)) 0 (VL_SHIFTL_WWI obits lbits rbits owp lwp rd)
    mod 2 ^ obits
  = (wide_val (Z.to_nat (VL_WORDS_I obits)) 0 lwp * 2 ^ rd) mod 2 ^ obits.
Proof.
  intros Ho Hrd Hl. unfold VL_SHIFTL_WWI. cbv zeta.
  pose proof (top_bits_range obits ltac:(lia)) as Ht.
  rewrite VL_BITWORD_E_div, VL_BITBIT_E_mod.
  unfold IData. rewrite wrap_small by (change (2 ^ 31) with 2147483648 in Ho;
                                       change (2 ^ 32) with 4294967296; lia).
  set (n := VL_WORDS_I obits) in *.
  set (V := wide_val (Z.to_nat n) 0 lwp).
  assert (Hp : 0 < 2 ^ obits) by (apply Z.pow_pos_nonneg; lia).
  destruct (Z.geb_spec rd obits) as [Hge|Hlt].
  - rewrite wide_val_zero.
    2:{ intros k Hk. rewrite (word_for_loop_store (fun _ => 0)).
        destruct (Z.leb_spec 0 k), (Z.ltb_spec k n); cbn [andb]; lia. }
    replace rd with (obits + (rd - obits)) by lia. rewrite Z.pow_add_r by lia.
    rewrite Z.mul_assoc, (Z.mul_comm V), <- Z.mul_assoc, Z.mul_comm.
    rewrite Z.mod_mul by lia. reflexivity.
  - pose proof (Z.div_mod rd 32 ltac:(lia)) as Edm.
    pose proof (Z.mod_pos_bound rd 32 ltac:(lia)) as Hmb.
    assert (Hws : 0 <= rd / 32 < n) by (Z.div_mod_to_equations; lia).
    destruct (Z.eqb_spec (rd mod 32) 0) as [Eb|Eb].
    + set (ws := rd / 32) in *.
      rewrite (wide_val_split n ws) by lia.
      rewrite (wide_val_zero (Z.to_nat ws)).
      2:{ intros k Hk. rewrite (word_for_loop_store (fun i => word lwp (i - ws))).
          destruct (Z.leb_spec ws k), (Z.ltb_spec k n); cbn [andb]; try lia.
          rewrite (word_for_loop_store (fun _ => 0)).
          destruct (Z.leb_spec 0 k), (Z.ltb_spec k ws); cbn [andb]; lia. }
      rewrite (wide_val_shifted _ ws 0 _ lwp).
      2:{ intros t Ht'. rewrite (word_for_loop_store (fun i => word lwp (i - ws))).
          destruct (Z.leb_spec ws (ws + t)), (Z.ltb_spec (ws + t) n); cbn [andb]; try lia.
          f_equal. lia. }
      subst V. rewrite (wide_val_split n (n - ws)) by lia.
      replace (n - (n - ws)) with ws by lia.
      replace rd with (32 * ws) by lia.
      set (A := wide_val (Z.to_nat (n - ws)) 0 lwp).
      set (B := wide_val (Z.to_nat ws) (n - ws) lwp).
      rewrite Z.add_0_l.
      replace ((A + 2 ^ (32 * (n - ws)) * B) * 2 ^ (32 * ws))
        with (2 ^ (32 * ws) * A + (2 ^ (32 * n - obits) * B) * 2 ^ obits).
      2:{ replace (32 * (n - ws)) with ((32 * n - obits) + (obits - 32 * ws)) by lia.
          replace (2 ^ obits) with (2 ^ (obits - 32 * ws) * 2 ^ (32 * ws))
            by (rewrite <- Z.pow_add_r by lia; f_equal; lia).
          rewrite (Z.pow_add_r 2 (32 * n - obits)) by lia. ring. }
      rewrite Z.mod_add by lia. reflexivity.
    + assert (Hz : forall k, 0 <= k < n ->
                word (for_loop 0 n (fun i (o : WData) => <[i := 0]> o) owp) k = 0).
      { intros k Hk. rewrite (word_for_loop_store (fun _ => 0)).
        destruct (Z.leb_spec 0 k), (Z.ltb_spec k n); cbn [andb]; lia. }
      rewrite (_vl_insert_WW_val _ lwp (obits - 1) rd 0 n n); try lia.
      * rewrite (wide_val_zero (Z.to_nat n)) by (intros k Hk; apply Hz; lia).
        rewrite Z.land_0_l, Z.lor_0_l.
        replace (obits - 1 - rd + 1) with (obits - rd) by lia.
        rewrite Z.land_ones, Z.shiftl_mul_pow2 by lia. fold V.
        rewrite <- Z.mul_mod_distr_r by (try apply Z.pow_pos_nonneg; lia).
        rewrite <- Z.pow_add_r by lia. replace (obits - rd + rd) with obits by lia.
        apply Z.mod_mod. lia.
      * intros k Hk. rewrite Hz by lia. lia.
      * exact Hl.
      * subst n. rewrite !VL_WORDS_I_div by lia. Z.div_mod_to_equations. lia.
Qed.

(** ** Signed wide multiply *)








(** ** Wide ceiling logarithm and most significant set bit *)

Lemma VL_BITISSET_E_testbit w bit :
  0 <= bit < 32 -> (VL_BITISSET_E w bit =? 0) = negb (Z.testbit w bit).
Proof.
  intros Hb. unfold VL_BITISSET_E. rewrite VL_BITBIT_E_mod, Z.mod_small by lia.
  rewrite Z.shiftl_1_l. unfold EData. rewrite wrap_small.
  - apply land_pow2_zero. lia.
  - split; [apply Z.pow_nonneg; lia | apply Z.pow_lt_mono_r; lia].
Qed.

Lemma most_set_bit_scan_val n w :
  Z.of_nat n <= 32 -> 0 < w < 2 ^ Z.of_nat n ->
  most_set_bit_scan n w = Some (Z.log2 w).
Proof.
  induction n as [|n IH]; intros Hn Hw.
  - change (2 ^ Z.of_nat 0) with 1 in Hw. lia.
  - cbn [most_set_bit_scan]. rewrite VL_BITISSET_E_testbit by lia. rewrite negb_involutive.
    rewrite Nat2Z.inj_succ, Z.pow_succ_r in Hw by lia.
    destruct (Z.testbit w (Z.of_nat n)) eqn:Eb.
    + f_equal. symmetry. apply Z.log2_unique; [lia |].
      rewrite Z.pow_succ_r by lia. split; [| lia].
      destruct (Z.lt_ge_cases w (2 ^ Z.of_nat n)) as [Hlt|Hge]; [| exact Hge].
      rewrite Z.bits_above_log2 in Eb; [discriminate | lia |].
      apply Z.log2_lt_pow2; lia.
    + apply IH; [lia |]. split; [lia |].
      destruct (Z.lt_ge_cases w (2 ^ Z.of_nat n)) as [Hlt|Hge]; [exact Hlt |].
      assert (Z.log2 w = Z.of_nat n).
      { apply Z.log2_unique; [lia |]. rewrite Z.pow_succ_r by lia. lia. }
      pose proof (Z.bit_log2 w ltac:(lia)) as Hb. rewrite H in Hb. congruence.
Qed.

Lemma most_set_bit_loop_val n (lwp : WData) adjust :
  Z.of_nat n < 2 ^ 26 -> 0 <= adjust <= 1 ->
  (forall k, 0 <= k < Z.of_nat n -> 0 <= word lwp k < 2 ^ 32) ->
  most_set_bit_loop n lwp adjust
  = if wide_val n 0 lwp =? 0 then 0 else Z.log2 (wide_val n 0 lwp) + adjust.
Proof.
  induction n as [|n IH]; intros Hn Ha Hr; [reflexivity |].
  cbn [most_set_bit_loop]. rewrite wide_val_snoc. rewrite Z.add_0_l.
  pose proof (Hr (Z.of_nat n) ltac:(lia)) as Hw.
  pose proof (wide_val_range n 0 lwp ltac:(intros k Hk; apply Hr; lia)) as Hv.
  set (V := wide_val n 0 lwp) in *. set (w := word lwp (Z.of_nat n)) in *.
  assert (Hp : 0 < 2 ^ (32 * Z.of_nat n)) by (apply Z.pow_pos_nonneg; lia).
  destruct (Z.eqb_spec w 0) as [E0|E0]; cbn [negb].
  - rewrite E0, Z.mul_0_r, Z.add_0_r. apply IH; [lia | exact Ha |].
    intros k Hk. apply Hr. lia.
  - change (Z.to_nat VL_EDATASIZE) with 32%nat.
    rewrite most_set_bit_scan_val by (change (Z.of_nat 32) with 32; lia).
    assert (Hl : Z.log2 (V + 2 ^ (32 * Z.of_nat n) * w) = 32 * Z.of_nat n + Z.log2 w).
    { destruct (Z.log2_spec w ltac:(lia)) as [L1 L2].
      pose proof (Z.log2_nonneg w) as L0.
      apply Z.log2_unique; [lia |].
      rewrite Z.pow_succ_r in L2 |- * by lia. rewrite !Z.pow_add_r by lia.
      set (X := 2 ^ (32 * Z.of_nat n)) in *. set (Y := 2 ^ Z.log2 w) in *.
      split; nia. }
    assert (Hlw : 0 <= Z.log2 w < 32).
    { split; [apply Z.log2_nonneg |]. apply Z.log2_lt_pow2; lia. }
    destruct (Z.eqb_spec (V + 2 ^ (32 * Z.of_nat n) * w) 0) as [Ez|Ez]; [nia |].
    rewrite Hl. unfold VL_EDATASIZE, IData. rewrite wrap_small.
    + lia.
    + change (2 ^ 26) with 67108864 in Hn. change (2 ^ 32) with 4294967296. lia.
Qed.

Lemma VL_MOSTSETBITP1_W_val words (lwp : WData) :
  0 <= words < 2 ^ 26 ->
  (forall k, 0 <= k < words -> 0 <= word lwp k < 2 ^ 32) ->
  VL_MOSTSETBITP1_W words lwp
  = if wide_val (Z.to_nat words) 0 lwp =? 0 then 0
    else Z.log2 (wide_val (Z.to_nat words) 0 lwp) + 1.
Proof.
  intros Hw Hr. unfold VL_MOSTSETBITP1_W. replace (words - 1 + 1) with words by lia.
  apply most_set_bit_loop_val; [lia | lia |]. intros k Hk. apply Hr. lia.
Qed.

Lemma VL_CLOG2_W_val words (lwp : WData) :
  0 <= words < 2 ^ 26 ->
  (forall k, 0 <= k < words -> 0 <= word lwp k < 2 ^ 32) ->
  VL_CLOG2_W words lwp = Z.log2_up (wide_val (Z.to_nat words) 0 lwp).
Proof.
  intros Hw Hr. unfold VL_CLOG2_W. cbv zeta. replace (words - 1 + 1) with words by lia.
  rewrite most_set_bit_loop_val;
    [| lia | destruct (_ =? 1); lia | intros k Hk; apply Hr; lia].
  rewrite VL_COUNTONES_W_val;
    [| change (2 ^ 26) with 67108864 in Hw; change (2 ^ 27) with 134217728; lia | exact Hr].
  pose proof (wide_val_range (Z.to_nat words) 0 lwp ltac:(intros k Hk; apply Hr; lia)) as Hv.
  set (V := wide_val (Z.to_nat words) 0 lwp) in *.
  pose proof (popcount_one_iff (32 * Z.to_nat words) V
                ltac:(replace (Z.of_nat (32 * Z.to_nat words))
                        with (32 * Z.of_nat (Z.to_nat words)) by lia; exact Hv)) as H1.
  destruct (Z.eqb_spec V 0) as [->|Hne]; [reflexivity |].
  destruct (Z.eqb_spec (popcount (32 * Z.to_nat words) V) 1) as [E|E].
  - destruct (proj1 H1 E) as (k & Hk & ->).
    rewrite Z.log2_pow2, Z.log2_up_pow2 by lia. lia.
  - pose proof (Z.le_log2_log2_up V). pose proof (Z.le_log2_up_succ_log2 V).
    destruct (Z.eq_dec (Z.log2 V) (Z.log2_up V)) as [Ee|Ee]; [| lia].
    exfalso. apply E. apply H1.
    destruct (proj1 (Z.log2_log2_up_exact V ltac:(lia)) Ee) as [b Hb].
    exists b. split; [| exact Hb].
    destruct (Z.lt_ge_cases b 0) as [Hlt|]; [| assumption].
    rewrite Z.pow_neg_r in Hb by lia. lia.
Qed.

(** ** Concatenation and replication of wide operands *)

Lemma VL_CONCAT_WWI_val obits lbits rbits (owp lwp : WData) rd :
  1 <= lbits -> 1 <= rbits <= 32 -> lbits + rbits <= obits ->
  (forall k, 0 <= k < VL_WORDS_I lbits -> 0 <= word lwp k < 2 ^ 32) ->
  0 <= wide_val (Z.to_nat (VL_WORDS_I lbits)) 0 lwp < 2 ^ lbits ->
  0 <= rd < 2 ^ rbits ->
  wide_val (Z.to_nat (VL_WORDS_I obits)) 0 (VL_CONCAT_WWI obits lbits rbits owp lwp rd)
  = wide_val (Z.to_nat (VL_WORDS_I lbits)) 0 lwp * 2 ^ rbits + rd.
Proof.
  intros Hl Hr Ho Hlr Hlv Hrd. pose proof (top_bits_range obits ltac:(lia)) as Ht.
  unfold VL_CONCAT_WWI. cbv zeta.
  set (n := VL_WORDS_I obits) in *.
  set (b := VL_MEMSET_ZERO_W_at (<[0 := rd]> owp) 1 (n - 1)).
  assert (Hrd32 : 0 <= rd < 2 ^ 32).
  { assert (2 ^ rbits <= 2 ^ 32) by (apply Z.pow_le_mono_r; lia). lia. }
  assert (Hb : forall k, 0 <= k < n -> word b k = if k =? 0 then rd else 0).
  { intros k Hk. unfold b. rewrite word_MEMSET_ZERO_W_at.
    destruct (Z.leb_spec 1 k), (Z.ltb_spec k (1 + (n - 1))), (Z.eqb_spec k 0);
      cbn [andb]; try lia; try reflexivity.
    subst k. apply word_insert_eq. }
  assert (Hbr : forall k, 0 <= k < n -> 0 <= word b k < 2 ^ 32).
  { intros k Hk. rewrite Hb by lia. destruct (k =? 0); lia. }
  assert (Hbv : wide_val (Z.to_nat n) 0 b = rd).
  { rewrite (wide_val_split n 1) by lia. rewrite (wide_val_zero (Z.to_nat (n - 1))).
    - change (Z.to_nat 1) with 1%nat. cbn [wide_val]. rewrite Hb by lia. simpl. lia.
    - intros k Hk. rewrite Hb by lia. destruct (Z.eqb_spec k 0); [lia | reflexivity]. }
  rewrite (_vl_insert_WW_val b lwp (rbits + lbits - 1) rbits 0 n (VL_WORDS_I lbits));
    [| lia | left; reflexivity | lia | exact Hbr | exact Hlr
     | replace (rbits + lbits - 1 - rbits + 1) with lbits by lia; lia].
  rewrite Hbv. apply insert_above; lia.
Qed.

Lemma VL_CONCAT_WWW_val obits lbits rbits (owp lwp rwp : WData) :
  1 <= lbits -> 1 <= rbits -> lbits + rbits <= obits ->
  (forall k, 0 <= k < VL_WORDS_I lbits -> 0 <= word lwp k < 2 ^ 32) ->
  0 <= wide_val (Z.to_nat (VL_WORDS_I lbits)) 0 lwp < 2 ^ lbits ->
  (forall k, 0 <= k < VL_WORDS_I rbits -> 0 <= word rwp k < 2 ^ 32) ->
  0 <= wide_val (Z.to_nat (VL_WORDS_I rbits)) 0 rwp < 2 ^ rbits ->
  wide_val (Z.to_nat (VL_WORDS_I obits)) 0 (VL_CONCAT_WWW obits lbits rbits owp lwp rwp)
  = wide_val (Z.to_nat (VL_WORDS_I lbits)) 0 lwp * 2 ^ rbits
    + wide_val (Z.to_nat (VL_WORDS_I rbits)) 0 rwp.
Proof.
  intros Hl Hr Ho Hlr Hlv Hrr Hrv. pose proof (top_bits_range obits ltac:(lia)) as Ht.
  pose proof (top_bits_range rbits ltac:(lia)) as Htr.
  unfold VL_CONCAT_WWW. cbv zeta.
  set (n := VL_WORDS_I obits) in *. set (rn := VL_WORDS_I rbits) in *.
  assert (Hrn : rn <= n) by lia.
  set (b := VL_MEMSET_ZERO_W_at (VL_MEMCPY_W owp rwp rn) rn (n - rn)).
  assert (Hb : forall k, 0 <= k < n -> word b k = if k <? rn then word rwp k else 0).
  { intros k Hk. unfold b. rewrite word_MEMSET_ZERO_W_at, word_MEMCPY_W.
    destruct (Z.leb_spec rn k), (Z.ltb_spec k (rn + (n - rn))), (Z.ltb_spec k rn),
      (Z.leb_spec 0 k); cbn [andb]; try lia; reflexivity. }
  assert (Hbr : forall k, 0 <= k < n -> 0 <= word b k < 2 ^ 32).
  { intros k Hk. rewrite Hb by lia. destruct (Z.ltb_spec k rn); [apply Hrr; lia | lia]. }
  assert (Hbv : wide_val (Z.to_nat n) 0 b = wide_val (Z.to_nat rn) 0 rwp).
  { rewrite (wide_val_split n rn) by lia. rewrite (wide_val_zero (Z.to_nat (n - rn))).
    - rewrite Z.mul_0_r, Z.add_0_r. apply wide_val_ext. intros k Hk. rewrite Hb by lia.
      destruct (Z.ltb_spec k rn); [reflexivity | lia].
    - intros k Hk. rewrite Hb by lia. destruct (Z.ltb_spec k rn); [lia | reflexivity]. }
  rewrite (_vl_insert_WW_val b lwp (rbits + lbits - 1) rbits 0 n (VL_WORDS_I lbits));
    [| lia | left; reflexivity | lia | exact Hbr | exact Hlr
     | replace (rbits + lbits - 1 - rbits + 1) with lbits by lia; lia].
  rewrite Hbv. apply insert_above; lia.
Qed.

Lemma VL_REPLICATE_WWI_val lbits (owp lwp : WData) rep :
  1 <= lbits -> 1 <= rep -> lbits * rep < 2 ^ 31 ->
  (forall k, 0 <= k < VL_WORDS_I lbits -> 0 <= word lwp k < 2 ^ 32) ->
  0 <= wide_val (Z.to_nat (VL_WORDS_I lbits)) 0 lwp < 2 ^ lbits ->
  wide_val (Z.to_nat (VL_WORDS_I (lbits * rep))) 0 (VL_REPLICATE_WWI lbits owp lwp rep)
  = replicate_val (Z.to_nat rep) lbits (wide_val (Z.to_nat (VL_WORDS_I lbits)) 0 lwp).
Proof.
  intros Hl Hrep Hfit Hlr Hlv. unfold VL_REPLICATE_WWI. cbv zeta.
  assert (Hprod : lbits <= lbits * rep) by nia.
  assert (E1 : IData lbits = lbits) by (apply wrap_small; lia).
  assert (E2 : IData (lbits * rep) = lbits * rep) by (apply wrap_small; lia).
  rewrite E1, E2.
  pose proof (top_bits_range (lbits * rep) ltac:(lia)) as Ht.
  pose proof (top_bits_range lbits Hl) as Htl.
  assert (Hmn : VL_WORDS_I lbits <= VL_WORDS_I (lbits * rep)).
  { rewrite !VL_WORDS_I_div by lia. apply Z.div_le_mono; lia. }
  set (n := VL_WORDS_I (lbits * rep)) in *. set (m := VL_WORDS_I lbits) in *.
  set (L := wide_val (Z.to_nat m) 0 lwp) in *.
  set (b := for_loop m n (fun i (o : WData) => <[i := 0]> o)
              (for_loop 0 m (fun i (o : WData) => <[i := word lwp i]> o) owp)).
  assert (Hb : forall k, 0 <= k < n -> word b k = if k <? m then word lwp k else 0).
  { intros k Hk. unfold b. rewrite (word_for_loop_store (fun _ => 0)).
    rewrite (word_for_loop_store (fun i => word lwp i)).
    destruct (Z.leb_spec m k), (Z.ltb_spec k n), (Z.ltb_spec k m), (Z.leb_spec 0 k);
      cbn [andb]; try lia; reflexivity. }
  assert (Hgoal :
            (forall k, 0 <= k < n ->
               0 <= word (for_loop 1 rep
                            (fun i (o : WData) =>
                               _vl_insert_WW o lwp (i * lbits + lbits - 1) (i * lbits) 0) b) k
               < 2 ^ 32) /\
            wide_val (Z.to_nat n) 0
              (for_loop 1 rep
                 (fun i (o : WData) =>
                    _vl_insert_WW o lwp (i * lbits + lbits - 1) (i * lbits) 0) b)
            = replicate_val (Z.to_nat rep) lbits L); [| apply Hgoal].
  apply (for_loop_ind
           (fun i (o : WData) =>
              (forall k, 0 <= k < n -> 0 <= word o k < 2 ^ 32) /\
              wide_val (Z.to_nat n) 0 o = replicate_val (Z.to_nat i) lbits L)); [lia | |].
  - split.
    + intros k Hk. rewrite Hb by lia. destruct (Z.ltb_spec k m); [apply Hlr; lia | lia].
    + rewrite (wide_val_split n m) by lia. rewrite (wide_val_zero (Z.to_nat (n - m))).
      * change (Z.to_nat 1) with 1%nat. cbn [replicate_val].
        rewrite !Z.mul_0_r, !Z.add_0_r. apply wide_val_ext. intros k Hk.
        rewrite Hb by lia. destruct (Z.ltb_spec k m); [reflexivity | lia].
      * intros k Hk. rewrite Hb by lia. destruct (Z.ltb_spec k m); [lia | reflexivity].
  - intros i o Hi [Hor Hov].
    assert (Hw : VL_WORDS_I (i * lbits + lbits - 1 - i * lbits + 1) <= m).
    { replace (i * lbits + lbits - 1 - i * lbits + 1) with lbits by lia. fold m. lia. }
    split.
    + apply (_vl_insert_WW_range o lwp _ _ 0 n m); [nia | exact Hor | exact Hlr | exact Hw].
    + pose proof (replicate_val_range (Z.to_nat i) lbits L ltac:(lia) Hlv) as Hrv.
      replace (lbits * Z.of_nat (Z.to_nat i)) with (i * lbits) in Hrv by lia.
      rewrite (_vl_insert_WW_val o lwp _ _ 0 n m);
        [| nia | left; reflexivity | nia | exact Hor | exact Hlr | exact Hw].
      rewrite Hov. fold L. rewrite insert_above by (try lia; try nia; assumption).
      replace (Z.to_nat (i + 1)) with (Datatypes.S (Z.to_nat i)) by lia.
      rewrite replicate_val_snoc by lia.
      replace (lbits * Z.of_nat (Z.to_nat i)) with (i * lbits) by lia. lia.
Qed.

(** ** Quad and wide select *)

Lemma QData_land x : QData x = Z.land x (Z.ones 64).
Proof. apply wrap_land. lia. Qed.

Lemma QData_word x : 0 <= x < 2 ^ 32 -> QData x = x.
Proof.
  intros H. apply wrap_small. change (2 ^ 32) with 4294967296 in H.
  change (2 ^ 64) with 18446744073709551616. lia.
Qed.

Lemma VL_SEL_QWII_val lbits (lwp : WData) lsb width :
  0 <= lsb -> 1 <= width <= 64 -> lsb + width <= lbits -> lbits < 2 ^ 31 ->
  (forall k, 0 <= k < VL_WORDS_I lbits -> 0 <= word lwp k < 2 ^ 32) ->
  Z.land (VL_SEL_QWII lbits lwp lsb width) (Z.ones width)
  = Z.land (Z.shiftr (wide_val (Z.to_nat (VL_WORDS_I lbits)) 0 lwp) lsb) (Z.ones width).
Proof.
  intros Hlsb Hwd Hin Hlb Hr. unfold VL_SEL_QWII. cbv zeta.
  assert (Hm : int32_t (IData (lsb + width - 1)) = lsb + width - 1).
  { unfold IData. rewrite (wrap_small 32) by lia. apply int32_t_small. lia. }
  rewrite Hm, (int32_t_small lsb) by lia.
  rewrite Z.gtb_ltb. destruct (Z.ltb_spec lbits (lsb + width - 1)) as [|_]; [lia |].
  pose proof (top_bits_range lbits ltac:(lia)) as Ht.
  set (n := VL_WORDS_I lbits) in *.
  unfold VL_BITRSHIFT_W, VL_EDATASIZE.
  destruct (bit_split (lsb + width - 1)) as [Eh Hho]. destruct (bit_split lsb) as [El Hlo].
  set (hw := VL_BITWORD_E (lsb + width - 1)) in *. set (ho := VL_BITBIT_E (lsb + width - 1)) in *.
  set (lw := VL_BITWORD_E lsb) in *. set (lo := VL_BITBIT_E lsb) in *.
  assert (Hhw : 0 <= lw /\ hw < n /\ (hw = lw \/ hw = lw + 1 \/ hw = lw + 2)) by lia.
  pose proof (Hr lw ltac:(lia)) as Hw0.
  apply Z.bits_inj'. intros i Hi.
  rewrite !Z.land_spec. rewrite Z.testbit_ones by lia.
  destruct (Z.leb_spec 0 i); [| lia]. destruct (Z.ltb_spec i width); cbn [andb];
    [| rewrite !andb_false_r; reflexivity].
  rewrite !andb_true_r. rewrite Z.shiftr_spec by lia.
  assert (HV : forall q r, 0 <= q < n -> 0 <= r < 32 ->
            Z.testbit (wide_val (Z.to_nat n) 0 lwp) (32 * q + r) = Z.testbit (word lwp q) r).
  { intros q r Hq Hrr. apply wide_val_bit; [intros k Hk; apply Hr; lia | lia | lia]. }
  destruct (Z.eqb_spec hw lw) as [E1|E1].
  - replace (i + lsb) with (32 * lw + (i + lo)) by lia. rewrite HV by lia.
    rewrite Z.shiftr_spec by lia. reflexivity.
  - destruct (Z.eqb_spec hw (1 + lw)) as [E2|E2].
    + pose proof (Hr hw ltac:(lia)) as Hw1.
      rewrite (QData_word (word lwp hw)) by assumption.
      rewrite (QData_word (Z.shiftr _ _)) by (apply shiftr_word_range; lia).
      rewrite Z.lor_spec, QData_land, Z.land_spec, Z.shiftl_spec, Z.shiftr_spec by lia.
      rewrite Z.ones_spec_low by lia. rewrite andb_true_r.
      destruct (Z.lt_ge_cases (i + lo) 32) as [Hlow|Hhigh].
      * replace (i + lsb) with (32 * lw + (i + lo)) by lia. rewrite HV by lia.
        rewrite (Z.testbit_neg_r _ (i - (32 - lo))) by lia. reflexivity.
      * replace (i + lsb) with (32 * hw + (i + lo - 32)) by lia. rewrite HV by lia.
        rewrite (testbit_above (word lwp lw) 32 (i + lo)) by lia.
        rewrite orb_false_r. f_equal. lia.
    + assert (E3 : hw = lw + 2) by lia.
      pose proof (Hr hw ltac:(lia)) as Hw2. pose proof (Hr (lw + 1) ltac:(lia)) as Hw1.
      rewrite (QData_word (word lwp hw)) by assumption.
      rewrite (QData_word (word lwp (lw + 1))) by assumption.
      rewrite (QData_word (Z.shiftr _ _)) by (apply shiftr_word_range; lia).
      rewrite !Z.lor_spec, !QData_land, !Z.land_spec, !Z.shiftl_spec, Z.shiftr_spec by lia.
      rewrite Z.ones_spec_low by lia. rewrite !andb_true_r.
      destruct (Z.lt_ge_cases (i + lo) 32) as [Hlow|Hhigh].
      * replace (i + lsb) with (32 * lw + (i + lo)) by lia. rewrite HV by lia.
        rewrite (Z.testbit_neg_r _ (i - (32 - lo + 32))) by lia.
        rewrite (Z.testbit_neg_r _ (i - (32 - lo))) by lia. reflexivity.
      * destruct (Z.lt_ge_cases (i + lo) 64) as [Hmid|Htop].
        -- replace (i + lsb) with (32 * (lw + 1) + (i + lo - 32)) by lia. rewrite HV by lia.
           rewrite (Z.testbit_neg_r _ (i - (32 - lo + 32))) by lia.
           rewrite (testbit_above (word lwp lw) 32 (i + lo)) by lia.
           rewrite orb_false_r. cbn [orb]. f_equal. lia.
        -- replace (i + lsb) with (32 * hw + (i + lo - 64)) by lia. rewrite HV by lia.
           rewrite (testbit_above (word lwp lw) 32 (i + lo)) by lia.
           rewrite (testbit_above (word lwp (lw + 1)) 32 (i - (32 - lo))) by lia.
           rewrite !orb_false_r. f_equal. lia.
Qed.

Lemma VL_SEL_WWII_val lbits (owp lwp : WData) lsb width :
  0 <= lsb -> 1 <= width -> lsb + width <= lbits -> lbits < 2 ^ 31 ->
  (forall k, 0 <= k < VL_WORDS_I lbits -> 0 <= word lwp k < 2 ^ 32) ->
  wide_val (Z.to_nat (VL_WORDS_I width)) 0 (VL_SEL_WWII width lbits owp lwp lsb width)
    mod 2 ^ width
  = Z.shiftr (wide_val (Z.to_nat (VL_WORDS_I lbits)) 0 lwp) lsb mod 2 ^ width.
Proof.
  intros Hlsb Hwd Hin Hlb Hr. unfold VL_SEL_WWII. cbv zeta.
  assert (Hm : int32_t (IData (lsb + width - 1)) = lsb + width - 1).
  { unfold IData. rewrite (wrap_small 32) by lia. apply int32_t_small. lia. }
  rewrite Hm.
  rewrite Z.gtb_ltb. destruct (Z.ltb_spec lbits (lsb + width - 1)) as [|_]; [lia |].
  pose proof (top_bits_range lbits ltac:(lia)) as Ht.
  pose proof (top_bits_range width ltac:(lia)) as Htw.
  set (n := VL_WORDS_I lbits) in *.
  replace (lsb + width - 1 - lsb + 1) with width by lia.
  set (m := VL_WORDS_I width) in *.
  set (V := wide_val (Z.to_nat n) 0 lwp).
  destruct (bit_split (lsb + width - 1)) as [Eh Hho]. destruct (bit_split lsb) as [El Hlo].
  set (hw := VL_BITWORD_E (lsb + width - 1)) in *.
  set (lw := VL_BITWORD_E lsb) in *. set (lo := VL_BITBIT_E lsb) in *.
  assert (Hhw : 0 <= lw /\ hw < n) by lia.
  assert (HV : forall q r, 0 <= q < n -> 0 <= r < 32 ->
            Z.testbit V (32 * q + r) = Z.testbit (word lwp q) r).
  { intros q r Hq Hrr. apply wide_val_bit; [intros k Hk; apply Hr; lia | lia | lia]. }
  assert (Hsuff : forall out : WData,
            (forall k, 0 <= k < m -> 0 <= word out k < 2 ^ 32) ->
            (forall q r, 0 <= q -> 0 <= r < 32 -> 32 * q + r < width ->
               Z.testbit (word out q) r = Z.testbit V (32 * q + r + lsb)) ->
            wide_val (Z.to_nat m) 0 out mod 2 ^ width = Z.shiftr V lsb mod 2 ^ width).
  { intros out Hor Hbits. rewrite <- !Z.land_ones by lia.
    apply Z.bits_inj'. intros i Hi.
    rewrite !Z.land_spec. rewrite Z.testbit_ones by lia.
    destruct (Z.leb_spec 0 i); [| lia]. destruct (Z.ltb_spec i width); cbn [andb];
      [| rewrite !andb_false_r; reflexivity].
    rewrite !andb_true_r. rewrite Z.shiftr_spec by lia.
    destruct (bit_pos i Hi) as (Ei & Hmm & Hd). rewrite Ei at 1.
    rewrite wide_val_bit by (try lia; intros k Hk; apply Hor; lia).
    rewrite Hbits by lia. rewrite <- Ei. reflexivity. }
  unfold VL_SIZEBITS_E, VL_EDATASIZE. change (32 - 1) with 31.
  replace (Z.land lsb 31) with lo by reflexivity.
  destruct (Z.eqb_spec lo 0) as [Hlo0|Hlo0].
  - (* whole words *)
    set (out := for_loop 0 m _ owp).
    assert (Hout : forall k, 0 <= k < m -> word out k = word lwp (k + lw)).
    { intros k Hk. unfold out. rewrite (word_for_loop_store (fun i => word lwp (i + lw))).
      destruct (Z.leb_spec 0 k), (Z.ltb_spec k m); cbn [andb]; try lia; reflexivity. }
    apply Hsuff.
    + intros k Hk. rewrite Hout by lia. apply Hr. lia.
    + intros q r Hq Hrr Hp. rewrite Hout by lia.
      replace (32 * q + r + lsb) with (32 * (q + lw) + r) by lia.
      rewrite HV by lia. reflexivity.
  - (* funnel *)
    set (out := for_loop m m (fun i o => <[i := 0]> o) _).
    assert (Hout : forall k, 0 <= k < m ->
              word out k
              = if k + lw + 1 <=? hw
                then Z.lor (Z.shiftr (word lwp (k + lw)) lo)
                           (EData (Z.shiftl (word lwp (k + lw + 1)) (32 - lo)))
                else Z.shiftr (word lwp (k + lw)) lo).
    { intros k Hk. unfold out. rewrite for_loop_empty by lia.
      rewrite (funnel_loop_word lwp owp lw lo (32 - lo) m (fun u => u <=? hw)).
      destruct (Z.leb_spec 0 k), (Z.ltb_spec k m); cbn [andb]; try lia; reflexivity. }
    assert (Hsrc : forall k, 0 <= k < m -> k + lw <= hw) by (intros k Hk; lia).
    apply Hsuff.
    + intros k Hk. rewrite Hout by lia. pose proof (Hsrc k Hk).
      destruct (Z.leb_spec (k + lw + 1) hw).
      * apply lor_word_range; [apply shiftr_word_range; [apply Hr |]; lia | apply EData_range].
      * apply shiftr_word_range; [apply Hr |]; lia.
    + intros q r Hq Hrr Hp. rewrite Hout by lia.
      pose proof (Hr (q + lw) ltac:(lia)) as Hw1.
      destruct (Z.lt_ge_cases (r + lo) 32) as [Hlow|Hhigh].
      * replace (32 * q + r + lsb) with (32 * (q + lw) + (r + lo)) by lia.
        rewrite HV by lia.
        destruct (Z.leb_spec (q + lw + 1) hw).
        -- rewrite Z.lor_spec, EData_land, Z.land_spec, Z.shiftl_spec, Z.shiftr_spec by lia.
           rewrite (Z.testbit_neg_r _ (r - (32 - lo))) by lia.
           cbn [andb]. rewrite orb_false_r. reflexivity.
        -- rewrite Z.shiftr_spec by lia. reflexivity.
      * replace (32 * q + r + lsb) with (32 * (q + lw + 1) + (r + lo - 32)) by lia.
        rewrite HV by lia.
        destruct (Z.leb_spec (q + lw + 1) hw); [| lia].
        rewrite Z.lor_spec, EData_land, Z.land_spec, Z.shiftl_spec, Z.shiftr_spec by lia.
        rewrite (testbit_above (word lwp (q + lw)) 32 (r + lo)) by lia.
        rewrite Z.ones_spec_low by lia. rewrite andb_true_r. cbn [orb].
        f_equal. lia.
Qed.

(** ** Sign extension of a word and a quad; copies *)

Lemma wide_clean_of_val W (wp : WData) :
  1 <= W ->
  0 <= word wp (VL_WORDS_I W - 1) < 2 ^ (W - 32 * (VL_WORDS_I W - 1)) ->
  wide_clean W wp = true.
Proof.
  intros HW Hv. pose proof (top_bits_range W HW) as Ht.
  unfold wide_clean. cbv zeta. apply Z.eqb_eq.
  rewrite VL_MASK_E_top, Z.land_ones by lia. apply Z.mod_small. exact Hv.
Qed.

(** Sign extension of a word is sign extension of the one-word buffer that
    holds it. *)
Lemma VL_EXTENDS_WI_val obits lbits (owp : WData) ld :
  1 <= lbits <= 32 -> lbits <= obits -> 0 <= ld < 2 ^ lbits ->
  wide_val (Z.to_nat (VL_WORDS_I obits)) 0 (VL_EXTENDS_WI obits lbits owp ld)
  = signed_val lbits ld mod 2 ^ (32 * VL_WORDS_I obits).
Proof.
  intros Hl Ho Hld.
  assert (Hw : VL_WORDS_I lbits = 1).
  { rewrite VL_WORDS_I_div by lia. Z.div_mod_to_equations. lia. }
  assert (Hld32 : 0 <= ld < 2 ^ 32).
  { assert (2 ^ lbits <= 2 ^ 32) by (apply Z.pow_le_mono_r; lia). lia. }
  set (lwp := <[0 := ld]> (∅ : WData)).
  assert (E0 : word lwp 0 = ld) by apply word_insert_eq.
  assert (E : VL_EXTENDS_WI obits lbits owp ld = VL_EXTENDS_WW obits lbits owp lwp).
  { unfold VL_EXTENDS_WI, VL_EXTENDS_WW. cbv zeta. rewrite Hw.
    change (1 - 1) with 0. rewrite E0, !word_insert_eq.
    unfold VL_MEMCPY_W. rewrite for_loop_empty by lia. reflexivity. }
  rewrite E. rewrite VL_EXTENDS_WW_val.
  - rewrite Hw. change (Z.to_nat 1) with 1%nat. cbn [wide_val]. rewrite E0.
    rewrite Z.mul_0_r, Z.add_0_r. reflexivity.
  - lia.
  - rewrite Hw. intros k Hk. replace k with 0 by lia. rewrite E0. exact Hld32.
  - apply wide_clean_of_val; [lia |]. rewrite Hw. change (1 - 1) with 0.
    rewrite E0, Z.mul_0_r, Z.sub_0_r. exact Hld.
Qed.

(** Sign extension of a quad is sign extension of the two-word buffer that
    holds it. *)
Lemma VL_EXTENDS_WQ_val obits lbits (owp : WData) ld :
  33 <= lbits <= 64 -> lbits <= obits -> 0 <= ld < 2 ^ lbits ->
  wide_val (Z.to_nat (VL_WORDS_I obits)) 0 (VL_EXTENDS_WQ obits lbits owp ld)
  = signed_val lbits ld mod 2 ^ (32 * VL_WORDS_I obits).
Proof.
  intros Hl Ho Hld.
  assert (Hw : VL_WORDS_I lbits = 2).
  { rewrite VL_WORDS_I_div by lia. Z.div_mod_to_equations. lia. }
  assert (Hld64 : 0 <= ld < 2 ^ 64).
  { assert (2 ^ lbits <= 2 ^ 64) by (apply Z.pow_le_mono_r; lia). lia. }
  set (lwp := VL_SET_WQ ∅ ld).
  assert (E0 : word lwp 0 = IData ld).
  { unfold lwp, VL_SET_WQ. rewrite word_insert_ne by lia. apply word_insert_eq. }
  assert (E1 : word lwp 1 = IData (Z.shiftr ld VL_EDATASIZE)).
  { unfold lwp, VL_SET_WQ. apply word_insert_eq. }
  assert (Hhi : Z.shiftr ld VL_EDATASIZE = ld / 2 ^ 32).
  { unfold VL_EDATASIZE. apply Z.shiftr_div_pow2. lia. }
  assert (Hhi' : 0 <= ld / 2 ^ 32 < 2 ^ (lbits - 32)).
  { split; [apply Z.div_pos; lia |]. apply Z.div_lt_upper_bound; [lia |].
    rewrite <- Z.pow_add_r by lia. replace (32 + (lbits - 32)) with lbits by lia. lia. }
  assert (Hhi32 : 0 <= ld / 2 ^ 32 < 2 ^ 32).
  { assert (2 ^ (lbits - 32) <= 2 ^ 32) by (apply Z.pow_le_mono_r; lia). lia. }
  assert (Ev : wide_val 2 0 lwp = ld).
  { cbn [wide_val]. change (0 + 1) with 1. rewrite E0, E1, Hhi. unfold IData.
    rewrite (wrap_small 32 (ld / 2 ^ 32)) by exact Hhi32. unfold wrap.
    pose proof (Z.div_mod ld (2 ^ 32) ltac:(lia)). lia. }
  assert (E : forall k, word (VL_EXTENDS_WQ obits lbits owp ld) k
                        = word (VL_EXTENDS_WW obits lbits owp lwp) k).
  { intros k. unfold VL_EXTENDS_WQ, VL_EXTENDS_WW. cbv zeta. rewrite Hw.
    change (2 - 1) with 1. unfold VL_WQ_WORDS_E.
    rewrite word_MEMCPY_W. rewrite E1.
    assert (Es : word (VL_SET_WQ owp ld) 1 = IData (Z.shiftr ld VL_EDATASIZE))
      by (unfold VL_SET_WQ; apply word_insert_eq).
    rewrite Es. rewrite !word_insert_eq.
    destruct (negb (VL_SIGN_E lbits (IData (Z.shiftr ld VL_EDATASIZE)) =? 0)).
    - rewrite !word_MEMSET_ONES_W_at.
      destruct (Z.leb_spec 2 k), (Z.ltb_spec k (2 + (VL_WORDS_I obits - 2))),
        (Z.leb_spec 0 k), (Z.ltb_spec k 1); cbn [andb]; try lia; try reflexivity;
        unfold lwp, VL_SET_WQ;
        repeat first [rewrite word_insert_at by lia | rewrite word_insert_ne by lia];
        reflexivity.
    - rewrite !word_MEMSET_ZERO_W_at.
      destruct (Z.leb_spec 2 k), (Z.ltb_spec k (2 + (VL_WORDS_I obits - 2))),
        (Z.leb_spec 0 k), (Z.ltb_spec k 1); cbn [andb]; try lia; try reflexivity;
        unfold lwp, VL_SET_WQ;
        repeat first [rewrite word_insert_at by lia | rewrite word_insert_ne by lia];
        reflexivity. }
  rewrite (wide_val_ext _ 0 _ (VL_EXTENDS_WW obits lbits owp lwp)) by (intros; apply E).
  rewrite VL_EXTENDS_WW_val.
  - rewrite Hw. change (Z.to_nat 2) with 2%nat. rewrite Ev. reflexivity.
  - lia.
  - rewrite Hw. intros k Hk. assert (Hk' : k = 0 \/ k = 1) by lia.
    destruct Hk' as [-> | ->]; [rewrite E0 | rewrite E1]; apply IData_range.
  - apply wide_clean_of_val; [lia |]. rewrite Hw. change (2 - 1) with 1.
    rewrite E1, Hhi. unfold IData. rewrite wrap_small by exact Hhi32.
    replace (lbits - 32 * 1) with (lbits - 32) by lia. exact Hhi'.
Qed.

Lemma VL_ASSIGN_W_val obits (owp lwp : WData) :
  wide_val (Z.to_nat (VL_WORDS_I obits)) 0 (VL_ASSIGN_W obits owp lwp)
  = wide_val (Z.to_nat (VL_WORDS_I obits)) 0 lwp.
Proof.
  apply wide_val_ext. intros k Hk. unfold VL_ASSIGN_W. rewrite word_MEMCPY_W.
  destruct (Z.leb_spec 0 k), (Z.ltb_spec k (VL_WORDS_I obits)); cbn [andb];
    first [reflexivity | lia].
Qed.

Lemma VL_CLEAN_WW_val obits (owp lwp : WData) :
  1 <= obits ->
  (forall k, 0 <= k < VL_WORDS_I obits -> 0 <= word lwp k < 2 ^ 32) ->
  wide_val (Z.to_nat (VL_WORDS_I obits)) 0 (VL_CLEAN_WW obits owp lwp)
  = wide_val (Z.to_nat (VL_WORDS_I obits)) 0 lwp mod 2 ^ obits /\
  wide_clean obits (VL_CLEAN_WW obits owp lwp) = true.
Proof.
  intros Ho Hr. pose proof (top_bits_range obits Ho) as Ht. split.
  - rewrite <- wide_val_clean by assumption.
    apply wide_val_ext. intros k Hk. unfold VL_CLEAN_WW, _vl_clean_inplace_w. cbv zeta.
    destruct (Z.eq_dec (VL_WORDS_I obits - 1) k) as [<-|Hne].
    + rewrite !word_insert_eq. reflexivity.
    + rewrite !word_insert_ne by exact Hne. rewrite word_MEMCPY_W.
      destruct (Z.leb_spec 0 k), (Z.ltb_spec k (VL_WORDS_I obits - 1)); cbn [andb];
        first [reflexivity | lia].
  - unfold wide_clean, VL_CLEAN_WW. cbv zeta. rewrite word_insert_eq.
    apply Z.eqb_eq. rewrite <- Z.land_assoc, Z.land_diag. reflexivity.
Qed.

(** ** Wide arithmetic right shift *)

(** The bits of one word of the funnel: bit [r] of output word [q] is bit
    [32 q + r + rd] of the integer held by the source. *)
Lemma funnel_word_bits n (lwp : WData) ws lo q r :
  (forall k, 0 <= k < n -> 0 <= word lwp k < 2 ^ 32) ->
  0 <= ws -> 0 < lo < 32 -> 0 <= q -> q + ws < n -> 0 <= r < 32 ->
  Z.testbit (if q + ws + 1 <? n
             then Z.lor (Z.shiftr (word lwp (q + ws)) lo)
                        (EData (Z.shiftl (word lwp (q + ws + 1)) (32 - lo)))
             else Z.shiftr (word lwp (q + ws)) lo) r
  = Z.testbit (wide_val (Z.to_nat n) 0 lwp) (32 * q + r + (32 * ws + lo)).
Proof.
  intros Hr Hws Hlo Hq Hqs Hrr.
  assert (HV : forall q r, 0 <= q -> 0 <= r < 32 ->
            Z.testbit (wide_val (Z.to_nat n) 0 lwp) (32 * q + r)
            = if q <? n then Z.testbit (word lwp q) r else false).
  { intros q' r' Hq' Hr'. destruct (Z.ltb_spec q' n).
    - apply wide_val_bit; [intros k Hk; apply Hr; lia | lia | lia].
    - apply wide_val_testbit_high; [intros k Hk; apply Hr; lia | lia]. }
  pose proof (Hr (q + ws) ltac:(lia)) as Hw1.
  destruct (Z.lt_ge_cases (r + lo) 32) as [Hlow|Hhigh].
  - replace (32 * q + r + (32 * ws + lo)) with (32 * (q + ws) + (r + lo)) by lia.
    rewrite HV by lia. destruct (Z.ltb_spec (q + ws) n); [| lia].
    destruct (Z.ltb_spec (q + ws + 1) n).
    + rewrite Z.lor_spec, EData_land, Z.land_spec, Z.shiftl_spec, Z.shiftr_spec by lia.
      rewrite (Z.testbit_neg_r _ (r - (32 - lo))) by lia.
      cbn [andb]. rewrite orb_false_r. reflexivity.
    + rewrite Z.shiftr_spec by lia. reflexivity.
  - replace (32 * q + r + (32 * ws + lo)) with (32 * (q + ws + 1) + (r + lo - 32)) by lia.
    rewrite HV by lia.
    destruct (Z.ltb_spec (q + ws + 1) n).
    + rewrite Z.lor_spec, EData_land, Z.land_spec, Z.shiftl_spec, Z.shiftr_spec by lia.
      rewrite (testbit_above (word lwp (q + ws)) 32 (r + lo)) by lia.
      rewrite Z.ones_spec_low by lia. rewrite andb_true_r. cbn [orb].
      f_equal. lia.
    + rewrite Z.shiftr_spec by lia.
      apply (testbit_above (word lwp (q + ws)) 32); lia.
Qed.

Lemma VL_MASK_E_mod k e :
  1 <= e <= 32 -> k mod 32 = e mod 32 -> VL_MASK_E k = Z.ones e.
Proof.
  intros He Hk. unfold VL_MASK_E. rewrite VL_MASK_I_ones. rewrite Hk.
  destruct (Z.eq_dec e 32) as [->|Hne]; [reflexivity |].
  rewrite Z.mod_small by lia. destruct (Z.eqb_spec e 0); [lia | reflexivity].
Qed.

(** The sign word is all ones or all zeros, as the sign bit of the integer. *)
Lemma VL_SIGNONES_E_of_val W (wp : WData) r :
  1 <= W ->
  (forall k, 0 <= k < VL_WORDS_I W -> 0 <= word wp k < 2 ^ 32) ->
  wide_clean W wp = true -> 0 <= r < 32 ->
  0 <= VL_SIGNONES_E W (word wp (VL_WORDS_I W - 1)) < 2 ^ 32 /\
  Z.testbit (VL_SIGNONES_E W (word wp (VL_WORDS_I W - 1))) r
  = Z.testbit (wide_val (Z.to_nat (VL_WORDS_I W)) 0 wp) (W - 1).
Proof.
  intros HW Hr Hc Hrr. unfold VL_SIGNONES_E. rewrite sign_of_val by assumption.
  split; [apply EData_range |].
  destruct (Z.testbit _ (W - 1)).
  - change (EData (Z.opp 1)) with (Z.ones 32). apply Z.ones_spec_low. lia.
  - change (EData (Z.opp 0)) with 0. apply Z.bits_0.
Qed.

(** The wide arithmetic right shift of a clean [W]-bit value: the result
    holds floor(s / 2^rd) modulo 2^W, [s] being the two's-complement
    reading of the operand, on each of the three paths. *)
Lemma VL_SHIFTRS_WWI_val W rbits (owp lwp : WData) rd :
  1 <= W < 2 ^ 31 -> 0 <= rd ->
  (forall k, 0 <= k < VL_WORDS_I W -> 0 <= word lwp k < 2 ^ 32) ->
  wide_clean W lwp = true ->
  wide_val (Z.to_nat (VL_WORDS_I W)) 0 (VL_SHIFTRS_WWI W W rbits owp lwp rd)
  = Z.shiftr (signed_val W (wide_val (Z.to_nat (VL_WORDS_I W)) 0 lwp)) rd mod 2 ^ W.
Proof.
  intros HW Hrd Hr Hc. pose proof (top_bits_range W ltac:(lia)) as Ht.
  pose proof (wide_val_clean_range W lwp ltac:(lia) Hr Hc) as Hv.
  pose proof (wide_clean_range W lwp ltac:(lia) Hc) as Htopr.
  assert (HS : 0 <= VL_SIGNONES_E W (word lwp (VL_WORDS_I W - 1)) < 2 ^ 32 /\
               forall r, 0 <= r < 32 ->
                 Z.testbit (VL_SIGNONES_E W (word lwp (VL_WORDS_I W - 1))) r
                 = Z.testbit (wide_val (Z.to_nat (VL_WORDS_I W)) 0 lwp) (W - 1)).
  { split.
    - apply (VL_SIGNONES_E_of_val W lwp 0); try assumption; lia.
    - intros r Hrr. apply VL_SIGNONES_E_of_val; try assumption; lia. }
  destruct HS as [HSr HSb].
  unfold VL_SHIFTRS_WWI. cbv zeta.
  unfold IData. rewrite (wrap_small 32 W) by lia.
  rewrite (VL_MASK_E_top W) by lia.
  set (V := wide_val (Z.to_nat (VL_WORDS_I W)) 0 lwp) in *.
  set (S := VL_SIGNONES_E W (word lwp (VL_WORDS_I W - 1))) in *.
  set (n := VL_WORDS_I W) in *. set (t := W - 32 * (n - 1)) in *.
  set (sb := Z.testbit V (W - 1)) in *.
  destruct (bit_split rd) as [Erd Hlo].
  set (ws := VL_BITWORD_E rd) in *. set (lo := VL_BITBIT_E rd) in *.
  assert (Hws : 0 <= ws) by lia.
  assert (Htop : forall r, t <= r -> Z.testbit (word lwp (n - 1)) r = false).
  { intros r Hrr. apply (testbit_above _ t); [exact Htopr | exact Hrr]. }
  assert (HV : forall q r, 0 <= q -> 0 <= r < 32 ->
            Z.testbit V (32 * q + r) = if q <? n then Z.testbit (word lwp q) r else false).
  { intros q r Hq Hrr. destruct (Z.ltb_spec q n).
    - unfold V. apply wide_val_bit; [intros k Hk; apply Hr; lia | lia | lia].
    - apply (testbit_above V W); lia. }
  (* it suffices to know every bit of the buffer before the last mask *)
  assert (Hfin : forall pre : WData,
            (forall k, 0 <= k < n -> 0 <= word pre k < 2 ^ 32) ->
            (forall q r, 0 <= q < n -> 0 <= r < 32 -> 32 * q + r < W ->
               Z.testbit (word pre q) r
               = if 32 * q + r + rd <? W then Z.testbit V (32 * q + r + rd) else sb) ->
            wide_val (Z.to_nat n) 0 (<[n - 1 := Z.land (word pre (n - 1)) (Z.ones t)]> pre)
            = Z.shiftr (signed_val W V) rd mod 2 ^ W).
  { intros pre Hpr Hbits.
    assert (Hor : forall k, 0 <= k < n ->
              0 <= word (<[n - 1 := Z.land (word pre (n - 1)) (Z.ones t)]> pre) k < 2 ^ 32).
    { intros k Hk. destruct (Z.eq_dec (n - 1) k) as [<-|Hne].
      - rewrite word_insert_eq. apply land_range_l. apply Hpr. lia.
      - rewrite word_insert_ne by exact Hne. apply Hpr. exact Hk. }
    rewrite <- Z.land_ones by lia.
    apply Z.bits_inj'. intros i Hi.
    rewrite Z.land_spec, Z.testbit_ones, Z.shiftr_spec by lia.
    rewrite signed_val_bits by lia. fold sb.
    destruct (Z.leb_spec 0 i); [| lia]. cbn [andb].
    destruct (Z.lt_ge_cases i (32 * n)) as [Hlt|Hge].
    - destruct (bit_pos i Hi) as (Ei & Hm & Hd). rewrite Ei at 1.
      rewrite wide_val_bit by (try lia; intros k Hk; apply Hor; lia).
      destruct (Z.eq_dec (n - 1) (i / 32)) as [Eq|Hne].
      + rewrite <- Eq. rewrite word_insert_eq. rewrite Z.land_spec.
        rewrite Z.testbit_ones by lia.
        destruct (Z.leb_spec 0 (i mod 32)); [| lia]. cbn [andb].
        destruct (Z.ltb_spec (i mod 32) t), (Z.ltb_spec i W); try lia;
          rewrite ?andb_false_r, ?andb_true_r; try reflexivity.
        rewrite Eq. rewrite Hbits by lia. rewrite <- Ei. reflexivity.
      + rewrite word_insert_ne by exact Hne.
        destruct (Z.ltb_spec i W); [| lia]. rewrite andb_true_r.
        rewrite Hbits by lia. rewrite <- Ei. reflexivity.
    - rewrite wide_val_testbit_high by (try lia; intros k Hk; apply Hor; lia).
      destruct (Z.ltb_spec i W); [lia |]. rewrite andb_false_r. reflexivity. }
  destruct (Z.geb_spec rd W) as [Hover|Hin].
  - (* everything is shifted out *)
    apply Hfin.
    + intros k Hk. rewrite (word_for_loop_store (fun _ => S)).
      destruct (Z.leb_spec 0 k), (Z.ltb_spec k (n - 1 + 1)); cbn [andb]; lia.
    + intros q r Hq Hrr Hp. rewrite (word_for_loop_store (fun _ => S)).
      destruct (Z.leb_spec 0 q), (Z.ltb_spec q (n - 1 + 1)); cbn [andb]; try lia.
      rewrite HSb by lia. destruct (Z.ltb_spec (32 * q + r + rd) W); [lia | reflexivity].
  - unfold VL_SIZEBITS_E, VL_EDATASIZE. change (32 - 1) with 31.
    replace (Z.land rd 31) with lo by reflexivity.
    destruct (Z.eqb_spec lo 0) as [Hlo0|Hlo0].
    + (* whole words *)
      assert (Hcw : 1 <= n - ws <= n) by lia.
      destruct (Z.geb_spec (n - ws) 0) as [_|]; [| lia].
      set (cw := n - ws) in *.
      match goal with
      | |- wide_val _ _ (<[_ := Z.land (word ?o _) _]> _) = _ => set (pre := o)
      end.
      assert (Hpre : forall q, 0 <= q < n ->
                word pre q
                = if cw <=? q then S
                  else if q =? cw - 1
                       then Z.lor (word lwp (n - 1)) (Z.land (bnot 32 (Z.ones t)) S)
                       else word lwp (q + ws)).
      { intros q Hq. unfold pre. rewrite (word_for_loop_store (fun _ => S)).
        destruct (Z.leb_spec cw q), (Z.ltb_spec q n); cbn [andb]; try (exfalso; lia);
          try reflexivity.
        destruct (Z.eqb_spec q (cw - 1)) as [->|Hne].
        - rewrite word_insert_eq. rewrite (word_for_loop_store (fun i => word lwp (i + ws))).
          destruct (Z.leb_spec 0 (cw - 1)), (Z.ltb_spec (cw - 1) cw); cbn [andb];
            try (exfalso; lia).
          replace (cw - 1 + ws) with (n - 1) by lia. reflexivity.
        - rewrite word_insert_ne by lia.
          rewrite (word_for_loop_store (fun i => word lwp (i + ws))).
          destruct (Z.leb_spec 0 q), (Z.ltb_spec q cw); cbn [andb];
            first [reflexivity | lia]. }
      apply Hfin.
      * intros k Hk. rewrite Hpre by lia.
        destruct (Z.leb_spec cw k); [exact HSr |].
        destruct (Z.eqb_spec k (cw - 1)).
        -- apply lor_word_range; [apply Hr; lia | apply land_range_r; exact HSr].
        -- apply Hr. lia.
      * intros q r Hq Hrr Hp. rewrite Hpre by lia.
        destruct (Z.leb_spec cw q).
        -- rewrite HSb by lia.
           destruct (Z.ltb_spec (32 * q + r + rd) W); [lia | reflexivity].
        -- destruct (Z.eqb_spec q (cw - 1)) as [Eq|Hne].
           ++ rewrite Z.lor_spec, Z.land_spec, bnot_land, Z.land_spec, Z.lnot_spec by lia.
              rewrite !Z.testbit_ones by lia. rewrite HSb by lia.
              destruct (Z.leb_spec 0 r); [| lia].
              destruct (Z.ltb_spec r 32); [| lia]. cbn [andb]. rewrite andb_true_r.
              replace (32 * q + r + rd) with (32 * (n - 1) + r) by lia.
              destruct (Z.ltb_spec r t).
              ** cbn [negb andb]. rewrite orb_false_r.
                 destruct (Z.ltb_spec (32 * (n - 1) + r) W); [| lia].
                 rewrite HV by lia. destruct (Z.ltb_spec (n - 1) n); [reflexivity | lia].
              ** cbn [negb andb]. rewrite Htop by lia. cbn [orb].
                 destruct (Z.ltb_spec (32 * (n - 1) + r) W); [lia | reflexivity].
           ++ replace (32 * q + r + rd) with (32 * (q + ws) + r) by lia.
              destruct (Z.ltb_spec (32 * (q + ws) + r) W); [| lia].
              rewrite HV by lia. destruct (Z.ltb_spec (q + ws) n); [reflexivity | lia].
    + (* funnel shift *)
      pose proof (top_bits_range (W - rd) ltac:(lia)) as Ht'.
      set (m := VL_WORDS_I (W - rd)) in *.
      assert (Hm : 1 <= m <= n).
      { split; [lia |]. unfold m, n. rewrite !VL_WORDS_I_div by lia.
        apply Z.div_le_mono; lia. }
      destruct (Z.eqb_spec m 0) as [|_]; [lia |]. cbn [negb].
      set (e := W - rd - 32 * (m - 1)) in *.
      rewrite (VL_MASK_E_mod (W - lo) e);
        [| lia | unfold e; rewrite Erd;
                 replace (W - lo) with (W - (32 * ws + lo) - 32 * (m - 1) + (ws + (m - 1)) * 32)
                   by lia;
                 apply Z.mod_add; lia].
      match goal with
      | |- wide_val _ _ (<[_ := Z.land (word ?o _) _]> _) = _ => set (pre := o)
      end.
      assert (Hpre : forall q, 0 <= q < n ->
                word pre q
                = if m <=? q then S
                  else
                    let F := if q + ws + 1 <? n
                             then Z.lor (Z.shiftr (word lwp (q + ws)) lo)
                                        (EData (Z.shiftl (word lwp (q + ws + 1)) (32 - lo)))
                             else Z.shiftr (word lwp (q + ws)) lo in
                    if q =? m - 1 then Z.lor F (Z.land S (bnot 32 (Z.ones e))) else F).
      { intros q Hq. unfold pre. rewrite (word_for_loop_store (fun _ => S)).
        destruct (Z.leb_spec m q), (Z.ltb_spec q n); cbn [andb]; try (exfalso; lia);
          try reflexivity.
        cbv zeta. destruct (Z.eqb_spec q (m - 1)) as [->|Hne].
        - rewrite word_insert_eq.
          rewrite (funnel_loop_word lwp owp ws lo (32 - lo) m (fun u => u <? n)).
          destruct (Z.leb_spec 0 (m - 1)), (Z.ltb_spec (m - 1) m); cbn [andb];
            first [reflexivity | lia].
        - rewrite word_insert_ne by lia.
          rewrite (funnel_loop_word lwp owp ws lo (32 - lo) m (fun u => u <? n)).
          destruct (Z.leb_spec 0 q), (Z.ltb_spec q m); cbn [andb];
            first [reflexivity | lia]. }
      assert (Hsrc : forall k, 0 <= k < m -> k + ws < n).
      { intros k Hk. assert (32 * k < W - rd) by lia. lia. }
      assert (HFr : forall k, 0 <= k < m ->
                0 <= (if k + ws + 1 <? n
                      then Z.lor (Z.shiftr (word lwp (k + ws)) lo)
                                 (EData (Z.shiftl (word lwp (k + ws + 1)) (32 - lo)))
                      else Z.shiftr (word lwp (k + ws)) lo) < 2 ^ 32).
      { intros k Hk. pose proof (Hsrc k Hk).
        destruct (Z.ltb_spec (k + ws + 1) n).
        - apply lor_word_range; [apply shiftr_word_range; [apply Hr |]; lia | apply EData_range].
        - apply shiftr_word_range; [apply Hr |]; lia. }
      apply Hfin.
      * intros k Hk. rewrite Hpre by lia. cbv zeta.
        destruct (Z.leb_spec m k); [exact HSr |].
        destruct (Z.eqb_spec k (m - 1)).
        -- apply lor_word_range; [apply HFr; lia | apply land_range_l; exact HSr].
        -- apply HFr. lia.
      * intros q r Hq Hrr Hp. rewrite Hpre by lia. cbv zeta.
        destruct (Z.leb_spec m q).
        -- rewrite HSb by lia.
           destruct (Z.ltb_spec (32 * q + r + rd) W); [lia | reflexivity].
        -- pose proof (funnel_word_bits n lwp ws lo q r Hr Hws ltac:(lia) ltac:(lia)
                         (Hsrc q ltac:(lia)) Hrr) as HF.
           fold V in HF. rewrite <- Erd in HF.
           destruct (Z.eqb_spec q (m - 1)) as [Eq|Hne].
           ++ rewrite Z.lor_spec, HF, Z.land_spec, bnot_land, Z.land_spec, Z.lnot_spec by lia.
              rewrite !Z.testbit_ones by lia. rewrite HSb by lia.
              destruct (Z.leb_spec 0 r); [| lia].
              destruct (Z.ltb_spec r 32); [| lia]. cbn [andb]. rewrite andb_true_r.
              destruct (Z.ltb_spec r e).
              ** cbn [negb]. rewrite andb_false_r, orb_false_r.
                 destruct (Z.ltb_spec (32 * q + r + rd) W); [reflexivity | lia].
              ** cbn [negb]. rewrite andb_true_r.
                 destruct (Z.ltb_spec (32 * q + r + rd) W); [lia |].
                 rewrite (testbit_above V W) by lia. reflexivity.
           ++ rewrite HF.
              destruct (Z.ltb_spec (32 * q + r + rd) W); [reflexivity | lia].
Qed.

(** ** Signed ordering macros; word and quad insert *)

Lemma VL_MASK_I_width k : 1 <= k <= 32 -> VL_MASK_I k = Z.ones k.
Proof.
  intros Hk. rewrite VL_MASK_I_ones. destruct (Z.eq_dec k 32) as [->|Hne]; [reflexivity |].
  rewrite Z.mod_small by lia. destruct (Z.eqb_spec k 0); [lia | reflexivity].
Qed.

Lemma VL_MASK_Q_width k : 1 <= k <= 64 -> VL_MASK_Q k = Z.ones k.
Proof.
  intros Hk. rewrite VL_MASK_Q_ones. destruct (Z.eq_dec k 64) as [->|Hne]; [reflexivity |].
  rewrite Z.mod_small by lia. destruct (Z.eqb_spec k 0); [lia | reflexivity].
Qed.

Lemma _vl_insert_II_val lhsr ld hbit lbit rbits :
  0 <= lbit <= hbit -> hbit < rbits <= 32 -> 0 <= lhsr < 2 ^ rbits ->
  _vl_insert_II lhsr ld hbit lbit rbits
  = Z.lor (Z.land lhsr (Z.lnot (Z.shiftl (Z.ones (hbit - lbit + 1)) lbit)))
          (Z.shiftl (Z.land ld (Z.ones (hbit - lbit + 1))) lbit) /\
  0 <= _vl_insert_II lhsr ld hbit lbit rbits < 2 ^ rbits.
Proof.
  intros Hlh Hr Hl. unfold _vl_insert_II. cbv zeta.
  rewrite !VL_MASK_I_width by lia. unfold IData. rewrite !wrap_land, bnot_land by lia.
  assert (Hlb : forall i, rbits <= i -> Z.testbit lhsr i = false).
  { intros i Hi. apply (testbit_above lhsr rbits); assumption. }
  assert (E : Z.lor (Z.land lhsr (Z.land (Z.lnot (Z.land (Z.shiftl (Z.ones (hbit - lbit + 1)) lbit)
                                                       (Z.ones 32))) (Z.ones 32)))
                    (Z.land (Z.land (Z.shiftl ld lbit) (Z.ones 32))
                            (Z.land (Z.land (Z.shiftl (Z.ones (hbit - lbit + 1)) lbit)
                                            (Z.ones 32)) (Z.ones rbits)))
              = Z.lor (Z.land lhsr (Z.lnot (Z.shiftl (Z.ones (hbit - lbit + 1)) lbit)))
                      (Z.shiftl (Z.land ld (Z.ones (hbit - lbit + 1))) lbit)).
  { apply Z.bits_inj'. intros i Hi.
    destruct (Z.lt_ge_cases i rbits) as [Hlt|Hge].
    - Z.bitblast_core; simpl_bool_bits.
    - rewrite !Z.lor_spec, !Z.land_spec, (Hlb i Hge). cbn [andb orb].
      Z.bitblast_core; simpl_bool_bits. }
  rewrite E. split; [reflexivity |].
  assert (Ec : Z.land (Z.lor (Z.land lhsr (Z.lnot (Z.shiftl (Z.ones (hbit - lbit + 1)) lbit)))
                             (Z.shiftl (Z.land ld (Z.ones (hbit - lbit + 1))) lbit))
                      (Z.ones rbits)
               = Z.lor (Z.land lhsr (Z.lnot (Z.shiftl (Z.ones (hbit - lbit + 1)) lbit)))
                       (Z.shiftl (Z.land ld (Z.ones (hbit - lbit + 1))) lbit)).
  { apply Z.bits_inj'. intros i Hi.
    destruct (Z.lt_ge_cases i rbits) as [Hlt|Hge].
    - Z.bitblast_core; simpl_bool_bits.
    - rewrite Z.land_spec, !Z.lor_spec, !Z.land_spec, (Hlb i Hge). cbn [andb orb].
      Z.bitblast_core; simpl_bool_bits. }
  rewrite <- Ec. rewrite Z.land_ones by lia. apply Z.mod_pos_bound.
  apply Z.pow_pos_nonneg; lia.
Qed.


Lemma _vl_insert_QQ_val lhsr ld hbit lbit rbits :
  0 <= lbit <= hbit -> hbit < rbits <= 64 -> 0 <= lhsr < 2 ^ rbits ->
  _vl_insert_QQ lhsr ld hbit lbit rbits
  = Z.lor (Z.land lhsr (Z.lnot (Z.shiftl (Z.ones (hbit - lbit + 1)) lbit)))
          (Z.shiftl (Z.land ld (Z.ones (hbit - lbit + 1))) lbit) /\
  0 <= _vl_insert_QQ lhsr ld hbit lbit rbits < 2 ^ rbits.
Proof.
  intros Hlh Hr Hl. unfold _vl_insert_QQ. cbv zeta.
  rewrite !VL_MASK_Q_width by lia. unfold QData. rewrite !wrap_land, bnot_land by lia.
  assert (Hlb : forall i, rbits <= i -> Z.testbit lhsr i = false).
  { intros i Hi. apply (testbit_above lhsr rbits); assumption. }
  assert (E : Z.lor (Z.land lhsr (Z.land (Z.lnot (Z.land (Z.shiftl (Z.ones (hbit - lbit + 1)) lbit)
                                                       (Z.ones 64))) (Z.ones 64)))
                    (Z.land (Z.land (Z.shiftl ld lbit) (Z.ones 64))
                            (Z.land (Z.land (Z.shiftl (Z.ones (hbit - lbit + 1)) lbit)
                                            (Z.ones 64)) (Z.ones rbits)))
              = Z.lor (Z.land lhsr (Z.lnot (Z.shiftl (Z.ones (hbit - lbit + 1)) lbit)))
                      (Z.shiftl (Z.land ld (Z.ones (hbit - lbit + 1))) lbit)).
  { apply Z.bits_inj'. intros i Hi.
    destruct (Z.lt_ge_cases i rbits) as [Hlt|Hge].
    - Z.bitblast_core; simpl_bool_bits.
    - rewrite !Z.lor_spec, !Z.land_spec, (Hlb i Hge). cbn [andb orb].
      Z.bitblast_core; simpl_bool_bits. }
  rewrite E. split; [reflexivity |].
  assert (Ec : Z.land (Z.lor (Z.land lhsr (Z.lnot (Z.shiftl (Z.ones (hbit - lbit + 1)) lbit)))
                             (Z.shiftl (Z.land ld (Z.ones (hbit - lbit + 1))) lbit))
                      (Z.ones rbits)
               = Z.lor (Z.land lhsr (Z.lnot (Z.shiftl (Z.ones (hbit - lbit + 1)) lbit)))
                       (Z.shiftl (Z.land ld (Z.ones (hbit - lbit + 1))) lbit)).
  { apply Z.bits_inj'. intros i Hi.
    destruct (Z.lt_ge_cases i rbits) as [Hlt|Hge].
    - Z.bitblast_core; simpl_bool_bits.
    - rewrite Z.land_spec, !Z.lor_spec, !Z.land_spec, (Hlb i Hge). cbn [andb orb].
      Z.bitblast_core; simpl_bool_bits. }
  rewrite <- Ec. rewrite Z.land_ones by lia. apply Z.mod_pos_bound.
  apply Z.pow_pos_nonneg; lia.
Qed.

Lemma signed_compare_macros lbits (lwp rwp : WData) a b :
  _vl_cmps_w lbits lwp rwp = cmp3 a b ->
  VL_LTS_IWW lbits lwp rwp = (if a <? b then 1 else 0) /\
  VL_LTES_IWW lbits lwp rwp = (if a <=? b then 1 else 0) /\
  VL_GTS_IWW lbits lwp rwp = (if a >? b then 1 else 0) /\
  VL_GTES_IWW lbits lwp rwp = (if a >=? b then 1 else 0).
Proof.
  intros E. unfold VL_LTS_IWW, VL_LTES_IWW, VL_GTS_IWW, VL_GTES_IWW. rewrite E.
  rewrite cmp3_lt, cmp3_le, cmp3_gt, cmp3_ge. repeat split.
Qed.

(** ** Properties of the count of set bits, the wide insert and the routines built on it *)

(** X17: the count-ones routines return the number of set bits of their
    operand: of the 32 bits of a word, of the 64 bits of a quad, and of all
    the bits of a wide buffer of machine words. *)
Theorem countones_is_popcount (x words : Z) (lwp : WData) :
  (0 <= x < 2 ^ 32 -> VL_COUNTONES_I x = popcount 32 x) /\
  (0 <= x < 2 ^ 64 -> VL_COUNTONES_Q x = popcount 64 x) /\
  (0 <= words < 2 ^ 27 -> wide_words words lwp = true ->
   VL_COUNTONES_W words lwp
   = popcount (32 * Z.to_nat words) (wide_val (Z.to_nat words) 0 lwp)).
Proof.
  split; [|split].
  - apply VL_COUNTONES_I_val.
  - apply VL_COUNTONES_Q_val.
  - intros Hw Hr. apply VL_COUNTONES_W_val; [exact Hw|].
    apply (wide_words_range words lwp Hr).
Qed.

Lemma countones_is_popcount_witness :
  VL_COUNTONES_W 2 (wide [0xf0f01234; 0x80000001])
  = popcount 64 (wide_val 2 0 (wide [0xf0f01234; 0x80000001])).
Proof.
  exact (proj2 (proj2 (countones_is_popcount 0 2 (wide [0xf0f01234; 0x80000001])))
           ltac:(lia) ltac:(vm_compute; reflexivity)).
Defined.

(** X18: the one-hot tests agree with the count of set bits: one-hot
    answers 1 exactly when the count is 1, one-hot-or-zero exactly when the
    count is at most 1, for a word, a quad and a wide buffer; and the count
    of a word is 0 only for 0. *)
Theorem onehot_agrees_with_countones (x words : Z) (lwp : WData) :
  (0 <= x < 2 ^ 32 ->
   (VL_ONEHOT_I x = 1 <-> VL_COUNTONES_I x = 1) /\
   (VL_ONEHOT0_I x = 1 <-> VL_COUNTONES_I x <= 1) /\
   (VL_COUNTONES_I x = 0 <-> x = 0)) /\
  (0 <= x < 2 ^ 64 ->
   (VL_ONEHOT_Q x = 1 <-> VL_COUNTONES_Q x = 1) /\
   (VL_ONEHOT0_Q x = 1 <-> VL_COUNTONES_Q x <= 1) /\
   (VL_COUNTONES_Q x = 0 <-> x = 0)) /\
  (0 <= words < 2 ^ 27 -> wide_words words lwp = true ->
   (VL_ONEHOT_W words lwp = 1 <-> VL_COUNTONES_W words lwp = 1) /\
   (VL_ONEHOT_W words lwp = 0 \/ VL_ONEHOT_W words lwp = 1) /\
   (VL_ONEHOT0_W words lwp = 1 <-> VL_COUNTONES_W words lwp <= 1) /\
   (VL_ONEHOT0_W words lwp = 0 \/ VL_ONEHOT0_W words lwp = 1)).
Proof.
  split; [|split].
  - intros Hx. rewrite VL_COUNTONES_I_val by exact Hx.
    pose proof (land_pred_zero 32 x ltac:(lia) Hx) as H.
    pose proof (popcount_one_iff 32 x Hx) as H1.
    pose proof (popcount_zero_iff 32 x Hx) as H0.
    pose proof (popcount_range 32 x) as Hp.
    assert (Hle : popcount 32 x <= 1 <-> popcount 32 x = 0 \/ popcount 32 x = 1) by lia.
    unfold VL_ONEHOT_I, VL_ONEHOT0_I, IData.
    destruct (Z.eqb_spec (Z.land x (wrap 32 (x - 1))) 0) as [E|E];
      destruct (Z.eqb_spec x 0) as [E0|E0]; cbn [Z.land Pos.land];
      intuition (auto; try discriminate; try lia).
  - intros Hx. rewrite VL_COUNTONES_Q_val by exact Hx.
    pose proof (land_pred_zero 64 x ltac:(lia) Hx) as H.
    pose proof (popcount_one_iff 64 x Hx) as H1.
    pose proof (popcount_zero_iff 64 x Hx) as H0.
    pose proof (popcount_range 64 x) as Hp.
    assert (Hle : popcount 64 x <= 1 <-> popcount 64 x = 0 \/ popcount 64 x = 1) by lia.
    unfold VL_ONEHOT_Q, VL_ONEHOT0_Q, QData.
    destruct (Z.eqb_spec (Z.land x (wrap 64 (x - 1))) 0) as [E|E];
      destruct (Z.eqb_spec x 0) as [E0|E0]; cbn [Z.land Pos.land];
      intuition (auto; try discriminate; try lia).
  - intros Hw Hr. pose proof (wide_words_range words lwp Hr) as Hr'.
    rewrite VL_COUNTONES_W_val by assumption.
    unfold VL_ONEHOT_W, VL_ONEHOT0_W.
    assert (Hk : forall k, 0 <= k < 0 + Z.of_nat (Z.to_nat words) -> 0 <= word lwp k < 2 ^ 32)
      by (intros k Hk; apply Hr'; lia).
    destruct (VL_ONEHOT_W_loop_val (Z.to_nat words) 0 lwp 0 Hk ltac:(lia)) as [A1 A2].
    destruct (VL_ONEHOT0_W_loop_val (Z.to_nat words) 0 lwp false Hk) as [B1 B2].
    cbn [Z.b2z] in B2. rewrite Z.add_0_l in A2, B2.
    repeat split; try tauto; try apply A2; try apply B2.
Qed.

Lemma onehot_agrees_with_countones_witness :
  VL_ONEHOT_W 3 (wide [0; 0x00010000; 0]) = 1
  <-> VL_COUNTONES_W 3 (wide [0; 0x00010000; 0]) = 1.
Proof.
  exact (proj1 (proj2 (proj2 (onehot_agrees_with_countones 0 3 (wide [0; 0x00010000; 0])))
                 ltac:(lia) ltac:(vm_compute; reflexivity))).
Defined.

(** X19: inserting a wide source at [hbit:lbit] inside a [W]-bit
    destination replaces exactly bits [hbit:lbit] of the integer held by
    the destination with the low bits of the integer held by the source,
    and leaves every other bit as it was; whole-word, word-aligned and
    unaligned ranges alike, with the destination width passed or left at
    its default 0. *)
Theorem wide_insert_replaces_range (W : Z) (iowp lwp : WData) (hbit lbit : Z) :
  0 <= lbit <= hbit -> hbit < W ->
  wide_words (VL_WORDS_I W) iowp = true ->
  wide_words (VL_WORDS_I (hbit - lbit + 1)) lwp = true ->
  let v := wide_val (Z.to_nat (VL_WORDS_I W)) 0 iowp in
  let s := wide_val (Z.to_nat (VL_WORDS_I (hbit - lbit + 1))) 0 lwp in
  let r := Z.lor (Z.land v (Z.lnot (Z.shiftl (Z.ones (hbit - lbit + 1)) lbit)))
                 (Z.shiftl (Z.land s (Z.ones (hbit - lbit + 1))) lbit) in
  wide_val (Z.to_nat (VL_WORDS_I W)) 0 (_vl_insert_WW iowp lwp hbit lbit W) = r /\
  wide_val (Z.to_nat (VL_WORDS_I W)) 0 (_vl_insert_WW iowp lwp hbit lbit 0) = r.
Proof.
  intros Hlh HW Hi Hl v s r.
  pose proof (wide_words_range _ _ Hi) as Hir. pose proof (wide_words_range _ _ Hl) as Hlr.
  pose proof (top_bits_range W ltac:(lia)) as Ht.
  split; apply _vl_insert_WW_val; try assumption; lia.
Qed.

Lemma wide_insert_replaces_range_witness :
  wide_val 4 0 (_vl_insert_WW (wide [0xffffffff; 0xffffffff; 0xffffffff; 0xf])
                  (wide [0x12345678; 0x1ab]) 89 50 100)
  = Z.lor (Z.land (wide_val 4 0 (wide [0xffffffff; 0xffffffff; 0xffffffff; 0xf]))
                  (Z.lnot (Z.shiftl (Z.ones (89 - 50 + 1)) 50)))
          (Z.shiftl (Z.land (wide_val 2 0 (wide [0x12345678; 0x1ab]))
                            (Z.ones (89 - 50 + 1))) 50).
Proof.
  exact (proj1 (wide_insert_replaces_range 100
                  (wide [0xffffffff; 0xffffffff; 0xffffffff; 0xf])
                  (wide [0x12345678; 0x1ab]) 89 50
                  ltac:(lia) ltac:(lia) ltac:(vm_compute; reflexivity)
                  ltac:(vm_compute; reflexivity))).
Defined.

(** X20: the wide left shift by any amount [rd] holds, modulo 2^obits, the
    integer of the operand times 2^rd, whichever of the three paths
    (everything shifted out, whole words, insert at an unaligned offset)
    runs. *)
Theorem wide_shift_left_value (obits lbits rbits rd : Z) (owp lwp : WData) :
  1 <= obits < 2 ^ 31 -> 0 <= rd < 2 ^ 32 ->
  wide_words (VL_WORDS_I obits) lwp = true ->
  wide_val (Z.to_nat (VL_WORDS_I obits)) 0 (VL_SHIFTL_WWI obits lbits rbits owp lwp rd)
    mod 2 ^ obits
  = (wide_val (Z.to_nat (VL_WORDS_I obits)) 0 lwp * 2 ^ rd) mod 2 ^ obits.
Proof.
  intros Ho Hrd Hl. apply VL_SHIFTL_WWI_val; try assumption.
  apply wide_words_range. exact Hl.
Qed.

Lemma wide_shift_left_value_witness :
  wide_val 3 0 (VL_SHIFTL_WWI 70 70 32 (wide [9; 9; 9]) (wide [0x80000001; 2; 0x20]) 37)
    mod 2 ^ 70
  = (wide_val 3 0 (wide [0x80000001; 2; 0x20]) * 2 ^ 37) mod 2 ^ 70.
Proof.
  exact (wide_shift_left_value 70 70 32 37 (wide [9; 9; 9]) (wide [0x80000001; 2; 0x20])
           ltac:(lia) ltac:(lia) ltac:(vm_compute; reflexivity)).
Defined.



(** X22: the ceiling logarithm. With fuel for the word's 32 (64) bits the
    shift loop of the narrow variants terminates and the result is
    ceil(log2 x), 0 for x = 0 and for x = 1; the wide variant, which scans
    for the most significant set bit and adds 1 unless exactly one bit is
    set, returns ceil(log2) of the integer held by the buffer; and the
    most-set-bit routine returns the position of the most significant set
    bit plus one, 0 for the integer 0. *)
Theorem clog2_value (fuel : nat) (x words : Z) (lwp : WData) :
  (32 <= Z.of_nat fuel -> 0 <= x < 2 ^ 32 -> VL_CLOG2_I fuel x = Some (Z.log2_up x)) /\
  (64 <= Z.of_nat fuel -> 0 <= x < 2 ^ 64 -> VL_CLOG2_Q fuel x = Some (Z.log2_up x)) /\
  (0 <= words < 2 ^ 26 -> wide_words words lwp = true ->
   VL_CLOG2_W words lwp = Z.log2_up (wide_val (Z.to_nat words) 0 lwp) /\
   VL_MOSTSETBITP1_W words lwp
   = if wide_val (Z.to_nat words) 0 lwp =? 0 then 0
     else Z.log2 (wide_val (Z.to_nat words) 0 lwp) + 1).
Proof.
  split; [| split].
  - intros Hf Hx. unfold VL_CLOG2_I. destruct (Z.eqb_spec x 0) as [->|Hne]; [reflexivity |].
    cbv zeta. apply (clog2_val 32); lia.
  - intros Hf Hx. unfold VL_CLOG2_Q. destruct (Z.eqb_spec x 0) as [->|Hne]; [reflexivity |].
    cbv zeta. apply (clog2_val 64); lia.
  - intros Hw Hl. pose proof (wide_words_range _ _ Hl) as Hr. split.
    + apply VL_CLOG2_W_val; assumption.
    + apply VL_MOSTSETBITP1_W_val; assumption.
Qed.

Lemma clog2_value_witness :
  VL_CLOG2_W 3 (wide [0; 0x00010001; 0]) = Z.log2_up (wide_val 3 0 (wide [0; 0x00010001; 0])).
Proof.
  exact (proj1 (proj2 (proj2 (clog2_value 0 0 3 (wide [0; 0x00010001; 0])))
                 ltac:(lia) ltac:(vm_compute; reflexivity))).
Defined.

(** X23: sign extension of a clean [lbits]-bit value to [obits] bits
    holds, over the words of the output, the two's-complement reading of
    the operand modulo 2^(32*words(obits)), for a wide operand, a word
    (lbits <= 32) and a quad (33 <= lbits <= 64); the output's top word is
    filled with ones above [obits] when the operand is negative (dirty). *)
Theorem wide_sign_extension_value (obits lbits ld : Z) (owp lwp : WData) :
  1 <= lbits <= obits ->
  (wide_words (VL_WORDS_I lbits) lwp = true -> wide_clean lbits lwp = true ->
   wide_val (Z.to_nat (VL_WORDS_I obits)) 0 (VL_EXTENDS_WW obits lbits owp lwp)
   = signed_val lbits (wide_val (Z.to_nat (VL_WORDS_I lbits)) 0 lwp)
     mod 2 ^ (32 * VL_WORDS_I obits)) /\
  (lbits <= 32 -> 0 <= ld < 2 ^ lbits ->
   wide_val (Z.to_nat (VL_WORDS_I obits)) 0 (VL_EXTENDS_WI obits lbits owp ld)
   = signed_val lbits ld mod 2 ^ (32 * VL_WORDS_I obits)) /\
  (33 <= lbits <= 64 -> 0 <= ld < 2 ^ lbits ->
   wide_val (Z.to_nat (VL_WORDS_I obits)) 0 (VL_EXTENDS_WQ obits lbits owp ld)
   = signed_val lbits ld mod 2 ^ (32 * VL_WORDS_I obits)).
Proof.
  intros H. split; [| split].
  - intros Hl Hc. apply VL_EXTENDS_WW_val; [exact H | apply wide_words_range, Hl | exact Hc].
  - intros Hl Hld. apply VL_EXTENDS_WI_val; [lia | lia | exact Hld].
  - intros Hl Hld. apply VL_EXTENDS_WQ_val; [lia | lia | exact Hld].
Qed.

Lemma wide_sign_extension_value_witness :
  wide_val 4 0 (VL_EXTENDS_WW 100 70 (wide [9; 9; 9; 9]) (wide [1; 2; 0x20]))
  = signed_val 70 (wide_val 3 0 (wide [1; 2; 0x20])) mod 2 ^ (32 * 4).
Proof.
  exact (proj1 (wide_sign_extension_value 100 70 0 (wide [9; 9; 9; 9]) (wide [1; 2; 0x20])
                  ltac:(lia))
           ltac:(vm_compute; reflexivity) ltac:(vm_compute; reflexivity)).
Defined.

(** X24: a range select that lies inside the declared width returns, in
    its low [width] bits, bits [lsb + width - 1 : lsb] of the integer held
    by the source: the 32-bit, the 64-bit and the wide variant (whose result
    is taken modulo 2^width); and a bit select inside the width returns that
    bit in bit 0. The bits above [width] are dirty. *)
Theorem select_in_range (lbits lsb width : Z) (owp lwp : WData) :
  0 <= lsb -> lbits < 2 ^ 31 ->
  wide_words (VL_WORDS_I lbits) lwp = true ->
  (1 <= width <= 32 -> lsb + width <= lbits ->
   Z.land (VL_SEL_IWII lbits lwp lsb width) (Z.ones width)
   = Z.land (Z.shiftr (wide_val (Z.to_nat (VL_WORDS_I lbits)) 0 lwp) lsb) (Z.ones width)) /\
  (lsb < lbits ->
   Z.land (VL_BITSEL_IWII lbits lwp lsb) 1
   = Z.b2z (Z.testbit (wide_val (Z.to_nat (VL_WORDS_I lbits)) 0 lwp) lsb)) /\
  (1 <= width <= 64 -> lsb + width <= lbits ->
   Z.land (VL_SEL_QWII lbits lwp lsb width) (Z.ones width)
   = Z.land (Z.shiftr (wide_val (Z.to_nat (VL_WORDS_I lbits)) 0 lwp) lsb) (Z.ones width)) /\
  (1 <= width -> lsb + width <= lbits ->
   wide_val (Z.to_nat (VL_WORDS_I width)) 0 (VL_SEL_WWII width lbits owp lwp lsb width)
     mod 2 ^ width
   = Z.shiftr (wide_val (Z.to_nat (VL_WORDS_I lbits)) 0 lwp) lsb mod 2 ^ width).
Proof.
  intros Hlsb Hlb Hl. pose proof (wide_words_range _ _ Hl) as Hlr.
  split; [| split; [| split]].
  - intros Hw Hin. apply VL_SEL_IWII_val; assumption.
  - intros Hin. apply VL_BITSEL_IWII_val; [lia | lia | exact Hlr].
  - intros Hw Hin. apply VL_SEL_QWII_val; assumption.
  - intros Hw Hin. apply VL_SEL_WWII_val; assumption.
Qed.

Lemma select_in_range_witness :
  wide_val 2 0 (VL_SEL_WWII 40 100 (wide [9; 9]) (wide [0; 0xc0000000; 0x12345675; 0xf]) 59 40)
    mod 2 ^ 40
  = Z.shiftr (wide_val 4 0 (wide [0; 0xc0000000; 0x12345675; 0xf])) 59 mod 2 ^ 40.
Proof.
  exact (proj2 (proj2 (proj2
                  (select_in_range 100 59 40 (wide [9; 9])
                     (wide [0; 0xc0000000; 0x12345675; 0xf])
                     ltac:(lia) ltac:(lia) ltac:(vm_compute; reflexivity))))
           ltac:(lia) ltac:(lia)).
Defined.

(** X25: the concatenation of a clean left operand with a clean right
    operand holds left * 2^rbits + right over the words of the output, for
    a word or a wide buffer on either side; the value is below
    2^(lbits + rbits), so the output is clean. *)
Theorem concat_value (obits lbits rbits ld rd : Z) (owp lwp rwp : WData) :
  1 <= lbits -> 1 <= rbits -> lbits + rbits <= obits ->
  (lbits <= 32 -> 0 <= ld < 2 ^ lbits -> rbits <= 32 -> 0 <= rd < 2 ^ rbits ->
   wide_val (Z.to_nat (VL_WORDS_I obits)) 0 (VL_CONCAT_WII obits lbits rbits owp ld rd)
   = ld * 2 ^ rbits + rd) /\
  (lbits <= 32 -> 0 <= ld < 2 ^ lbits ->
   wide_words (VL_WORDS_I rbits) rwp = true -> wide_clean rbits rwp = true ->
   wide_val (Z.to_nat (VL_WORDS_I obits)) 0 (VL_CONCAT_WIW obits lbits rbits owp ld rwp)
   = ld * 2 ^ rbits + wide_val (Z.to_nat (VL_WORDS_I rbits)) 0 rwp /\
   ld * 2 ^ rbits + wide_val (Z.to_nat (VL_WORDS_I rbits)) 0 rwp < 2 ^ (lbits + rbits)) /\
  (wide_words (VL_WORDS_I lbits) lwp = true -> wide_clean lbits lwp = true ->
   rbits <= 32 -> 0 <= rd < 2 ^ rbits ->
   wide_val (Z.to_nat (VL_WORDS_I obits)) 0 (VL_CONCAT_WWI obits lbits rbits owp lwp rd)
   = wide_val (Z.to_nat (VL_WORDS_I lbits)) 0 lwp * 2 ^ rbits + rd) /\
  (wide_words (VL_WORDS_I lbits) lwp = true -> wide_clean lbits lwp = true ->
   wide_words (VL_WORDS_I rbits) rwp = true -> wide_clean rbits rwp = true ->
   wide_val (Z.to_nat (VL_WORDS_I obits)) 0 (VL_CONCAT_WWW obits lbits rbits owp lwp rwp)
   = wide_val (Z.to_nat (VL_WORDS_I lbits)) 0 lwp * 2 ^ rbits
     + wide_val (Z.to_nat (VL_WORDS_I rbits)) 0 rwp).
Proof.
  intros Hl Hr Ho. split; [| split; [| split]].
  - intros Hl32 Hld Hr32 Hrd. apply VL_CONCAT_WII_val; try assumption; lia.
  - intros Hl32 Hld Hw Hc. pose proof (wide_words_range _ _ Hw) as Hrr. split.
    + apply VL_CONCAT_WIW_val; try assumption; lia.
    + pose proof (wide_val_clean_range rbits rwp ltac:(lia) Hrr Hc) as Hv.
      rewrite Z.pow_add_r by lia. nia.
  - intros Hw Hc Hr32 Hrd. pose proof (wide_words_range _ _ Hw) as Hlr.
    apply VL_CONCAT_WWI_val; try assumption; try lia.
    apply wide_val_clean_range; assumption.
  - intros Hw Hc Hw' Hc'. pose proof (wide_words_range _ _ Hw) as Hlr.
    pose proof (wide_words_range _ _ Hw') as Hrr.
    apply VL_CONCAT_WWW_val; try assumption; apply wide_val_clean_range; assumption.
Qed.

Lemma concat_value_witness :
  wide_val 4 0 (VL_CONCAT_WWW 100 40 60 (wide [9; 9; 9; 9]) (wide [0x12345678; 0xab])
                  (wide [0x9abcdef0; 0x0fffffff]))
  = wide_val 2 0 (wide [0x12345678; 0xab]) * 2 ^ 60
    + wide_val 2 0 (wide [0x9abcdef0; 0x0fffffff]).
Proof.
  exact (proj2 (proj2 (proj2
                  (concat_value 100 40 60 0 0 (wide [9; 9; 9; 9]) (wide [0x12345678; 0xab])
                     (wide [0x9abcdef0; 0x0fffffff]) ltac:(lia) ltac:(lia) ltac:(lia))))
           ltac:(vm_compute; reflexivity) ltac:(vm_compute; reflexivity)
           ltac:(vm_compute; reflexivity) ltac:(vm_compute; reflexivity)).
Defined.

(** X26: replicating a clean [lbits]-bit field [rep >= 1] times lays
    [rep] copies end to end: the narrow variant (the copies fit a word),
    the wide variant of a word field and the wide variant of a wide field
    all hold the sum of field * 2^(i*lbits) for i < rep. *)
Theorem replicate_value (lbits ld rep : Z) (owp lwp : WData) :
  1 <= lbits -> 1 <= rep ->
  (0 <= ld < 2 ^ lbits -> lbits * rep <= 32 ->
   VL_REPLICATE_III lbits ld rep = replicate_val (Z.to_nat rep) lbits ld) /\
  (0 <= ld < 2 ^ lbits -> lbits <= 32 -> lbits * rep < 2 ^ 31 ->
   wide_val (Z.to_nat (VL_WORDS_I (lbits * rep))) 0 (VL_REPLICATE_WII lbits owp ld rep)
   = replicate_val (Z.to_nat rep) lbits ld) /\
  (wide_words (VL_WORDS_I lbits) lwp = true -> wide_clean lbits lwp = true ->
   lbits * rep < 2 ^ 31 ->
   wide_val (Z.to_nat (VL_WORDS_I (lbits * rep))) 0 (VL_REPLICATE_WWI lbits owp lwp rep)
   = replicate_val (Z.to_nat rep) lbits (wide_val (Z.to_nat (VL_WORDS_I lbits)) 0 lwp)).
Proof.
  intros Hl Hrep. split; [| split].
  - intros Hld Hfit. apply VL_REPLICATE_III_val; assumption.
  - intros Hld Hl32 Hfit. apply VL_REPLICATE_WII_val; try assumption. lia.
  - intros Hw Hc Hfit. pose proof (wide_words_range _ _ Hw) as Hlr.
    apply VL_REPLICATE_WWI_val; try assumption.
    apply wide_val_clean_range; assumption.
Qed.

Lemma replicate_value_witness :
  wide_val 4 0 (VL_REPLICATE_WWI 40 (wide [9; 9; 9; 9]) (wide [0x12345678; 0xab]) 3)
  = replicate_val 3 40 (wide_val 2 0 (wide [0x12345678; 0xab])).
Proof.
  exact (proj2 (proj2 (replicate_value 40 0 3 (wide [9; 9; 9; 9]) (wide [0x12345678; 0xab])
                         ltac:(lia) ltac:(lia)))
           ltac:(vm_compute; reflexivity) ltac:(vm_compute; reflexivity) ltac:(lia)).
Defined.

(** X27: copies and zero extension on the integer value. The plain copy
    holds the integer of the source; the cleaning copy holds it modulo
    2^obits and is clean; zero extension to a buffer of [obits >= lbits]
    bits keeps the integer of a wide operand, of a word and of a quad: the
    words above the operand are zeroed. *)
Theorem copy_and_zero_extension_values (obits lbits ld : Z) (owp lwp : WData) :
  wide_val (Z.to_nat (VL_WORDS_I obits)) 0 (VL_ASSIGN_W obits owp lwp)
  = wide_val (Z.to_nat (VL_WORDS_I obits)) 0 lwp /\
  (1 <= obits -> wide_words (VL_WORDS_I obits) lwp = true ->
   wide_val (Z.to_nat (VL_WORDS_I obits)) 0 (VL_CLEAN_WW obits owp lwp)
   = wide_val (Z.to_nat (VL_WORDS_I obits)) 0 lwp mod 2 ^ obits /\
   wide_clean obits (VL_CLEAN_WW obits owp lwp) = true) /\
  (1 <= lbits <= obits ->
   wide_val (Z.to_nat (VL_WORDS_I obits)) 0 (VL_EXTEND_WW obits lbits owp lwp)
   = wide_val (Z.to_nat (VL_WORDS_I lbits)) 0 lwp) /\
  (1 <= obits -> 0 <= ld < 2 ^ 32 ->
   wide_val (Z.to_nat (VL_WORDS_I obits)) 0 (VL_EXTEND_WI obits lbits owp ld) = ld) /\
  (33 <= obits -> 0 <= ld < 2 ^ 64 ->
   wide_val (Z.to_nat (VL_WORDS_I obits)) 0 (VL_EXTEND_WQ obits lbits owp ld) = ld).
Proof.
  split; [| split; [| split; [| split]]].
  - apply VL_ASSIGN_W_val.
  - intros Ho Hl. apply VL_CLEAN_WW_val; [exact Ho | apply wide_words_range, Hl].
  - intros H. apply VL_EXTEND_WW_val. exact H.
  - apply VL_EXTEND_WI_val.
  - apply VL_EXTEND_WQ_val.
Qed.

Lemma copy_and_zero_extension_values_witness :
  wide_val 3 0 (VL_CLEAN_WW 70 (wide [9; 9; 9]) (wide [1; 2; 0xffffffff]))
  = wide_val 3 0 (wide [1; 2; 0xffffffff]) mod 2 ^ 70.
Proof.
  exact (proj1 (proj1 (proj2 (copy_and_zero_extension_values 70 70 0 (wide [9; 9; 9])
                                (wide [1; 2; 0xffffffff])))
                  ltac:(lia) ltac:(vm_compute; reflexivity))).
Defined.

(** X28: the arithmetic right shift of a clean [W]-bit value by any
    amount [k >= 0] is the floor division of its two's-complement reading
    by 2^k, wrapped to [W] bits (the result is clean): for a word, a quad
    and a wide buffer, on every path of the wide routine (everything
    shifted out, whole words, funnel with sign fill). *)
Theorem arith_shift_right_value (W rbits x k : Z) (owp lwp : WData) :
  0 <= k ->
  (0 <= x < 2 ^ W -> 1 <= W <= 32 ->
   VL_SHIFTRS_III W W rbits x k = wrap W (Z.shiftr (signed_val W x) k)) /\
  (0 <= x < 2 ^ W -> 1 <= W <= 64 ->
   VL_SHIFTRS_QQI W W rbits x k = wrap W (Z.shiftr (signed_val W x) k)) /\
  (1 <= W < 2 ^ 31 -> wide_words (VL_WORDS_I W) lwp = true -> wide_clean W lwp = true ->
   wide_val (Z.to_nat (VL_WORDS_I W)) 0 (VL_SHIFTRS_WWI W W rbits owp lwp k)
   = wrap W (Z.shiftr (signed_val W (wide_val (Z.to_nat (VL_WORDS_I W)) 0 lwp)) k)).
Proof.
  intros Hk. split; [| split].
  - intros Hx HW. apply VL_SHIFTRS_III_val; assumption.
  - intros Hx HW. apply VL_SHIFTRS_QQI_val; assumption.
  - intros HW Hl Hc. unfold wrap. apply VL_SHIFTRS_WWI_val; try assumption.
    apply wide_words_range. exact Hl.
Qed.

Lemma arith_shift_right_value_witness :
  wide_val 3 0 (VL_SHIFTRS_WWI 70 70 32 (wide [9; 9; 9]) (wide [1; 2; 0x20]) 37)
  = wrap 70 (Z.shiftr (signed_val 70 (wide_val 3 0 (wide [1; 2; 0x20]))) 37).
Proof.
  exact (proj2 (proj2 (arith_shift_right_value 70 32 0 37 (wide [9; 9; 9]) (wide [1; 2; 0x20])
                         ltac:(lia)))
           ltac:(lia) ltac:(vm_compute; reflexivity) ltac:(vm_compute; reflexivity)).
Defined.

(** X29: on clean operands of width [W] the signed wide comparison orders
    the two's-complement readings of the operands: a set sign bit sorts
    below a clear one, and equal signs fall back to the unsigned order; the
    four signed ordering macros agree with it. *)
Theorem wide_compare_signed (W : Z) (lwp rwp : WData) :
  1 <= W ->
  wide_words (VL_WORDS_I W) lwp = true -> wide_clean W lwp = true ->
  wide_words (VL_WORDS_I W) rwp = true -> wide_clean W rwp = true ->
  let a := signed_val W (wide_val (Z.to_nat (VL_WORDS_I W)) 0 lwp) in
  let b := signed_val W (wide_val (Z.to_nat (VL_WORDS_I W)) 0 rwp) in
  _vl_cmps_w W lwp rwp = cmp3 a b /\
  VL_LTS_IWW W lwp rwp = (if a <? b then 1 else 0) /\
  VL_LTES_IWW W lwp rwp = (if a <=? b then 1 else 0) /\
  VL_GTS_IWW W lwp rwp = (if a >? b then 1 else 0) /\
  VL_GTES_IWW W lwp rwp = (if a >=? b then 1 else 0).
Proof.
  intros HW Hl Hlc Hr Hrc a b.
  assert (E : _vl_cmps_w W lwp rwp = cmp3 a b).
  { apply _vl_cmps_w_val; try assumption; apply wide_words_range; assumption. }
  split; [exact E |]. apply signed_compare_macros. exact E.
Qed.

Lemma wide_compare_signed_witness :
  VL_LTS_IWW 70 (wide [0; 0; 0x20]) (wide [5; 0; 0])
  = if signed_val 70 (wide_val 3 0 (wide [0; 0; 0x20]))
       <? signed_val 70 (wide_val 3 0 (wide [5; 0; 0])) then 1 else 0.
Proof.
  exact (proj1 (proj2 (wide_compare_signed 70 (wide [0; 0; 0x20]) (wide [5; 0; 0])
                         ltac:(lia) ltac:(vm_compute; reflexivity)
                         ltac:(vm_compute; reflexivity) ltac:(vm_compute; reflexivity)
                         ltac:(vm_compute; reflexivity)))).
Defined.

(** X30: an insert at [hbit:lbit] inside a [W]-bit destination replaces
    exactly bits [hbit:lbit] of the destination with the low bits of [ld]
    and leaves every other bit as it was: for a wide destination and a
    field of at most 32 bits (with the destination width passed or left at
    its default 0), and for a clean word or quad destination, whose result
    is clean again. *)
Theorem insert_replaces_range (W : Z) (iowp : WData) (lhsr ld hbit lbit : Z) :
  0 <= lbit <= hbit -> hbit < W ->
  (hbit - lbit < 32 -> wide_words (VL_WORDS_I W) iowp = true ->
   let v := wide_val (Z.to_nat (VL_WORDS_I W)) 0 iowp in
   let r := Z.lor (Z.land v (Z.lnot (Z.shiftl (Z.ones (hbit - lbit + 1)) lbit)))
                  (Z.shiftl (Z.land ld (Z.ones (hbit - lbit + 1))) lbit) in
   wide_val (Z.to_nat (VL_WORDS_I W)) 0 (_vl_insert_WI iowp ld hbit lbit W) = r /\
   wide_val (Z.to_nat (VL_WORDS_I W)) 0 (_vl_insert_WI iowp ld hbit lbit 0) = r) /\
  (W <= 32 -> 0 <= lhsr < 2 ^ W ->
   _vl_insert_II lhsr ld hbit lbit W
   = Z.lor (Z.land lhsr (Z.lnot (Z.shiftl (Z.ones (hbit - lbit + 1)) lbit)))
           (Z.shiftl (Z.land ld (Z.ones (hbit - lbit + 1))) lbit) /\
   0 <= _vl_insert_II lhsr ld hbit lbit W < 2 ^ W) /\
  (W <= 64 -> 0 <= lhsr < 2 ^ W ->
   _vl_insert_QQ lhsr ld hbit lbit W
   = Z.lor (Z.land lhsr (Z.lnot (Z.shiftl (Z.ones (hbit - lbit + 1)) lbit)))
           (Z.shiftl (Z.land ld (Z.ones (hbit - lbit + 1))) lbit) /\
   0 <= _vl_insert_QQ lhsr ld hbit lbit W < 2 ^ W).
Proof.
  intros Hlh HW. split; [| split].
  - intros Hw Hl v r. pose proof (wide_words_range _ _ Hl) as Hlr.
    pose proof (top_bits_range W ltac:(lia)) as Ht.
    split; apply _vl_insert_WI_val; try assumption; lia.
  - intros HW32 Hx. apply _vl_insert_II_val; [exact Hlh | lia | exact Hx].
  - intros HW64 Hx. apply _vl_insert_QQ_val; [exact Hlh | lia | exact Hx].
Qed.

Lemma insert_replaces_range_witness :
  wide_val 4 0 (_vl_insert_WI (wide [0xffffffff; 0xffffffff; 0xffffffff; 0xf]) 0x5 66 60 100)
  = Z.lor (Z.land (wide_val 4 0 (wide [0xffffffff; 0xffffffff; 0xffffffff; 0xf]))
                  (Z.lnot (Z.shiftl (Z.ones (66 - 60 + 1)) 60)))
          (Z.shiftl (Z.land 0x5 (Z.ones (66 - 60 + 1))) 60).
Proof.
  exact (proj1 (proj1 (insert_replaces_range 100
                         (wide [0xffffffff; 0xffffffff; 0xffffffff; 0xf])
                         0 0x5 66 60 ltac:(lia) ltac:(lia))
                  ltac:(lia) ltac:(vm_compute; reflexivity))).
Defined.
